(** * BusTub storage core: LRU-K replacer, buffer pool manager, persistent trie

    A shallow embedding of
      - [src/buffer/lru_k_replacer.cpp]      (module [Replacer]),
      - [src/primer/trie.cpp], the second, complete implementation
                                             (module [PTrie]),
      - [src/buffer/buffer_pool_manager.cpp] (module [Pool]),
    followed by the properties of the three components
    (modules [ReplacerFacts], [PTrieFacts], [PoolFacts]).

    Conventions.
      - [size_t] is a 64-bit unsigned integer: a [Z] reduced by [wrap64]
        after every increment and decrement.
      - [frame_id_t] and [page_id_t] are 32-bit signed integers: a [Z];
        [static_cast<frame_id_t>] of a [size_t] is [to_frame_id_t]. The pin
        count of a frame is an [int] that the code never lets overflow in a
        run of feasible length; it is a [Z].
      - [std::unordered_map] is a [gmap]; [std::list] is a [list] whose head
        is [front()].
      - An operation that can stop at a [BUSTUB_ASSERT] or at a [throw]
        returns a [result]: the value and the state, or the failure and the
        state at the point of failure. Indexing [pages_] outside the pool
        is a failure of its own.
      - The mutexes are not modelled: every operation holds its latch from
        beginning to end, so the operations are atomic steps. *)

From Stdlib Require Import ZArith Lia Bool Ascii String.
From stdpp Require Import base option list gmap fin_maps strings sorting.

Local Open Scope Z_scope.
Set Warnings "-clear-no-such-hyp,-register-all".

(* ===================================================================== *)
(** * Outcomes of fallible, stateful operations                            *)
(* ===================================================================== *)

Inductive failure : Type :=
| AssertionFailure    (* BUSTUB_ASSERT(expr, msg) with expr false: abort *)
| ExceptionThrown     (* throw Exception(...) *)
| UndefinedBehaviour. (* an array indexed outside its bounds *)

Inductive result (S A : Type) : Type :=
| Ret (a : A) (s : S)
| Fail (e : failure) (s : S).

Arguments Ret {S A} a s.
Arguments Fail {S A} e s.

Definition M (S A : Type) : Type := S -> result S A.

Definition mret {S A} (a : A) : M S A := fun s => Ret a s.

Definition mbind {S A B} (m : M S A) (f : A -> M S B) : M S B :=
  fun s => match m s with
           | Ret a s' => f a s'
           | Fail e s' => Fail e s'
           end.

Definition mget {S} : M S S := fun s => Ret s s.
Definition mmodify {S} (f : S -> S) : M S unit := fun s => Ret tt (f s).

Declare Scope m_scope.
Delimit Scope m_scope with M.
Notation "x <- c1 ;; c2" := (mbind c1 (fun x => c2))
  (at level 100, c1 at next level, right associativity) : m_scope.
Notation "c1 ;;; c2" := (mbind c1 (fun _ => c2))
  (at level 100, right associativity) : m_scope.

(** Run a computation of a component inside the state of its owner. *)
Definition zoom {S T A} (proj : S -> T) (upd : T -> S -> S) (m : M T A) : M S A :=
  fun s => match m (proj s) with
           | Ret a t => Ret a (upd t s)
           | Fail e t => Fail e (upd t s)
           end.

(* ===================================================================== *)
(** * Machine integers                                                     *)
(* ===================================================================== *)

Definition wrap64 (z : Z) : Z := z mod 2 ^ 64.

(** [static_cast<frame_id_t>(n)] for a [size_t] [n]: reduction to the
    signed 32-bit range. *)
Definition to_frame_id_t (n : Z) : Z := (n + 2 ^ 31) mod 2 ^ 32 - 2 ^ 31.

(* ===================================================================== *)
(** * LRU-K replacer                                                       *)
(* ===================================================================== *)

Module Replacer.

(** Modelled from the spec: class [LRUKNode] is declared in
    [buffer/lru_k_replacer.h], which is not among the sources; only
    [add_timestamp] is defined in the .cpp file. The fields are those the
    spec lists (frame id, bounded history oldest first, evictable flag);
    [get_access_count] is the length of the history (the spec's count
    saturating at K), [get_least_recent_timestamp] is the oldest entry of
    the history. The initial value of the evictable flag is an argument
    ([dflt]) of everything that creates a node. *)
Record LRUKNode : Type := mkNode {
  history_ : list Z;
  node_k_ : Z;
  fid_ : Z;
  is_evictable_ : bool
}.

Definition new_node (dflt : bool) (frame_id k : Z) : LRUKNode :=
  mkNode [] k frame_id dflt.

Definition get_fid (n : LRUKNode) : Z := fid_ n.
Definition is_evictable (n : LRUKNode) : bool := is_evictable_ n.
Definition set_evictable (b : bool) (n : LRUKNode) : LRUKNode :=
  mkNode (history_ n) (node_k_ n) (fid_ n) b.
Definition get_access_count (n : LRUKNode) : Z := Z.of_nat (length (history_ n)).
Definition get_least_recent_timestamp (n : LRUKNode) : Z := hd 0 (history_ n).

(** [LRUKNode::add_timestamp] *)
Definition add_timestamp (timestamp : Z) (n : LRUKNode) : LRUKNode :=
  let h := history_ n ++ [timestamp] in
  let h' := if node_k_ n <? Z.of_nat (length h) then tl h else h in
  mkNode h' (node_k_ n) (fid_ n) (is_evictable_ n).

(** The replacer. The nodes are shared: [node_store_] and the two lists
    hold [std::shared_ptr<LRUKNode>]s to the same objects, and a node is
    changed through any of them. The model keeps the objects in a heap
    ([heap_], addressed by position; [std::make_shared] appends) and a
    pointer is an address. A node that no pointer reaches any more stays in
    the heap, where nothing can observe it. *)
Definition ptr : Type := nat.

Record LRUKReplacer : Type := mkReplacer {
  heap_ : list LRUKNode;
  node_store_ : gmap Z ptr;
  current_timestamp_ : Z;
  curr_size_ : Z;
  replacer_size_ : Z;
  k_ : Z;
  less_k_list : list ptr;
  more_k_list : list ptr
}.

(** [LRUKReplacer::LRUKReplacer(num_frames, k)] *)
Definition init (num_frames k : Z) : LRUKReplacer :=
  mkReplacer [] ∅ 0 0 num_frames k [] [].

Definition deref (heap : list LRUKNode) (p : ptr) : option LRUKNode := heap !! p.

(** [std::list::remove(p)] removes every element equal to [p]. *)
Definition list_remove (p : ptr) (l : list ptr) : list ptr :=
  List.filter (fun x => negb (Nat.eqb x p)) l.

(** [std::find_if(first, last, pred)] over pointers to nodes: the first
    pointer whose node satisfies [pred], with that node. *)
Fixpoint find_if (heap : list LRUKNode) (pred : LRUKNode -> bool) (l : list ptr)
  : option (ptr * LRUKNode) :=
  match l with
  | [] => None
  | p :: l' =>
      match deref heap p with
      | Some n => if pred n then Some (p, n) else find_if heap pred l'
      | None => find_if heap pred l'
      end
  end.

(** [std::list::insert(iter, x)] where [iter] is the first position at
    which [pred] holds ([end()] if there is none). *)
Fixpoint insert_before (heap : list LRUKNode) (pred : LRUKNode -> bool)
  (x : ptr) (l : list ptr) : list ptr :=
  match l with
  | [] => [x]
  | p :: l' =>
      match deref heap p with
      | Some n => if pred n then x :: p :: l' else p :: insert_before heap pred x l'
      | None => p :: insert_before heap pred x l'
      end
  end.

(** [LRUKReplacer::more_k_list_push_node]; [node] is the object behind the
    pointer [p]. *)
Definition more_k_list_push_node (heap : list LRUKNode) (p : ptr) (node : LRUKNode)
  (more : list ptr) : list ptr :=
  insert_before heap
    (fun n => get_least_recent_timestamp n <? get_least_recent_timestamp node) p more.

(** One pass of [Evict] over one of the two lists: the victim found by
    scanning from [rbegin()] to [rend()]. *)
Definition scan_victim (heap : list LRUKNode) (l : list ptr) : option (ptr * LRUKNode) :=
  match l with
  | [] => None
  | _ => find_if heap is_evictable (rev l)
  end.

(** [LRUKReplacer::Evict]; the out-parameter is the returned option. *)
Definition Evict : M LRUKReplacer (option Z) := fun r =>
  if curr_size_ r =? 0 then Ret None r
  else
    match scan_victim (heap_ r) (less_k_list r) with
    | Some (p, node) =>
        let frame_id := get_fid node in
        Ret (Some frame_id)
          (mkReplacer (heap_ r) (delete frame_id (node_store_ r)) (current_timestamp_ r)
             (wrap64 (curr_size_ r - 1)) (replacer_size_ r) (k_ r)
             (list_remove p (less_k_list r)) (more_k_list r))
    | None =>
        match scan_victim (heap_ r) (more_k_list r) with
        | Some (p, node) =>
            let frame_id := get_fid node in
            Ret (Some frame_id)
              (mkReplacer (heap_ r) (delete frame_id (node_store_ r)) (current_timestamp_ r)
                 (wrap64 (curr_size_ r - 1)) (replacer_size_ r) (k_ r)
                 (less_k_list r) (list_remove p (more_k_list r)))
        | None => Ret None r
        end
    end.

(** The check of the three operations that take a frame id. *)
Definition frame_id_ok (frame_id : Z) (r : LRUKReplacer) : bool :=
  frame_id <? to_frame_id_t (replacer_size_ r).

(** [node_store_.find(frame_id)]: the pointer and the node behind it. *)
Definition find_node (r : LRUKReplacer) (frame_id : Z) : option (ptr * LRUKNode) :=
  match node_store_ r !! frame_id with
  | Some p => match deref (heap_ r) p with
              | Some n => Some (p, n)
              | None => None
              end
  | None => None
  end.

(** [LRUKReplacer::RecordAccess] *)
Definition RecordAccess (dflt : bool) (frame_id : Z) : M LRUKReplacer unit := fun r =>
  if negb (frame_id_ok frame_id r) then Fail AssertionFailure r
  else
    let ts := wrap64 (current_timestamp_ r + 1) in
    match find_node r frame_id with
    | None =>
        let n_node := add_timestamp ts (new_node dflt frame_id (k_ r)) in
        let p := length (heap_ r) in
        Ret tt
          (mkReplacer (heap_ r ++ [n_node]) (<[frame_id := p]> (node_store_ r)) ts
             (wrap64 (curr_size_ r + 1)) (replacer_size_ r) (k_ r)
             (p :: less_k_list r) (more_k_list r))
    | Some (p, node) =>
        if get_access_count node <? k_ r then
          let node' := add_timestamp ts node in
          let heap' := <[p := node']> (heap_ r) in
          if get_access_count node' =? k_ r then
            Ret tt
              (mkReplacer heap' (node_store_ r) ts (curr_size_ r) (replacer_size_ r) (k_ r)
                 (list_remove p (less_k_list r))
                 (more_k_list_push_node heap' p node' (more_k_list r)))
          else
            Ret tt
              (mkReplacer heap' (node_store_ r) ts (curr_size_ r) (replacer_size_ r) (k_ r)
                 (p :: list_remove p (less_k_list r))
                 (more_k_list r))
        else
          let node' := add_timestamp ts node in
          let heap' := <[p := node']> (heap_ r) in
          Ret tt
            (mkReplacer heap' (node_store_ r) ts (curr_size_ r) (replacer_size_ r) (k_ r)
               (less_k_list r)
               (more_k_list_push_node heap' p node'
                  (list_remove p (more_k_list r))))
    end.

(** [LRUKReplacer::SetEvictable] *)
Definition SetEvictable (frame_id : Z) (flag : bool) : M LRUKReplacer unit := fun r =>
  if negb (frame_id_ok frame_id r) then Fail AssertionFailure r
  else
    match find_node r frame_id with
    | None => Ret tt r
    | Some (p, node) =>
        if Bool.eqb (is_evictable node) flag then Ret tt r
        else
          Ret tt
            (mkReplacer (<[p := set_evictable flag node]> (heap_ r)) (node_store_ r)
               (current_timestamp_ r)
               (if flag then wrap64 (curr_size_ r + 1) else wrap64 (curr_size_ r - 1))
               (replacer_size_ r) (k_ r) (less_k_list r) (more_k_list r))
    end.

(** [LRUKReplacer::Remove] *)
Definition Remove (frame_id : Z) : M LRUKReplacer unit := fun r =>
  if negb (frame_id_ok frame_id r) then Fail AssertionFailure r
  else
    match find_node r frame_id with
    | None => Ret tt r
    | Some (p, node) =>
        if negb (is_evictable node) then Fail ExceptionThrown r
        else
          let store' := delete frame_id (node_store_ r) in
          if get_access_count node <? k_ r then
            Ret tt
              (mkReplacer (heap_ r) store' (current_timestamp_ r)
                 (wrap64 (curr_size_ r - 1)) (replacer_size_ r) (k_ r)
                 (list_remove p (less_k_list r)) (more_k_list r))
          else
            Ret tt
              (mkReplacer (heap_ r) store' (current_timestamp_ r)
                 (wrap64 (curr_size_ r - 1)) (replacer_size_ r) (k_ r)
                 (less_k_list r) (list_remove p (more_k_list r)))
    end.

(** [LRUKReplacer::Size] *)
Definition Size (r : LRUKReplacer) : Z := curr_size_ r.

(** ** Sequences of operations *)

Inductive op : Type :=
| OpRecordAccess (frame_id : Z)
| OpSetEvictable (frame_id : Z) (flag : bool)
| OpEvict
| OpRemove (frame_id : Z).

Definition exec_op (dflt : bool) (o : op) : M LRUKReplacer (option Z) :=
  match o with
  | OpRecordAccess f => mbind (RecordAccess dflt f) (fun _ => mret None)
  | OpSetEvictable f b => mbind (SetEvictable f b) (fun _ => mret None)
  | OpEvict => Evict
  | OpRemove f => mbind (Remove f) (fun _ => mret None)
  end.

(** The state an operation leaves behind, whether it returns or fails. *)
Definition state_after {S A} (x : result S A) : S :=
  match x with Ret _ r => r | Fail _ r => r end.

(** The state after a sequence of operations and the frames the calls of
    [Evict] returned. An operation that fails leaves the replacer as it
    found it (each check comes before the first change), and the run goes
    on from there. *)
Fixpoint run (dflt : bool) (ops : list op) (r : LRUKReplacer)
  : LRUKReplacer * list (option Z) :=
  match ops with
  | [] => (r, [])
  | o :: ops' =>
      match exec_op dflt o r with
      | Ret v r' =>
          let '(r'', vs) := run dflt ops' r' in
          (r'', match o with OpEvict => v :: vs | _ => vs end)
      | Fail _ r' => run dflt ops' r'
      end
  end.

(** The nodes [node_store_] tracks, and how many of them are evictable. *)
Definition tracked (r : LRUKReplacer) (frame_id : Z) (n : LRUKNode) : Prop :=
  exists p, node_store_ r !! frame_id = Some p /\ deref (heap_ r) p = Some n.

(** [evictableP heap (f, p)]: the node behind [p] is evictable. *)
Definition evictableP (heap : list LRUKNode) (kv : Z * ptr) : Prop :=
  match deref heap kv.2 with
  | Some n => is_evictable n = true
  | None => False
  end.

#[export] Instance evictableP_dec heap kv : Decision (evictableP heap kv).
Proof. unfold evictableP. destruct (deref heap kv.2); apply _. Defined.

Definition count_in (heap : list LRUKNode) (m : gmap Z ptr) : Z :=
  Z.of_nat (size (filter (evictableP heap) m)).

Definition weight (heap : list LRUKNode) (p : ptr) : Z :=
  if decide (evictableP heap (0, p)) then 1 else 0.

Definition count_evictable (r : LRUKReplacer) : Z :=
  count_in (heap_ r) (node_store_ r).

(** [creates o r]: [o] is a [RecordAccess] that creates a node in [r]. *)
Definition creates (o : op) (r : LRUKReplacer) : bool :=
  match o with
  | OpRecordAccess f =>
      frame_id_ok f r && bool_decide (find_node r f = None)
  | _ => false
  end.

(** Number of nodes created during a run. *)
Fixpoint created (dflt : bool) (ops : list op) (r : LRUKReplacer) : Z :=
  match ops with
  | [] => 0
  | o :: ops' =>
      (if creates o r then 1 else 0)
      + created dflt ops' (state_after (exec_op dflt o r))
  end.

(** ** Representation invariants *)

(** Every node was built by [RecordAccess] of this replacer: it carries the
    replacer's K, and for K >= 1 its history is never empty. *)
Definition heap_inv (r : LRUKReplacer) : Prop :=
  forall p n, deref (heap_ r) p = Some n ->
    node_k_ n = k_ r /\ (1 <= k_ r -> history_ n <> []).

(** For K >= 2 the two lists partition the tracked nodes by access count,
    and hold no pointer to a node that is not tracked any more. *)
Record lists_inv (r : LRUKReplacer) : Prop := mkListsInv {
  li_store : forall f p, node_store_ r !! f = Some p ->
    exists n, deref (heap_ r) p = Some n /\ get_fid n = f;
  li_less : forall p, p ∈ less_k_list r ->
    exists n, deref (heap_ r) p = Some n /\ node_store_ r !! get_fid n = Some p
              /\ get_access_count n < k_ r;
  li_more : forall p, p ∈ more_k_list r ->
    exists n, deref (heap_ r) p = Some n /\ node_store_ r !! get_fid n = Some p
              /\ ~ get_access_count n < k_ r;
  li_class : forall f p n, node_store_ r !! f = Some p -> deref (heap_ r) p = Some n ->
    get_access_count n < k_ r -> p ∈ less_k_list r
}.

Definition inv (r : LRUKReplacer) : Prop :=
  heap_inv r /\ (2 <= k_ r -> lists_inv r).

(** Every node, tracked or not, is the node of a frame with property [P]. *)
Definition heap_fids (P : Z -> Prop) (r : LRUKReplacer) : Prop :=
  forall a n, deref (heap_ r) a = Some n -> P (get_fid n).

(** For every K: a pointer in [node_store_] points into the heap, and no
    two frames share a node. *)
Definition store_ok (r : LRUKReplacer) : Prop :=
  forall f q, node_store_ r !! f = Some q ->
    (q < length (heap_ r))%nat /\ forall g, node_store_ r !! g = Some q -> g = f.

(** ** The nodes of the two lists *)

(** The nodes [Evict] chooses from are those the two lists point to, whether
    [node_store_] still maps their frame or not: [listed r f n] says that a
    pointer of [less_k_list] or of [more_k_list] leads to the node [n] of
    frame [f]. A frame has left the replacer when it is neither tracked nor
    listed. *)
Definition listed (r : LRUKReplacer) (frame_id : Z) (n : LRUKNode) : Prop :=
  exists p, (p ∈ less_k_list r \/ p ∈ more_k_list r) /\
            deref (heap_ r) p = Some n /\ get_fid n = frame_id.

(** ** The order of the two lists *)

(** The newest timestamp of a history, [history_.back()]; [less_k_list] is
    kept in the order of this key by [push_front]. *)
Definition get_most_recent_timestamp (n : LRUKNode) : Z := List.last (history_ n) 0.

(** The sort key of the node behind a pointer. *)
Definition key_of (heap : list LRUKNode) (key : LRUKNode -> Z) (p : ptr) : Z :=
  match deref heap p with Some n => key n | None => 0 end.

(** What [RecordAccess] keeps of the histories and of the order of the lists:
    a history is strictly increasing, within the clock, and no longer than K;
    [less_k_list] is sorted from the most to the least recently used node;
    [more_k_list] is sorted by [get_least_recent_timestamp], largest first
    (the order [more_k_list_push_node] inserts in); a tracked node with K
    accesses is in [more_k_list]. *)
Record order_inv (r : LRUKReplacer) : Prop := mkOrderInv {
  oi_hist : forall p n, deref (heap_ r) p = Some n ->
    StronglySorted Z.lt (history_ n) /\
    Forall (fun t => 1 <= t <= current_timestamp_ r) (history_ n) /\
    get_access_count n <= k_ r;
  oi_less :
    StronglySorted Z.ge (key_of (heap_ r) get_most_recent_timestamp <$> less_k_list r);
  oi_more :
    StronglySorted Z.ge (key_of (heap_ r) get_least_recent_timestamp <$> more_k_list r);
  oi_class : forall f p n, node_store_ r !! f = Some p -> deref (heap_ r) p = Some n ->
    ~ get_access_count n < k_ r -> p ∈ more_k_list r
}.

End Replacer.

(* ===================================================================== *)
(** * Persistent trie                                                      *)
(* ===================================================================== *)

Module PTrie.

(** The value types [Put] and [Get] are instantiated for at the end of
    trie.cpp. *)
Inductive vtype : Type := TUInt32 | TUInt64 | TString | TInteger | TMoveBlocked.

#[export] Instance vtype_eq_dec : EqDecision vtype.
Proof. solve_decision. Defined.

(** A stored value with its type: [uint32_t], [uint64_t], [std::string],
    [Integer] (a [std::unique_ptr<uint32_t>], given by the number it owns)
    and [MoveBlocked]. *)
Inductive value : Type :=
| VUInt32 (n : Z)
| VUInt64 (n : Z)
| VString (s : string)
| VInteger (n : Z)
| VMoveBlocked (waited : bool).

Definition type_of (v : value) : vtype :=
  match v with
  | VUInt32 _ => TUInt32
  | VUInt64 _ => TUInt64
  | VString _ => TString
  | VInteger _ => TInteger
  | VMoveBlocked _ => TMoveBlocked
  end.

(** Modelled from the spec: the value types are declared outside the
    sources. [std::move(value)] hands the value over to the object built
    from it: the new [uint32_t], [uint64_t], [std::string] or [Integer] has
    the value the old one had; the move constructor of [MoveBlocked]
    ([primer/trie.h]) first waits for the future of the object it moves
    from and sets [waited_] in the new object. *)
Definition move_construct (v : value) : value :=
  match v with
  | VMoveBlocked _ => VMoveBlocked true
  | _ => v
  end.

(** Modelled from the spec: [TrieNode] and [TrieNodeWithValue<T>] are
    declared in [primer/trie.h], which is not among the sources. A node is
    a map from a character to a child plus an optional value; it is a
    value node ([is_value_node_]) iff the value is present. [children_] is
    a [std::map]: an association list with at most one entry per key. *)
Inductive TrieNode : Type :=
| Node (value_ : option value) (children_ : list (ascii * TrieNode)).

Definition value_ (n : TrieNode) : option value :=
  match n with Node v _ => v end.
Definition children_ (n : TrieNode) : list (ascii * TrieNode) :=
  match n with Node _ cs => cs end.
Definition is_value_node_ (n : TrieNode) : bool :=
  match value_ n with Some _ => true | None => false end.

(** [TrieNode::Clone] / [TrieNodeWithValue::Clone]: a copy with the same
    children and the same value. *)
Definition Clone (n : TrieNode) : TrieNode := Node (value_ n) (children_ n).

(** [children_.find(c)] *)
Fixpoint map_find {A} (c : ascii) (m : list (ascii * A)) : option A :=
  match m with
  | [] => None
  | (c', x) :: m' => if Ascii.eqb c' c then Some x else map_find c m'
  end.

(** [children_[c] = x] *)
Fixpoint map_set {A} (c : ascii) (x : A) (m : list (ascii * A)) : list (ascii * A) :=
  match m with
  | [] => [(c, x)]
  | (c', y) :: m' =>
      if Ascii.eqb c' c then (c, x) :: m' else (c', y) :: map_set c x m'
  end.

(** [children_.erase(c)] *)
Fixpoint map_erase {A} (c : ascii) (m : list (ascii * A)) : list (ascii * A) :=
  match m with
  | [] => []
  | (c', y) :: m' =>
      if Ascii.eqb c' c then map_erase c m' else (c', y) :: map_erase c m'
  end.

(** [children_.empty()] *)
Definition map_empty {A} (m : list (ascii * A)) : bool :=
  match m with [] => true | _ => false end.

Definition set_child (n : TrieNode) (c : ascii) (x : TrieNode) : TrieNode :=
  Node (value_ n) (map_set c x (children_ n)).

Definition erase_child (n : TrieNode) (c : ascii) : TrieNode :=
  Node (value_ n) (map_erase c (children_ n)).

(** A trie is its root pointer; [None] is [nullptr]. *)
Definition Trie : Type := option TrieNode.

(** The walk of [Get] from a node along the key. *)
Fixpoint walk (node : TrieNode) (key : string) : option TrieNode :=
  match key with
  | EmptyString => Some node
  | String c rest =>
      match map_find c (children_ node) with
      | None => None
      | Some child => walk child rest
      end
  end.

(** The value at the end of the walk, if the walk ends at a value node. *)
Definition value_at (node : TrieNode) (key : string) : option value :=
  match walk node key with
  | Some n => value_ n
  | None => None
  end.

(** [Trie::Get<T>]; [dynamic_cast<const TrieNodeWithValue<T> *>] succeeds
    iff the node carries a value of type [T]. *)
Definition Get (T : vtype) (t : Trie) (key : string) : option value :=
  match t with
  | None => None
  | Some root =>
      match walk root key with
      | None => None
      | Some node =>
          match value_ node with
          | Some v => if decide (type_of v = T) then Some v else None
          | None => None
          end
      end
  end.

(** The loop of [Trie::Put], for the part of the key from index [idx] on:
    [node] is the freshly built node the loop is at, and the result is
    that node once the rest of the loop has run ([idx == bound] is
    [rest = ""]). The value node holds
    [std::make_shared<T>(std::move(value))], the object move-constructed
    from the argument. *)
Fixpoint put_loop (node : TrieNode) (key : string) (v : value) : TrieNode :=
  match key with
  | EmptyString => node
  | String c rest =>
      match map_find c (children_ node) with
      | None =>
          match rest with
          | EmptyString => set_child node c (Node (Some (move_construct v)) [])
          | _ => set_child node c (put_loop (Node None []) rest v)
          end
      | Some child =>
          let node' := Clone child in
          match rest with
          | EmptyString =>
              set_child node c (Node (Some (move_construct v)) (children_ node'))
          | _ => set_child node c (put_loop node' rest v)
          end
      end
  end.

(** [Trie::Put<T>] *)
Definition Put (t : Trie) (key : string) (v : value) : Trie :=
  match key with
  | EmptyString =>
      match t with
      | None => Some (Node (Some (move_construct v)) [])
      | Some root => Some (Node (Some (move_construct v)) (children_ root))
      end
  | _ =>
      let n_root := match t with
                    | None => Node None []
                    | Some root => Clone root
                    end in
      Some (put_loop n_root key v)
  end.

(** The two loops of [Trie::Remove] from the node [node] on: the walk down
    that clones the spine, and, on the way back, the unwinding of [track]
    that drops a child left without children and without value. [None] is
    [return *this]. *)
Fixpoint remove_loop (node : TrieNode) (key : string) : option TrieNode :=
  match key with
  | EmptyString => Some node
  | String c rest =>
      match map_find c (children_ node) with
      | None => None
      | Some child =>
          let below :=
            match rest with
            | EmptyString =>
                if is_value_node_ child then Some (Node None (children_ child))
                else None
            | _ => remove_loop (Clone child) rest
            end in
          match below with
          | None => None
          | Some n =>
              if map_empty (children_ n) && negb (is_value_node_ n)
              then Some (erase_child (set_child node c n) c)
              else Some (set_child node c n)
          end
      end
  end.

(** [Trie::Remove] *)
Definition Remove (t : Trie) (key : string) : Trie :=
  match t with
  | None => t
  | Some root =>
      let n_root := Clone root in
      match key with
      | EmptyString =>
          if is_value_node_ n_root then
            if map_empty (children_ n_root) then None
            else Some (Node None (children_ n_root))
          else t
      | _ =>
          match remove_loop n_root key with
          | None => t
          | Some n_root' =>
              if map_empty (children_ n_root') then None else Some n_root'
          end
      end
  end.

(** ** Shape of a trie and runs of calls *)

(** A node that [Remove] would not erase: it has a value or children (the
    negation of the test [child->children_.empty() && !child->is_value_node_]
    of the unwinding loop). *)
Definition live (n : TrieNode) : bool :=
  is_value_node_ n || negb (map_empty (children_ n)).

(** Every node below [n] is [live]. *)
Fixpoint pruned (n : TrieNode) : bool :=
  match n with
  | Node _ cs => forallb (fun cn : ascii * TrieNode => live cn.2 && pruned cn.2) cs
  end.

(** The root, if there is one, and every node below it are [live]. *)
Definition well_pruned (t : Trie) : bool :=
  match t with
  | None => true
  | Some root => live root && pruned root
  end.

(** The two calls that make a trie from a trie. *)
Inductive op : Type :=
| OpPut (key : string) (v : value)
| OpRemove (key : string).

Definition exec_op (o : op) (t : Trie) : Trie :=
  match o with
  | OpPut key v => Put t key v
  | OpRemove key => Remove t key
  end.

(** The trie a sequence of calls makes, each call on the result of the one
    before. *)
Definition run (ops : list op) (t : Trie) : Trie := fold_left (fun t o => exec_op o t) ops t.

End PTrie.

(* ===================================================================== *)
(** * Buffer pool manager                                                  *)
(* ===================================================================== *)

Module Pool.
Import Replacer.

(** Modelled from the spec: [common/config.h] is not among the sources.
    [INVALID_PAGE_ID] is the distinguished "no page" id, [BUSTUB_PAGE_SIZE]
    the fixed size of a frame's buffer. *)
Definition INVALID_PAGE_ID : Z := -1.
Definition BUSTUB_PAGE_SIZE : nat := 4096.

(** [page_id_t] is a 32-bit signed integer; the counter behind
    [AllocatePage] is a [std::atomic<page_id_t>], which wraps. *)
Definition to_page_id_t (n : Z) : Z := (n + 2 ^ 31) mod 2 ^ 32 - 2 ^ 31.

(** Modelled from the spec: class [Page] is declared in
    [storage/page/page.h], which is not among the sources. A frame is a
    byte buffer with the id of the resident page, a pin count and a dirty
    flag; [ResetMemory] zeroes the buffer, [ResetMetadata] sets "no page,
    not pinned, clean", [Pin] and [Unpin] move the pin count by one,
    [MarkDirty] and [SetPageId] assign. *)
Record Page : Type := mkPage {
  data_ : list Z;
  page_id_ : Z;
  pin_count_ : Z;
  is_dirty_ : bool
}.

Definition GetData (pg : Page) : list Z := data_ pg.
Definition GetPageId (pg : Page) : Z := page_id_ pg.
Definition GetPinCount (pg : Page) : Z := pin_count_ pg.
Definition IsDirty (pg : Page) : bool := is_dirty_ pg.

Definition ResetMemory (pg : Page) : Page :=
  mkPage (repeat 0 BUSTUB_PAGE_SIZE) (page_id_ pg) (pin_count_ pg) (is_dirty_ pg).
Definition ResetMetadata (pg : Page) : Page :=
  mkPage (data_ pg) INVALID_PAGE_ID 0 false.
Definition SetPageId (page_id : Z) (pg : Page) : Page :=
  mkPage (data_ pg) page_id (pin_count_ pg) (is_dirty_ pg).
Definition Pin (pg : Page) : Page :=
  mkPage (data_ pg) (page_id_ pg) (pin_count_ pg + 1) (is_dirty_ pg).
Definition Unpin (pg : Page) : Page :=
  mkPage (data_ pg) (page_id_ pg) (pin_count_ pg - 1) (is_dirty_ pg).
Definition MarkDirty (b : bool) (pg : Page) : Page :=
  mkPage (data_ pg) (page_id_ pg) (pin_count_ pg) b.
Definition SetData (bytes : list Z) (pg : Page) : Page :=
  mkPage bytes (page_id_ pg) (pin_count_ pg) (is_dirty_ pg).

(** [Page::Page()] *)
Definition new_page : Page :=
  mkPage (repeat 0 BUSTUB_PAGE_SIZE) INVALID_PAGE_ID 0 false.

(** Modelled from the spec: the disk manager is an external collaborator
    ([read_page], [write_page], [deallocate_page]). The model keeps the
    log of the calls made to it, oldest first; what [read_page] delivers
    is what the last [write_page] of that page stored, zeroes if there was
    none. *)
Inductive disk_event : Type :=
| WritePage (page_id : Z) (data : list Z)
| ReadPage (page_id : Z)
| DeallocatePage (page_id : Z).

Definition disk_contents (log : list disk_event) (page_id : Z) : list Z :=
  fold_left
    (fun bytes e =>
       match e with
       | WritePage p d => if p =? page_id then d else bytes
       | _ => bytes
       end)
    log (repeat 0 BUSTUB_PAGE_SIZE).

Record BufferPoolManager : Type := mkBPM {
  pool_size_ : Z;
  pages_ : list Page;
  replacer_ : LRUKReplacer;
  free_list_ : list Z;
  page_table_ : gmap Z Z;
  next_page_id_ : Z;
  disk_manager_ : list disk_event
}.

Definition set_pages (ps : list Page) (s : BufferPoolManager) : BufferPoolManager :=
  mkBPM (pool_size_ s) ps (replacer_ s) (free_list_ s) (page_table_ s)
    (next_page_id_ s) (disk_manager_ s).
Definition set_replacer (r : LRUKReplacer) (s : BufferPoolManager) : BufferPoolManager :=
  mkBPM (pool_size_ s) (pages_ s) r (free_list_ s) (page_table_ s)
    (next_page_id_ s) (disk_manager_ s).
Definition set_free_list (l : list Z) (s : BufferPoolManager) : BufferPoolManager :=
  mkBPM (pool_size_ s) (pages_ s) (replacer_ s) l (page_table_ s)
    (next_page_id_ s) (disk_manager_ s).
Definition set_page_table (m : gmap Z Z) (s : BufferPoolManager) : BufferPoolManager :=
  mkBPM (pool_size_ s) (pages_ s) (replacer_ s) (free_list_ s) m
    (next_page_id_ s) (disk_manager_ s).
Definition set_next_page_id (n : Z) (s : BufferPoolManager) : BufferPoolManager :=
  mkBPM (pool_size_ s) (pages_ s) (replacer_ s) (free_list_ s) (page_table_ s)
    n (disk_manager_ s).
Definition set_disk (d : list disk_event) (s : BufferPoolManager) : BufferPoolManager :=
  mkBPM (pool_size_ s) (pages_ s) (replacer_ s) (free_list_ s) (page_table_ s)
    (next_page_id_ s) d.

(** [BufferPoolManager::BufferPoolManager(pool_size, disk_manager,
    replacer_k, log_manager)]; the free list holds [static_cast<int>(i)]
    for every [i] below [pool_size]. *)
Definition init (pool_size replacer_k : Z) : BufferPoolManager :=
  mkBPM pool_size
    (repeat new_page (Z.to_nat pool_size))
    (Replacer.init pool_size replacer_k)
    ((fun i => to_frame_id_t (Z.of_nat i)) <$> seq 0 (Z.to_nat pool_size))
    ∅ 0 [].

Local Open Scope m_scope.

(** [pages_[frame_id]], read. *)
Definition frame_at (s : BufferPoolManager) (frame_id : Z) : option Page :=
  if 0 <=? frame_id then pages_ s !! Z.to_nat frame_id else None.

Definition frame (frame_id : Z) : M BufferPoolManager Page := fun s =>
  match frame_at s frame_id with
  | Some pg => Ret pg s
  | None => Fail UndefinedBehaviour s
  end.

(** A call of a method of [pages_[frame_id]] that changes the frame. *)
Definition on_frame (frame_id : Z) (f : Page -> Page) : M BufferPoolManager unit :=
  pg <- frame frame_id ;;
  mmodify (fun s => set_pages (<[Z.to_nat frame_id := f pg]> (pages_ s)) s).

(** A call of a method of [replacer_]. *)
Definition on_replacer {A} (m : M LRUKReplacer A) : M BufferPoolManager A :=
  zoom replacer_ set_replacer m.

Definition disk_write (page_id : Z) (data : list Z) : M BufferPoolManager unit :=
  mmodify (fun s => set_disk (disk_manager_ s ++ [WritePage page_id data]) s).

(** [disk_manager_->ReadPage(page_id, pages_[frame_id].GetData())] *)
Definition disk_read (page_id frame_id : Z) : M BufferPoolManager unit :=
  s <- mget ;;
  on_frame frame_id (SetData (disk_contents (disk_manager_ s) page_id)) ;;;
  mmodify (fun s => set_disk (disk_manager_ s ++ [ReadPage page_id]) s).

(** Modelled from the spec: [BufferPoolManager::DeallocatePage] is defined
    in the header, which is not among the sources; by the spec it notifies
    the disk manager to deallocate the page. *)
Definition DeallocatePageOnDisk (page_id : Z) : M BufferPoolManager unit :=
  mmodify (fun s => set_disk (disk_manager_ s ++ [DeallocatePage page_id]) s).

(** [BufferPoolManager::AllocatePage]: [return next_page_id_++] *)
Definition AllocatePage : M BufferPoolManager Z :=
  s <- mget ;;
  mmodify (set_next_page_id (to_page_id_t (next_page_id_ s + 1))) ;;;
  mret (next_page_id_ s).

(** The first part of [getNewFrame]: a frame from the free list, else a
    victim of the replacer, written back if dirty and taken out of the page
    table; [None] is the branch that returns [nullptr]. *)
Definition acquire_frame : M BufferPoolManager (option Z) :=
  s <- mget ;;
  match free_list_ s with
  | frame_id :: rest =>
      mmodify (set_free_list rest) ;;;
      mret (Some frame_id)
  | [] =>
      v <- on_replacer Evict ;;
      match v with
      | Some frame_id =>
          pg <- frame frame_id ;;
          let page_id := GetPageId pg in
          (if IsDirty pg then disk_write page_id (GetData pg) else mret tt) ;;;
          mmodify (fun s => set_page_table (delete page_id (page_table_ s)) s) ;;;
          mret (Some frame_id)
      | None => mret None
      end
  end.

(** The second part of [getNewFrame], from [auto frame = &pages_[frame_id]]
    on. *)
Definition install_frame (dflt : bool) (frame_id page_id : Z) (is_new : bool)
  : M BufferPoolManager (option (Z * Z)) :=
  on_frame frame_id ResetMetadata ;;;
  on_frame frame_id ResetMemory ;;;
  page_id' <- (if is_new then AllocatePage else mret page_id) ;;
  on_frame frame_id (SetPageId page_id') ;;;
  on_replacer (RecordAccess dflt frame_id) ;;;
  on_frame frame_id Pin ;;;
  on_replacer (SetEvictable frame_id false) ;;;
  mmodify (fun s => set_page_table (<[page_id' := frame_id]> (page_table_ s)) s) ;;;
  mret (Some (frame_id, page_id')).

(** [BufferPoolManager::getNewFrame(page_id, is_new)]. The result is the
    frame (its index in [pages_]) with the value [*page_id] has at the
    end, or [None] for [nullptr]. *)
Definition getNewFrame (dflt : bool) (page_id : Z) (is_new : bool)
  : M BufferPoolManager (option (Z * Z)) :=
  v <- acquire_frame ;;
  match v with
  | None => mret None
  | Some frame_id => install_frame dflt frame_id page_id is_new
  end.

(** [BufferPoolManager::NewPage]: [getNewFrame(page_id)], whose second
    parameter defaults to [true]. The value passed in [*page_id] is not
    read. *)
Definition NewPage (dflt : bool) : M BufferPoolManager (option (Z * Z)) :=
  getNewFrame dflt INVALID_PAGE_ID true.

(** [BufferPoolManager::FetchPage] *)
Definition FetchPage (dflt : bool) (page_id : Z) : M BufferPoolManager (option Z) :=
  s <- mget ;;
  match page_table_ s !! page_id with
  | None =>
      v <- getNewFrame dflt page_id false ;;
      match v with
      | None => mret None
      | Some (frame_id, _) =>
          disk_read page_id frame_id ;;;
          mret (Some frame_id)
      end
  | Some frame_id =>
      on_frame frame_id Pin ;;;
      on_replacer (SetEvictable frame_id false) ;;;
      on_replacer (RecordAccess dflt frame_id) ;;;
      mret (Some frame_id)
  end.

(** [BufferPoolManager::UnpinPage] *)
Definition UnpinPage (page_id : Z) (is_dirty : bool) : M BufferPoolManager bool :=
  s <- mget ;;
  match page_table_ s !! page_id with
  | None => mret false
  | Some frame_id =>
      pg <- frame frame_id ;;
      if GetPinCount pg =? 0 then mret false
      else
        on_frame frame_id (fun pg => MarkDirty (is_dirty || IsDirty pg) pg) ;;;
        on_frame frame_id Unpin ;;;
        pg' <- frame frame_id ;;
        (if GetPinCount pg' =? 0
         then on_replacer (SetEvictable frame_id true)
         else mret tt) ;;;
        mret true
  end.

(** [BufferPoolManager::FlushPage] *)
Definition FlushPage (page_id : Z) : M BufferPoolManager bool :=
  s <- mget ;;
  match page_table_ s !! page_id with
  | None => mret false
  | Some frame_id =>
      pg <- frame frame_id ;;
      disk_write page_id (GetData pg) ;;;
      on_frame frame_id (MarkDirty false) ;;;
      mret true
  end.

(** The body of the loop of [FlushAllPages] for one entry. *)
Definition flush_entry (entry : Z * Z) : M BufferPoolManager unit :=
  pg <- frame entry.2 ;;
  disk_write entry.1 (GetData pg) ;;;
  on_frame entry.2 (MarkDirty false).

Fixpoint for_each {S A} (body : A -> M S unit) (l : list A) : M S unit :=
  match l with
  | [] => mret tt
  | x :: l' => body x ;;; for_each body l'
  end.

(** [BufferPoolManager::FlushAllPages]; the entries come in the order of
    [map_to_list], the order of a [std::unordered_map] being unspecified. *)
Definition FlushAllPages : M BufferPoolManager unit :=
  s <- mget ;;
  for_each flush_entry (map_to_list (page_table_ s)).

(** [BufferPoolManager::DeletePage] *)
Definition DeletePage (page_id : Z) : M BufferPoolManager bool :=
  s <- mget ;;
  match page_table_ s !! page_id with
  | None => mret true
  | Some frame_id =>
      pg <- frame frame_id ;;
      if 0 <? GetPinCount pg then mret false
      else
        on_replacer (Remove frame_id) ;;;
        mmodify (fun s => set_page_table (delete page_id (page_table_ s)) s) ;;;
        on_frame frame_id ResetMemory ;;;
        on_frame frame_id ResetMetadata ;;;
        mmodify (fun s => set_free_list (free_list_ s ++ [frame_id]) s) ;;;
        DeallocatePageOnDisk page_id ;;;
        mret true
  end.

(** The frame as [getNewFrame] hands it out: reset, given its page id,
    pinned once. *)
Definition fresh_frame (page_id : Z) : Page :=
  mkPage (repeat 0 BUSTUB_PAGE_SIZE) page_id 1 false.

(** ** Sequences of operations *)

(** The calls a client can make; [OpWrite] is a client writing bytes into
    a frame through the [Page *] it was handed. *)
Inductive op : Type :=
| OpNewPage
| OpFetchPage (page_id : Z)
| OpUnpinPage (page_id : Z) (is_dirty : bool)
| OpFlushPage (page_id : Z)
| OpFlushAllPages
| OpDeletePage (page_id : Z)
| OpWrite (frame_id : Z) (bytes : list Z).

Definition exec_op (dflt : bool) (o : op) : M BufferPoolManager unit :=
  match o with
  | OpNewPage => NewPage dflt ;;; mret tt
  | OpFetchPage p => FetchPage dflt p ;;; mret tt
  | OpUnpinPage p d => UnpinPage p d ;;; mret tt
  | OpFlushPage p => FlushPage p ;;; mret tt
  | OpFlushAllPages => FlushAllPages
  | OpDeletePage p => DeletePage p ;;; mret tt
  | OpWrite f bytes => on_frame f (SetData bytes)
  end.

(** The state after a sequence of calls. A call that throws leaves the
    state it had reached, and the run goes on; a call that aborts (a
    failed assertion, an access outside [pages_]) ends the run in the state
    before it. *)
Fixpoint run (dflt : bool) (ops : list op) (s : BufferPoolManager) : BufferPoolManager :=
  match ops with
  | [] => s
  | o :: ops' =>
      match exec_op dflt o s with
      | Ret _ s' => run dflt ops' s'
      | Fail ExceptionThrown s' => run dflt ops' s'
      | Fail _ _ => s
      end
  end.

(** ** The invariant of the manager *)

Record pool_inv (s : BufferPoolManager) : Prop := mkPoolInv {
  (* a page of the page table is the resident page of its frame *)
  pi_table : forall p f, page_table_ s !! p = Some f ->
    exists pg, frame_at s f = Some pg /\ page_id_ pg = p;
  (* and its frame is not on the free list *)
  pi_free : forall p f, page_table_ s !! p = Some f -> f ∉ free_list_ s;
  pi_nodup : NoDup (free_list_ s);
  (* the replacer accepts the frame of a resident page *)
  pi_ok : forall p f, page_table_ s !! p = Some f ->
    frame_id_ok f (replacer_ s) = true;
  pi_store : store_ok (replacer_ s);
  pi_pin : forall f pg, frame_at s f = Some pg -> 0 <= pin_count_ pg;
  (* the frame of a resident page that nobody pins is evictable, if the
     replacer tracks it *)
  pi_unpinned : forall p f pg n, page_table_ s !! p = Some f ->
    frame_at s f = Some pg -> pin_count_ pg = 0 ->
    tracked (replacer_ s) f n -> is_evictable n = true
}.

(** The frames of the pool and what refers to them. *)
Definition in_pool (s : BufferPoolManager) (f : Z) : Prop := 0 <= f < pool_size_ s.

Record pool_range (s : BufferPoolManager) : Prop := mkPoolRange {
  pr_bound : pool_size_ s < 2 ^ 31;
  pr_size : replacer_size_ (replacer_ s) = pool_size_ s;
  pr_frames : forall f, in_pool s f <-> is_Some (frame_at s f);
  pr_free : forall f, f ∈ free_list_ s -> in_pool s f;
  pr_heap : heap_fids (in_pool s) (replacer_ s)
}.

(** The requests to the disk manager that are calls of [write_page]. *)
Definition is_write (e : disk_event) : bool :=
  match e with WritePage _ _ => true | _ => false end.

(** No frame of [s'] holds a page that it did not hold in [s]. *)
Definition keeps_page_ids (s s' : BufferPoolManager) : Prop :=
  forall g pg', frame_at s' g = Some pg' ->
    page_id_ pg' = INVALID_PAGE_ID \/
    exists pg, frame_at s g = Some pg /\ page_id_ pg' = page_id_ pg.

(** ** Invariants and clients of the pool *)

(** What ties the pin counts to the replacer. *)
Record pin_inv (s : BufferPoolManager) : Prop := mkPinInv {
  pn_repl : Replacer.inv (replacer_ s);
  (* the replacer tracks the frame of a resident page *)
  pn_tracked : forall p f, page_table_ s !! p = Some f ->
    exists n, tracked (replacer_ s) f n;
  (* and a pinned frame it tracks is not evictable *)
  pn_pinned : forall f pg n, frame_at s f = Some pg -> 0 < pin_count_ pg ->
    tracked (replacer_ s) f n -> is_evictable n = false
}.

(** A client that fetches only pages [NewPage] has allocated and writes
    only into frames it has pinned. *)
Definition op_legal (o : op) (s : BufferPoolManager) : bool :=
  match o with
  | OpFetchPage p => (0 <=? p) && (p <? next_page_id_ s)
  | OpWrite f _ =>
      match frame_at s f with
      | Some pg => 0 <? pin_count_ pg
      | None => false
      end
  | _ => true
  end.

(** Every call of the run is made by such a client, in the state [run] has
    reached by then. *)
Fixpoint legal (dflt : bool) (ops : list op) (s : BufferPoolManager) : bool :=
  match ops with
  | [] => true
  | o :: ops' =>
      op_legal o s &&
      match exec_op dflt o s with
      | Ret _ s' => legal dflt ops' s'
      | Fail ExceptionThrown s' => legal dflt ops' s'
      | Fail _ _ => true
      end
  end.

(** The bytes [d] of page [p] are safe: they are in the frame of [p], which
    is dirty or agrees with the disk, or [p] is not resident and they are
    what the disk holds. *)
Definition durable (s : BufferPoolManager) (p : Z) (d : list Z) : Prop :=
  match page_table_ s !! p with
  | Some f =>
      exists pg, frame_at s f = Some pg /\ data_ pg = d /\
        (is_dirty_ pg = true \/ disk_contents (disk_manager_ s) p = d)
  | None => disk_contents (disk_manager_ s) p = d
  end.

(** A computation that leaves the size of the pool alone. *)
Definition keeps_pool_size {A} (m : M BufferPoolManager A) : Prop :=
  forall s, pool_size_ (state_after (m s)) = pool_size_ s.

(** Every frame is free and blank, or holds a resident page. *)
Record frames_inv (s : BufferPoolManager) : Prop := mkFramesInv {
  fi_frames : forall f pg, frame_at s f = Some pg ->
    (f ∈ free_list_ s /\ pg = new_page) \/ page_table_ s !! page_id_ pg = Some f;
  fi_ids : forall p f, page_table_ s !! p = Some f -> 0 <= p < next_page_id_ s;
  fi_next : 0 <= next_page_id_ s
}.

End Pool.

(* ===================================================================== *)
(** * Properties of the machine integers                                   *)
(* ===================================================================== *)

Lemma wrap64_idem z : wrap64 (wrap64 z) = wrap64 z.
Proof. unfold wrap64. apply Z.mod_mod. lia. Qed.

Lemma wrap64_succ_l a b : wrap64 (wrap64 a + b) = wrap64 (a + b).
Proof. unfold wrap64. apply Zplus_mod_idemp_l. Qed.

Lemma wrap64_small z : 0 <= z < 2 ^ 64 -> wrap64 z = z.
Proof. intros H. unfold wrap64. apply Z.mod_small. exact H. Qed.

Lemma to_frame_id_t_small n : - 2 ^ 31 <= n < 2 ^ 31 -> to_frame_id_t n = n.
Proof. intros H. unfold to_frame_id_t. rewrite Z.mod_small; lia. Qed.

(* ===================================================================== *)
(** * Properties of the LRU-K replacer                                     *)
(* ===================================================================== *)

Module ReplacerFacts.
Import Replacer.

(** ** The list primitives *)

Lemma elem_of_list_remove (p x : ptr) (l : list ptr) :
  x ∈ list_remove p l <-> x ∈ l /\ x <> p.
Proof.
  unfold list_remove. rewrite !list_elem_of_In, filter_In.
  rewrite negb_true_iff, Nat.eqb_neq. tauto.
Qed.

Lemma elem_of_insert_before heap pred (x y : ptr) (l : list ptr) :
  x ∈ insert_before heap pred y l <-> x = y \/ x ∈ l.
Proof.
  induction l as [|h l IH]; simpl.
  - rewrite list_elem_of_singleton. set_solver.
  - destruct (deref heap h) as [n|]; [destruct (pred n)|];
      rewrite ?elem_of_cons, ?IH; naive_solver.
Qed.

Lemma find_if_Some heap pred l p n :
  find_if heap pred l = Some (p, n) ->
  p ∈ l /\ deref heap p = Some n /\ pred n = true.
Proof.
  induction l as [|h l IH]; simpl; [discriminate|].
  destruct (deref heap h) as [m|] eqn:Hd.
  - destruct (pred m) eqn:Hp.
    + intros [= <- <-]. split; [left | auto].
    + intros H. destruct (IH H) as (? & ? & ?). split; [by right | auto].
  - intros H. destruct (IH H) as (? & ? & ?). split; [by right | auto].
Qed.

Lemma find_if_None heap pred l p n :
  find_if heap pred l = None -> p ∈ l -> deref heap p = Some n -> pred n = false.
Proof.
  induction l as [|h l IH]; simpl; intros Hf Hin Hd.
  - by apply elem_of_nil in Hin.
  - apply elem_of_cons in Hin as [-> | Hin].
    + rewrite Hd in Hf. destruct (pred n); [discriminate | reflexivity].
    + apply IH; auto.
      destruct (deref heap h) as [m|]; [destruct (pred m); [discriminate|] |]; auto.
Qed.

Lemma scan_victim_Some heap l p n :
  scan_victim heap l = Some (p, n) ->
  p ∈ l /\ deref heap p = Some n /\ is_evictable n = true.
Proof.
  unfold scan_victim. destruct l as [|h l]; [discriminate|].
  intros H. apply find_if_Some in H as (Hin & Hd & He).
  rewrite list_elem_of_In, <- in_rev, <- list_elem_of_In in Hin. auto.
Qed.

Lemma scan_victim_None heap l p n :
  scan_victim heap l = None -> p ∈ l -> deref heap p = Some n -> is_evictable n = false.
Proof.
  unfold scan_victim. destruct l as [|h l]; intros Hs Hin Hd.
  - by apply elem_of_nil in Hin.
  - eapply find_if_None; eauto.
    by rewrite list_elem_of_In, <- in_rev, <- list_elem_of_In.
Qed.

(** ** [add_timestamp] *)

Lemma add_timestamp_fid ts n : get_fid (add_timestamp ts n) = get_fid n.
Proof. reflexivity. Qed.

Lemma add_timestamp_k ts n : node_k_ (add_timestamp ts n) = node_k_ n.
Proof. reflexivity. Qed.

Lemma add_timestamp_evictable ts n : is_evictable (add_timestamp ts n) = is_evictable n.
Proof. reflexivity. Qed.

Lemma add_timestamp_count ts n :
  get_access_count (add_timestamp ts n) =
    if node_k_ n <? get_access_count n + 1 then get_access_count n
    else get_access_count n + 1.
Proof.
  unfold get_access_count, add_timestamp; simpl.
  rewrite length_app; simpl.
  replace (Z.of_nat (length (history_ n) + 1)) with (Z.of_nat (length (history_ n)) + 1) by lia.
  destruct (node_k_ n <? Z.of_nat (length (history_ n)) + 1).
  - destruct (history_ n); simpl; [lia|]. rewrite length_app; simpl. lia.
  - rewrite length_app; simpl. lia.
Qed.

Lemma add_timestamp_nonempty ts n :
  1 <= node_k_ n -> history_ (add_timestamp ts n) <> [].
Proof.
  intros Hk. unfold add_timestamp; simpl. rewrite length_app; simpl.
  destruct (node_k_ n <? Z.of_nat (length (history_ n) + 1)) eqn:E.
  - apply Z.ltb_lt in E. destruct (history_ n) as [|x h]; simpl in *; [lia|].
    destruct h; discriminate.
  - destruct (history_ n); discriminate.
Qed.

(** ** The heap *)

Lemma deref_snoc heap n p m :
  deref (heap ++ [n]) p = Some m ->
  deref heap p = Some m \/ (p = length heap /\ m = n).
Proof.
  unfold deref. intros H.
  destruct (decide (p < length heap)%nat) as [Hlt | Hge].
  - left. by rewrite lookup_app_l in H.
  - right. rewrite lookup_app_r in H by lia.
    destruct (p - length heap)%nat as [|i] eqn:E; simpl in H.
    + split; [lia | congruence].
    + by rewrite lookup_nil in H.
Qed.

Lemma deref_snoc_old heap n p m :
  deref heap p = Some m -> deref (heap ++ [n]) p = Some m.
Proof.
  unfold deref. intros H. rewrite lookup_app_l; [done|].
  by eapply lookup_lt_Some.
Qed.

Lemma deref_snoc_new heap n : deref (heap ++ [n]) (length heap) = Some n.
Proof.
  unfold deref. rewrite lookup_app_r by lia.
  by rewrite Nat.sub_diag.
Qed.

Lemma deref_fresh heap p m : deref heap p = Some m -> p <> length heap.
Proof. unfold deref. intros H%lookup_lt_Some. lia. Qed.

Lemma deref_insert_eq heap p n n' :
  deref heap p = Some n -> deref (<[p := n']> heap) p = Some n'.
Proof.
  unfold deref. intros H. apply list_lookup_insert_eq. by eapply lookup_lt_Some.
Qed.

Lemma deref_insert_ne heap p q n' :
  q <> p -> deref (<[p := n']> heap) q = deref heap q.
Proof. unfold deref. intros H. by apply list_lookup_insert_ne. Qed.

Lemma deref_insert_inv heap p q n n' m :
  deref heap p = Some n ->
  deref (<[p := n']> heap) q = Some m ->
  (q = p /\ m = n') \/ (q <> p /\ deref heap q = Some m).
Proof.
  intros Hp Hq. destruct (decide (q = p)) as [-> | Hne].
  - left. rewrite (deref_insert_eq _ _ n) in Hq by done. split; congruence.
  - right. by rewrite deref_insert_ne in Hq.
Qed.

Lemma find_node_Some r f p n :
  find_node r f = Some (p, n) <->
  node_store_ r !! f = Some p /\ deref (heap_ r) p = Some n.
Proof.
  unfold find_node. destruct (node_store_ r !! f) as [q|]; [|naive_solver].
  destruct (deref (heap_ r) q) as [m|] eqn:E; naive_solver.
Qed.

(** ** The invariant holds initially and every operation keeps it *)

Lemma inv_init num_frames k : inv (init num_frames k).
Proof.
  split.
  - intros p n H. unfold deref in H. simpl in H. by rewrite lookup_nil in H.
  - intros _. split; simpl.
    + intros f p H. by rewrite lookup_empty in H.
    + intros p H. by apply elem_of_nil in H.
    + intros p H. by apply elem_of_nil in H.
    + intros f p n H. by rewrite lookup_empty in H.
Qed.

Lemma heap_inv_update r r' p n n' :
  heap_inv r -> deref (heap_ r) p = Some n ->
  heap_ r' = <[p := n']> (heap_ r) -> k_ r' = k_ r ->
  node_k_ n' = node_k_ n -> (1 <= k_ r -> history_ n' <> []) ->
  heap_inv r'.
Proof.
  intros Hh Hp Hheap Hk Hnk Hne q m Hq. rewrite Hheap in Hq. rewrite Hk.
  destruct (deref_insert_inv _ _ _ _ _ _ Hp Hq) as [[-> ->] | [_ Hq']].
  - split; [|done]. rewrite Hnk. by apply (Hh p n).
  - by apply (Hh q m).
Qed.

Lemma lists_inv_update r p f node node' ts cs less' more' :
  lists_inv r ->
  node_store_ r !! f = Some p -> deref (heap_ r) p = Some node ->
  get_fid node' = get_fid node ->
  (forall q, q ∈ less' ->
     (q = p /\ get_access_count node' < k_ r) \/ (q <> p /\ q ∈ less_k_list r)) ->
  (forall q, q ∈ more' ->
     (q = p /\ ~ get_access_count node' < k_ r) \/ (q <> p /\ q ∈ more_k_list r)) ->
  (get_access_count node' < k_ r -> p ∈ less') ->
  (forall q, q <> p -> q ∈ less_k_list r -> q ∈ less') ->
  lists_inv (mkReplacer (<[p := node']> (heap_ r)) (node_store_ r) ts cs
               (replacer_size_ r) (k_ r) less' more').
Proof.
  intros [Hst Hle Hmo Hcl] Hs Hd Hfid Hless Hmore Hp Hkeep.
  assert (Hf : get_fid node = f).
  { destruct (Hst f p Hs) as (n & Hn & Hfn). unfold deref in *. congruence. }
  split; simpl.
  - intros g q Hg. destruct (decide (q = p)) as [-> | Hne].
    + exists node'. split; [by eapply deref_insert_eq|].
      destruct (Hst g p Hg) as (n & Hn & Hfn). unfold deref in *. congruence.
    + rewrite deref_insert_ne by done. eauto.
  - intros q Hq. destruct (Hless q Hq) as [[-> Hc] | [Hne Hin]].
    + exists node'. split; [by eapply deref_insert_eq|]. split; [congruence | done].
    + rewrite deref_insert_ne by done. eauto.
  - intros q Hq. destruct (Hmore q Hq) as [[-> Hc] | [Hne Hin]].
    + exists node'. split; [by eapply deref_insert_eq|]. split; [congruence | done].
    + rewrite deref_insert_ne by done. eauto.
  - intros g q n Hg Hn Hc.
    destruct (deref_insert_inv _ _ _ _ _ _ Hd Hn) as [[-> ->] | [Hne Hn']].
    + auto.
    + apply Hkeep; [done|]. eauto.
Qed.

Lemma lists_inv_delete r p f node ts cs less' more' :
  lists_inv r ->
  node_store_ r !! f = Some p -> deref (heap_ r) p = Some node ->
  (forall q, q ∈ less' <-> q ∈ less_k_list r /\ q <> p) ->
  (forall q, q ∈ more' <-> q ∈ more_k_list r /\ q <> p) ->
  lists_inv (mkReplacer (heap_ r) (delete f (node_store_ r)) ts cs
               (replacer_size_ r) (k_ r) less' more').
Proof.
  intros [Hst Hle Hmo Hcl] Hs Hd Hless Hmore.
  assert (Hother : forall q n, q <> p -> deref (heap_ r) q = Some n ->
            node_store_ r !! get_fid n = Some q ->
            delete f (node_store_ r) !! get_fid n = Some q).
  { intros q n Hne Hn Hq. rewrite lookup_delete_ne; [done|].
    intros Heq. rewrite Heq in Hs. congruence. }
  split; simpl.
  - intros g q Hg. apply lookup_delete_Some in Hg as [_ Hg]. eauto.
  - intros q Hq. apply Hless in Hq as [Hq Hne].
    destruct (Hle q Hq) as (n & Hn & Hsn & Hc). exists n. auto.
  - intros q Hq. apply Hmore in Hq as [Hq Hne].
    destruct (Hmo q Hq) as (n & Hn & Hsn & Hc). exists n. auto.
  - intros g q n Hg Hn Hc. apply lookup_delete_Some in Hg as [Hgf Hg].
    apply Hless. split; [eauto|].
    intros ->. destruct (Hst g p Hg) as (n1 & Hn1 & Hf1).
    destruct (Hst f p Hs) as (n2 & Hn2 & Hf2). unfold deref in *. congruence.
Qed.

Lemma lists_inv_less_not_more r p :
  lists_inv r -> p ∈ less_k_list r -> p ∈ more_k_list r -> False.
Proof.
  intros [Hst Hle Hmo Hcl] H1 H2.
  destruct (Hle p H1) as (n & Hn & _ & Hc).
  destruct (Hmo p H2) as (n' & Hn' & _ & Hc').
  unfold deref in *. assert (n = n') by congruence. subst. auto.
Qed.

Lemma find_node_None_store r f :
  lists_inv r -> find_node r f = None -> node_store_ r !! f = None.
Proof.
  intros [Hst _ _ _] H. unfold find_node in H.
  destruct (node_store_ r !! f) as [q|] eqn:E; [|done].
  destruct (Hst f q E) as (n & Hn & _). by rewrite Hn in H.
Qed.

Lemma lists_inv_new r dflt f ts cs :
  2 <= k_ r -> lists_inv r -> node_store_ r !! f = None ->
  lists_inv
    (mkReplacer (heap_ r ++ [add_timestamp ts (new_node dflt f (k_ r))])
       (<[f := length (heap_ r)]> (node_store_ r)) ts cs (replacer_size_ r) (k_ r)
       (length (heap_ r) :: less_k_list r) (more_k_list r)).
Proof.
  intros Hk [Hst Hle Hmo Hcl] Hnone.
  set (n0 := add_timestamp ts (new_node dflt f (k_ r))).
  assert (Hc0 : get_access_count n0 < k_ r).
  { unfold n0. rewrite add_timestamp_count. simpl.
    unfold get_access_count; simpl.
    destruct (k_ r <? Z.of_nat 0 + 1) eqn:E; [apply Z.ltb_lt in E|]; lia. }
  assert (Hold : forall q n, deref (heap_ r) q = Some n ->
            node_store_ r !! get_fid n = Some q ->
            <[f := length (heap_ r)]> (node_store_ r) !! get_fid n = Some q).
  { intros q n Hn Hq. rewrite lookup_insert_ne; [done|]. intros Heq.
    rewrite <- Heq in Hq. congruence. }
  split; simpl.
  - intros g q Hg. apply lookup_insert_Some in Hg as [[<- <-] | [Hne Hg]].
    + exists n0. split; [apply deref_snoc_new | reflexivity].
    + destruct (Hst g q Hg) as (n & Hn & Hfn). exists n.
      split; [by apply deref_snoc_old | done].
  - intros q Hq. apply elem_of_cons in Hq as [-> | Hq].
    + exists n0. split; [apply deref_snoc_new|]. split; [|done].
      change (get_fid n0) with f. apply lookup_insert_eq.
    + destruct (Hle q Hq) as (n & Hn & Hsn & Hc). exists n.
      split; [by apply deref_snoc_old|]. split; [eauto | done].
  - intros q Hq. destruct (Hmo q Hq) as (n & Hn & Hsn & Hc). exists n.
    split; [by apply deref_snoc_old|]. split; [eauto | done].
  - intros g q n Hg Hn Hc. apply lookup_insert_Some in Hg as [[<- <-] | [Hne Hg]].
    + left.
    + right. destruct (deref_snoc _ _ _ _ Hn) as [Hn' | [-> ->]].
      * eauto.
      * destruct (Hst g _ Hg) as (n & Hn' & _). by apply deref_fresh in Hn'.
Qed.

Lemma RecordAccess_inv dflt f r :
  inv r -> inv (state_after (RecordAccess dflt f r)).
Proof.
  intros [Hh Hl]. unfold RecordAccess.
  destruct (negb (frame_id_ok f r)); [by split|].
  destruct (find_node r f) as [[p node]|] eqn:Hfind.
  - apply find_node_Some in Hfind as [Hs Hd].
    set (ts := wrap64 (current_timestamp_ r + 1)).
    set (node' := add_timestamp ts node).
    destruct (Hh p node Hd) as [Hnk Hne].
    assert (Hcount : get_access_count node' =
              if k_ r <? get_access_count node + 1 then get_access_count node
              else get_access_count node + 1).
    { unfold node'. rewrite add_timestamp_count. by rewrite Hnk. }
    assert (Hheap' : forall less' more' cs,
              heap_inv (mkReplacer (<[p := node']> (heap_ r)) (node_store_ r) ts cs
                          (replacer_size_ r) (k_ r) less' more')).
    { intros. eapply (heap_inv_update r); eauto.
      intros Hk1. apply add_timestamp_nonempty. lia. }
    destruct (get_access_count node <? k_ r) eqn:Hc;
      [apply Z.ltb_lt in Hc | apply Z.ltb_ge in Hc].
    + destruct (get_access_count node' =? k_ r) eqn:Hc';
        [apply Z.eqb_eq in Hc' | apply Z.eqb_neq in Hc']; simpl.
      * split; [apply Hheap'|]. simpl. intros Hk. specialize (Hl Hk).
        eapply lists_inv_update; eauto.
        -- intros q Hq. apply elem_of_list_remove in Hq as [Hq Hne']. auto.
        -- intros q Hq. apply elem_of_insert_before in Hq as [-> | Hq].
           ++ left. split; [done | lia].
           ++ right. split; [|done]. intros ->.
              eapply lists_inv_less_not_more; eauto.
              destruct Hl as [_ _ _ Hcl]. eauto.
        -- lia.
        -- intros q Hne' Hq. apply elem_of_list_remove. auto.
      * assert (Hlt : get_access_count node' < k_ r).
        { rewrite Hcount in *. destruct (k_ r <? get_access_count node + 1); lia. }
        split; [apply Hheap'|]. simpl. intros Hk. specialize (Hl Hk).
        eapply lists_inv_update; eauto.
        -- intros q Hq. apply elem_of_cons in Hq as [-> | Hq]; [by left|].
           apply elem_of_list_remove in Hq as [Hq Hne']. auto.
        -- intros q Hq. right. split; [|done]. intros ->.
           eapply lists_inv_less_not_more; eauto.
           destruct Hl as [_ _ _ Hcl]. eauto.
        -- intros _. left.
        -- intros q Hne' Hq. right. apply elem_of_list_remove. auto.
    + assert (Hge : ~ get_access_count node' < k_ r).
      { rewrite Hcount. destruct (k_ r <? get_access_count node + 1); lia. }
      simpl. split; [apply Hheap'|]. simpl. intros Hk. specialize (Hl Hk).
      eapply lists_inv_update; eauto.
      * intros q Hq. right. split; [|done]. intros ->.
        destruct Hl as [_ Hle _ _]. destruct (Hle p Hq) as (n & Hn & _ & Hcn).
        unfold deref in *. assert (n = node) by congruence. subst. lia.
      * intros q Hq. apply elem_of_insert_before in Hq as [-> | Hq]; [by left|].
        apply elem_of_list_remove in Hq as [Hq Hne']. auto.
      * intros Hlt. contradiction.
  - simpl. split.
    + intros q m Hq. simpl in Hq. simpl.
      destruct (deref_snoc _ _ _ _ Hq) as [Hq' | [-> ->]]; [by apply (Hh q m)|].
      split; [reflexivity|]. intros Hk1. by apply add_timestamp_nonempty.
    + simpl. intros Hk. specialize (Hl Hk).
      apply lists_inv_new; auto. by apply find_node_None_store.
Qed.

Lemma SetEvictable_inv f flag r :
  inv r -> inv (state_after (SetEvictable f flag r)).
Proof.
  intros [Hh Hl]. unfold SetEvictable.
  destruct (negb (frame_id_ok f r)); [by split|].
  destruct (find_node r f) as [[p node]|] eqn:Hfind; [|by split].
  apply find_node_Some in Hfind as [Hs Hd].
  destruct (Bool.eqb (is_evictable node) flag); [by split|]. simpl.
  destruct (Hh p node Hd) as [Hnk Hne].
  split.
  - eapply (heap_inv_update r); eauto.
  - simpl. intros Hk. specialize (Hl Hk).
    assert (Hc : get_access_count (set_evictable flag node) = get_access_count node)
      by reflexivity.
    eapply lists_inv_update; eauto; rewrite ?Hc.
    + intros q Hq. destruct (decide (q = p)) as [-> | Hne']; [left | by right].
      split; [done|]. destruct Hl as [_ Hle _ _].
      destruct (Hle p Hq) as (n & Hn & _ & Hcn).
      unfold deref in *. assert (n = node) by congruence. by subst.
    + intros q Hq. destruct (decide (q = p)) as [-> | Hne']; [left | by right].
      split; [done|]. destruct Hl as [_ _ Hmo _].
      destruct (Hmo p Hq) as (n & Hn & _ & Hcn).
      unfold deref in *. assert (n = node) by congruence. by subst.
    + destruct Hl as [_ _ _ Hcl]. eauto.
Qed.

Lemma Evict_inv r : inv r -> inv (state_after (Evict r)).
Proof.
  intros [Hh Hl]. unfold Evict.
  destruct (curr_size_ r =? 0); [by split|].
  destruct (scan_victim (heap_ r) (less_k_list r)) as [[p node]|] eqn:Hless.
  - apply scan_victim_Some in Hless as (Hin & Hd & He). simpl.
    split; [exact Hh|]. simpl. intros Hk. specialize (Hl Hk).
    destruct (li_less r Hl p Hin) as (n & Hn & Hsn & Hc).
    unfold deref in *. assert (n = node) by congruence. subst n.
    eapply lists_inv_delete; eauto.
    + intros q. apply elem_of_list_remove.
    + intros q. split; [|tauto]. intros Hq. split; [done|]. intros ->.
      eapply lists_inv_less_not_more; eauto.
  - destruct (scan_victim (heap_ r) (more_k_list r)) as [[p node]|] eqn:Hmore;
      [|by split].
    apply scan_victim_Some in Hmore as (Hin & Hd & He). simpl.
    split; [exact Hh|]. simpl. intros Hk. specialize (Hl Hk).
    destruct (li_more r Hl p Hin) as (n & Hn & Hsn & Hc).
    unfold deref in *. assert (n = node) by congruence. subst n.
    eapply lists_inv_delete; eauto.
    + intros q. split; [|tauto]. intros Hq. split; [done|]. intros ->.
      eapply lists_inv_less_not_more; eauto.
    + intros q. apply elem_of_list_remove.
Qed.

Lemma Remove_inv f r : inv r -> inv (state_after (Remove f r)).
Proof.
  intros [Hh Hl]. unfold Remove.
  destruct (negb (frame_id_ok f r)); [by split|].
  destruct (find_node r f) as [[p node]|] eqn:Hfind; [|by split].
  apply find_node_Some in Hfind as [Hs Hd].
  destruct (negb (is_evictable node)); [by split|].
  destruct (get_access_count node <? k_ r) eqn:Hc;
    [apply Z.ltb_lt in Hc | apply Z.ltb_ge in Hc]; simpl.
  - split; [exact Hh|]. simpl. intros Hk. specialize (Hl Hk).
    eapply lists_inv_delete; eauto.
    + intros q. apply elem_of_list_remove.
    + intros q. split; [|tauto]. intros Hq. split; [done|]. intros ->.
      destruct (li_more r Hl p Hq) as (n & Hn & _ & Hcn).
      unfold deref in *. assert (n = node) by congruence. by subst.
  - split; [exact Hh|]. simpl. intros Hk. specialize (Hl Hk).
    eapply lists_inv_delete; eauto.
    + intros q. split; [|tauto]. intros Hq. split; [done|]. intros ->.
      destruct (li_less r Hl p Hq) as (n & Hn & _ & Hcn).
      unfold deref in *. assert (n = node) by congruence. subst. lia.
    + intros q. apply elem_of_list_remove.
Qed.

Lemma mbind_state_after {S A B} (m : M S A) (b : B) s :
  state_after (mbind m (fun _ => mret b) s) = state_after (m s).
Proof. unfold mbind, mret. by destruct (m s). Qed.

Lemma exec_op_inv dflt o r : inv r -> inv (state_after (exec_op dflt o r)).
Proof.
  intros H. destruct o; simpl; rewrite ?mbind_state_after.
  - by apply RecordAccess_inv.
  - by apply SetEvictable_inv.
  - by apply Evict_inv.
  - by apply Remove_inv.
Qed.

Lemma run_inv dflt ops r : inv r -> inv (run dflt ops r).1.
Proof.
  revert r. induction ops as [|o ops IH]; intros r H; simpl; [done|].
  pose proof (exec_op_inv dflt o r H) as H'.
  destruct (exec_op dflt o r) as [v r' | e r']; simpl in H'.
  - specialize (IH r' H'). by destruct (run dflt ops r').
  - by apply IH.
Qed.

(** For K <= 1 no node has fewer than K accesses. *)
Lemma heap_inv_no_sub_k r p n :
  heap_inv r -> k_ r <= 1 -> deref (heap_ r) p = Some n ->
  ~ get_access_count n < k_ r.
Proof.
  intros Hh Hk Hd Hc. destruct (Hh p n Hd) as [_ Hne].
  unfold get_access_count in Hc.
  destruct (history_ n) eqn:E; simpl in Hc; [|lia].
  assert (k_ r = 1) by lia. apply Hne; [lia | done].
Qed.

Lemma tracked_fun r f n m : tracked r f n -> tracked r f m -> n = m.
Proof.
  intros (p & Hp & Hn) (q & Hq & Hm). unfold deref in *. congruence.
Qed.

(** ** Victim selection *)

(** C6. In every state the replacer reaches from its construction, if some
    tracked node is evictable and has fewer than K recorded accesses, then
    [Evict] does not fail, a frame it returns is a tracked evictable frame
    with fewer than K recorded accesses (so never one with K or more), and
    it returns no frame only when the counter [curr_size_] is zero. *)
Theorem evict_prefers_sub_k dflt num_frames k ops r f n :
  r = (run dflt ops (init num_frames k)).1 ->
  tracked r f n -> is_evictable n = true -> get_access_count n < k_ r ->
  match Evict r with
  | Ret (Some g) _ =>
      exists m, tracked r g m /\ is_evictable m = true /\ get_access_count m < k_ r
  | Ret None _ => curr_size_ r = 0
  | Fail _ _ => False
  end.
Proof.
  intros Hr (p & Hp & Hn) He Hc.
  assert (Hinv : inv r) by (subst r; apply run_inv, inv_init).
  destruct Hinv as [Hh Hl].
  destruct (decide (k_ r <= 1)) as [Hk1 | Hk2].
  { exfalso. by eapply heap_inv_no_sub_k. }
  assert (Hk : 2 <= k_ r) by lia. specialize (Hl Hk).
  assert (Hin : p ∈ less_k_list r) by (eapply li_class; eauto).
  unfold Evict. destruct (curr_size_ r =? 0) eqn:E0; [by apply Z.eqb_eq|].
  destruct (scan_victim (heap_ r) (less_k_list r)) as [[q node]|] eqn:Hs.
  - apply scan_victim_Some in Hs as (Hq & Hd & Hev).
    destruct (li_less r Hl q Hq) as (m & Hm & Hsm & Hcm).
    unfold deref in *. assert (m = node) by congruence. subst m.
    exists node. split; [|done]. by exists q.
  - pose proof (scan_victim_None _ _ _ _ Hs Hin Hn). congruence.
Qed.

Lemma evict_prefers_sub_k_witness :
  match Evict (run false [OpRecordAccess 1; OpRecordAccess 1; OpSetEvictable 1 true;
                          OpRecordAccess 2; OpSetEvictable 2 true] (init 7 2)).1 with
  | Ret (Some g) _ =>
      exists m,
        tracked (run false [OpRecordAccess 1; OpRecordAccess 1; OpSetEvictable 1 true;
                            OpRecordAccess 2; OpSetEvictable 2 true] (init 7 2)).1 g m
        /\ is_evictable m = true
        /\ get_access_count m
           < k_ (run false [OpRecordAccess 1; OpRecordAccess 1; OpSetEvictable 1 true;
                            OpRecordAccess 2; OpSetEvictable 2 true] (init 7 2)).1
  | Ret None _ =>
      curr_size_ (run false [OpRecordAccess 1; OpRecordAccess 1; OpSetEvictable 1 true;
                             OpRecordAccess 2; OpSetEvictable 2 true] (init 7 2)).1 = 0
  | Fail _ _ => False
  end.
Proof.
  apply (evict_prefers_sub_k false 7 2
           [OpRecordAccess 1; OpRecordAccess 1; OpSetEvictable 1 true;
            OpRecordAccess 2; OpSetEvictable 2 true]
           _ 2 (mkNode [3] 2 2 true) eq_refl).
  - exists 1%nat. split; vm_compute; reflexivity.
  - reflexivity.
  - vm_compute. reflexivity.
Defined.

(** ** Counting the evictable tracked nodes *)

Lemma weight_deref heap p n :
  deref heap p = Some n -> weight heap p = if is_evictable n then 1 else 0.
Proof.
  intros H. unfold weight, evictableP. simpl.
  destruct (decide _) as [Hd | Hd]; rewrite H in Hd.
  - by rewrite Hd.
  - by destruct (is_evictable n).
Qed.

Lemma count_in_ext heap heap' (m : gmap Z ptr) :
  (forall g q, m !! g = Some q -> deref heap q = deref heap' q) ->
  count_in heap m = count_in heap' m.
Proof.
  intros H. unfold count_in. f_equal. f_equal.
  apply map_filter_ext. intros g q Hg. unfold evictableP. simpl.
  by rewrite (H g q Hg).
Qed.

Lemma count_in_insert_fresh heap (m : gmap Z ptr) f p :
  m !! f = None -> count_in heap (<[f := p]> m) = count_in heap m + weight heap p.
Proof.
  intros Hf. unfold count_in, weight. rewrite map_filter_insert.
  assert (Hiff : evictableP heap (f, p) <-> evictableP heap (0, p)) by done.
  destruct (decide (evictableP heap (f, p))) as [He | He];
    destruct (decide (evictableP heap (0, p))) as [He' | He']; try tauto.
  - rewrite map_size_insert_None; [lia|].
    rewrite map_lookup_filter, Hf. done.
  - rewrite delete_id by done. lia.
Qed.

Lemma count_in_delete heap (m : gmap Z ptr) f p :
  m !! f = Some p -> count_in heap m = count_in heap (delete f m) + weight heap p.
Proof.
  intros Hf. rewrite <- (insert_id m f p Hf) at 1.
  rewrite <- insert_delete_eq. apply count_in_insert_fresh, lookup_delete_eq.
Qed.

(** A change of the node behind [p], which only [f] points to. *)
Lemma count_in_update heap (m : gmap Z ptr) f p node' :
  m !! f = Some p ->
  (forall g q, m !! g = Some q -> q = p -> g = f) ->
  is_Some (deref heap p) ->
  count_in (<[p := node']> heap) m
  = count_in heap m - weight heap p + (if is_evictable node' then 1 else 0).
Proof.
  intros Hf Hinj [node Hd].
  rewrite (count_in_delete heap m f p Hf).
  rewrite (count_in_delete (<[p := node']> heap) m f p Hf).
  rewrite (weight_deref (<[p := node']> heap) p node') by (by eapply deref_insert_eq).
  rewrite (count_in_ext (<[p := node']> heap) heap (delete f m)); [lia|].
  intros g q Hg. apply lookup_delete_Some in Hg as [Hne Hg].
  apply deref_insert_ne. intros ->. apply Hne. symmetry. by apply (Hinj g p).
Qed.

Lemma lists_inv_inj r f p :
  lists_inv r -> node_store_ r !! f = Some p ->
  forall g q, node_store_ r !! g = Some q -> q = p -> g = f.
Proof.
  intros [Hst _ _ _] Hf g q Hg ->.
  destruct (Hst f p Hf) as (n & Hn & Hfn).
  destruct (Hst g p Hg) as (n' & Hn' & Hfn'). unfold deref in *. congruence.
Qed.

Lemma wrap64_sub_l a b : wrap64 (wrap64 a - b) = wrap64 (a - b).
Proof. unfold wrap64. apply Zminus_mod_idemp_l. Qed.

Lemma RecordAccess_size dflt f r :
  inv r -> 2 <= k_ r ->
  wrap64 (curr_size_ (state_after (RecordAccess dflt f r))
          - count_evictable (state_after (RecordAccess dflt f r)))
  = wrap64 (curr_size_ r - count_evictable r
            + (if creates (OpRecordAccess f) r && negb dflt then 1 else 0)).
Proof.
  intros [Hh Hl] Hk. specialize (Hl Hk). unfold RecordAccess, creates.
  destruct (frame_id_ok f r); simpl; [|f_equal; lia].
  destruct (find_node r f) as [[p node]|] eqn:Hfind.
  - rewrite bool_decide_eq_false_2 by done. simpl.
    apply find_node_Some in Hfind as [Hs Hd].
    assert (Hcnt : forall ts,
              count_in (<[p := add_timestamp ts node]> (heap_ r)) (node_store_ r)
              = count_evictable r).
    { intros ts. rewrite (count_in_update _ _ f p); eauto using lists_inv_inj.
      rewrite (weight_deref _ _ _ Hd), add_timestamp_evictable.
      unfold count_evictable. lia. }
    destruct (get_access_count node <? k_ r);
      [destruct (get_access_count (add_timestamp _ node) =? k_ r)|];
      simpl; unfold count_evictable at 1; simpl; rewrite Hcnt; f_equal; lia.
  - rewrite bool_decide_eq_true_2 by done. simpl.
    unfold count_evictable at 1. simpl.
    rewrite count_in_insert_fresh by (by apply find_node_None_store).
    rewrite (weight_deref _ _ _ (deref_snoc_new _ _)).
    rewrite add_timestamp_evictable. simpl.
    rewrite (count_in_ext _ (heap_ r)).
    + rewrite wrap64_sub_l. fold (count_evictable r).
      destruct dflt; simpl; f_equal; lia.
    + intros g q Hg. destruct (li_store r Hl g q Hg) as (n & Hn & _).
      rewrite Hn. by apply deref_snoc_old.
Qed.

Lemma SetEvictable_size f flag r :
  inv r -> 2 <= k_ r ->
  wrap64 (curr_size_ (state_after (SetEvictable f flag r))
          - count_evictable (state_after (SetEvictable f flag r)))
  = wrap64 (curr_size_ r - count_evictable r).
Proof.
  intros [Hh Hl] Hk. specialize (Hl Hk). unfold SetEvictable.
  destruct (negb (frame_id_ok f r)); [done|].
  destruct (find_node r f) as [[p node]|] eqn:Hfind; [|done].
  apply find_node_Some in Hfind as [Hs Hd].
  destruct (Bool.eqb (is_evictable node) flag) eqn:E; [done|].
  apply eqb_false_iff in E. simpl. unfold count_evictable at 1. simpl.
  rewrite (count_in_update _ _ f p); eauto using lists_inv_inj.
  rewrite (weight_deref _ _ _ Hd). fold (count_evictable r).
  destruct flag, (is_evictable node); try congruence; simpl;
    rewrite wrap64_sub_l; f_equal; lia.
Qed.

Lemma delete_size r f p node ts less' more' :
  node_store_ r !! f = Some p -> deref (heap_ r) p = Some node ->
  is_evictable node = true ->
  wrap64 (wrap64 (curr_size_ r - 1)
          - count_evictable (mkReplacer (heap_ r) (delete f (node_store_ r)) ts
                               (wrap64 (curr_size_ r - 1)) (replacer_size_ r) (k_ r)
                               less' more'))
  = wrap64 (curr_size_ r - count_evictable r).
Proof.
  intros Hs Hd He. unfold count_evictable. simpl.
  rewrite (count_in_delete (heap_ r) (node_store_ r) f p Hs).
  rewrite (weight_deref _ _ _ Hd), He. rewrite wrap64_sub_l. f_equal. lia.
Qed.

Lemma Evict_size r :
  inv r -> 2 <= k_ r ->
  wrap64 (curr_size_ (state_after (Evict r)) - count_evictable (state_after (Evict r)))
  = wrap64 (curr_size_ r - count_evictable r).
Proof.
  intros [Hh Hl] Hk. specialize (Hl Hk). unfold Evict.
  destruct (curr_size_ r =? 0); [done|].
  destruct (scan_victim (heap_ r) (less_k_list r)) as [[p node]|] eqn:Hless.
  - apply scan_victim_Some in Hless as (Hin & Hd & He). simpl.
    destruct (li_less r Hl p Hin) as (n & Hn & Hsn & Hc).
    unfold deref in *. assert (n = node) by congruence. subst n.
    by eapply delete_size.
  - destruct (scan_victim (heap_ r) (more_k_list r)) as [[p node]|] eqn:Hmore; [|done].
    apply scan_victim_Some in Hmore as (Hin & Hd & He). simpl.
    destruct (li_more r Hl p Hin) as (n & Hn & Hsn & Hc).
    unfold deref in *. assert (n = node) by congruence. subst n.
    by eapply delete_size.
Qed.

Lemma Remove_size f r :
  inv r -> 2 <= k_ r ->
  wrap64 (curr_size_ (state_after (Remove f r)) - count_evictable (state_after (Remove f r)))
  = wrap64 (curr_size_ r - count_evictable r).
Proof.
  intros [Hh Hl] Hk. specialize (Hl Hk). unfold Remove.
  destruct (negb (frame_id_ok f r)); [done|].
  destruct (find_node r f) as [[p node]|] eqn:Hfind; [|done].
  apply find_node_Some in Hfind as [Hs Hd].
  destruct (is_evictable node) eqn:He; [|done]. simpl.
  destruct (get_access_count node <? k_ r); simpl; by eapply delete_size.
Qed.

Lemma exec_op_size dflt o r :
  inv r -> 2 <= k_ r ->
  wrap64 (curr_size_ (state_after (exec_op dflt o r))
          - count_evictable (state_after (exec_op dflt o r)))
  = wrap64 (curr_size_ r - count_evictable r
            + (if creates o r && negb dflt then 1 else 0)).
Proof.
  intros Hinv Hk.
  destruct o; simpl exec_op; rewrite ?mbind_state_after.
  - by apply RecordAccess_size.
  - rewrite SetEvictable_size by done. simpl. f_equal. lia.
  - rewrite Evict_size by done. simpl. f_equal. lia.
  - rewrite Remove_size by done. simpl. f_equal. lia.
Qed.

Lemma exec_op_k dflt o r : k_ (state_after (exec_op dflt o r)) = k_ r.
Proof.
  destruct o; simpl exec_op; rewrite ?mbind_state_after.
  - unfold RecordAccess. destruct (negb _); [done|].
    destruct (find_node r frame_id) as [[p node]|]; [|done].
    destruct (_ <? _); [destruct (_ =? _)|]; done.
  - unfold SetEvictable. destruct (negb _); [done|].
    destruct (find_node r frame_id) as [[p node]|]; [|done].
    by destruct (Bool.eqb _ _).
  - unfold Evict. destruct (_ =? _); [done|].
    destruct (scan_victim _ (less_k_list r)) as [[p node]|]; [done|].
    by destruct (scan_victim _ (more_k_list r)) as [[p node]|].
  - unfold Remove. destruct (negb _); [done|].
    destruct (find_node r frame_id) as [[p node]|]; [|done].
    destruct (negb _); [done|]. by destruct (_ <? _).
Qed.

Lemma exec_op_size_range dflt o r :
  0 <= curr_size_ r < 2 ^ 64 ->
  0 <= curr_size_ (state_after (exec_op dflt o r)) < 2 ^ 64.
Proof.
  intros Hr.
  assert (Hw : forall z, 0 <= wrap64 z < 2 ^ 64)
    by (intros z; unfold wrap64; apply Z.mod_pos_bound; lia).
  destruct o; simpl exec_op; rewrite ?mbind_state_after.
  - unfold RecordAccess. destruct (negb _); [done|].
    destruct (find_node r frame_id) as [[p node]|]; [|simpl; apply Hw].
    destruct (_ <? _); [destruct (_ =? _)|]; done.
  - unfold SetEvictable. destruct (negb _); [done|].
    destruct (find_node r frame_id) as [[p node]|]; [|done].
    destruct (Bool.eqb _ _); [done|]. simpl. destruct flag; apply Hw.
  - unfold Evict. destruct (_ =? _); [done|].
    destruct (scan_victim _ (less_k_list r)) as [[p node]|]; [simpl; apply Hw|].
    destruct (scan_victim _ (more_k_list r)) as [[p node]|]; [simpl; apply Hw | done].
  - unfold Remove. destruct (negb _); [done|].
    destruct (find_node r frame_id) as [[p node]|]; [|done].
    destruct (negb _); [done|]. destruct (_ <? _); simpl; apply Hw.
Qed.

Lemma run_step dflt o ops r :
  (run dflt (o :: ops) r).1 = (run dflt ops (state_after (exec_op dflt o r))).1.
Proof.
  simpl. destruct (exec_op dflt o r) as [v r' | e r']; simpl; [|done].
  by destruct (run dflt ops r').
Qed.

Lemma run_size dflt ops r :
  inv r -> 2 <= k_ r -> 0 <= curr_size_ r < 2 ^ 64 ->
  0 <= curr_size_ (run dflt ops r).1 < 2 ^ 64 /\
  wrap64 (curr_size_ (run dflt ops r).1 - count_evictable (run dflt ops r).1)
  = wrap64 (curr_size_ r - count_evictable r
            + (if dflt then 0 else created dflt ops r)).
Proof.
  revert r. induction ops as [|o ops IH]; intros r Hinv Hk Hr.
  - simpl. split; [done|]. f_equal. destruct dflt; lia.
  - rewrite run_step.
    destruct (IH (state_after (exec_op dflt o r))) as [IH1 IH2].
    + by apply exec_op_inv.
    + by rewrite exec_op_k.
    + by apply exec_op_size_range.
    + split; [done|]. rewrite IH2. simpl created.
      rewrite <- wrap64_succ_l. rewrite exec_op_size by done.
      rewrite wrap64_succ_l. f_equal.
      destruct dflt, (creates o r); simpl; lia.
Qed.

(** ** The counter behind [Size] *)

(** C1 (as amended). For K >= 2, after any sequence of operations on a
    freshly constructed replacer, [Size()] is, modulo 2^64, the number of
    tracked nodes whose evictable flag is set, plus, when a fresh node's
    flag starts as false, the number of nodes [RecordAccess] has created:
    [RecordAccess] counts the node it creates at once. *)
Theorem size_accounting dflt num_frames k ops :
  2 <= k ->
  Size (run dflt ops (init num_frames k)).1
  = wrap64 (count_evictable (run dflt ops (init num_frames k)).1
            + (if dflt then 0 else created dflt ops (init num_frames k))).
Proof.
  intros Hk.
  destruct (run_size dflt ops (init num_frames k)) as [Hr Heq].
  - apply inv_init.
  - done.
  - simpl. lia.
  - unfold Size. rewrite <- (wrap64_small _ Hr).
    set (r := (run dflt ops (init num_frames k)).1) in *.
    replace (curr_size_ r) with (curr_size_ r - count_evictable r + count_evictable r)
      at 1 by lia.
    rewrite <- wrap64_succ_l, Heq, wrap64_succ_l.
    f_equal. change (count_evictable (init num_frames k)) with 0. simpl. lia.
Qed.

Lemma size_accounting_witness :
  Size (run false [OpRecordAccess 1; OpSetEvictable 1 true; OpRecordAccess 2]
          (init 7 2)).1
  = wrap64 (count_evictable
              (run false [OpRecordAccess 1; OpSetEvictable 1 true; OpRecordAccess 2]
                 (init 7 2)).1
            + created false [OpRecordAccess 1; OpSetEvictable 1 true; OpRecordAccess 2]
                (init 7 2)).
Proof.
  apply (size_accounting false 7 2
           [OpRecordAccess 1; OpSetEvictable 1 true; OpRecordAccess 2]).
  lia.
Defined.

(** With the evictable flag of a fresh node false, as the data model has
    it, one [RecordAccess] on a new replacer gives [Size() = 1] although no
    tracked node is evictable; [SetEvictable(1, true)] then gives 2 for one
    evictable node. *)
Lemma size_counts_fresh_node :
  Size (run false [OpRecordAccess 1] (init 7 2)).1 = 1 /\
  count_evictable (run false [OpRecordAccess 1] (init 7 2)).1 = 0 /\
  Size (run false [OpRecordAccess 1; OpSetEvictable 1 true] (init 7 2)).1 = 2 /\
  count_evictable (run false [OpRecordAccess 1; OpSetEvictable 1 true] (init 7 2)).1 = 1.
Proof. repeat split; vm_compute; reflexivity. Qed.

(** For K = 1 the counter and the evictable nodes part ways even when a
    fresh node starts evictable: the node created with one access (= K) is
    put on the sub-K list, [Remove] takes it off the full-K list only, and
    [Evict] later finds the stale pointer. *)
Lemma size_k1_stale_pointer :
  (run true [OpRecordAccess 0; OpRemove 0; OpRecordAccess 0; OpSetEvictable 0 false;
             OpRecordAccess 1; OpEvict] (init 7 1)).2 = [Some 0] /\
  Size (run true [OpRecordAccess 0; OpRemove 0; OpRecordAccess 0; OpSetEvictable 0 false;
                  OpRecordAccess 1; OpEvict] (init 7 1)).1 = 0 /\
  count_evictable
    (run true [OpRecordAccess 0; OpRemove 0; OpRecordAccess 0; OpSetEvictable 0 false;
               OpRecordAccess 1; OpEvict] (init 7 1)).1 = 1.
Proof. repeat split; vm_compute; reflexivity. Qed.

(** ** The check of the frame id *)

(** C5 (as amended). Each of [RecordAccess], [SetEvictable] and [Remove]
    compares the frame id with [static_cast<frame_id_t>(replacer_size_)] and
    with nothing else. In every replacer it stops at its assertion, with the
    state untouched, exactly for the frame ids at or above that bound; every
    smaller id, the negative ones included, passes the check: [RecordAccess]
    then returns, and [SetEvictable] and [Remove] on an id that is not
    tracked return without changing the state. The bound is [num_frames]
    itself in a replacer built for fewer than 2^31 frames; for
    [num_frames = 2^31] it is [-2^31], so that frame 0 is refused. *)
Theorem frame_id_precondition dflt r f flag :
  (to_frame_id_t (replacer_size_ r) <= f ->
     RecordAccess dflt f r = Fail AssertionFailure r /\
     SetEvictable f flag r = Fail AssertionFailure r /\
     Remove f r = Fail AssertionFailure r) /\
  (f < to_frame_id_t (replacer_size_ r) ->
     (exists r', RecordAccess dflt f r = Ret tt r') /\
     (node_store_ r !! f = None ->
        SetEvictable f flag r = Ret tt r /\ Remove f r = Ret tt r)) /\
  (0 <= replacer_size_ r < 2 ^ 31 ->
     to_frame_id_t (replacer_size_ r) = replacer_size_ r) /\
  (replacer_size_ r = 2 ^ 31 -> to_frame_id_t (replacer_size_ r) = - 2 ^ 31).
Proof.
  split; [|split; [|split]].
  - intros Hf. unfold RecordAccess, SetEvictable, Remove, frame_id_ok.
    destruct (f <? to_frame_id_t (replacer_size_ r)) eqn:E; [|done].
    apply Z.ltb_lt in E. lia.
  - intros Hf. unfold RecordAccess, SetEvictable, Remove, frame_id_ok.
    apply Z.ltb_lt in Hf. rewrite Hf. simpl. split.
    + destruct (find_node r f) as [[p node]|]; [|eauto].
      destruct (get_access_count node <? k_ r); [|eauto].
      destruct (get_access_count _ =? k_ r); eauto.
    + intros Hs. unfold find_node. by rewrite Hs.
  - intros Hn. apply to_frame_id_t_small. lia.
  - intros ->. reflexivity.
Qed.

Lemma frame_id_precondition_witness :
  (RecordAccess false 7 (init 7 2) = Fail AssertionFailure (init 7 2) /\
   SetEvictable 7 true (init 7 2) = Fail AssertionFailure (init 7 2) /\
   Remove 7 (init 7 2) = Fail AssertionFailure (init 7 2)) /\
  ((exists r', RecordAccess false (-3) (init 7 2) = Ret tt r') /\
   SetEvictable (-3) true (init 7 2) = Ret tt (init 7 2) /\
   Remove (-3) (init 7 2) = Ret tt (init 7 2)) /\
  RecordAccess false 0 (init (2 ^ 31) 2) = Fail AssertionFailure (init (2 ^ 31) 2).
Proof.
  split; [|split].
  - apply (frame_id_precondition false (init 7 2) 7 true). vm_compute. discriminate.
  - destruct (frame_id_precondition false (init 7 2) (-3) true) as (_ & Hlow & _).
    destruct Hlow as [Hra Hun]; [reflexivity|].
    split; [exact Hra|]. apply Hun. reflexivity.
  - apply (frame_id_precondition false (init (2 ^ 31) 2) 0 true).
    vm_compute. discriminate.
Defined.

(** The frame id -1 lies outside [0, 7), yet [RecordAccess] accepts it and
    creates a node for it. *)
Lemma negative_frame_id_accepted :
  exists r', RecordAccess false (-1) (init 7 2) = Ret tt r' /\
             node_store_ r' !! (-1) = Some 0%nat /\ Size r' = 1.
Proof. eexists. repeat split; vm_compute; reflexivity. Qed.

(** ** Symbolic execution of a run *)

Lemma run_snd_cons dflt o ops r :
  (run dflt (o :: ops) r).2 =
  match exec_op dflt o r with
  | Ret v r' => match o with OpEvict => [v] | _ => [] end ++ (run dflt ops r').2
  | Fail _ r' => (run dflt ops r').2
  end.
Proof.
  simpl. destruct (exec_op dflt o r) as [v r'|e r']; [|done].
  destruct (run dflt ops r'). by destruct o.
Qed.

Lemma exec_RecordAccess_new dflt f r :
  f < to_frame_id_t (replacer_size_ r) -> node_store_ r !! f = None ->
  exec_op dflt (OpRecordAccess f) r =
  Ret None
    (mkReplacer
       (heap_ r ++ [add_timestamp (wrap64 (current_timestamp_ r + 1))
                      (new_node dflt f (k_ r))])
       (<[f := length (heap_ r)]> (node_store_ r))
       (wrap64 (current_timestamp_ r + 1)) (wrap64 (curr_size_ r + 1))
       (replacer_size_ r) (k_ r)
       (length (heap_ r) :: less_k_list r) (more_k_list r)).
Proof.
  intros Hf Hs. simpl. unfold mbind, RecordAccess, frame_id_ok, find_node.
  apply Z.ltb_lt in Hf. rewrite Hf, Hs. reflexivity.
Qed.

Lemma exec_RecordAccess_known dflt f r p node :
  f < to_frame_id_t (replacer_size_ r) -> node_store_ r !! f = Some p ->
  deref (heap_ r) p = Some node ->
  exec_op dflt (OpRecordAccess f) r =
  Ret None
   (let ts := wrap64 (current_timestamp_ r + 1) in
    let node' := add_timestamp ts node in
    let heap' := <[p := node']> (heap_ r) in
    if get_access_count node <? k_ r then
      if get_access_count node' =? k_ r then
        mkReplacer heap' (node_store_ r) ts (curr_size_ r) (replacer_size_ r) (k_ r)
          (list_remove p (less_k_list r))
          (more_k_list_push_node heap' p node' (more_k_list r))
      else
        mkReplacer heap' (node_store_ r) ts (curr_size_ r) (replacer_size_ r) (k_ r)
          (p :: list_remove p (less_k_list r)) (more_k_list r)
    else
      mkReplacer heap' (node_store_ r) ts (curr_size_ r) (replacer_size_ r) (k_ r)
        (less_k_list r)
        (more_k_list_push_node heap' p node' (list_remove p (more_k_list r)))).
Proof.
  intros Hf Hs Hd. simpl. unfold mbind, RecordAccess, frame_id_ok, find_node.
  apply Z.ltb_lt in Hf. rewrite Hf, Hs, Hd. simpl.
  destruct (get_access_count node <? k_ r); [|reflexivity].
  destruct (get_access_count _ =? k_ r); reflexivity.
Qed.

Lemma exec_SetEvictable_known dflt f flag r p node :
  f < to_frame_id_t (replacer_size_ r) -> node_store_ r !! f = Some p ->
  deref (heap_ r) p = Some node ->
  exec_op dflt (OpSetEvictable f flag) r =
  Ret None
    (if Bool.eqb (is_evictable node) flag then r
     else mkReplacer (<[p := set_evictable flag node]> (heap_ r)) (node_store_ r)
            (current_timestamp_ r)
            (if flag then wrap64 (curr_size_ r + 1) else wrap64 (curr_size_ r - 1))
            (replacer_size_ r) (k_ r) (less_k_list r) (more_k_list r)).
Proof.
  intros Hf Hs Hd. simpl. unfold mbind, SetEvictable, frame_id_ok, find_node.
  apply Z.ltb_lt in Hf. rewrite Hf, Hs, Hd. simpl.
  destruct (Bool.eqb _ _); reflexivity.
Qed.

Lemma exec_Evict_more dflt r p node :
  (curr_size_ r =? 0) = false ->
  scan_victim (heap_ r) (less_k_list r) = None ->
  scan_victim (heap_ r) (more_k_list r) = Some (p, node) ->
  exec_op dflt OpEvict r =
  Ret (Some (get_fid node))
    (mkReplacer (heap_ r) (delete (get_fid node) (node_store_ r)) (current_timestamp_ r)
       (wrap64 (curr_size_ r - 1)) (replacer_size_ r) (k_ r)
       (less_k_list r) (list_remove p (more_k_list r))).
Proof. intros H0 H1 H2. simpl. unfold Evict. by rewrite H0, H1, H2. Qed.

#[local] Arguments run : simpl never.

Ltac lookups :=
  repeat first
    [ rewrite lookup_insert_eq
    | rewrite lookup_insert_ne by congruence
    | rewrite lookup_delete_eq
    | rewrite lookup_delete_ne by congruence
    | rewrite lookup_empty ].

Ltac side := simpl; lookups; first [done | reflexivity].

(** Normalise every field of the state but the map of symbolic keys. *)
Ltac norm_state :=
  match goal with
  | |- context [mkReplacer ?h ?s ?t ?c ?n ?k ?l ?m] =>
      let h' := eval vm_compute in h in
      let t' := eval vm_compute in t in
      let c' := eval vm_compute in c in
      let l' := eval vm_compute in l in
      let m' := eval vm_compute in m in
      change (mkReplacer h s t c n k l m) with (mkReplacer h' s t' c' n k l' m')
  end.

Ltac exec_step :=
  first [ rewrite exec_RecordAccess_new by side
        | erewrite exec_RecordAccess_known by side
        | erewrite exec_SetEvictable_known by side
        | erewrite exec_Evict_more by (vm_compute; reflexivity) ];
  simpl; try norm_state.

(** C7. With K = 2 and four distinct valid frames a, b, c, d accessed in
    the order a b c d a b c d: the accesses carry the timestamps 1 to 8,
    the full-K list then holds d, c, b, a from front to back, that is,
    sorted by the oldest timestamp of each history (4, 3, 2, 1), and once
    the four frames are marked evictable four calls of [Evict], which scans
    from the back, return a, b, c, d. *)
Theorem evict_order_abcd dflt num_frames a b c d :
  a < to_frame_id_t num_frames -> b < to_frame_id_t num_frames ->
  c < to_frame_id_t num_frames -> d < to_frame_id_t num_frames ->
  a <> b -> a <> c -> a <> d -> b <> c -> b <> d -> c <> d ->
  (let r8 := (run dflt [OpRecordAccess a; OpRecordAccess b; OpRecordAccess c;
                        OpRecordAccess d; OpRecordAccess a; OpRecordAccess b;
                        OpRecordAccess c; OpRecordAccess d] (init num_frames 2)).1 in
   current_timestamp_ r8 = 8 /\
   less_k_list r8 = [] /\
   map (fun p => (fun n => (get_fid n, history_ n)) <$> deref (heap_ r8) p)
       (more_k_list r8)
   = [Some (d, [4; 8]); Some (c, [3; 7]); Some (b, [2; 6]); Some (a, [1; 5])]) /\
  (run dflt [OpRecordAccess a; OpRecordAccess b; OpRecordAccess c; OpRecordAccess d;
             OpRecordAccess a; OpRecordAccess b; OpRecordAccess c; OpRecordAccess d;
             OpSetEvictable a true; OpSetEvictable b true;
             OpSetEvictable c true; OpSetEvictable d true;
             OpEvict; OpEvict; OpEvict; OpEvict] (init num_frames 2)).2
  = [Some a; Some b; Some c; Some d].
Proof.
  intros Ha Hb Hc Hd Hab Hac Had Hbc Hbd Hcd. unfold init. split.
  - cbv zeta. do 8 (rewrite run_step; exec_step; unfold state_after).
    unfold run. simpl. done.
  - do 8 (rewrite run_snd_cons; exec_step).
    destruct dflt; repeat (rewrite run_snd_cons; exec_step); reflexivity.
Qed.

Lemma evict_order_abcd_witness :
  (let r8 := (run false [OpRecordAccess 0; OpRecordAccess 1; OpRecordAccess 2;
                         OpRecordAccess 3; OpRecordAccess 0; OpRecordAccess 1;
                         OpRecordAccess 2; OpRecordAccess 3] (init 7 2)).1 in
   current_timestamp_ r8 = 8 /\
   less_k_list r8 = [] /\
   map (fun p => (fun n => (get_fid n, history_ n)) <$> deref (heap_ r8) p)
       (more_k_list r8)
   = [Some (3, [4; 8]); Some (2, [3; 7]); Some (1, [2; 6]); Some (0, [1; 5])]) /\
  (run false [OpRecordAccess 0; OpRecordAccess 1; OpRecordAccess 2; OpRecordAccess 3;
              OpRecordAccess 0; OpRecordAccess 1; OpRecordAccess 2; OpRecordAccess 3;
              OpSetEvictable 0 true; OpSetEvictable 1 true;
              OpSetEvictable 2 true; OpSetEvictable 3 true;
              OpEvict; OpEvict; OpEvict; OpEvict] (init 7 2)).2
  = [Some 0; Some 1; Some 2; Some 3].
Proof.
  apply (evict_order_abcd false 7 0 1 2 3); first [reflexivity | lia].
Defined.

(** ** Facts for every K, as the buffer pool needs them *)

Lemma store_ok_init num_frames k : store_ok (init num_frames k).
Proof. intros f q H. simpl in H. by rewrite lookup_empty in H. Qed.

Lemma deref_valid heap q : (q < length heap)%nat -> is_Some (deref heap q).
Proof. intros H. unfold deref. by apply lookup_lt_is_Some. Qed.

Lemma find_node_None_ok r f :
  store_ok r -> find_node r f = None -> node_store_ r !! f = None.
Proof.
  intros Hok H. unfold find_node in H.
  destruct (node_store_ r !! f) as [q|] eqn:E; [|done].
  destruct (Hok f q E) as [Hlt _]. destruct (deref_valid _ _ Hlt) as [n Hn].
  by rewrite Hn in H.
Qed.

Lemma store_ok_update r p node' ts cs rs k less' more' :
  store_ok r ->
  store_ok (mkReplacer (<[p := node']> (heap_ r)) (node_store_ r) ts cs rs k less' more').
Proof.
  intros Hok f q Hq. simpl in *. destruct (Hok f q Hq) as [Hlt Hinj].
  split; [by rewrite length_insert | done].
Qed.

Lemma tracked_update_other r f p node' ts cs rs k less' more' h n :
  store_ok r -> node_store_ r !! f = Some p -> h <> f ->
  tracked (mkReplacer (<[p := node']> (heap_ r)) (node_store_ r) ts cs rs k less' more') h n ->
  tracked r h n.
Proof.
  intros Hok Hs Hne (q & Hq & Hn). simpl in *. exists q. split; [done|].
  rewrite deref_insert_ne in Hn; [done|]. intros ->.
  destruct (Hok f p Hs) as [_ Hinj]. apply Hne. by apply Hinj.
Qed.

Lemma store_ok_delete r g ts cs rs k less' more' :
  store_ok r ->
  store_ok (mkReplacer (heap_ r) (delete g (node_store_ r)) ts cs rs k less' more').
Proof.
  intros Hok f q Hq. simpl in *. apply lookup_delete_Some in Hq as [_ Hq].
  destruct (Hok f q Hq) as [Hlt Hinj]. split; [done|].
  intros h Hh. apply lookup_delete_Some in Hh as [_ Hh]. by apply Hinj.
Qed.

Lemma tracked_delete r g ts cs rs k less' more' h n :
  tracked (mkReplacer (heap_ r) (delete g (node_store_ r)) ts cs rs k less' more') h n ->
  tracked r h n.
Proof.
  intros (q & Hq & Hn). simpl in *. apply lookup_delete_Some in Hq as [_ Hq]. by exists q.
Qed.

Lemma store_ok_new r f x ts cs rs k less' more' :
  store_ok r -> node_store_ r !! f = None ->
  store_ok (mkReplacer (heap_ r ++ [x]) (<[f := length (heap_ r)]> (node_store_ r))
              ts cs rs k less' more').
Proof.
  intros Hok Hnone g q Hq. simpl in *.
  apply lookup_insert_Some in Hq as [[<- <-] | [Hne Hq]].
  - split; [rewrite length_app; simpl; lia|].
    intros h Hh. apply lookup_insert_Some in Hh as [[<- _] | [Hne Hh]]; [done|].
    destruct (Hok h _ Hh) as [Hlt _]. lia.
  - destruct (Hok g q Hq) as [Hlt Hinj]. split; [rewrite length_app; simpl; lia|].
    intros h Hh. apply lookup_insert_Some in Hh as [[<- <-] | [Hne' Hh]]; [lia|].
    by apply Hinj.
Qed.

Lemma tracked_new_other r f x ts cs rs k less' more' h n :
  store_ok r -> h <> f ->
  tracked (mkReplacer (heap_ r ++ [x]) (<[f := length (heap_ r)]> (node_store_ r))
             ts cs rs k less' more') h n ->
  tracked r h n.
Proof.
  intros Hok Hne (q & Hq & Hn). simpl in *.
  rewrite lookup_insert_ne in Hq by done. exists q. split; [done|].
  destruct (Hok h q Hq) as [Hlt _].
  destruct (deref_snoc _ _ _ _ Hn) as [Hn' | [-> _]]; [done | lia].
Qed.

Lemma RecordAccess_Ret dflt f r r' :
  RecordAccess dflt f r = Ret tt r' ->
  frame_id_ok f r = true /\ replacer_size_ r' = replacer_size_ r /\
  (store_ok r -> store_ok r') /\
  (store_ok r -> forall h n, h <> f -> tracked r' h n -> tracked r h n).
Proof.
  unfold RecordAccess. destruct (frame_id_ok f r) eqn:Hok; [|done]. simpl.
  destruct (find_node r f) as [[p node]|] eqn:Hfind.
  - apply find_node_Some in Hfind as [Hs Hd].
    destruct (get_access_count node <? k_ r);
      [destruct (get_access_count _ =? k_ r)|]; intros [= <-];
      (split; [done|]; split; [done|]; split;
       [apply store_ok_update | intros Hsok h n Hne; by eapply tracked_update_other]).
  - intros [= <-]. split; [done|]. split; [done|]. split.
    + intros Hsok. apply store_ok_new; [done|]. by apply find_node_None_ok.
    + intros Hsok h n Hne. by apply tracked_new_other.
Qed.

Lemma SetEvictable_Ret f flag r r' :
  SetEvictable f flag r = Ret tt r' ->
  frame_id_ok f r = true /\ replacer_size_ r' = replacer_size_ r /\
  (store_ok r -> store_ok r') /\
  (store_ok r -> forall h n, h <> f -> tracked r' h n -> tracked r h n) /\
  (forall n, tracked r' f n -> is_evictable n = flag).
Proof.
  unfold SetEvictable. destruct (frame_id_ok f r) eqn:Hok; [|done]. simpl.
  destruct (find_node r f) as [[p node]|] eqn:Hfind.
  - apply find_node_Some in Hfind as [Hs Hd].
    destruct (Bool.eqb (is_evictable node) flag) eqn:E.
    + intros [= <-]. apply eqb_prop in E.
      split; [done|]. split; [done|]. split; [done|]. split; [done|].
      intros n (q & Hq & Hn). unfold deref in *. congruence.
    + intros [= <-]. split; [done|]. split; [done|]. split; [apply store_ok_update|].
      split; [intros Hsok h n Hne; by eapply tracked_update_other|].
      intros n (q & Hq & Hn). simpl in *.
      assert (q = p) by congruence. subst q.
      rewrite (deref_insert_eq _ _ node) in Hn by done. by injection Hn as <-.
  - intros [= <-]. split; [done|]. split; [done|]. split; [done|]. split; [done|].
    intros n (q & Hq & Hn). unfold find_node in Hfind. by rewrite Hq, Hn in Hfind.
Qed.

Lemma Evict_Ret v r r' :
  Evict r = Ret v r' ->
  replacer_size_ r' = replacer_size_ r /\
  (store_ok r -> store_ok r') /\
  (forall h n, tracked r' h n -> tracked r h n) /\
  (forall f, v = Some f -> node_store_ r' !! f = None).
Proof.
  unfold Evict. destruct (curr_size_ r =? 0).
  { intros [= <- <-]. split; [done|]. split; [done|]. split; done. }
  destruct (scan_victim _ (less_k_list r)) as [[p n]|].
  { intros [= <- <-]. split; [done|]. split; [apply store_ok_delete|].
    split; [intros h m; apply tracked_delete|].
    intros f [= <-]. apply lookup_delete_eq. }
  destruct (scan_victim _ (more_k_list r)) as [[p n]|].
  { intros [= <- <-]. split; [done|]. split; [apply store_ok_delete|].
    split; [intros h m; apply tracked_delete|].
    intros f [= <-]. apply lookup_delete_eq. }
  intros [= <- <-]. split; [done|]. split; [done|]. split; done.
Qed.

Lemma Remove_Ret f r r' :
  Remove f r = Ret tt r' ->
  replacer_size_ r' = replacer_size_ r /\
  (store_ok r -> store_ok r') /\
  (forall h n, tracked r' h n -> tracked r h n) /\
  (store_ok r -> node_store_ r' !! f = None).
Proof.
  unfold Remove. destruct (negb (frame_id_ok f r)); [done|].
  destruct (find_node r f) as [[p node]|] eqn:Hfind.
  - destruct (negb (is_evictable node)); [done|].
    destruct (get_access_count node <? k_ r); intros [= <-];
      (split; [done|]; split; [apply store_ok_delete|];
       split; [intros h m; apply tracked_delete|]; intros _; apply lookup_delete_eq).
  - intros [= <-]. split; [done|]. split; [done|]. split; [done|].
    intros Hok. by apply find_node_None_ok.
Qed.

(** [Remove] returns when the frame passes the check and its node, if it is
    tracked, is evictable. *)
Lemma Remove_returns f r :
  frame_id_ok f r = true ->
  (forall n, tracked r f n -> is_evictable n = true) ->
  exists r', Remove f r = Ret tt r'.
Proof.
  intros Hok Hev. unfold Remove. rewrite Hok. simpl.
  destruct (find_node r f) as [[p node]|] eqn:Hfind; [|eauto].
  apply find_node_Some in Hfind as [Hs Hd].
  rewrite (Hev node) by (by exists p). simpl.
  destruct (get_access_count node <? k_ r); eauto.
Qed.

Lemma frame_id_ok_size f r r' :
  replacer_size_ r' = replacer_size_ r -> frame_id_ok f r' = frame_id_ok f r.
Proof. intros H. unfold frame_id_ok. by rewrite H. Qed.

(** ** The frames the nodes stand for *)

Lemma heap_fids_update P r p node node' ts cs rs k less' more' :
  heap_fids P r -> deref (heap_ r) p = Some node -> get_fid node' = get_fid node ->
  heap_fids P (mkReplacer (<[p := node']> (heap_ r)) (node_store_ r) ts cs rs k less' more').
Proof.
  intros Hh Hd Hfid a n Ha. simpl in Ha.
  destruct (deref_insert_inv _ _ _ _ _ _ Hd Ha) as [[-> ->] | [_ Ha']].
  - rewrite Hfid. by apply (Hh p).
  - by apply (Hh a).
Qed.

Lemma RecordAccess_heap_fids P dflt f r r' :
  RecordAccess dflt f r = Ret tt r' -> P f -> heap_fids P r -> heap_fids P r'.
Proof.
  unfold RecordAccess. destruct (negb (frame_id_ok f r)); [done|].
  destruct (find_node r f) as [[p node]|] eqn:Hfind.
  - apply find_node_Some in Hfind as [Hs Hd].
    destruct (get_access_count node <? k_ r);
      [destruct (get_access_count _ =? k_ r)|]; intros [= <-] HP Hh;
      by eapply heap_fids_update.
  - intros [= <-] HP Hh a n Ha. simpl in Ha.
    destruct (deref_snoc _ _ _ _ Ha) as [Ha' | [_ ->]]; [by apply (Hh a) | done].
Qed.

Lemma SetEvictable_heap_fids P f flag r r' :
  SetEvictable f flag r = Ret tt r' -> heap_fids P r -> heap_fids P r'.
Proof.
  unfold SetEvictable. destruct (negb (frame_id_ok f r)); [done|].
  destruct (find_node r f) as [[p node]|] eqn:Hfind; [|by intros [= <-]].
  apply find_node_Some in Hfind as [Hs Hd].
  destruct (Bool.eqb (is_evictable node) flag); intros [= <-] Hh; [done|].
  by eapply heap_fids_update.
Qed.

Lemma Evict_heap_fids P v r r' :
  Evict r = Ret v r' -> heap_fids P r ->
  heap_fids P r' /\ forall g, v = Some g -> P g.
Proof.
  unfold Evict. destruct (curr_size_ r =? 0); [by intros [= <- <-]|].
  destruct (scan_victim _ (less_k_list r)) as [[p n]|] eqn:Hl.
  { intros [= <- <-] Hh. split; [done|]. intros g [= <-].
    apply scan_victim_Some in Hl as (_ & Hd & _). by apply (Hh p). }
  destruct (scan_victim _ (more_k_list r)) as [[p n]|] eqn:Hm.
  { intros [= <- <-] Hh. split; [done|]. intros g [= <-].
    apply scan_victim_Some in Hm as (_ & Hd & _). by apply (Hh p). }
  by intros [= <- <-].
Qed.

Lemma Remove_heap_fids P f r r' :
  Remove f r = Ret tt r' -> heap_fids P r -> heap_fids P r'.
Proof.
  unfold Remove. destruct (negb (frame_id_ok f r)); [done|].
  destruct (find_node r f) as [[p node]|]; [|by intros [= <-]].
  destruct (negb (is_evictable node)); [done|].
  by destruct (get_access_count node <? k_ r); intros [= <-].
Qed.

Lemma RecordAccess_returns dflt f r :
  frame_id_ok f r = true -> exists r', RecordAccess dflt f r = Ret tt r'.
Proof.
  intros Hok. unfold RecordAccess. rewrite Hok. simpl.
  destruct (find_node r f) as [[p node]|]; [|eauto].
  destruct (get_access_count node <? k_ r); [|eauto].
  destruct (get_access_count _ =? k_ r); eauto.
Qed.

Lemma SetEvictable_returns f flag r :
  frame_id_ok f r = true -> exists r', SetEvictable f flag r = Ret tt r'.
Proof.
  intros Hok. unfold SetEvictable. rewrite Hok. simpl.
  destruct (find_node r f) as [[q node]|]; [|eauto].
  destruct (Bool.eqb (is_evictable node) flag); eauto.
Qed.

(** ** The order of eviction *)

Lemma key_of_deref heap key p n : deref heap p = Some n -> key_of heap key p = key n.
Proof. intros H. unfold key_of. by rewrite H. Qed.

Lemma key_of_insert_ne heap key p q n' :
  q <> p -> key_of (<[p := n']> heap) key q = key_of heap key q.
Proof. intros H. unfold key_of. by rewrite deref_insert_ne. Qed.

Lemma key_of_insert_same heap key p n n' q :
  deref heap p = Some n -> key n' = key n ->
  key_of (<[p := n']> heap) key q = key_of heap key q.
Proof.
  intros Hp Hk. destruct (decide (q = p)) as [-> | Hne].
  - unfold key_of. by rewrite (deref_insert_eq _ _ n), Hp.
  - by apply key_of_insert_ne.
Qed.

Lemma key_of_snoc heap key x q :
  is_Some (deref heap q) -> key_of (heap ++ [x]) key q = key_of heap key q.
Proof. intros [n Hn]. unfold key_of. by rewrite (deref_snoc_old _ _ _ _ Hn), Hn. Qed.

Lemma fmap_ext_elem {A B} (f g : A -> B) (l : list A) :
  (forall x, x ∈ l -> f x = g x) -> f <$> l = g <$> l.
Proof.
  induction l as [|a l IH]; intros H; [done|]. simpl. f_equal.
  - apply H. left.
  - apply IH. intros x Hx. apply H. by right.
Qed.

Lemma sorted_list_remove {B} (R : relation B) (f : ptr -> B) p l :
  StronglySorted R (f <$> l) -> StronglySorted R (f <$> list_remove p l).
Proof.
  induction l as [|a l IH]; simpl; intros H; [constructor|].
  apply StronglySorted_inv in H as [Hs Hf].
  destruct (negb (a =? p)%nat); simpl; [|auto].
  constructor; [auto|].
  rewrite Forall_fmap in *. rewrite Forall_forall in *.
  intros x Hx. apply Hf. apply elem_of_list_remove in Hx. tauto.
Qed.

Lemma insert_before_sorted heap (key : LRUKNode -> Z) x node l :
  deref heap x = Some node ->
  (forall q, q ∈ l -> is_Some (deref heap q)) ->
  StronglySorted Z.ge (key_of heap key <$> l) ->
  StronglySorted Z.ge
    (key_of heap key <$> insert_before heap (fun n => key n <? key node) x l).
Proof.
  intros Hx. induction l as [|q l IH]; intros Hval Hs; simpl.
  - repeat constructor.
  - rewrite fmap_cons in Hs. apply StronglySorted_inv in Hs as [Hs Hf].
    destruct (Hval q ltac:(left)) as [n Hn]. rewrite Hn.
    destruct (key n <? key node) eqn:E; [apply Z.ltb_lt in E | apply Z.ltb_ge in E].
    + rewrite !fmap_cons. constructor; [by constructor|].
      rewrite (key_of_deref _ _ _ _ Hx), (key_of_deref _ _ _ _ Hn).
      constructor; [lia|]. rewrite (key_of_deref _ _ _ _ Hn) in Hf.
      eapply Forall_impl; [exact Hf|]. simpl. intros; lia.
    + rewrite fmap_cons. constructor.
      * apply IH; [|done]. intros r Hr. apply Hval. by right.
      * rewrite Forall_fmap, Forall_forall. intros r Hr.
        apply elem_of_insert_before in Hr as [-> | Hr]; simpl.
        -- rewrite (key_of_deref _ _ _ _ Hx), (key_of_deref _ _ _ _ Hn). lia.
        -- rewrite Forall_fmap, Forall_forall in Hf. by apply Hf.
Qed.

Lemma find_if_split heap pred l p n :
  find_if heap pred l = Some (p, n) ->
  exists l1 l2, l = l1 ++ p :: l2 /\
    forall q m, q ∈ l1 -> deref heap q = Some m -> pred m = false.
Proof.
  induction l as [|a l IH]; simpl; [done|].
  destruct (deref heap a) as [m|] eqn:Hd.
  - destruct (pred m) eqn:Hp.
    + intros [= <- <-]. exists [], l. split; [done|]. intros q m' Hq. by apply elem_of_nil in Hq.
    + intros H. destruct (IH H) as (l1 & l2 & -> & Hl1). exists (a :: l1), l2.
      split; [done|]. intros q m' Hq Hm'. apply elem_of_cons in Hq as [-> | Hq]; [congruence | eauto].
  - intros H. destruct (IH H) as (l1 & l2 & -> & Hl1). exists (a :: l1), l2.
    split; [done|]. intros q m' Hq Hm'. apply elem_of_cons in Hq as [-> | Hq]; [congruence | eauto].
Qed.

(** The victim of a scan of a sorted list has the least key among the
    evictable nodes of the list. *)
Lemma scan_victim_least heap (key : LRUKNode -> Z) l p n q m :
  StronglySorted Z.ge (key_of heap key <$> l) ->
  scan_victim heap l = Some (p, n) ->
  q ∈ l -> deref heap q = Some m -> is_evictable m = true ->
  key n <= key m.
Proof.
  intros Hs Hscan Hq Hm He.
  pose proof (scan_victim_Some _ _ _ _ Hscan) as (_ & Hn & _).
  unfold scan_victim in Hscan. destruct l as [|a l']; [done|].
  apply find_if_split in Hscan as (l1 & l2 & Hrev & Hl1).
  assert (Hl : a :: l' = rev l2 ++ p :: rev l1).
  { rewrite <- (rev_involutive (a :: l')), Hrev, rev_app_distr. simpl.
    by rewrite <- app_assoc. }
  rewrite Hl in Hs, Hq. clear Hl Hrev.
  apply elem_of_app in Hq as [Hq | Hq].
  - rewrite fmap_app in Hs. simpl in Hs.
    assert (H := StronglySorted_app_1_elem_of Z.ge _ _ (key_of heap key q)
                   (key_of heap key p) Hs).
    rewrite (key_of_deref _ _ _ _ Hm), (key_of_deref _ _ _ _ Hn) in H.
    assert (key m >= key n); [|lia]. apply H.
    + apply list_elem_of_fmap. exists q. by rewrite (key_of_deref _ _ _ _ Hm).
    + left.
  - apply elem_of_cons in Hq as [-> | Hq].
    + assert (m = n) by congruence. subst. lia.
    + exfalso. rewrite list_elem_of_In, <- in_rev, <- list_elem_of_In in Hq.
      specialize (Hl1 q m Hq Hm). congruence.
Qed.

(** ** The history of a node *)

Lemma last_bound (h : list Z) c :
  Forall (fun t => 1 <= t <= c) h -> 0 <= c -> List.last h 0 <= c.
Proof.
  intros Hf Hc. induction h as [|a h IH]; simpl; [done|].
  apply Forall_cons in Hf as [Ha Hf]. destruct h; [lia | auto].
Qed.

Lemma sorted_tl (h : list Z) : StronglySorted Z.lt h -> StronglySorted Z.lt (tl h).
Proof. destruct h; simpl; [done|]. by intros [? _]%StronglySorted_inv. Qed.

Lemma Forall_tl {A} (P : A -> Prop) (h : list A) : Forall P h -> Forall P (tl h).
Proof. destruct h; simpl; [done|]. by intros [_ ?]%Forall_cons. Qed.

Lemma add_timestamp_hist ts n cur :
  StronglySorted Z.lt (history_ n) -> Forall (fun t => 1 <= t <= cur) (history_ n) ->
  0 <= cur -> ts = cur + 1 ->
  StronglySorted Z.lt (history_ (add_timestamp ts n)) /\
  Forall (fun t => 1 <= t <= ts) (history_ (add_timestamp ts n)).
Proof.
  intros Hs Hf Hc ->.
  assert (Hs' : StronglySorted Z.lt (history_ n ++ [cur + 1])).
  { apply StronglySorted_app_2; [|done|repeat constructor].
    intros x y Hx Hy%list_elem_of_singleton. subst y.
    rewrite Forall_forall in Hf. specialize (Hf x Hx). lia. }
  assert (Hf' : Forall (fun t => 1 <= t <= cur + 1) (history_ n ++ [cur + 1])).
  { apply Forall_app. split.
    - eapply Forall_impl; [exact Hf|]. simpl. intros; lia.
    - repeat constructor; lia. }
  unfold add_timestamp. simpl.
  destruct (node_k_ n <? _); [split; [by apply sorted_tl | by apply Forall_tl] | done].
Qed.

Lemma add_timestamp_last ts n :
  1 <= node_k_ n -> get_most_recent_timestamp (add_timestamp ts n) = ts.
Proof.
  intros Hk. unfold get_most_recent_timestamp, add_timestamp. simpl.
  destruct (history_ n) as [|a h] eqn:Hh.
  - destruct (node_k_ n <? _) eqn:E; [|done].
    apply Z.ltb_lt in E. simpl in E. lia.
  - destruct (node_k_ n <? _); simpl tl.
    + apply last_last.
    + change (a :: h ++ [ts]) with ((a :: h) ++ [ts]). apply last_last.
Qed.

Lemma add_timestamp_bound ts n k :
  node_k_ n = k -> get_access_count n <= k -> get_access_count (add_timestamp ts n) <= k.
Proof.
  intros Hk Hc. rewrite add_timestamp_count, Hk.
  destruct (k <? get_access_count n + 1) eqn:E; [lia | apply Z.ltb_ge in E; lia].
Qed.

(** ** The order of the two lists is kept *)

Lemma keys_insert_ne heap key p n' (l : list ptr) :
  p ∉ l -> key_of (<[p := n']> heap) key <$> l = key_of heap key <$> l.
Proof.
  intros Hp. apply fmap_ext_elem. intros q Hq. apply key_of_insert_ne. by intros ->.
Qed.

Lemma not_elem_of_list_remove p l : p ∉ list_remove p l.
Proof. intros H%elem_of_list_remove. tauto. Qed.

Lemma order_hist_update r p node node' ts :
  order_inv r -> deref (heap_ r) p = Some node ->
  current_timestamp_ r <= ts ->
  (StronglySorted Z.lt (history_ node') /\
   Forall (fun t => 1 <= t <= ts) (history_ node') /\
   get_access_count node' <= k_ r) ->
  forall q n, deref (<[p := node']> (heap_ r)) q = Some n ->
    StronglySorted Z.lt (history_ n) /\
    Forall (fun t => 1 <= t <= ts) (history_ n) /\
    get_access_count n <= k_ r.
Proof.
  intros Ho Hd Hts Hnew q n Hq.
  destruct (deref_insert_inv _ _ _ _ _ _ Hd Hq) as [[-> ->] | [_ Hq']]; [done|].
  destruct (oi_hist r Ho q n Hq') as (H1 & H2 & H3).
  split; [done|]. split; [|done]. eapply Forall_impl; [exact H2|]. simpl. intros; lia.
Qed.

Lemma less_keys_bound r q :
  lists_inv r -> order_inv r -> 0 <= current_timestamp_ r -> q ∈ less_k_list r ->
  key_of (heap_ r) get_most_recent_timestamp q <= current_timestamp_ r.
Proof.
  intros Hl Ho Hc Hq. destruct (li_less r Hl q Hq) as (n & Hn & _).
  rewrite (key_of_deref _ _ _ _ Hn). apply last_bound; [|done].
  by destruct (oi_hist r Ho q n Hn) as (_ & H & _).
Qed.

Ltac proj_r :=
  cbn [state_after heap_ node_store_ current_timestamp_ curr_size_ replacer_size_ k_
       less_k_list more_k_list].

Lemma RecordAccess_order dflt f r :
  inv r -> 2 <= k_ r -> order_inv r ->
  0 <= current_timestamp_ r -> current_timestamp_ r + 1 < 2 ^ 64 ->
  order_inv (state_after (RecordAccess dflt f r)).
Proof.
  intros [Hh Hl] Hk Ho Hc0 Hc1. specialize (Hl Hk). unfold RecordAccess.
  destruct (negb (frame_id_ok f r)); [done|].
  rewrite (wrap64_small (current_timestamp_ r + 1)) by lia.
  set (ts := current_timestamp_ r + 1).
  destruct (find_node r f) as [[p node]|] eqn:Hfind.
  - apply find_node_Some in Hfind as [Hs Hd].
    set (node' := add_timestamp ts node).
    destruct (Hh p node Hd) as [Hnk Hne].
    destruct (oi_hist r Ho p node Hd) as (Hsort & Hbound & Hcount).
    assert (Hnew : StronglySorted Z.lt (history_ node') /\
                   Forall (fun t => 1 <= t <= ts) (history_ node') /\
                   get_access_count node' <= k_ r).
    { destruct (add_timestamp_hist ts node (current_timestamp_ r)) as [H1 H2];
        [done | done | done | done |].
      split; [done|]. split; [done|]. by apply add_timestamp_bound. }
    assert (Hhist := order_hist_update r p node node' ts Ho Hd ltac:(lia) Hnew).
    assert (Hd' : deref (<[p := node']> (heap_ r)) p = Some node')
      by (by eapply deref_insert_eq).
    assert (Hvalid : forall q, q ∈ more_k_list r -> q <> p ->
              is_Some (deref (<[p := node']> (heap_ r)) q)).
    { intros q Hq Hne'. rewrite deref_insert_ne by done.
      destruct (li_more r Hl q Hq) as (n & Hn & _). eauto. }
    destruct (get_access_count node <? k_ r) eqn:Hlt;
      [apply Z.ltb_lt in Hlt | apply Z.ltb_ge in Hlt].
    + assert (Hpless : p ∈ less_k_list r) by (eapply li_class; eauto).
      assert (Hpmore : p ∉ more_k_list r).
      { intros Hin. eapply lists_inv_less_not_more; eauto. }
      destruct (get_access_count node' =? k_ r) eqn:Heq;
        [apply Z.eqb_eq in Heq | apply Z.eqb_neq in Heq]; proj_r.
      * split; proj_r; [done | | |].
        -- rewrite keys_insert_ne by apply not_elem_of_list_remove.
           apply sorted_list_remove, (oi_less r Ho).
        -- unfold more_k_list_push_node. apply insert_before_sorted; [done | |].
           ++ intros q Hq. apply Hvalid; [done|]. by intros ->.
           ++ rewrite keys_insert_ne by done. apply (oi_more r Ho).
        -- intros g q n Hg Hn Hcn. unfold more_k_list_push_node.
           apply elem_of_insert_before.
           destruct (deref_insert_inv _ _ _ _ _ _ Hd Hn) as [[-> ->] | [Hne' Hn']];
             [by left | right]. eapply (oi_class r Ho); eauto.
      * split; proj_r; [done | | |].
        -- rewrite fmap_cons. constructor.
           ++ rewrite keys_insert_ne by apply not_elem_of_list_remove.
              apply sorted_list_remove, (oi_less r Ho).
           ++ rewrite (key_of_deref _ _ _ _ Hd').
              unfold node'. rewrite add_timestamp_last by lia.
              rewrite Forall_fmap, Forall_forall. intros q Hq. simpl.
              apply elem_of_list_remove in Hq as [Hq Hne'].
              rewrite key_of_insert_ne by done.
              pose proof (less_keys_bound r q Hl Ho Hc0 Hq). lia.
        -- rewrite keys_insert_ne by done. apply (oi_more r Ho).
        -- intros g q n Hg Hn Hcn.
           destruct (deref_insert_inv _ _ _ _ _ _ Hd Hn) as [[-> ->] | [Hne' Hn']].
           ++ destruct Hnew as (_ & _ & Hle). lia.
           ++ eapply (oi_class r Ho); eauto.
    + assert (Hpless : p ∉ less_k_list r).
      { intros Hin. destruct (li_less r Hl p Hin) as (n & Hn & _ & Hcn).
        unfold deref in *. assert (n = node) by congruence. subst. lia. }
      proj_r. split; proj_r; [done | | |].
      * rewrite keys_insert_ne by done. apply (oi_less r Ho).
      * unfold more_k_list_push_node. apply insert_before_sorted; [done | |].
        -- intros q Hq. apply elem_of_list_remove in Hq as [Hq Hne']. by apply Hvalid.
        -- rewrite keys_insert_ne by apply not_elem_of_list_remove.
           apply sorted_list_remove, (oi_more r Ho).
      * intros g q n Hg Hn Hcn. unfold more_k_list_push_node.
        apply elem_of_insert_before.
        destruct (deref_insert_inv _ _ _ _ _ _ Hd Hn) as [[-> ->] | [Hne' Hn']];
          [by left | right]. apply elem_of_list_remove. split; [|done].
        eapply (oi_class r Ho); eauto.
  - proj_r. set (n0 := add_timestamp ts (new_node dflt f (k_ r))).
    assert (Hn0 : history_ n0 = [ts]).
    { unfold n0, add_timestamp. simpl.
      destruct (k_ r <? Z.of_nat 1) eqn:E; [apply Z.ltb_lt in E; lia | done]. }
    assert (Hold : forall key (l : list ptr),
              (forall q, q ∈ l -> is_Some (deref (heap_ r) q)) ->
              key_of (heap_ r ++ [n0]) key <$> l = key_of (heap_ r) key <$> l).
    { intros key l Hv. apply fmap_ext_elem. intros q Hq. by apply key_of_snoc, Hv. }
    assert (Hvl : forall q, q ∈ less_k_list r -> is_Some (deref (heap_ r) q)).
    { intros q Hq. destruct (li_less r Hl q Hq) as (n & Hn & _). eauto. }
    assert (Hvm : forall q, q ∈ more_k_list r -> is_Some (deref (heap_ r) q)).
    { intros q Hq. destruct (li_more r Hl q Hq) as (n & Hn & _). eauto. }
    split; proj_r.
    + intros q n Hq. destruct (deref_snoc _ _ _ _ Hq) as [Hq' | [-> ->]].
      * destruct (oi_hist r Ho q n Hq') as (H1 & H2 & H3).
        split; [done|]. split; [|done]. eapply Forall_impl; [exact H2|]. simpl. intros; lia.
      * rewrite Hn0. split; [repeat constructor|]. split; [repeat constructor; lia|].
        unfold get_access_count. rewrite Hn0. simpl. lia.
    + rewrite fmap_cons. constructor.
      * rewrite Hold by done. apply (oi_less r Ho).
      * rewrite Hold by done. rewrite (key_of_deref _ _ _ _ (deref_snoc_new _ _)).
        assert (Hts : get_most_recent_timestamp n0 = ts)
          by (unfold get_most_recent_timestamp; by rewrite Hn0).
        rewrite Hts, Forall_fmap, Forall_forall. intros q Hq. simpl.
        pose proof (less_keys_bound r q Hl Ho Hc0 Hq). lia.
    + rewrite Hold by done. apply (oi_more r Ho).
    + intros g q n Hg Hn Hcn. apply lookup_insert_Some in Hg as [[<- <-] | [Hne Hg]].
      * rewrite deref_snoc_new in Hn. injection Hn as <-.
        unfold get_access_count in Hcn. rewrite Hn0 in Hcn. simpl in Hcn. lia.
      * destruct (li_store r Hl g q Hg) as (n' & Hn' & _).
        rewrite (deref_snoc_old _ _ _ _ Hn') in Hn. injection Hn as <-.
        eapply (oi_class r Ho); eauto.
Qed.

Lemma order_same_keys r p node node' cs less' more' :
  order_inv r -> deref (heap_ r) p = Some node -> history_ node' = history_ node ->
  less' = less_k_list r -> more' = more_k_list r ->
  order_inv (mkReplacer (<[p := node']> (heap_ r)) (node_store_ r) (current_timestamp_ r) cs
               (replacer_size_ r) (k_ r) less' more').
Proof.
  intros Ho Hd Hhist -> ->.
  assert (Hkey : forall key : LRUKNode -> Z, (forall n m, history_ n = history_ m -> key n = key m) ->
            forall l : list ptr,
              key_of (<[p := node']> (heap_ r)) key <$> l = key_of (heap_ r) key <$> l).
  { intros key Hk l. apply fmap_ext_elem. intros q _.
    eapply key_of_insert_same; eauto. }
  split; simpl.
  - intros q n Hq.
    destruct (deref_insert_inv _ _ _ _ _ _ Hd Hq) as [[-> ->] | [_ Hq']].
    + unfold get_access_count. rewrite Hhist. apply (oi_hist r Ho p node Hd).
    + by apply (oi_hist r Ho q n).
  - rewrite Hkey; [apply (oi_less r Ho)|].
    intros n m H. unfold get_most_recent_timestamp. by rewrite H.
  - rewrite Hkey; [apply (oi_more r Ho)|].
    intros n m H. unfold get_least_recent_timestamp. by rewrite H.
  - intros g q n Hg Hn Hcn.
    destruct (deref_insert_inv _ _ _ _ _ _ Hd Hn) as [[-> ->] | [_ Hn']].
    + eapply (oi_class r Ho); eauto. unfold get_access_count in *. by rewrite <- Hhist.
    + eapply (oi_class r Ho); eauto.
Qed.

Lemma SetEvictable_order f flag r :
  order_inv r -> order_inv (state_after (SetEvictable f flag r)).
Proof.
  intros Ho. unfold SetEvictable.
  destruct (negb (frame_id_ok f r)); [done|].
  destruct (find_node r f) as [[p node]|] eqn:Hfind; [|done].
  apply find_node_Some in Hfind as [Hs Hd].
  destruct (Bool.eqb (is_evictable node) flag); [done|]. simpl.
  by eapply order_same_keys.
Qed.

Lemma order_delete r p f node cs less' more' :
  lists_inv r -> order_inv r ->
  node_store_ r !! f = Some p -> deref (heap_ r) p = Some node ->
  (less' = less_k_list r \/ less' = list_remove p (less_k_list r)) ->
  (more' = more_k_list r \/ more' = list_remove p (more_k_list r)) ->
  order_inv (mkReplacer (heap_ r) (delete f (node_store_ r)) (current_timestamp_ r) cs
               (replacer_size_ r) (k_ r) less' more').
Proof.
  intros Hl Ho Hs Hd Hless Hmore. split; simpl.
  - apply (oi_hist r Ho).
  - destruct Hless as [-> | ->]; [|apply sorted_list_remove]; apply (oi_less r Ho).
  - destruct Hmore as [-> | ->]; [|apply sorted_list_remove]; apply (oi_more r Ho).
  - intros g q n Hg Hn Hcn. apply lookup_delete_Some in Hg as [Hne Hg].
    assert (Hq : q ∈ more_k_list r) by (eapply (oi_class r Ho); eauto).
    destruct Hmore as [-> | ->]; [done|]. apply elem_of_list_remove. split; [done|].
    intros ->. destruct (li_store r Hl g p Hg) as (n1 & Hn1 & Hf1).
    destruct (li_store r Hl f p Hs) as (n2 & Hn2 & Hf2). unfold deref in *. congruence.
Qed.

Lemma Evict_order r :
  inv r -> 2 <= k_ r -> order_inv r -> order_inv (state_after (Evict r)).
Proof.
  intros [Hh Hl] Hk Ho. specialize (Hl Hk). unfold Evict.
  destruct (curr_size_ r =? 0); [done|].
  destruct (scan_victim (heap_ r) (less_k_list r)) as [[p node]|] eqn:Hless.
  - apply scan_victim_Some in Hless as (Hin & Hd & He). simpl.
    destruct (li_less r Hl p Hin) as (n & Hn & Hsn & Hc).
    unfold deref in *. assert (n = node) by congruence. subst n.
    eapply order_delete; eauto.
  - destruct (scan_victim (heap_ r) (more_k_list r)) as [[p node]|] eqn:Hmore; [|done].
    apply scan_victim_Some in Hmore as (Hin & Hd & He). simpl.
    destruct (li_more r Hl p Hin) as (n & Hn & Hsn & Hc).
    unfold deref in *. assert (n = node) by congruence. subst n.
    eapply order_delete; eauto.
Qed.

Lemma Remove_order f r :
  inv r -> 2 <= k_ r -> order_inv r -> order_inv (state_after (Remove f r)).
Proof.
  intros [Hh Hl] Hk Ho. specialize (Hl Hk). unfold Remove.
  destruct (negb (frame_id_ok f r)); [done|].
  destruct (find_node r f) as [[p node]|] eqn:Hfind; [|done].
  apply find_node_Some in Hfind as [Hs Hd].
  destruct (negb (is_evictable node)); [done|].
  destruct (get_access_count node <? k_ r); simpl; eapply order_delete; eauto.
Qed.

Lemma exec_op_timestamp dflt o r :
  0 <= current_timestamp_ r -> current_timestamp_ r + 1 < 2 ^ 64 ->
  current_timestamp_ r <= current_timestamp_ (state_after (exec_op dflt o r))
  <= current_timestamp_ r + 1.
Proof.
  intros H0 H1. destruct o; simpl exec_op; rewrite ?mbind_state_after.
  - unfold RecordAccess. destruct (negb _); [simpl; lia|].
    rewrite (wrap64_small (current_timestamp_ r + 1)) by lia.
    destruct (find_node r frame_id) as [[p node]|]; [|simpl; lia].
    destruct (_ <? _); [destruct (_ =? _)|]; simpl; lia.
  - unfold SetEvictable. destruct (negb _); [simpl; lia|].
    destruct (find_node r frame_id) as [[p node]|]; [|simpl; lia].
    destruct (Bool.eqb _ _); simpl; lia.
  - unfold Evict. destruct (_ =? _); [simpl; lia|].
    destruct (scan_victim _ (less_k_list r)) as [[p node]|]; [simpl; lia|].
    destruct (scan_victim _ (more_k_list r)) as [[p node]|]; simpl; lia.
  - unfold Remove. destruct (negb _); [simpl; lia|].
    destruct (find_node r frame_id) as [[p node]|]; [|simpl; lia].
    destruct (negb _); [simpl; lia|]. destruct (_ <? _); simpl; lia.
Qed.

Lemma exec_op_order dflt o r :
  inv r -> 2 <= k_ r -> order_inv r ->
  0 <= current_timestamp_ r -> current_timestamp_ r + 1 < 2 ^ 64 ->
  order_inv (state_after (exec_op dflt o r)).
Proof.
  intros Hinv Hk Ho H0 H1. destruct o; simpl exec_op; rewrite ?mbind_state_after.
  - by apply RecordAccess_order.
  - by apply SetEvictable_order.
  - by apply Evict_order.
  - by apply Remove_order.
Qed.

Lemma run_order dflt ops r :
  inv r -> 2 <= k_ r -> order_inv r ->
  0 <= current_timestamp_ r -> current_timestamp_ r + Z.of_nat (length ops) < 2 ^ 64 ->
  order_inv (run dflt ops r).1.
Proof.
  revert r. induction ops as [|o ops IH]; intros r Hinv Hk Ho H0 H1; [done|].
  rewrite run_step. simpl length in H1.
  pose proof (exec_op_timestamp dflt o r H0 ltac:(lia)) as Hts.
  apply IH.
  - by apply exec_op_inv.
  - by rewrite exec_op_k.
  - apply exec_op_order; auto. lia.
  - lia.
  - lia.
Qed.

Lemma order_inv_init num_frames k : order_inv (init num_frames k).
Proof.
  split; simpl.
  - intros p n H. by destruct p.
  - constructor.
  - constructor.
  - intros f p n H. by rewrite lookup_empty in H.
Qed.


Lemma run_k dflt ops r : k_ (run dflt ops r).1 = k_ r.
Proof.
  revert r. induction ops as [|o ops IH]; intros r; [done|].
  by rewrite run_step, IH, exec_op_k.
Qed.

Lemma reachable_order dflt num_frames k ops :
  2 <= k -> Z.of_nat (length ops) < 2 ^ 64 ->
  inv (run dflt ops (init num_frames k)).1 /\
  lists_inv (run dflt ops (init num_frames k)).1 /\
  order_inv (run dflt ops (init num_frames k)).1 /\
  k_ (run dflt ops (init num_frames k)).1 = k.
Proof.
  intros Hk Hlen.
  assert (Hinv : inv (run dflt ops (init num_frames k)).1) by apply run_inv, inv_init.
  assert (Hkr : k_ (run dflt ops (init num_frames k)).1 = k) by apply run_k.
  split; [done|]. split; [apply Hinv; lia|]. split; [|done].
  apply run_order; simpl; [apply inv_init | done | apply order_inv_init | lia | lia].
Qed.

(** ** The eviction policy *)

(** X9. LRU among the frames with fewer than K accesses. In a replacer reached
    from the constructor (K >= 2, fewer than 2^64 calls, so that the clock
    has not wrapped), if some tracked evictable frame has fewer than K
    accesses then the frame [Evict] returns is tracked, evictable, has fewer
    than K accesses, and its most recent access is no later than that of any
    such frame. *)
Theorem evict_sub_k_least_recent dflt num_frames k ops r f r' g m :
  2 <= k -> Z.of_nat (length ops) < 2 ^ 64 ->
  r = (run dflt ops (init num_frames k)).1 ->
  Evict r = Ret (Some f) r' ->
  tracked r g m -> is_evictable m = true -> get_access_count m < k ->
  exists n, tracked r f n /\ is_evictable n = true /\ get_access_count n < k /\
            get_most_recent_timestamp n <= get_most_recent_timestamp m.
Proof.
  intros Hk Hlen -> Hev (q & Hq & Hm) Hem Hcm.
  destruct (reachable_order dflt num_frames k ops Hk Hlen) as (_ & Hl & Ho & Hkr).
  set (r := (run dflt ops (init num_frames k)).1) in *.
  assert (Hin : q ∈ less_k_list r) by (eapply (li_class r Hl); eauto; lia).
  unfold Evict in Hev. destruct (curr_size_ r =? 0); [done|].
  destruct (scan_victim (heap_ r) (less_k_list r)) as [[p node]|] eqn:Hs.
  - injection Hev as <- <-.
    pose proof (scan_victim_least _ get_most_recent_timestamp _ _ _ _ _
                  (oi_less r Ho) Hs Hin Hm Hem) as Hle.
    apply scan_victim_Some in Hs as (Hp & Hd & He).
    destruct (li_less r Hl p Hp) as (n & Hn & Hsn & Hcn).
    unfold deref in *. assert (n = node) by congruence. subst n.
    exists node. split; [by exists p|]. split; [done|]. split; [lia | done].
  - pose proof (scan_victim_None _ _ _ _ Hs Hin Hm). congruence.
Qed.

(** X10. Largest backward K-distance. In a replacer reached from the
    constructor (K >= 2, fewer than 2^64 calls), if the frame [Evict] returns
    has K accesses then every tracked evictable frame has K accesses, and the
    K-th most recent access of the victim is no later than theirs. *)
Theorem evict_oldest_kth_access dflt num_frames k ops r f r' n g m :
  2 <= k -> Z.of_nat (length ops) < 2 ^ 64 ->
  r = (run dflt ops (init num_frames k)).1 ->
  Evict r = Ret (Some f) r' ->
  tracked r f n -> get_access_count n = k ->
  tracked r g m -> is_evictable m = true ->
  get_access_count m = k /\
  get_least_recent_timestamp n <= get_least_recent_timestamp m.
Proof.
  intros Hk Hlen -> Hev Hn Hcn (q & Hq & Hm) Hem.
  destruct (reachable_order dflt num_frames k ops Hk Hlen) as (_ & Hl & Ho & Hkr).
  set (r := (run dflt ops (init num_frames k)).1) in *.
  unfold Evict in Hev. destruct (curr_size_ r =? 0); [done|].
  destruct (scan_victim (heap_ r) (less_k_list r)) as [[p node]|] eqn:Hs.
  - injection Hev as <- <-. exfalso.
    apply scan_victim_Some in Hs as (Hp & Hd & He).
    destruct (li_less r Hl p Hp) as (n' & Hn' & Hsn & Hcn').
    assert (n' = node) by (unfold deref in *; congruence). subst n'.
    assert (n = node) by (eapply tracked_fun; [exact Hn | by exists p]). subst n. lia.
  - destruct (scan_victim (heap_ r) (more_k_list r)) as [[p node]|] eqn:Hs'; [|done].
    injection Hev as <- <-.
    assert (Hge : ~ get_access_count m < k_ r).
    { intros Hlt. assert (Hin : q ∈ less_k_list r) by (eapply (li_class r Hl); eauto).
      pose proof (scan_victim_None _ _ _ _ Hs Hin Hm). congruence. }
    assert (Hin : q ∈ more_k_list r) by (eapply (oi_class r Ho); eauto).
    pose proof (scan_victim_least _ get_least_recent_timestamp _ _ _ _ _
                  (oi_more r Ho) Hs' Hin Hm Hem) as Hle.
    apply scan_victim_Some in Hs' as (Hp & Hd & He).
    destruct (li_more r Hl p Hp) as (n' & Hn' & Hsn & Hcn').
    assert (n' = node) by (unfold deref in *; congruence). subst n'.
    assert (n = node) by (eapply tracked_fun; [exact Hn | by exists p]). subst n.
    destruct (oi_hist r Ho q m Hm) as (_ & _ & Hmk). split; [lia | done].
Qed.

(** X11. The history of a tracked frame, in a replacer reached from the
    constructor (K >= 2, fewer than 2^64 calls): its timestamps are strictly
    increasing, there are between 1 and K of them, and each lies between 1
    and the current timestamp. [add_timestamp] keeps the K newest. *)
Theorem history_increasing_bounded dflt num_frames k ops r f n :
  2 <= k -> Z.of_nat (length ops) < 2 ^ 64 ->
  r = (run dflt ops (init num_frames k)).1 ->
  tracked r f n ->
  StronglySorted Z.lt (history_ n) /\
  1 <= get_access_count n <= k /\
  Forall (fun t => 1 <= t <= current_timestamp_ r) (history_ n).
Proof.
  intros Hk Hlen -> (p & Hp & Hn).
  destruct (reachable_order dflt num_frames k ops Hk Hlen) as ([Hh _] & Hl & Ho & Hkr).
  set (r := (run dflt ops (init num_frames k)).1) in *.
  destruct (oi_hist r Ho p n Hn) as (H1 & H2 & H3).
  destruct (Hh p n Hn) as [_ Hne].
  split; [done|]. split; [|done]. split; [|lia].
  unfold get_access_count. destruct (history_ n); [|simpl; lia].
  exfalso. apply Hne; [lia | done].
Qed.


Lemma evict_sub_k_least_recent_witness :
  exists n,
    tracked (run false [OpRecordAccess 1; OpRecordAccess 2; OpRecordAccess 1;
                        OpSetEvictable 1 true; OpSetEvictable 2 true] (init 7 3)).1 2 n /\
    is_evictable n = true /\ get_access_count n < 3 /\
    get_most_recent_timestamp n <= get_most_recent_timestamp (mkNode [1; 3] 3 1 true).
Proof.
  apply (evict_sub_k_least_recent false 7 3
           [OpRecordAccess 1; OpRecordAccess 2; OpRecordAccess 1;
            OpSetEvictable 1 true; OpSetEvictable 2 true]
           _ 2
           (state_after
              (Evict (run false [OpRecordAccess 1; OpRecordAccess 2; OpRecordAccess 1;
                                 OpSetEvictable 1 true; OpSetEvictable 2 true]
                        (init 7 3)).1))
           1 (mkNode [1; 3] 3 1 true)).
  - lia.
  - simpl. lia.
  - reflexivity.
  - vm_compute. reflexivity.
  - exists 0%nat. split; vm_compute; reflexivity.
  - reflexivity.
  - vm_compute. reflexivity.
Defined.

Lemma evict_oldest_kth_access_witness :
  get_access_count (mkNode [2; 4] 2 2 true) = 2 /\
  get_least_recent_timestamp (mkNode [1; 3] 2 1 true)
  <= get_least_recent_timestamp (mkNode [2; 4] 2 2 true).
Proof.
  apply (evict_oldest_kth_access false 7 2
           [OpRecordAccess 1; OpRecordAccess 2; OpRecordAccess 1; OpRecordAccess 2;
            OpSetEvictable 1 true; OpSetEvictable 2 true]
           (run false [OpRecordAccess 1; OpRecordAccess 2; OpRecordAccess 1;
                       OpRecordAccess 2; OpSetEvictable 1 true; OpSetEvictable 2 true]
              (init 7 2)).1
           1
           (state_after
              (Evict (run false [OpRecordAccess 1; OpRecordAccess 2; OpRecordAccess 1;
                                 OpRecordAccess 2; OpSetEvictable 1 true;
                                 OpSetEvictable 2 true] (init 7 2)).1))
           (mkNode [1; 3] 2 1 true) 2 (mkNode [2; 4] 2 2 true)).
  - lia.
  - simpl. lia.
  - reflexivity.
  - vm_compute. reflexivity.
  - exists 0%nat. split; vm_compute; reflexivity.
  - reflexivity.
  - exists 1%nat. split; vm_compute; reflexivity.
  - reflexivity.
Defined.

Lemma history_increasing_bounded_witness :
  StronglySorted Z.lt [2; 3] /\
  1 <= get_access_count (mkNode [2; 3] 2 1 false) <= 2 /\
  Forall (fun t => 1 <= t <= 3) [2; 3].
Proof.
  apply (history_increasing_bounded false 7 2
           [OpRecordAccess 1; OpRecordAccess 1; OpRecordAccess 1]
           (run false [OpRecordAccess 1; OpRecordAccess 1; OpRecordAccess 1] (init 7 2)).1
           1 (mkNode [2; 3] 2 1 false)).
  - lia.
  - simpl. lia.
  - reflexivity.
  - exists 0%nat. split; vm_compute; reflexivity.
Defined.

(** ** [Evict] finds a victim *)

Lemma find_node_untracked r f : find_node r f = None <-> forall n, ~ tracked r f n.
Proof.
  split.
  - intros H n (p & Hp & Hn). unfold find_node in H. by rewrite Hp, Hn in H.
  - intros H. destruct (find_node r f) as [[p n]|] eqn:E; [|done].
    apply find_node_Some in E as [Hp Hn]. exfalso. apply (H n). by exists p.
Qed.

Lemma exec_op_store_size dflt o r :
  (size (node_store_ (state_after (exec_op dflt o r))) <= size (node_store_ r) + 1)%nat.
Proof.
  assert (Hdel : forall f, (size (delete f (node_store_ r)) <= size (node_store_ r) + 1)%nat).
  { intros f. rewrite map_size_delete. destruct (node_store_ r !! f); simpl; lia. }
  destruct o; simpl exec_op; rewrite ?mbind_state_after.
  - unfold RecordAccess. destruct (negb _); [simpl; lia|].
    destruct (find_node r frame_id) as [[p node]|].
    + destruct (_ <? _); [destruct (_ =? _)|]; simpl; lia.
    + simpl. rewrite map_size_insert. destruct (node_store_ r !! frame_id); simpl; lia.
  - unfold SetEvictable. destruct (negb _); [simpl; lia|].
    destruct (find_node r frame_id) as [[p node]|]; [|simpl; lia].
    destruct (Bool.eqb _ _); simpl; lia.
  - unfold Evict. destruct (_ =? _); [simpl; lia|].
    destruct (scan_victim _ (less_k_list r)) as [[p node]|]; [simpl; apply Hdel|].
    destruct (scan_victim _ (more_k_list r)) as [[p node]|]; [simpl; apply Hdel | simpl; lia].
  - unfold Remove. destruct (negb _); [simpl; lia|].
    destruct (find_node r frame_id) as [[p node]|]; [|simpl; lia].
    destruct (negb _); [simpl; lia|]. destruct (_ <? _); simpl; apply Hdel.
Qed.

Lemma run_store_size dflt ops r :
  (size (node_store_ (run dflt ops r).1) <= size (node_store_ r) + length ops)%nat.
Proof.
  revert r. induction ops as [|o ops IH]; intros r; [simpl; lia|].
  rewrite run_step. specialize (IH (state_after (exec_op dflt o r))).
  pose proof (exec_op_store_size dflt o r). simpl length. lia.
Qed.

Lemma created_bound dflt ops r : 0 <= created dflt ops r <= Z.of_nat (length ops).
Proof.
  revert r. induction ops as [|o ops IH]; intros r; [simpl; lia|].
  simpl created. specialize (IH (state_after (exec_op dflt o r))).
  simpl length. destruct (creates o r); lia.
Qed.

Lemma count_evictable_bound r :
  0 <= count_evictable r <= Z.of_nat (size (node_store_ r)).
Proof.
  unfold count_evictable, count_in.
  pose proof (map_size_filter (evictableP (heap_ r)) (node_store_ r)). lia.
Qed.

Lemma count_evictable_pos r f n :
  tracked r f n -> is_evictable n = true -> 1 <= count_evictable r.
Proof.
  intros (p & Hp & Hn) He. unfold count_evictable, count_in.
  assert (Hne : size (filter (evictableP (heap_ r)) (node_store_ r)) <> 0%nat).
  { apply map_size_ne_0_lookup. exists f, p. apply map_lookup_filter_Some.
    split; [done|]. unfold evictableP. simpl. by rewrite Hn. }
  lia.
Qed.

(** X12. [Evict] finds a victim whenever some tracked frame is evictable, in
    a replacer reached from the constructor with K >= 2 by fewer than 2^63
    calls (so that [curr_size_] has not wrapped to 0). *)
Theorem evict_finds_victim dflt num_frames k ops r g m :
  2 <= k -> Z.of_nat (length ops) < 2 ^ 63 ->
  r = (run dflt ops (init num_frames k)).1 ->
  tracked r g m -> is_evictable m = true ->
  exists f r', Evict r = Ret (Some f) r'.
Proof.
  intros Hk Hlen -> Htr Hem.
  destruct (reachable_order dflt num_frames k ops Hk ltac:(lia)) as (Hinv & Hl & Ho & Hkr).
  destruct (run_size dflt ops (init num_frames k)) as [Hrange Hsize];
    [apply inv_init | done | simpl; lia |].
  pose proof (created_bound dflt ops (init num_frames k)) as Hcr.
  pose proof (run_store_size dflt ops (init num_frames k)) as Hst.
  change (size (node_store_ (init num_frames k))) with (size (∅ : gmap Z ptr)) in Hst.
  rewrite map_size_empty in Hst.
  set (r := (run dflt ops (init num_frames k)).1) in *.
  pose proof (count_evictable_bound r) as Hcb.
  pose proof (count_evictable_pos r g m Htr Hem) as Hcp.
  change (count_evictable (init num_frames k)) with 0 in Hsize.
  change (curr_size_ (init num_frames k)) with 0 in Hsize.
  assert (Hnz : curr_size_ r <> 0).
  { intros Hz. rewrite Hz in Hsize. unfold wrap64 in Hsize.
    set (c := if dflt then 0 else created dflt ops (init num_frames k)) in *.
    assert (Hc : 0 <= c <= Z.of_nat (length ops)) by (subst c; destruct dflt; lia).
    rewrite (Z.mod_small (0 - 0 + c)) in Hsize by lia.
    assert (Hmod : (0 - count_evictable r) mod 2 ^ 64 = 2 ^ 64 - count_evictable r).
    { symmetry. apply (Z.mod_unique _ _ (-1)); lia. }
    lia. }
  destruct Htr as (q & Hq & Hm).
  unfold Evict. apply Z.eqb_neq in Hnz. rewrite Hnz.
  destruct (scan_victim (heap_ r) (less_k_list r)) as [[p node]|] eqn:Hs; [eauto|].
  destruct (scan_victim (heap_ r) (more_k_list r)) as [[p node]|] eqn:Hs'; [eauto|].
  exfalso. destruct (decide (get_access_count m < k_ r)) as [Hlt | Hge].
  - assert (Hin : q ∈ less_k_list r) by (eapply (li_class r Hl); eauto).
    pose proof (scan_victim_None _ _ _ _ Hs Hin Hm). congruence.
  - assert (Hin : q ∈ more_k_list r) by (eapply (oi_class r Ho); eauto).
    pose proof (scan_victim_None _ _ _ _ Hs' Hin Hm). congruence.
Qed.

Lemma evict_finds_victim_witness :
  exists f r',
    Evict (run false [OpRecordAccess 1; OpSetEvictable 1 true] (init 7 2)).1
    = Ret (Some f) r'.
Proof.
  apply (evict_finds_victim false 7 2 [OpRecordAccess 1; OpSetEvictable 1 true]
           _ 1 (mkNode [1] 2 1 true)).
  - lia.
  - simpl. lia.
  - reflexivity.
  - exists 0%nat. split; vm_compute; reflexivity.
  - reflexivity.
Defined.


(** ** What the operations do to the tracked frames *)

Lemma tracked_delete_iff r f ts cs rs k less' more' h n :
  h <> f ->
  tracked (mkReplacer (heap_ r) (delete f (node_store_ r)) ts cs rs k less' more') h n
  <-> tracked r h n.
Proof.
  intros Hne. unfold tracked. simpl.
  split; intros (p & Hp & Hn); exists p; (split; [|done]).
  - by apply lookup_delete_Some in Hp as [_ Hp].
  - apply lookup_delete_Some. split; [congruence | done].
Qed.

Lemma untracked_delete r f ts cs rs k less' more' n :
  ~ tracked (mkReplacer (heap_ r) (delete f (node_store_ r)) ts cs rs k less' more') f n.
Proof. intros (p & Hp & _). simpl in Hp. by rewrite lookup_delete_eq in Hp. Qed.

(** X13. What a successful [Evict] does (K >= 2, replacer reached from the
    constructor): the frame it returns was tracked and evictable and is no
    longer tracked; the node of every other frame is what it was; [Size] is
    one less (modulo 2^64); the clock has not moved. *)
Theorem evict_untracks_victim dflt num_frames k ops r f r' :
  2 <= k -> r = (run dflt ops (init num_frames k)).1 ->
  Evict r = Ret (Some f) r' ->
  (exists n, tracked r f n /\ is_evictable n = true) /\
  (forall n, ~ tracked r' f n) /\
  (forall h n, h <> f -> tracked r' h n <-> tracked r h n) /\
  Size r' = wrap64 (Size r - 1) /\
  current_timestamp_ r' = current_timestamp_ r.
Proof.
  intros Hk -> Hev.
  assert (Hinv : inv (run dflt ops (init num_frames k)).1) by apply run_inv, inv_init.
  assert (Hkr : k_ (run dflt ops (init num_frames k)).1 = k) by apply run_k.
  set (r := (run dflt ops (init num_frames k)).1) in *.
  destruct Hinv as [_ Hl]. specialize (Hl ltac:(lia)).
  unfold Evict in Hev. destruct (curr_size_ r =? 0); [done|].
  destruct (scan_victim (heap_ r) (less_k_list r)) as [[p node]|] eqn:Hs.
  - injection Hev as <- <-. apply scan_victim_Some in Hs as (Hp & Hd & He).
    destruct (li_less r Hl p Hp) as (n & Hn & Hsn & _).
    assert (n = node) by (unfold deref in *; congruence). subst n.
    split; [exists node; split; [by exists p | done]|].
    split; [intros n; apply untracked_delete|].
    split; [intros h n Hne; by apply tracked_delete_iff | done].
  - destruct (scan_victim (heap_ r) (more_k_list r)) as [[p node]|] eqn:Hs'; [|done].
    injection Hev as <- <-. apply scan_victim_Some in Hs' as (Hp & Hd & He).
    destruct (li_more r Hl p Hp) as (n & Hn & Hsn & _).
    assert (n = node) by (unfold deref in *; congruence). subst n.
    split; [exists node; split; [by exists p | done]|].
    split; [intros n; apply untracked_delete|].
    split; [intros h n Hne; by apply tracked_delete_iff | done].
Qed.

Lemma evict_untracks_victim_witness :
  Size (state_after
          (Evict (run false [OpRecordAccess 1; OpSetEvictable 1 true] (init 7 2)).1))
  = wrap64 (Size (run false [OpRecordAccess 1; OpSetEvictable 1 true] (init 7 2)).1 - 1).
Proof.
  apply (evict_untracks_victim false 7 2 [OpRecordAccess 1; OpSetEvictable 1 true]
           (run false [OpRecordAccess 1; OpSetEvictable 1 true] (init 7 2)).1 1
           (state_after
              (Evict (run false [OpRecordAccess 1; OpSetEvictable 1 true] (init 7 2)).1))).
  - lia.
  - reflexivity.
  - vm_compute. reflexivity.
Defined.

(** ** Frames that have left the replacer *)

Lemma Evict_returns_listed r g r0 :
  Evict r = Ret (Some g) r0 -> exists n, listed r g n /\ is_evictable n = true.
Proof.
  unfold Evict. destruct (curr_size_ r =? 0); [done|].
  destruct (scan_victim (heap_ r) (less_k_list r)) as [[p node]|] eqn:Hs.
  - intros [= <- <-]. apply scan_victim_Some in Hs as (Hp & Hd & He).
    exists node. split; [|done]. exists p. auto.
  - destruct (scan_victim (heap_ r) (more_k_list r)) as [[p node]|] eqn:Hs'; [|done].
    intros [= <- <-]. apply scan_victim_Some in Hs' as (Hp & Hd & He).
    exists node. split; [|done]. exists p. auto.
Qed.

Lemma listed_tracked r f n : lists_inv r -> listed r f n -> tracked r f n.
Proof.
  intros Hl (p & [Hp | Hp] & Hd & <-).
  - destruct (li_less r Hl p Hp) as (m & Hm & Hs & _).
    assert (m = n) by (unfold deref in *; congruence). subst m. by exists p.
  - destruct (li_more r Hl p Hp) as (m & Hm & Hs & _).
    assert (m = n) by (unfold deref in *; congruence). subst m. by exists p.
Qed.

Lemma untracked_not_listed r f :
  lists_inv r -> (forall n, ~ tracked r f n) -> forall n, ~ listed r f n.
Proof. intros Hl Hun n Hli. apply (Hun n). by apply listed_tracked. Qed.

Lemma unlisted_not_evicted r f :
  (forall n, listed r f n -> is_evictable n = false) ->
  forall g r0, Evict r = Ret (Some g) r0 -> g <> f.
Proof.
  intros Hno g r0 Hev ->. apply Evict_returns_listed in Hev as (n & Hli & He).
  rewrite (Hno n Hli) in He. done.
Qed.

Lemma Remove_cases f r :
  frame_id_ok f r = true ->
  ((forall n, ~ tracked r f n) -> Remove f r = Ret tt r) /\
  (forall n, tracked r f n -> is_evictable n = false ->
     Remove f r = Fail ExceptionThrown r) /\
  (forall n, tracked r f n -> is_evictable n = true ->
     exists r', Remove f r = Ret tt r' /\
       (forall m, ~ tracked r' f m) /\
       (forall h m, h <> f -> tracked r' h m <-> tracked r h m) /\
       Size r' = wrap64 (Size r - 1) /\ k_ r' = k_ r).
Proof.
  intros Hok. unfold Remove. rewrite Hok. simpl. split; [|split].
  - intros Hun. apply find_node_untracked in Hun. by rewrite Hun.
  - intros n (p & Hp & Hn) He.
    rewrite (proj2 (find_node_Some r f p n) (conj Hp Hn)). by rewrite He.
  - intros n (p & Hp & Hn) He.
    rewrite (proj2 (find_node_Some r f p n) (conj Hp Hn)). rewrite He. simpl.
    destruct (get_access_count n <? k_ r); eexists; (split; [reflexivity|]);
      (split; [intros m; apply untracked_delete|]);
      (split; [intros h m Hne; by apply tracked_delete_iff | done]).
Qed.

(** X14. The three outcomes of [Remove] on a frame id that passes the
    assertion, in a replacer reached from the constructor with K >= 2: an
    untracked frame, the call returns and changes nothing; a tracked frame
    that is not evictable, the exception is thrown and nothing has changed;
    a tracked evictable frame, the call returns and the frame has left the
    replacer ([node_store_] does not map it, neither list points to a node
    of it, and [Evict] cannot return it), the node of every other frame is
    what it was and [Size] is one less (modulo 2^64). *)
Theorem Remove_outcomes dflt num_frames k ops r f :
  2 <= k -> r = (run dflt ops (init num_frames k)).1 ->
  frame_id_ok f r = true ->
  ((forall n, ~ tracked r f n) -> Remove f r = Ret tt r) /\
  (forall n, tracked r f n -> is_evictable n = false ->
     Remove f r = Fail ExceptionThrown r) /\
  (forall n, tracked r f n -> is_evictable n = true ->
     exists r', Remove f r = Ret tt r' /\
       (forall m, ~ tracked r' f m) /\
       (forall m, ~ listed r' f m) /\
       (forall g r'', Evict r' = Ret (Some g) r'' -> g <> f) /\
       (forall h m, h <> f -> tracked r' h m <-> tracked r h m) /\
       Size r' = wrap64 (Size r - 1)).
Proof.
  intros Hk -> Hok.
  set (r := (run dflt ops (init num_frames k)).1) in *.
  assert (Hinv : inv r) by apply run_inv, inv_init.
  assert (Hkr : k_ r = k) by apply run_k.
  destruct (Remove_cases f r Hok) as (H1 & H2 & H3).
  split; [exact H1|]. split; [exact H2|].
  intros n Htr He. destruct (H3 n Htr He) as (r' & Hrm & Hun & Hoth & Hsz & Hk').
  exists r'. split; [exact Hrm|]. split; [exact Hun|].
  pose proof (Remove_inv f r Hinv) as Hinv'. rewrite Hrm in Hinv'. simpl in Hinv'.
  assert (Hl' : lists_inv r') by (apply Hinv'; lia).
  assert (Hnl : forall m, ~ listed r' f m) by by apply untracked_not_listed.
  split; [exact Hnl|]. split; [|by split].
  apply unlisted_not_evicted. intros m Hm. by destruct (Hnl m).
Qed.

Lemma Remove_outcomes_witness :
  exists r',
    Remove 1 (run false [OpRecordAccess 1; OpSetEvictable 1 true] (init 7 2)).1
    = Ret tt r' /\
    (forall m, ~ listed r' 1 m) /\
    (forall g r'', Evict r' = Ret (Some g) r'' -> g <> 1).
Proof.
  destruct (Remove_outcomes false 7 2 [OpRecordAccess 1; OpSetEvictable 1 true]
              (run false [OpRecordAccess 1; OpSetEvictable 1 true] (init 7 2)).1 1)
    as (_ & _ & H).
  - lia.
  - reflexivity.
  - reflexivity.
  - destruct (H (mkNode [1] 2 1 true)) as (r' & Hrm & _ & Hnl & Hev & _).
    + exists 0%nat. split; vm_compute; reflexivity.
    + reflexivity.
    + exists r'. auto.
Defined.

Lemma exec_op_store_ok dflt o r : store_ok r -> store_ok (state_after (exec_op dflt o r)).
Proof.
  intros Hok. destruct o; simpl exec_op; rewrite ?mbind_state_after.
  - destruct (RecordAccess dflt frame_id r) as [[] r' | e r'] eqn:H.
    + by apply RecordAccess_Ret in H as (_ & _ & H & _); apply H.
    + unfold RecordAccess in H. destruct (negb _); [by injection H as <- <-|].
      destruct (find_node r frame_id) as [[p n]|]; [|done].
      destruct (_ <? _); [destruct (_ =? _)|]; done.
  - destruct (SetEvictable frame_id flag r) as [[] r' | e r'] eqn:H.
    + by apply SetEvictable_Ret in H as (_ & _ & H & _); apply H.
    + unfold SetEvictable in H. destruct (negb _); [by injection H as <- <-|].
      destruct (find_node r frame_id) as [[p n]|]; [|done].
      by destruct (Bool.eqb _ _).
  - destruct (Evict r) as [v r' | e r'] eqn:H.
    + by apply Evict_Ret in H as (_ & H & _); apply H.
    + unfold Evict in H. destruct (_ =? _); [done|].
      destruct (scan_victim _ (less_k_list r)) as [[p n]|]; [done|].
      by destruct (scan_victim _ (more_k_list r)) as [[p n]|].
  - destruct (Remove frame_id r) as [[] r' | e r'] eqn:H.
    + by apply Remove_Ret in H as (_ & H & _); apply H.
    + unfold Remove in H. destruct (negb _); [by injection H as <- <-|].
      destruct (find_node r frame_id) as [[p n]|]; [|done].
      destruct (negb _); [by injection H as <- <-|]. by destruct (_ <? _).
Qed.

Lemma run_store_ok dflt ops r : store_ok r -> store_ok (run dflt ops r).1.
Proof.
  revert r. induction ops as [|o ops IH]; intros r H; [done|].
  rewrite run_step. by apply IH, exec_op_store_ok.
Qed.

(** X15. The outcomes of [SetEvictable] on a frame id that passes the
    assertion, in a replacer reached from the constructor: nothing changes
    for an untracked frame or a frame that has the flag already; otherwise
    the flag of the frame is set, the node of every other frame, both lists
    and the clock are what they were, and [Size] goes up by one for [true],
    down by one for [false] (modulo 2^64). Calling it a second time with the
    same flag changes nothing. *)
Theorem SetEvictable_outcomes dflt num_frames k ops r f flag :
  r = (run dflt ops (init num_frames k)).1 ->
  frame_id_ok f r = true ->
  ((forall n, ~ tracked r f n) -> SetEvictable f flag r = Ret tt r) /\
  (forall n, tracked r f n -> is_evictable n = flag -> SetEvictable f flag r = Ret tt r) /\
  (forall n, tracked r f n -> is_evictable n = negb flag ->
     exists r', SetEvictable f flag r = Ret tt r' /\
       tracked r' f (set_evictable flag n) /\
       (forall h m, h <> f -> tracked r' h m <-> tracked r h m) /\
       Size r' = wrap64 (Size r + (if flag then 1 else -1)) /\
       less_k_list r' = less_k_list r /\ more_k_list r' = more_k_list r /\
       current_timestamp_ r' = current_timestamp_ r) /\
  (forall r', SetEvictable f flag r = Ret tt r' -> SetEvictable f flag r' = Ret tt r').
Proof.
  intros -> Hok.
  assert (Hst : store_ok (run dflt ops (init num_frames k)).1)
    by apply run_store_ok, store_ok_init.
  set (r := (run dflt ops (init num_frames k)).1) in *.
  split; [|split; [|split]].
  - intros Hun. apply find_node_untracked in Hun. unfold SetEvictable. by rewrite Hok, Hun.
  - intros n (p & Hp & Hn) He. unfold SetEvictable. rewrite Hok. simpl.
    rewrite (proj2 (find_node_Some r f p n) (conj Hp Hn)). rewrite He.
    by rewrite eqb_reflx.
  - intros n (p & Hp & Hn) He. unfold SetEvictable. rewrite Hok. simpl.
    rewrite (proj2 (find_node_Some r f p n) (conj Hp Hn)). rewrite He.
    assert (Hneq : Bool.eqb (negb flag) flag = false) by (by destruct flag).
    rewrite Hneq. eexists. split; [reflexivity|].
    split; [exists p; split; [done | by eapply deref_insert_eq]|].
    split; [|split; [|done]].
    + intros h m Hne. unfold tracked. simpl. split.
      * intros (q & Hq & Hm). exists q. split; [done|].
        rewrite deref_insert_ne in Hm; [done|]. intros ->.
        destruct (Hst f p Hp) as [_ Hinj]. apply Hne. by apply Hinj.
      * intros (q & Hq & Hm). exists q. split; [done|].
        rewrite deref_insert_ne; [done|]. intros ->.
        destruct (Hst f p Hp) as [_ Hinj]. apply Hne. by apply Hinj.
    + unfold Size. simpl. destruct flag; f_equal; lia.
  - intros r' Hret.
    pose proof (SetEvictable_Ret _ _ _ _ Hret) as (_ & Hsz & _ & _ & Hev).
    unfold SetEvictable. rewrite (frame_id_ok_size _ _ _ Hsz), Hok. simpl.
    destruct (find_node r' f) as [[p n]|] eqn:Hfind; [|done].
    apply find_node_Some in Hfind as [Hp Hn].
    rewrite (Hev n) by (by exists p). by rewrite eqb_reflx.
Qed.

Lemma SetEvictable_outcomes_witness :
  exists r',
    SetEvictable 1 true (run false [OpRecordAccess 1] (init 7 2)).1 = Ret tt r' /\
    tracked r' 1 (set_evictable true (mkNode [1] 2 1 false)) /\
    Size r' = wrap64 (Size (run false [OpRecordAccess 1] (init 7 2)).1 + 1).
Proof.
  destruct (SetEvictable_outcomes false 7 2 [OpRecordAccess 1]
              (run false [OpRecordAccess 1] (init 7 2)).1 1 true eq_refl)
    as (_ & _ & H & _).
  - reflexivity.
  - destruct (H (mkNode [1] 2 1 false)) as (r' & H1 & H2 & _ & H3 & _).
    + exists 0%nat. split; vm_compute; reflexivity.
    + reflexivity.
    + exists r'. split; [exact H1|]. split; [exact H2 | exact H3].
Defined.


(** ** What the buffer pool needs to know about the nodes of other frames *)

Lemma RecordAccess_keeps dflt f r r' :
  RecordAccess dflt f r = Ret tt r' -> store_ok r ->
  (exists n', tracked r' f n') /\
  (forall n n', tracked r f n -> tracked r' f n' -> is_evictable n' = is_evictable n) /\
  (forall h n, h <> f -> tracked r h n -> tracked r' h n).
Proof.
  unfold RecordAccess. destruct (negb (frame_id_ok f r)); [done|].
  destruct (find_node r f) as [[p node]|] eqn:Hfind.
  - apply find_node_Some in Hfind as [Hs Hd].
    set (node' := add_timestamp _ node).
    assert (Hgoal : forall ts cs less' more',
      store_ok r ->
      let r' := mkReplacer (<[p := node']> (heap_ r)) (node_store_ r) ts cs
                  (replacer_size_ r) (k_ r) less' more' in
      (exists n', tracked r' f n') /\
      (forall n n', tracked r f n -> tracked r' f n' -> is_evictable n' = is_evictable n) /\
      (forall h n, h <> f -> tracked r h n -> tracked r' h n)).
    { intros ts cs less' more' Hok. simpl. split; [|split].
      - exists node', p. split; [done | by eapply deref_insert_eq].
      - intros n n' (q & Hq & Hn) (q' & Hq' & Hn'). simpl in *.
        assert (q = p) by congruence. assert (q' = p) by congruence. subst q q'.
        rewrite (deref_insert_eq _ _ node) in Hn' by done.
        unfold deref in *. assert (n = node) by congruence.
        assert (n' = node') by congruence. by subst.
      - intros h n Hne (q & Hq & Hn). exists q. split; [done|]. simpl.
        rewrite deref_insert_ne; [done|]. intros ->.
        destruct (Hok f p Hs) as [_ Hinj]. apply Hne. by apply Hinj. }
    destruct (get_access_count node <? k_ r);
      [destruct (get_access_count _ =? k_ r)|]; intros [= <-] Hok; by apply Hgoal.
  - intros [= <-] Hok. split; [|split].
    + eexists _, (length (heap_ r)). simpl. split; [apply lookup_insert_eq|].
      apply deref_snoc_new.
    + intros n n' Htr. by destruct (proj1 (find_node_untracked r f) Hfind n).
    + intros h n Hne (q & Hq & Hn). exists q. simpl.
      rewrite lookup_insert_ne by done. split; [done | by apply deref_snoc_old].
Qed.

Lemma SetEvictable_keeps f flag r r' :
  SetEvictable f flag r = Ret tt r' -> store_ok r ->
  (forall n, tracked r f n -> exists n', tracked r' f n') /\
  (forall h n, h <> f -> tracked r h n -> tracked r' h n).
Proof.
  unfold SetEvictable. destruct (negb (frame_id_ok f r)); [done|].
  destruct (find_node r f) as [[p node]|] eqn:Hfind; [|intros [= <-]; eauto].
  apply find_node_Some in Hfind as [Hs Hd].
  destruct (Bool.eqb (is_evictable node) flag); [intros [= <-]; eauto|].
  intros [= <-] Hok. split.
  - intros n _. eexists _, p. simpl. split; [done | by eapply deref_insert_eq].
  - intros h n Hne (q & Hq & Hn). exists q. split; [done|]. simpl.
    rewrite deref_insert_ne; [done|]. intros ->.
    destruct (Hok f p Hs) as [_ Hinj]. apply Hne. by apply Hinj.
Qed.

Lemma Evict_keeps v r r' :
  Evict r = Ret v r' -> forall h n, v <> Some h -> tracked r h n -> tracked r' h n.
Proof.
  unfold Evict. destruct (curr_size_ r =? 0); [by intros [= <- <-]|].
  destruct (scan_victim _ (less_k_list r)) as [[p m]|].
  { intros [= <- <-] h n Hne Htr. apply tracked_delete_iff; [congruence | done]. }
  destruct (scan_victim _ (more_k_list r)) as [[p m]|]; [|by intros [= <- <-]].
  intros [= <- <-] h n Hne Htr. apply tracked_delete_iff; [congruence | done].
Qed.

Lemma Remove_keeps f r r' :
  Remove f r = Ret tt r' -> forall h n, h <> f -> tracked r h n -> tracked r' h n.
Proof.
  unfold Remove. destruct (negb (frame_id_ok f r)); [done|].
  destruct (find_node r f) as [[p node]|]; [|by intros [= <-]].
  destruct (negb (is_evictable node)); [done|].
  destruct (get_access_count node <? k_ r); intros [= <-] h n Hne Htr;
    by apply tracked_delete_iff.
Qed.

Lemma Evict_victim_evictable r g r0 :
  lists_inv r -> Evict r = Ret (Some g) r0 ->
  exists n, tracked r g n /\ is_evictable n = true.
Proof.
  intros Hl. unfold Evict. destruct (curr_size_ r =? 0); [done|].
  destruct (scan_victim (heap_ r) (less_k_list r)) as [[p node]|] eqn:Hs.
  - intros [= <- <-]. apply scan_victim_Some in Hs as (Hp & Hd & He).
    destruct (li_less r Hl p Hp) as (n & Hn & Hsn & _).
    assert (n = node) by (unfold deref in *; congruence). subst n.
    exists node. split; [by exists p | done].
  - destruct (scan_victim (heap_ r) (more_k_list r)) as [[p node]|] eqn:Hs'; [|done].
    intros [= <- <-]. apply scan_victim_Some in Hs' as (Hp & Hd & He).
    destruct (li_more r Hl p Hp) as (n & Hn & Hsn & _).
    assert (n = node) by (unfold deref in *; congruence). subst n.
    exists node. split; [by exists p | done].
Qed.

Lemma Evict_nothing_evictable r :
  lists_inv r -> (forall f n, tracked r f n -> is_evictable n = false) ->
  Evict r = Ret None r.
Proof.
  intros Hl Hno. destruct (Evict r) as [[g|] r0 | e r0] eqn:Hev.
  - destruct (Evict_victim_evictable _ _ _ Hl Hev) as (n & Htr & He).
    rewrite (Hno g n Htr) in He. done.
  - f_equal. unfold Evict in Hev. destruct (curr_size_ r =? 0); [congruence|].
    destruct (scan_victim _ (less_k_list r)) as [[p m]|]; [done|].
    destruct (scan_victim _ (more_k_list r)) as [[p m]|]; [done | congruence].
  - unfold Evict in Hev. destruct (curr_size_ r =? 0); [done|].
    destruct (scan_victim _ (less_k_list r)) as [[p m]|]; [done|].
    by destruct (scan_victim _ (more_k_list r)) as [[p m]|].
Qed.

Lemma RecordAccess_Ret_inv dflt f r r' :
  RecordAccess dflt f r = Ret tt r' -> inv r -> inv r'.
Proof. intros H Hinv. pose proof (RecordAccess_inv dflt f r Hinv) as H'. by rewrite H in H'. Qed.

Lemma SetEvictable_Ret_inv f flag r r' :
  SetEvictable f flag r = Ret tt r' -> inv r -> inv r'.
Proof. intros H Hinv. pose proof (SetEvictable_inv f flag r Hinv) as H'. by rewrite H in H'. Qed.

Lemma Evict_Ret_inv v r r' : Evict r = Ret v r' -> inv r -> inv r'.
Proof. intros H Hinv. pose proof (Evict_inv r Hinv) as H'. by rewrite H in H'. Qed.

Lemma Remove_Ret_inv f r r' : Remove f r = Ret tt r' -> inv r -> inv r'.
Proof. intros H Hinv. pose proof (Remove_inv f r Hinv) as H'. by rewrite H in H'. Qed.

End ReplacerFacts.

(* ===================================================================== *)
(** * Properties of the persistent trie                                    *)
(* ===================================================================== *)

Module PTrieFacts.
Import PTrie.

Lemma map_find_set_eq {A} c (x : A) m : map_find c (map_set c x m) = Some x.
Proof.
  induction m as [|[c' y] m IH]; simpl.
  - by rewrite Ascii.eqb_refl.
  - destruct (Ascii.eqb c' c) eqn:E; simpl.
    + by rewrite Ascii.eqb_refl.
    + by rewrite E.
Qed.

Lemma map_find_set_ne {A} c c' (x : A) m :
  c <> c' -> map_find c' (map_set c x m) = map_find c' m.
Proof.
  intros Hne. induction m as [|[d y] m IH]; simpl.
  - destruct (Ascii.eqb c c') eqn:E; [|done]. by apply Ascii.eqb_eq in E.
  - destruct (Ascii.eqb d c) eqn:E; simpl.
    + apply Ascii.eqb_eq in E. subst d.
      destruct (Ascii.eqb c c') eqn:E'; [|done]. by apply Ascii.eqb_eq in E'.
    + by rewrite IH.
Qed.

Lemma walk_put_loop node key v :
  key <> EmptyString ->
  exists n, walk (put_loop node key v) key = Some n /\
    value_ n = Some (move_construct v) /\
    (forall old, walk node key = Some old -> children_ n = children_ old).
Proof.
  revert node. induction key as [|c rest IH]; intros node Hne; [done|].
  simpl. destruct (map_find c (children_ node)) as [child|] eqn:Hf.
  - destruct rest as [|c2 rest2].
    + simpl. rewrite map_find_set_eq. eexists. split; [done|]. split; [done|].
      by intros old [= <-].
    + destruct (IH (Clone child)) as (n & Hw & Hv & Hc); [done|].
      cbn [walk children_ set_child]. rewrite map_find_set_eq.
      exists n. split; [done|]. split; [done|].
      intros old Hold. apply Hc. exact Hold.
  - destruct rest as [|c2 rest2].
    + simpl. rewrite map_find_set_eq. eexists. split; [done|]. split; [done|].
      intros old [=].
    + destruct (IH (Node None [])) as (n & Hw & Hv & Hc); [done|].
      cbn [walk children_ set_child]. rewrite map_find_set_eq.
      exists n. split; [done|]. split; [done|].
      intros old [=].
Qed.

Lemma type_of_move_construct v : type_of (move_construct v) = type_of v.
Proof. by destruct v. Qed.

Lemma move_construct_same v : type_of v <> TMoveBlocked -> move_construct v = v.
Proof. by destruct v. Qed.

(** C3 (as amended). For every trie, every key (the empty one included) and
    every value of a supported type, [Get] at the type of the value returns
    after [Put] the object [Put] move-constructed from the value: the value
    itself for [uint32_t], [uint64_t], [std::string] and [Integer], and for
    [MoveBlocked] an object with [waited_] set. [Put] is a total function,
    and where the key already led to a node, the node at the key in the new
    trie has the new value and that node's children. *)
Theorem put_get_roundtrip (t : Trie) (key : string) (v : value) :
  Get (type_of v) (Put t key v) key = Some (move_construct v) /\
  (type_of v <> TMoveBlocked -> Get (type_of v) (Put t key v) key = Some v) /\
  (forall waited, v = VMoveBlocked waited ->
     Get TMoveBlocked (Put t key v) key = Some (VMoveBlocked true)) /\
  (forall root old, t = Some root -> walk root key = Some old ->
     exists root', Put t key v = Some root' /\
                   walk root' key = Some (Node (Some (move_construct v)) (children_ old))).
Proof.
  assert (Hget : Get (type_of v) (Put t key v) key = Some (move_construct v)).
  { destruct key as [|c rest].
    - destruct t as [root|]; simpl; rewrite type_of_move_construct;
        by rewrite decide_True.
    - assert (Hne : String c rest <> EmptyString) by done.
      unfold Put, Get.
      destruct (walk_put_loop
                  (match t with None => Node None [] | Some root => Clone root end)
                  (String c rest) v Hne) as (n & Hw & Hv & _).
      rewrite Hw, Hv, type_of_move_construct. by rewrite decide_True. }
  split; [exact Hget|]. split; [|split].
  - intros Hty. by rewrite Hget, move_construct_same.
  - intros waited ->. exact Hget.
  - destruct key as [|c rest].
    + intros root old -> [= <-]. simpl. eauto.
    + assert (Hne : String c rest <> EmptyString) by done.
      intros root old -> Hold. unfold Put.
      destruct (walk_put_loop (Clone root) (String c rest) v Hne) as (n & Hw & Hv & Hc).
      eexists. split; [done|]. rewrite Hw. f_equal.
      destruct n as [nv ncs]. simpl in *. subst nv. f_equal. apply Hc.
      destruct root. exact Hold.
Qed.

Lemma put_get_roundtrip_witness :
  Get TString (Put (Put None "ab" (VUInt32 1)) "ab" (VString "x")) "ab"
  = Some (VString "x") /\
  Get TMoveBlocked (Put None "m" (VMoveBlocked false)) "m" = Some (VMoveBlocked true).
Proof.
  split.
  - apply (put_get_roundtrip (Put None "ab" (VUInt32 1)) "ab" (VString "x")).
    discriminate.
  - apply (put_get_roundtrip None "m" (VMoveBlocked false)) with (waited := false).
    reflexivity.
Defined.

(** A [MoveBlocked] that has not waited yet is not what [Get] returns after
    [Put]: the object in the trie was move-constructed from it and has
    [waited_] set. *)
Lemma moveblocked_put_sets_waited :
  Get TMoveBlocked (Put None "m" (VMoveBlocked false)) "m" = Some (VMoveBlocked true) /\
  Get TMoveBlocked (Put None "m" (VMoveBlocked false)) "m" <> Some (VMoveBlocked false).
Proof. split; [reflexivity | discriminate]. Qed.

(** C2. The trie with value 1 under the empty key and value 2 under "a":
    [Remove("a")] returns the empty trie, so that [Get("")], which found 1
    before, finds nothing after, although the key removed is another one. *)
Theorem remove_drops_root_value :
  Get TUInt32 (Put (Put None "" (VUInt32 1)) "a" (VUInt32 2)) "" = Some (VUInt32 1) /\
  Remove (Put (Put None "" (VUInt32 1)) "a" (VUInt32 2)) "a" = None /\
  Get TUInt32 (Remove (Put (Put None "" (VUInt32 1)) "a" (VUInt32 2)) "a") "" = None.
Proof. repeat split. Qed.

(** ** What [Remove] keeps *)

Lemma map_find_erase_eq {A} c (m : list (ascii * A)) : map_find c (map_erase c m) = None.
Proof.
  induction m as [|[c' y] m IH]; simpl; [done|].
  destruct (Ascii.eqb c' c) eqn:E; simpl; [done|]. by rewrite E.
Qed.

Lemma map_find_erase_ne {A} c c' (m : list (ascii * A)) :
  c <> c' -> map_find c' (map_erase c m) = map_find c' m.
Proof.
  intros Hne. induction m as [|[d y] m IH]; simpl; [done|].
  destruct (Ascii.eqb d c) eqn:E; simpl.
  - apply Ascii.eqb_eq in E. subst d.
    destruct (Ascii.eqb c c') eqn:E'; [|done]. by apply Ascii.eqb_eq in E'.
  - by rewrite IH.
Qed.

Lemma value_at_barren n key :
  map_empty (children_ n) = true -> is_value_node_ n = false -> value_at n key = None.
Proof.
  intros Hc Hv. unfold value_at. destruct key as [|c rest]; simpl.
  - unfold is_value_node_ in Hv. by destruct (value_ n).
  - destruct (children_ n); [done | discriminate].
Qed.

Lemma value_at_cons n c rest :
  value_at n (String c rest) =
  match map_find c (children_ n) with
  | Some child => value_at child rest
  | None => None
  end.
Proof. unfold value_at. simpl. by destruct (map_find c (children_ n)). Qed.

Lemma remove_loop_other node key n' key' :
  remove_loop node key = Some n' -> key <> EmptyString -> key' <> key ->
  value_at n' key' = value_at node key'.
Proof.
  revert node n' key'. induction key as [|c rest IH]; intros node n' key' Hr Hne Hk; [done|].
  simpl in Hr. destruct (map_find c (children_ node)) as [child|] eqn:Hf; [|done].
  set (below := match rest with
                | EmptyString =>
                    if is_value_node_ child then Some (Node None (children_ child)) else None
                | String _ _ => remove_loop (Clone child) rest
                end) in Hr.
  destruct below as [n|] eqn:Hb; [|done].
  assert (Hbelow : forall rest', rest' <> rest -> value_at n rest' = value_at child rest').
  { intros rest' Hne'. subst below. destruct rest as [|c2 rest2].
    - destruct (is_value_node_ child); [|done]. injection Hb as <-.
      destruct rest' as [|c' r']; [done|]. by rewrite !value_at_cons.
    - rewrite (IH (Clone child) n rest' Hb) by done.
      destruct child. reflexivity. }
  assert (Hval : forall m, value_at m EmptyString = value_ m) by done.
  destruct key' as [|c' rest'].
  - destruct (map_empty (children_ n) && negb (is_value_node_ n));
      injection Hr as <-; by rewrite !Hval.
  - rewrite (value_at_cons node).
    destruct (decide (c = c')) as [<- | Hcc].
    + rewrite Hf. assert (Hrest : rest' <> rest) by congruence.
      destruct (map_empty (children_ n) && negb (is_value_node_ n)) eqn:E;
        injection Hr as <-; rewrite value_at_cons; simpl.
      * rewrite map_find_erase_eq. rewrite <- Hbelow by done.
        apply andb_true_iff in E as [E1 E2]. apply negb_true_iff in E2.
        symmetry. by apply value_at_barren.
      * rewrite map_find_set_eq. by apply Hbelow.
    + destruct (map_empty (children_ n) && negb (is_value_node_ n));
        injection Hr as <-; rewrite value_at_cons; simpl.
      * rewrite map_find_erase_ne by done. by rewrite map_find_set_ne.
      * by rewrite map_find_set_ne.
Qed.

Lemma Get_value_at T root key :
  Get T (Some root) key =
  match value_at root key with
  | Some v => if decide (type_of v = T) then Some v else None
  | None => None
  end.
Proof. unfold Get, value_at. by destruct (walk root key). Qed.

(** Every key but the one removed, and but the empty key, keeps what it was
    bound to; the empty key keeps it unless [Remove] returns the empty trie. *)
Lemma remove_keeps_other_keys T (t : Trie) key key' :
  key' <> key ->
  (key' <> EmptyString -> Get T (Remove t key) key' = Get T t key') /\
  (key' = EmptyString ->
     Get T (Remove t key) key' =
     match Remove t key with None => None | Some _ => Get T t key' end).
Proof.
  intros Hk. destruct t as [root|]; [|by split].
  assert (Hclone : Clone root = root) by (by destruct root).
  unfold Remove. rewrite Hclone.
  destruct key as [|c rest].
  - destruct (is_value_node_ root) eqn:Hv; [|split; [done|by intros ->]].
    destruct key' as [|c' rest']; [done|]. split; [intros _ | done].
    destruct (map_empty (children_ root)) eqn:Hc.
    + rewrite Get_value_at, value_at_cons.
      destruct (children_ root); [done | discriminate].
    + by rewrite !Get_value_at, !value_at_cons.
  - destruct (remove_loop root (String c rest)) as [n'|] eqn:Hr;
      [|split; [done|by intros ->]].
    pose proof (remove_loop_other _ _ _ key' Hr ltac:(done) Hk) as Hother.
    destruct (map_empty (children_ n')) eqn:Hc.
    + split; [|done]. intros Hne. rewrite Get_value_at, <- Hother.
      destruct key' as [|c' rest']; [done|]. rewrite value_at_cons.
      destruct (children_ n'); [done | discriminate].
    + split; intros _; by rewrite !Get_value_at, Hother.
Qed.

(** ** Bindings, pruning and runs of calls *)

Lemma Clone_id n : Clone n = n.
Proof. by destruct n. Qed.

Lemma put_loop_cons node c rest v :
  put_loop node (String c rest) v =
  set_child node c
    (match map_find c (children_ node), rest with
     | None, EmptyString => Node (Some (move_construct v)) []
     | None, _ => put_loop (Node None []) rest v
     | Some child, EmptyString => Node (Some (move_construct v)) (children_ child)
     | Some child, _ => put_loop child rest v
     end).
Proof.
  simpl. destruct (map_find c (children_ node)) as [child|]; destruct rest;
    rewrite ?Clone_id; reflexivity.
Qed.

Lemma value_at_leaf x key : key <> EmptyString -> value_at (Node x []) key = None.
Proof. destruct key; [done|]. intros _. by rewrite value_at_cons. Qed.

Lemma value_at_set_child node c x key :
  value_at (set_child node c x) key =
  match key with
  | EmptyString => value_ node
  | String c' rest' => if decide (c = c') then value_at x rest' else value_at node key
  end.
Proof.
  destruct key as [|c' rest']; [done|]. rewrite !value_at_cons. simpl.
  destruct (decide (c = c')) as [<- | Hne].
  - by rewrite map_find_set_eq.
  - by rewrite map_find_set_ne.
Qed.

Lemma put_loop_other node key v key' :
  key <> EmptyString -> key' <> key ->
  value_at (put_loop node key v) key' = value_at node key'.
Proof.
  revert node key'. induction key as [|c rest IH]; intros node key' Hne Hk; [done|].
  rewrite put_loop_cons, value_at_set_child.
  destruct key' as [|c' rest']; [done|].
  destruct (decide (c = c')) as [<- | Hcc]; [|done].
  assert (Hrest : rest' <> rest) by congruence.
  rewrite value_at_cons.
  destruct (map_find c (children_ node)) as [child|] eqn:Hf.
  - destruct rest as [|c2 rest2].
    + destruct rest' as [|c3 rest3]; [done|]. by rewrite !value_at_cons.
    + by apply IH.
  - destruct rest as [|c2 rest2].
    + by apply value_at_leaf.
    + rewrite IH by done. destruct rest' as [|c3 rest3]; [done|]. by apply value_at_leaf.
Qed.

(** X1. [Put] changes the binding of its own key only: for every trie and
    every type, [Get] of any other key returns after [Put(key, v)] what it
    returned before. *)
Theorem put_keeps_other_keys T (t : Trie) key key' v :
  key' <> key -> Get T (Put t key v) key' = Get T t key'.
Proof.
  intros Hk. destruct key as [|c rest].
  - destruct key' as [|c' rest']; [done|].
    destruct t as [root|]; simpl Put; rewrite !Get_value_at, ?value_at_cons; simpl.
    + done.
    + done.
  - unfold Put. rewrite Get_value_at.
    rewrite put_loop_other by done.
    destruct t as [root|].
    + by rewrite Clone_id, Get_value_at.
    + simpl. destruct key' as [|c' rest']; [done|]. by rewrite value_at_cons.
Qed.

Lemma put_keeps_other_keys_witness :
  Get TUInt32 (Put (Put None "ab" (VUInt32 7)) "a" (VString "x")) "ab"
  = Get TUInt32 (Put None "ab" (VUInt32 7)) "ab".
Proof. apply put_keeps_other_keys. discriminate. Defined.


Lemma remove_loop_cons node c rest :
  remove_loop node (String c rest) =
  match map_find c (children_ node) with
  | None => None
  | Some child =>
      match (match rest with
             | EmptyString =>
                 if is_value_node_ child then Some (Node None (children_ child)) else None
             | _ => remove_loop child rest
             end) with
      | None => None
      | Some n =>
          if map_empty (children_ n) && negb (is_value_node_ n)
          then Some (erase_child (set_child node c n) c)
          else Some (set_child node c n)
      end
  end.
Proof.
  simpl. destruct (map_find c (children_ node)) as [child|]; [|done].
  by rewrite Clone_id.
Qed.

Lemma remove_loop_None node key :
  key <> EmptyString ->
  remove_loop node key = None <-> value_at node key = None.
Proof.
  revert node. induction key as [|c rest IH]; intros node Hne; [done|].
  rewrite remove_loop_cons, value_at_cons.
  destruct (map_find c (children_ node)) as [child|]; [|done].
  destruct rest as [|c2 rest2].
  - unfold is_value_node_, value_at. simpl.
    destruct (value_ child); simpl; [|done].
    by destruct (map_empty _ && _).
  - rewrite <- (IH child) by done.
    destruct (remove_loop child (String c2 rest2)) as [n|]; [|done].
    by destruct (map_empty _ && _).
Qed.

Lemma remove_loop_at node key n' :
  key <> EmptyString -> remove_loop node key = Some n' -> value_at n' key = None.
Proof.
  revert node n'. induction key as [|c rest IH]; intros node n' Hne; [done|].
  rewrite remove_loop_cons.
  destruct (map_find c (children_ node)) as [child|]; [|done].
  set (below := match rest with
                | EmptyString => _
                | String _ _ => _
                end).
  destruct below as [n|] eqn:Hb; [|done].
  assert (Hn : value_at n rest = None).
  { subst below. destruct rest as [|c2 rest2].
    - destruct (is_value_node_ child); [|done]. by injection Hb as <-.
    - by eapply IH. }
  destruct (map_empty (children_ n) && negb (is_value_node_ n));
    intros [= <-]; rewrite value_at_cons; simpl.
  - by rewrite map_find_erase_eq.
  - by rewrite map_find_set_eq.
Qed.

(** X4. After [Remove(key)], [Get(key)] is null at every type, for every
    trie, whether the key was bound or not. *)
Theorem remove_then_get_none T (t : Trie) key : Get T (Remove t key) key = None.
Proof.
  destruct t as [root|]; [|done]. unfold Remove. rewrite Clone_id.
  destruct key as [|c rest].
  - unfold is_value_node_. destruct (value_ root) eqn:Hv.
    + by destruct (map_empty (children_ root)).
    + simpl. by rewrite Hv.
  - destruct (remove_loop root (String c rest)) as [n'|] eqn:Hr.
    + destruct (map_empty (children_ n')); [done|].
      rewrite Get_value_at. by rewrite (remove_loop_at _ (String c rest) _ ltac:(done) Hr).
    + rewrite Get_value_at. apply remove_loop_None in Hr; [|done]. by rewrite Hr.
Qed.

Lemma Get_None_value_at root key :
  (forall T, Get T (Some root) key = None) <-> value_at root key = None.
Proof.
  split.
  - intros H. destruct (value_at root key) as [v|] eqn:Hv; [|done].
    specialize (H (type_of v)). rewrite Get_value_at, Hv in H.
    by rewrite decide_True in H.
  - intros H T. by rewrite Get_value_at, H.
Qed.

(** X5. [Remove] of a key that is bound to no value (the walk falls off the
    trie, or ends at a node without value) returns the trie it was called
    on. *)
Theorem remove_unbound_key_same_trie (t : Trie) key :
  (forall T, Get T t key = None) -> Remove t key = t.
Proof.
  intros H. destruct t as [root|]; [|done].
  apply Get_None_value_at in H. unfold Remove. rewrite Clone_id.
  destruct key as [|c rest].
  - unfold value_at in H. simpl in H. unfold is_value_node_. by rewrite H.
  - apply remove_loop_None in H; [|done]. by rewrite H.
Qed.

Lemma remove_unbound_key_same_trie_witness :
  Remove (Put None "ab" (VUInt32 7)) "a" = Put None "ab" (VUInt32 7).
Proof. apply remove_unbound_key_same_trie. intros T. reflexivity. Defined.

(** X2. A value is read back at its own type only: after [Put(key, v)],
    [Get<T>(key)] is null for every type [T] other than the type of [v]
    (the [dynamic_cast] to [TrieNodeWithValue<T>] fails). *)
Theorem get_other_type_null T (t : Trie) key v :
  type_of v <> T -> Get T (Put t key v) key = None.
Proof.
  intros HT. rewrite <- type_of_move_construct in HT. destruct key as [|c rest].
  - destruct t as [root|]; simpl; by rewrite decide_False.
  - unfold Put, Get.
    destruct (walk_put_loop
                (match t with None => Node None [] | Some root => Clone root end)
                (String c rest) v ltac:(done)) as (n & Hw & Hv & _).
    rewrite Hw, Hv. by rewrite decide_False.
Qed.

Lemma get_other_type_null_witness :
  Get TUInt64 (Put None "a" (VUInt32 7)) "a" = None.
Proof. apply get_other_type_null. discriminate. Defined.

(** X6. [Remove(key)] leaves the binding of every other key as it was, as long
    as that other key is not the empty key or the result is not the empty
    trie. (When the root is left without children [Remove] returns the empty
    trie, and a value stored at the root goes with it.) *)
Theorem remove_other_keys T (t : Trie) key key' :
  key' <> key -> key' <> EmptyString \/ Remove t key <> None ->
  Get T (Remove t key) key' = Get T t key'.
Proof.
  intros Hk Hc. destruct (remove_keeps_other_keys T t key key' Hk) as [H1 H2].
  destruct (decide (key' = EmptyString)) as [He | Hne]; [|by apply H1].
  destruct Hc as [Hc | Hc]; [done|]. rewrite (H2 He).
  by destruct (Remove t key).
Qed.

Lemma remove_other_keys_witness :
  Get TUInt32 (Remove (Put (Put None "ab" (VUInt32 7)) "ac" (VUInt32 8)) "ab") "ac"
  = Get TUInt32 (Put (Put None "ab" (VUInt32 7)) "ac" (VUInt32 8)) "ac".
Proof. apply remove_other_keys; [discriminate | left; discriminate]. Defined.

(** ** Put after Put *)

Lemma map_set_set {A} c (x y : A) m : map_set c x (map_set c y m) = map_set c x m.
Proof.
  induction m as [|[c' z] m IH]; simpl.
  - by rewrite Ascii.eqb_refl.
  - destruct (Ascii.eqb c' c) eqn:E; simpl.
    + by rewrite Ascii.eqb_refl.
    + by rewrite E, IH.
Qed.

Lemma set_child_set_child node c x y :
  set_child (set_child node c y) c x = set_child node c x.
Proof. unfold set_child. simpl. by rewrite map_set_set. Qed.

Lemma put_loop_put_loop node key v1 v2 :
  put_loop (put_loop node key v1) key v2 = put_loop node key v2.
Proof.
  revert node. induction key as [|c rest IH]; intros node; [done|].
  rewrite (put_loop_cons node c rest v1).
  rewrite (put_loop_cons (set_child _ _ _)). cbn [children_ set_child].
  rewrite map_find_set_eq, set_child_set_child, (put_loop_cons node c rest v2).
  f_equal.
  destruct (map_find c (children_ node)) as [child|]; destruct rest as [|c2 rest2];
    first [reflexivity | apply IH].
Qed.

(** X3. The last [Put] wins: [Put(key, v1)] followed by [Put(key, v2)] gives
    the very trie that [Put(key, v2)] gives, for every trie and key. *)
Theorem put_overwrites (t : Trie) key v1 v2 :
  Put (Put t key v1) key v2 = Put t key v2.
Proof.
  destruct key as [|c rest].
  - by destruct t.
  - unfold Put. rewrite Clone_id. by rewrite put_loop_put_loop.
Qed.


(** ** Pruning *)

Lemma map_erase_set {A} c (x : A) m : map_erase c (map_set c x m) = map_erase c m.
Proof.
  induction m as [|[c' y] m IH]; simpl.
  - by rewrite Ascii.eqb_refl.
  - destruct (Ascii.eqb c' c) eqn:E; simpl.
    + by rewrite Ascii.eqb_refl.
    + by rewrite E, IH.
Qed.

Lemma map_erase_absent {A} c (m : list (ascii * A)) :
  map_find c m = None -> map_erase c m = m.
Proof.
  induction m as [|[c' y] m IH]; simpl; [done|].
  destruct (Ascii.eqb c' c); [done|]. intros H. by rewrite IH.
Qed.

Lemma map_set_same {A} c (x : A) m : map_find c m = Some x -> map_set c x m = m.
Proof.
  induction m as [|[c' y] m IH]; simpl; [done|].
  destruct (Ascii.eqb c' c) eqn:E.
  - apply Ascii.eqb_eq in E. by intros [= ->]; subst.
  - intros H. by rewrite IH.
Qed.

Lemma forallb_map_set {A} (Q : A -> bool) c x (m : list (ascii * A)) :
  forallb (fun cn => Q cn.2) m = true -> Q x = true ->
  forallb (fun cn => Q cn.2) (map_set c x m) = true.
Proof.
  intros Hm Hx. induction m as [|[c' y] m IH]; simpl in *.
  - by rewrite Hx.
  - apply andb_true_iff in Hm as [Hy Hm].
    destruct (Ascii.eqb c' c); simpl; rewrite ?Hx, ?Hy; auto.
Qed.

Lemma forallb_map_erase {A} (Q : A -> bool) c (m : list (ascii * A)) :
  forallb (fun cn => Q cn.2) m = true ->
  forallb (fun cn => Q cn.2) (map_erase c m) = true.
Proof.
  intros Hm. induction m as [|[c' y] m IH]; simpl in *; [done|].
  apply andb_true_iff in Hm as [Hy Hm].
  destruct (Ascii.eqb c' c); simpl; rewrite ?Hy; auto.
Qed.

Lemma forallb_map_find {A} (Q : A -> bool) c x (m : list (ascii * A)) :
  forallb (fun cn => Q cn.2) m = true -> map_find c m = Some x -> Q x = true.
Proof.
  intros Hm. induction m as [|[c' y] m IH]; simpl in *; [done|].
  apply andb_true_iff in Hm as [Hy Hm].
  destruct (Ascii.eqb c' c); [by intros [= <-] | auto].
Qed.

Lemma pruned_Node x cs :
  pruned (Node x cs) = forallb (fun cn : ascii * TrieNode => live cn.2 && pruned cn.2) cs.
Proof. reflexivity. Qed.

Lemma pruned_children x n : pruned (Node x (children_ n)) = pruned n.
Proof. by destruct n. Qed.

Lemma pruned_child node c child :
  pruned node = true -> map_find c (children_ node) = Some child ->
  live child = true /\ pruned child = true.
Proof.
  intros Hp Hf. destruct node as [x cs]. rewrite pruned_Node in Hp. simpl in Hf.
  apply andb_true_iff.
  by apply (forallb_map_find (fun n => live n && pruned n) c child cs).
Qed.

Lemma pruned_set_child node c x :
  pruned node = true -> live x = true -> pruned x = true ->
  pruned (set_child node c x) = true.
Proof.
  intros Hp Hl Hx. destruct node as [y cs]. unfold set_child. simpl in *.
  apply (forallb_map_set (fun n => live n && pruned n)); [done|]. by rewrite Hl, Hx.
Qed.

Lemma live_set_child node c x : live (set_child node c x) = true.
Proof.
  unfold live, set_child. simpl. apply orb_true_iff. right.
  destruct (children_ node) as [|[c' y] m]; simpl; [done|]. by destruct (Ascii.eqb c' c).
Qed.

Lemma put_loop_pruned node key v :
  key <> EmptyString -> pruned node = true ->
  live (put_loop node key v) = true /\ pruned (put_loop node key v) = true.
Proof.
  revert node. induction key as [|c rest IH]; intros node Hne Hp; [done|].
  rewrite put_loop_cons. split; [apply live_set_child|].
  destruct (map_find c (children_ node)) as [child|] eqn:Hf.
  - destruct (pruned_child _ _ _ Hp Hf) as [Hl Hc].
    destruct rest as [|c2 rest2].
    + apply pruned_set_child; [done | done | by rewrite pruned_children].
    + destruct (IH child ltac:(done) Hc). by apply pruned_set_child.
  - destruct rest as [|c2 rest2].
    + by apply pruned_set_child.
    + destruct (IH (Node None []) ltac:(done) eq_refl). by apply pruned_set_child.
Qed.

Lemma Put_well_pruned (t : Trie) key v :
  well_pruned t = true -> well_pruned (Put t key v) = true.
Proof.
  intros Hw. destruct key as [|c rest].
  - destruct t as [root|]; [|done].
    change (live root && pruned root = true) in Hw.
    apply andb_true_iff in Hw as [_ Hp].
    change (live (Node (Some v) (children_ root))
            && pruned (Node (Some v) (children_ root)) = true).
    by rewrite pruned_children, Hp.
  - unfold Put, well_pruned. apply andb_true_iff, put_loop_pruned; [done|].
    destruct t as [root|]; [|done]. rewrite Clone_id.
    change (live root && pruned root = true) in Hw.
    by apply andb_true_iff in Hw as [_ Hp].
Qed.

Lemma remove_loop_pruned node key n' :
  pruned node = true -> remove_loop node key = Some n' -> pruned n' = true.
Proof.
  revert node n'. induction key as [|c rest IH]; intros node n' Hp; [by intros [= <-]|].
  rewrite remove_loop_cons.
  destruct (map_find c (children_ node)) as [child|] eqn:Hf; [|done].
  destruct (pruned_child _ _ _ Hp Hf) as [Hl Hc].
  set (below := match rest with
                | EmptyString => _
                | String _ _ => _
                end).
  destruct below as [n|] eqn:Hb; [|done].
  assert (Hn : pruned n = true).
  { subst below. destruct rest as [|c2 rest2].
    - destruct (is_value_node_ child); [|done]. injection Hb as <-.
      by rewrite pruned_children.
    - by eapply IH. }
  destruct (map_empty (children_ n) && negb (is_value_node_ n)) eqn:E; intros [= <-].
  - destruct node as [x cs]. unfold erase_child, set_child. simpl in *.
    rewrite map_erase_set.
    by apply (forallb_map_erase (fun n => live n && pruned n)).
  - apply pruned_set_child; [done | | done]. unfold live.
    destruct (is_value_node_ n); [done|]. simpl in *. rewrite andb_true_r in E. by rewrite E.
Qed.

Lemma Remove_well_pruned (t : Trie) key :
  well_pruned t = true -> well_pruned (Remove t key) = true.
Proof.
  intros Hw. destruct t as [root|]; [|done]. unfold Remove. rewrite Clone_id.
  pose proof Hw as Hw'. simpl in Hw'. apply andb_true_iff in Hw' as [Hl Hp].
  assert (Hnonempty : forall n, pruned n = true -> map_empty (children_ n) = false ->
            well_pruned (Some n) = true).
  { intros n Hn He. simpl. rewrite Hn. unfold live. rewrite He. by rewrite orb_true_r. }
  destruct key as [|c rest].
  - destruct (is_value_node_ root); [|done].
    destruct (map_empty (children_ root)) eqn:He; [done|].
    apply Hnonempty; [by rewrite pruned_children | done].
  - destruct (remove_loop root (String c rest)) as [n'|] eqn:Hr; [|done].
    destruct (map_empty (children_ n')) eqn:He; [done|].
    apply Hnonempty; [|done]. by eapply remove_loop_pruned.
Qed.

(** X8. No trie built from the empty trie by [Put] and [Remove] has a node,
    the root included, with neither a value nor children: [Remove] erases
    every node it leaves empty. *)
Theorem tries_stay_pruned (ops : list op) : well_pruned (run ops None) = true.
Proof.
  unfold run. assert (H : well_pruned None = true) by done. revert H.
  generalize (@None TrieNode). induction ops as [|o ops IH]; intros t Ht; [done|].
  simpl. apply IH. destruct o; simpl; [by apply Put_well_pruned | by apply Remove_well_pruned].
Qed.

(** ** Put then Remove *)

Lemma live_not_barren n :
  live n = true -> map_empty (children_ n) && negb (is_value_node_ n) = false.
Proof. unfold live. by destruct (is_value_node_ n), (map_empty (children_ n)). Qed.

Lemma remove_put_loop node key v :
  key <> EmptyString -> pruned node = true -> value_at node key = None ->
  remove_loop (put_loop node key v) key = Some node.
Proof.
  revert node. induction key as [|c rest IH]; intros node Hne Hp Hv; [done|].
  rewrite put_loop_cons, remove_loop_cons. cbn [children_ set_child].
  rewrite map_find_set_eq. rewrite value_at_cons in Hv.
  assert (Hset : forall x n, set_child (set_child node c x) c n = set_child node c n).
  { intros. apply set_child_set_child. }
  assert (Herase : forall n, map_find c (children_ node) = None ->
            erase_child (set_child node c n) c = node).
  { intros n Hf. destruct node as [x cs]. unfold erase_child, set_child. simpl in *.
    by rewrite map_erase_set, map_erase_absent. }
  assert (Hsame : forall child, map_find c (children_ node) = Some child ->
            set_child node c child = node).
  { intros child Hf. destruct node as [x cs]. unfold set_child. simpl in *.
    by rewrite map_set_same. }
  fold (set_child node c) in *.
  destruct (map_find c (children_ node)) as [child|] eqn:Hf.
  - destruct (pruned_child _ _ _ Hp Hf) as [Hl Hc].
    destruct rest as [|c2 rest2].
    + simpl. unfold value_at in Hv. simpl in Hv.
      assert (Hchild : Node None (children_ child) = child)
        by (destruct child; simpl in *; by subst).
      assert (He : map_empty (children_ child) = false).
      { unfold live, is_value_node_ in Hl. rewrite Hv in Hl.
        by destruct (map_empty (children_ child)). }
      rewrite He. simpl. rewrite Hset, Hchild. f_equal. by apply Hsame.
    + rewrite (IH child) by done. rewrite (live_not_barren _ Hl), Hset.
      f_equal. by apply Hsame.
  - destruct rest as [|c2 rest2].
    + simpl. rewrite Hset. f_equal. by apply Herase.
    + rewrite (IH (Node None [])) by done. simpl. rewrite Hset. f_equal. by apply Herase.
Qed.

(** X7. [Put] followed by [Remove] of the same key gives back the trie they
    started from, when the key was bound to nothing, every node of the trie
    has a value or children, and the root, if there is one, has children:
    [Remove] erases the nodes [Put] created and no other. *)
Theorem put_remove_restores (t : Trie) key v :
  well_pruned t = true -> (forall T, Get T t key = None) ->
  match t with Some root => map_empty (children_ root) = false | None => True end ->
  Remove (Put t key v) key = t.
Proof.
  intros Hw Hg Hroot. destruct t as [root|].
  - apply Get_None_value_at in Hg. simpl in Hw. apply andb_true_iff in Hw as [_ Hp].
    destruct key as [|c rest].
    + unfold value_at in Hg. simpl in Hg. simpl. rewrite Hroot.
      f_equal. destruct root; simpl in *; by subst.
    + unfold Put, Remove. rewrite !Clone_id.
      rewrite remove_put_loop by done. by rewrite Hroot.
  - destruct key as [|c rest]; [done|].
    unfold Put, Remove. rewrite !Clone_id. by rewrite remove_put_loop.
Qed.

Lemma put_remove_restores_witness :
  Remove (Put (Put None "ab" (VUInt32 7)) "ac" (VString "x")) "ac"
  = Put None "ab" (VUInt32 7).
Proof. apply put_remove_restores; [reflexivity | intros T; reflexivity | reflexivity]. Defined.

End PTrieFacts.

(* ===================================================================== *)
(** * Properties of the buffer pool manager                                *)
(* ===================================================================== *)

Module PoolFacts.
Import Replacer ReplacerFacts Pool.

#[local] Arguments frame_at : simpl never.

(** ** Frames *)

Lemma frame_at_set_replacer r s f : frame_at (set_replacer r s) f = frame_at s f.
Proof. reflexivity. Qed.
Lemma frame_at_set_free_list l s f : frame_at (set_free_list l s) f = frame_at s f.
Proof. reflexivity. Qed.
Lemma frame_at_set_page_table m s f : frame_at (set_page_table m s) f = frame_at s f.
Proof. reflexivity. Qed.
Lemma frame_at_set_next_page_id n s f : frame_at (set_next_page_id n s) f = frame_at s f.
Proof. reflexivity. Qed.
Lemma frame_at_set_disk d s f : frame_at (set_disk d s) f = frame_at s f.
Proof. reflexivity. Qed.

Lemma frame_at_Some s f pg :
  frame_at s f = Some pg <-> 0 <= f /\ pages_ s !! Z.to_nat f = Some pg.
Proof.
  unfold frame_at. destruct (0 <=? f) eqn:E.
  - apply Z.leb_le in E. tauto.
  - apply Z.leb_gt in E. split; [done | lia].
Qed.

Lemma frame_at_insert_eq s f pg x :
  frame_at s f = Some pg ->
  frame_at (set_pages (<[Z.to_nat f := x]> (pages_ s)) s) f = Some x.
Proof.
  intros [Hf Hl]%frame_at_Some. apply frame_at_Some. split; [done|]. simpl.
  apply list_lookup_insert_eq. by eapply lookup_lt_Some.
Qed.

Lemma frame_at_insert_ne s f g x :
  0 <= f -> f <> g ->
  frame_at (set_pages (<[Z.to_nat f := x]> (pages_ s)) s) g = frame_at s g.
Proof.
  intros Hf Hne. unfold frame_at. destruct (0 <=? g) eqn:E; [|done]. simpl.
  apply Z.leb_le in E. apply list_lookup_insert_ne. lia.
Qed.

Lemma set_pages_twice ps ps' s : set_pages ps (set_pages ps' s) = set_pages ps s.
Proof. reflexivity. Qed.

Lemma insert_twice (ps : list Page) i x y : <[i := x]> (<[i := y]> ps) = <[i := x]> ps.
Proof. apply list_insert_insert_eq. Qed.

Lemma on_frame_Ret f g s pg :
  frame_at s f = Some pg ->
  on_frame f g s = Ret tt (set_pages (<[Z.to_nat f := g pg]> (pages_ s)) s).
Proof. intros H. unfold on_frame, mbind, frame, mmodify. by rewrite H. Qed.

Lemma on_frame_Fail f g s :
  frame_at s f = None -> on_frame f g s = Fail UndefinedBehaviour s.
Proof. intros H. unfold on_frame, mbind, frame. by rewrite H. Qed.

(** ** The replacer never throws outside [Remove] *)

Lemma Evict_no_Fail r e r' : Evict r <> Fail e r'.
Proof.
  unfold Evict. destruct (curr_size_ r =? 0); [done|].
  destruct (scan_victim _ (less_k_list r)) as [[p n]|]; [done|].
  by destruct (scan_victim _ (more_k_list r)) as [[p n]|].
Qed.

Lemma Evict_None r r' : Evict r = Ret None r' -> r' = r.
Proof.
  unfold Evict. destruct (curr_size_ r =? 0); [congruence|].
  destruct (scan_victim _ (less_k_list r)) as [[p n]|]; [done|].
  destruct (scan_victim _ (more_k_list r)) as [[p n]|]; [done | congruence].
Qed.

Lemma RecordAccess_Fail dflt f r e r' :
  RecordAccess dflt f r = Fail e r' -> e = AssertionFailure /\ r' = r.
Proof.
  unfold RecordAccess. destruct (negb (frame_id_ok f r)); [by intros [= <- <-]|].
  destruct (find_node r f) as [[p n]|]; [|done].
  destruct (get_access_count n <? k_ r); [|done].
  by destruct (get_access_count _ =? k_ r).
Qed.

Lemma SetEvictable_Fail f flag r e r' :
  SetEvictable f flag r = Fail e r' -> e = AssertionFailure /\ r' = r.
Proof.
  unfold SetEvictable. destruct (negb (frame_id_ok f r)); [by intros [= <- <-]|].
  destruct (find_node r f) as [[p n]|]; [|done].
  by destruct (Bool.eqb _ _).
Qed.

Lemma Remove_Fail f r e r' : Remove f r = Fail e r' -> r' = r.
Proof.
  unfold Remove. destruct (negb (frame_id_ok f r)); [by intros [= <- <-]|].
  destruct (find_node r f) as [[p n]|]; [|done].
  destruct (negb (is_evictable n)); [by intros [= <- <-]|].
  by destruct (get_access_count n <? k_ r).
Qed.

(** ** [getNewFrame], case by case *)

Lemma acquire_frame_Ret s v s' :
  acquire_frame s = Ret v s' ->
  match free_list_ s with
  | f :: rest => v = Some f /\ s' = set_free_list rest s
  | [] =>
      match Evict (replacer_ s) with
      | Ret (Some f) r0 =>
          exists pg, frame_at s f = Some pg /\ v = Some f /\
            s' = set_page_table (delete (page_id_ pg) (page_table_ s))
                   (set_disk (if is_dirty_ pg
                              then disk_manager_ s ++ [WritePage (page_id_ pg) (data_ pg)]
                              else disk_manager_ s)
                      (set_replacer r0 s))
      | Ret None r0 => v = None /\ s' = s
      | Fail _ _ => False
      end
  end.
Proof.
  unfold acquire_frame, mbind, mget. destruct (free_list_ s) as [|f rest] eqn:Hfl.
  - unfold on_replacer, zoom. destruct (Evict (replacer_ s)) as [[f|] r0 | e r0] eqn:He.
    + unfold frame. rewrite frame_at_set_replacer.
      destruct (frame_at s f) as [pg|] eqn:Hf; [|done].
      unfold GetPageId, IsDirty, GetData, disk_write, mmodify, mret.
      destruct (is_dirty_ pg) eqn:Hd; intros [= <- <-]; exists pg; rewrite Hd; auto.
    + apply Evict_None in He. subst r0. unfold mret. intros [= <- <-].
      split; [done|]. by destruct s.
    + done.
  - unfold mmodify, mret. by intros [= <- <-].
Qed.

Lemma acquire_frame_Fail s e s' : acquire_frame s = Fail e s' -> e = UndefinedBehaviour.
Proof.
  unfold acquire_frame, mbind, mget. destruct (free_list_ s) as [|f rest]; [|done].
  unfold on_replacer, zoom. destruct (Evict (replacer_ s)) as [[f|] r0 | e0 r0] eqn:He.
  - unfold frame. rewrite frame_at_set_replacer.
    destruct (frame_at s f) as [pg|]; [|by intros [= <- <-]].
    unfold disk_write, mmodify, mret. by destruct (IsDirty pg).
  - done.
  - by apply Evict_no_Fail in He.
Qed.

Lemma mbind_Ret {S A B} (m : M S A) (k : A -> M S B) s a s' :
  m s = Ret a s' -> mbind m k s = k a s'.
Proof. intros H. unfold mbind. by rewrite H. Qed.

Lemma mbind_Fail {S A B} (m : M S A) (k : A -> M S B) s e s' :
  m s = Fail e s' -> mbind m k s = Fail e s'.
Proof. intros H. unfold mbind. by rewrite H. Qed.

Lemma on_replacer_Ret {A} (m : M LRUKReplacer A) s a r :
  m (replacer_ s) = Ret a r -> on_replacer m s = Ret a (set_replacer r s).
Proof. intros H. unfold on_replacer, zoom. by rewrite H. Qed.

Lemma on_replacer_Fail {A} (m : M LRUKReplacer A) s e r :
  m (replacer_ s) = Fail e r -> on_replacer m s = Fail e (set_replacer r s).
Proof. intros H. unfold on_replacer, zoom. by rewrite H. Qed.

Lemma frame_at_mk_insert s f pg x a r fl pt n d :
  frame_at s f = Some pg ->
  frame_at (mkBPM a (<[Z.to_nat f := x]> (pages_ s)) r fl pt n d) f = Some x.
Proof.
  intros [Hf Hl]%frame_at_Some. apply frame_at_Some. split; [done|]. simpl.
  apply list_lookup_insert_eq. by eapply lookup_lt_Some.
Qed.

Lemma frame_at_mk_insert_ne s f g x a r fl pt n d :
  0 <= f -> f <> g ->
  frame_at (mkBPM a (<[Z.to_nat f := x]> (pages_ s)) r fl pt n d) g = frame_at s g.
Proof.
  intros Hf Hne. unfold frame_at. destruct (0 <=? g) eqn:E; [|done]. simpl.
  apply Z.leb_le in E. apply list_lookup_insert_ne. lia.
Qed.

Lemma frame_at_mk s a r fl pt n d f :
  frame_at (mkBPM a (pages_ s) r fl pt n d) f = frame_at s f.
Proof. reflexivity. Qed.

(** States in the form of a record of the fields. *)
Ltac norm_bpm :=
  unfold set_pages, set_replacer, set_free_list, set_page_table, set_next_page_id,
    set_disk;
  cbn [pool_size_ pages_ replacer_ free_list_ page_table_ next_page_id_ disk_manager_];
  rewrite ?insert_twice.

(** One step of a monadic computation on a frame that exists. *)
Ltac frame_step Hf :=
  first
    [ erewrite mbind_Ret by
        (apply on_frame_Ret;
         first [exact Hf | by eapply frame_at_mk_insert | rewrite frame_at_mk; exact Hf])
    | erewrite mbind_Ret by reflexivity ];
  norm_bpm.

(** The second part of [getNewFrame], from the frame acquired on. *)
Lemma install_frame_nf dflt f pid (is_new : bool) s pg :
  frame_at s f = Some pg ->
  install_frame dflt f pid is_new s
  = let pid' := if is_new then next_page_id_ s else pid in
    let next := if is_new then to_page_id_t (next_page_id_ s + 1) else next_page_id_ s in
    match RecordAccess dflt f (replacer_ s) with
    | Fail e r1 =>
        Fail e (mkBPM (pool_size_ s)
                  (<[Z.to_nat f := mkPage (repeat 0 BUSTUB_PAGE_SIZE) pid' 0 false]> (pages_ s))
                  r1 (free_list_ s) (page_table_ s) next (disk_manager_ s))
    | Ret _ r1 =>
        match SetEvictable f false r1 with
        | Fail e r2 =>
            Fail e (mkBPM (pool_size_ s)
                      (<[Z.to_nat f := fresh_frame pid']> (pages_ s))
                      r2 (free_list_ s) (page_table_ s) next (disk_manager_ s))
        | Ret _ r2 =>
            Ret (Some (f, pid'))
              (mkBPM (pool_size_ s)
                 (<[Z.to_nat f := fresh_frame pid']> (pages_ s))
                 r2 (free_list_ s) (<[pid' := f]> (page_table_ s)) next (disk_manager_ s))
        end
    end.
Proof.
  intros Hf. unfold install_frame.
  do 2 frame_step Hf.
  assert (Hrest : forall pid' next,
    (on_frame f (SetPageId pid') ;;;
     on_replacer (RecordAccess dflt f) ;;;
     on_frame f Pin ;;;
     on_replacer (SetEvictable f false) ;;;
     mmodify (fun s => set_page_table (<[pid' := f]> (page_table_ s)) s) ;;;
     mret (Some (f, pid')))%M
      (mkBPM (pool_size_ s)
         (<[Z.to_nat f := ResetMemory (ResetMetadata pg)]> (pages_ s))
         (replacer_ s) (free_list_ s) (page_table_ s) next (disk_manager_ s))
    = match RecordAccess dflt f (replacer_ s) with
      | Fail e r1 =>
          Fail e (mkBPM (pool_size_ s)
                    (<[Z.to_nat f := mkPage (repeat 0 BUSTUB_PAGE_SIZE) pid' 0 false]> (pages_ s))
                    r1 (free_list_ s) (page_table_ s) next (disk_manager_ s))
      | Ret _ r1 =>
          match SetEvictable f false r1 with
          | Fail e r2 =>
              Fail e (mkBPM (pool_size_ s)
                        (<[Z.to_nat f := fresh_frame pid']> (pages_ s))
                        r2 (free_list_ s) (page_table_ s) next (disk_manager_ s))
          | Ret _ r2 =>
              Ret (Some (f, pid'))
                (mkBPM (pool_size_ s)
                   (<[Z.to_nat f := fresh_frame pid']> (pages_ s))
                   r2 (free_list_ s) (<[pid' := f]> (page_table_ s)) next (disk_manager_ s))
          end
      end).
  { intros pid' next. frame_step Hf.
    destruct (RecordAccess dflt f (replacer_ s)) as [[] r1 | e r1] eqn:Hra.
    - erewrite mbind_Ret by (by apply on_replacer_Ret).
      cbn [set_replacer pool_size_ pages_ replacer_ free_list_ page_table_
           next_page_id_ disk_manager_].
      frame_step Hf.
      destruct (SetEvictable f false r1) as [[] r2 | e r2] eqn:Hse.
      + erewrite mbind_Ret by (by apply on_replacer_Ret). reflexivity.
      + erewrite mbind_Fail by (by apply on_replacer_Fail). reflexivity.
    - erewrite mbind_Fail by (by apply on_replacer_Fail). reflexivity. }
  destruct is_new.
  - erewrite mbind_Ret by reflexivity.
    cbn [set_next_page_id pool_size_ pages_ replacer_ free_list_ page_table_
         next_page_id_ disk_manager_].
    apply Hrest.
  - erewrite mbind_Ret by reflexivity. apply Hrest.
Qed.

Lemma getNewFrame_Ret dflt pid (is_new : bool) s v s' :
  getNewFrame dflt pid is_new s = Ret v s' ->
  match acquire_frame s with
  | Ret None s1 => v = None /\ s' = s1
  | Ret (Some f) s1 =>
      exists pg r1 r2,
        frame_at s1 f = Some pg /\
        RecordAccess dflt f (replacer_ s1) = Ret tt r1 /\
        SetEvictable f false r1 = Ret tt r2 /\
        v = Some (f, if is_new then next_page_id_ s1 else pid) /\
        s' = mkBPM (pool_size_ s1)
               (<[Z.to_nat f := fresh_frame (if is_new then next_page_id_ s1 else pid)]>
                  (pages_ s1))
               r2 (free_list_ s1)
               (<[(if is_new then next_page_id_ s1 else pid) := f]> (page_table_ s1))
               (if is_new then to_page_id_t (next_page_id_ s1 + 1) else next_page_id_ s1)
               (disk_manager_ s1)
  | Fail _ _ => False
  end.
Proof.
  unfold getNewFrame, mbind at 1.
  destruct (acquire_frame s) as [[f|] s1 | e s1]; [| by intros [= <- <-] | done].
  destruct (frame_at s1 f) as [pg|] eqn:Hf.
  - rewrite (install_frame_nf _ _ _ _ _ _ Hf). cbv zeta.
    destruct (RecordAccess dflt f (replacer_ s1)) as [[] r1 | e r1] eqn:Hra; [|done].
    destruct (SetEvictable f false r1) as [[] r2 | e r2] eqn:Hse; [|done].
    intros [= <- <-]. exists pg, r1, r2. auto.
  - unfold install_frame. by erewrite mbind_Fail by (by apply on_frame_Fail).
Qed.

Lemma getNewFrame_Fail dflt pid (is_new : bool) s e s' :
  getNewFrame dflt pid is_new s = Fail e s' -> e <> ExceptionThrown.
Proof.
  unfold getNewFrame, mbind at 1.
  destruct (acquire_frame s) as [[f|] s1 | e1 s1] eqn:Ha.
  - destruct (frame_at s1 f) as [pg|] eqn:Hf.
    + rewrite (install_frame_nf _ _ _ _ _ _ Hf). cbv zeta.
      destruct (RecordAccess dflt f (replacer_ s1)) as [[] r1 | e1 r1] eqn:Hra.
      * destruct (SetEvictable f false r1) as [[] r2 | e2 r2] eqn:Hse; [done|].
        intros [= <- <-]. by apply SetEvictable_Fail in Hse as [-> _].
      * intros [= <- <-]. by apply RecordAccess_Fail in Hra as [-> _].
    + unfold install_frame. erewrite mbind_Fail by (by apply on_frame_Fail).
      by intros [= <- <-].
  - done.
  - intros [= <- <-]. by apply acquire_frame_Fail in Ha as ->.
Qed.

(** ** The public operations, case by case *)

Lemma frame_Ret s f pg : frame_at s f = Some pg -> frame f s = Ret pg s.
Proof. intros H. unfold frame. by rewrite H. Qed.

Lemma frame_Fail s f : frame_at s f = None -> frame f s = Fail UndefinedBehaviour s.
Proof. intros H. unfold frame. by rewrite H. Qed.

Lemma UnpinPage_nf p (d : bool) s :
  UnpinPage p d s =
  match page_table_ s !! p with
  | None => Ret false s
  | Some f =>
      match frame_at s f with
      | None => Fail UndefinedBehaviour s
      | Some pg =>
          if pin_count_ pg =? 0 then Ret false s
          else
            let pg' := mkPage (data_ pg) (page_id_ pg) (pin_count_ pg - 1)
                         (d || is_dirty_ pg) in
            let ps := <[Z.to_nat f := pg']> (pages_ s) in
            if pin_count_ pg - 1 =? 0 then
              match SetEvictable f true (replacer_ s) with
              | Ret _ r' =>
                  Ret true (mkBPM (pool_size_ s) ps r' (free_list_ s) (page_table_ s)
                              (next_page_id_ s) (disk_manager_ s))
              | Fail e r' =>
                  Fail e (mkBPM (pool_size_ s) ps r' (free_list_ s) (page_table_ s)
                            (next_page_id_ s) (disk_manager_ s))
              end
            else
              Ret true (mkBPM (pool_size_ s) ps (replacer_ s) (free_list_ s)
                          (page_table_ s) (next_page_id_ s) (disk_manager_ s))
      end
  end.
Proof.
  unfold UnpinPage. rewrite (mbind_Ret mget _ s s s eq_refl).
  destruct (page_table_ s !! p) as [f|]; [|done].
  destruct (frame_at s f) as [pg|] eqn:Hf.
  - rewrite (mbind_Ret _ _ _ _ _ (frame_Ret _ _ _ Hf)).
    unfold GetPinCount. destruct (pin_count_ pg =? 0); [done|].
    do 2 frame_step Hf.
    erewrite mbind_Ret by (apply frame_Ret; by eapply frame_at_mk_insert).
    unfold GetPinCount, Unpin, MarkDirty, IsDirty. simpl.
    destruct (pin_count_ pg - 1 =? 0).
    + destruct (SetEvictable f true (replacer_ s)) as [[] r' | e r'] eqn:Hse.
      * erewrite mbind_Ret by (by apply on_replacer_Ret). reflexivity.
      * erewrite mbind_Fail by (by apply on_replacer_Fail). reflexivity.
    + reflexivity.
  - by rewrite (mbind_Fail _ _ _ _ _ (frame_Fail _ _ Hf)).
Qed.

Lemma DeletePage_nf p s :
  DeletePage p s =
  match page_table_ s !! p with
  | None => Ret true s
  | Some f =>
      match frame_at s f with
      | None => Fail UndefinedBehaviour s
      | Some pg =>
          if 0 <? pin_count_ pg then Ret false s
          else
            match Remove f (replacer_ s) with
            | Ret _ r' =>
                Ret true
                  (mkBPM (pool_size_ s) (<[Z.to_nat f := new_page]> (pages_ s)) r'
                     (free_list_ s ++ [f]) (delete p (page_table_ s))
                     (next_page_id_ s) (disk_manager_ s ++ [DeallocatePage p]))
            | Fail e r' => Fail e (set_replacer r' s)
            end
      end
  end.
Proof.
  unfold DeletePage. rewrite (mbind_Ret mget _ s s s eq_refl).
  destruct (page_table_ s !! p) as [f|]; [|done].
  destruct (frame_at s f) as [pg|] eqn:Hf.
  - rewrite (mbind_Ret _ _ _ _ _ (frame_Ret _ _ _ Hf)).
    unfold GetPinCount. destruct (0 <? pin_count_ pg); [done|].
    destruct (Remove f (replacer_ s)) as [[] r' | e r'] eqn:Hrm.
    + erewrite mbind_Ret by (by apply on_replacer_Ret).
      erewrite mbind_Ret by reflexivity. norm_bpm.
      do 2 frame_step Hf. reflexivity.
    + erewrite mbind_Fail by (by apply on_replacer_Fail). reflexivity.
  - by rewrite (mbind_Fail _ _ _ _ _ (frame_Fail _ _ Hf)).
Qed.

Lemma FlushPage_nf p s :
  FlushPage p s =
  match page_table_ s !! p with
  | None => Ret false s
  | Some f =>
      match frame_at s f with
      | None => Fail UndefinedBehaviour s
      | Some pg =>
          Ret true
            (mkBPM (pool_size_ s) (<[Z.to_nat f := MarkDirty false pg]> (pages_ s))
               (replacer_ s) (free_list_ s) (page_table_ s) (next_page_id_ s)
               (disk_manager_ s ++ [WritePage p (data_ pg)]))
      end
  end.
Proof.
  unfold FlushPage. rewrite (mbind_Ret mget _ s s s eq_refl).
  destruct (page_table_ s !! p) as [f|]; [|done].
  destruct (frame_at s f) as [pg|] eqn:Hf.
  - rewrite (mbind_Ret _ _ _ _ _ (frame_Ret _ _ _ Hf)).
    erewrite mbind_Ret by reflexivity. norm_bpm.
    frame_step Hf. reflexivity.
  - by rewrite (mbind_Fail _ _ _ _ _ (frame_Fail _ _ Hf)).
Qed.

Lemma flush_entry_nf (entry : Z * Z) s :
  flush_entry entry s =
  match frame_at s entry.2 with
  | None => Fail UndefinedBehaviour s
  | Some pg =>
      Ret tt
        (mkBPM (pool_size_ s) (<[Z.to_nat entry.2 := MarkDirty false pg]> (pages_ s))
           (replacer_ s) (free_list_ s) (page_table_ s) (next_page_id_ s)
           (disk_manager_ s ++ [WritePage entry.1 (data_ pg)]))
  end.
Proof.
  unfold flush_entry. destruct (frame_at s entry.2) as [pg|] eqn:Hf.
  - rewrite (mbind_Ret _ _ _ _ _ (frame_Ret _ _ _ Hf)).
    erewrite mbind_Ret by reflexivity. norm_bpm.
    erewrite on_frame_Ret by (rewrite frame_at_mk; exact Hf). reflexivity.
  - by rewrite (mbind_Fail _ _ _ _ _ (frame_Fail _ _ Hf)).
Qed.

Lemma FetchPage_hit_nf dflt p s f :
  page_table_ s !! p = Some f ->
  FetchPage dflt p s =
  match frame_at s f with
  | None => Fail UndefinedBehaviour s
  | Some pg =>
      let ps := <[Z.to_nat f := Pin pg]> (pages_ s) in
      match SetEvictable f false (replacer_ s) with
      | Fail e r1 =>
          Fail e (mkBPM (pool_size_ s) ps r1 (free_list_ s) (page_table_ s)
                    (next_page_id_ s) (disk_manager_ s))
      | Ret _ r1 =>
          match RecordAccess dflt f r1 with
          | Fail e r2 =>
              Fail e (mkBPM (pool_size_ s) ps r2 (free_list_ s) (page_table_ s)
                        (next_page_id_ s) (disk_manager_ s))
          | Ret _ r2 =>
              Ret (Some f)
                (mkBPM (pool_size_ s) ps r2 (free_list_ s) (page_table_ s)
                   (next_page_id_ s) (disk_manager_ s))
          end
      end
  end.
Proof.
  intros Hp. unfold FetchPage. rewrite (mbind_Ret mget _ s s s eq_refl). rewrite Hp.
  destruct (frame_at s f) as [pg|] eqn:Hf.
  - frame_step Hf. cbv zeta.
    destruct (SetEvictable f false (replacer_ s)) as [[] r1 | e r1] eqn:Hse.
    + erewrite mbind_Ret by (by apply on_replacer_Ret).
      cbn [set_replacer pool_size_ pages_ replacer_ free_list_ page_table_
           next_page_id_ disk_manager_].
      destruct (RecordAccess dflt f r1) as [[] r2 | e r2] eqn:Hra.
      * erewrite mbind_Ret by (by apply on_replacer_Ret). reflexivity.
      * erewrite mbind_Fail by (by apply on_replacer_Fail). reflexivity.
    + erewrite mbind_Fail by (by apply on_replacer_Fail). reflexivity.
  - by erewrite mbind_Fail by (by apply on_frame_Fail).
Qed.

Lemma FetchPage_miss_nf dflt p s :
  page_table_ s !! p = None ->
  FetchPage dflt p s =
  match getNewFrame dflt p false s with
  | Ret None s1 => Ret None s1
  | Ret (Some (f, _)) s1 =>
      match frame_at s1 f with
      | None => Fail UndefinedBehaviour s1
      | Some pg =>
          Ret (Some f)
            (mkBPM (pool_size_ s1)
               (<[Z.to_nat f := SetData (disk_contents (disk_manager_ s1) p) pg]> (pages_ s1))
               (replacer_ s1) (free_list_ s1) (page_table_ s1) (next_page_id_ s1)
               (disk_manager_ s1 ++ [ReadPage p]))
      end
  | Fail e s1 => Fail e s1
  end.
Proof.
  intros Hp. unfold FetchPage. rewrite (mbind_Ret mget _ s s s eq_refl). rewrite Hp.
  unfold mbind at 1.
  destruct (getNewFrame dflt p false s) as [[[f q]|] s1 | e s1]; [|done|done].
  unfold disk_read. destruct (frame_at s1 f) as [pg|] eqn:Hf.
  - erewrite mbind_Ret.
    2:{ erewrite mbind_Ret by reflexivity.
        erewrite mbind_Ret by (apply on_frame_Ret; exact Hf). reflexivity. }
    reflexivity.
  - erewrite mbind_Fail; [reflexivity|].
    erewrite mbind_Ret by reflexivity.
    by erewrite mbind_Fail by (by apply on_frame_Fail).
Qed.

(** ** The invariant holds initially and every operation keeps it *)

Lemma frame_at_init pool_size k f pg :
  frame_at (init pool_size k) f = Some pg -> pg = new_page.
Proof.
  intros [_ Hl]%frame_at_Some. simpl in Hl.
  apply list_elem_of_lookup_2, list_elem_of_In in Hl. by apply repeat_spec in Hl.
Qed.

Lemma pool_inv_init pool_size k : pool_size < 2 ^ 31 -> pool_inv (init pool_size k).
Proof.
  intros Hsize. split; simpl.
  - intros p f H. by rewrite lookup_empty in H.
  - intros p f H. by rewrite lookup_empty in H.
  - apply NoDup_fmap_2_strong; [|apply NoDup_seq].
    intros x y Hx%elem_of_seq Hy%elem_of_seq Heq.
    rewrite !to_frame_id_t_small in Heq by lia. lia.
  - intros p f H. by rewrite lookup_empty in H.
  - apply store_ok_init.
  - intros f pg H. apply frame_at_init in H. by subst.
  - intros p f pg n H. by rewrite lookup_empty in H.
Qed.

(** A change of one frame that keeps its page id, with a change of the
    replacer that leaves the other frames' nodes alone. *)
Lemma pool_inv_touch s f pg pg' r' nx d :
  pool_inv s -> frame_at s f = Some pg ->
  page_id_ pg' = page_id_ pg -> 0 <= pin_count_ pg' ->
  replacer_size_ r' = replacer_size_ (replacer_ s) -> store_ok r' ->
  (forall h n, h <> f -> tracked r' h n -> tracked (replacer_ s) h n) ->
  (forall p n, page_table_ s !! p = Some f -> pin_count_ pg' = 0 ->
     tracked r' f n -> is_evictable n = true) ->
  pool_inv (mkBPM (pool_size_ s) (<[Z.to_nat f := pg']> (pages_ s)) r'
              (free_list_ s) (page_table_ s) nx d).
Proof.
  intros [Ht Hfr Hnd Hok Hst Hpin Hun] Hf Hid Hp Hsz Hst' Hoth Hev.
  assert (H0 : 0 <= f) by (by apply frame_at_Some in Hf as [? _]).
  assert (Hfr' : forall h x,
            frame_at (mkBPM (pool_size_ s) (<[Z.to_nat f := pg']> (pages_ s)) r'
                        (free_list_ s) (page_table_ s) nx d) h = Some x ->
            (h = f /\ x = pg') \/ (h <> f /\ frame_at s h = Some x)).
  { intros h x Hx. destruct (decide (h = f)) as [-> | Hne].
    - left. rewrite (frame_at_mk_insert _ _ pg) in Hx by done. split; congruence.
    - right. rewrite frame_at_mk_insert_ne in Hx by done. auto. }
  split; simpl.
  - intros p h Hp'. destruct (Ht p h Hp') as (x & Hx & Hxid).
    destruct (decide (h = f)) as [-> | Hne].
    + exists pg'. split; [by eapply frame_at_mk_insert|]. congruence.
    + exists x. split; [|done]. by rewrite frame_at_mk_insert_ne.
  - done.
  - done.
  - intros p h Hp'. rewrite (frame_id_ok_size _ _ _ Hsz). eauto.
  - done.
  - intros h x Hx. destruct (Hfr' h x Hx) as [[-> ->] | [Hne Hx']]; eauto.
  - intros p h x n Hp' Hx Hpin0 Htr.
    destruct (Hfr' h x Hx) as [[-> ->] | [Hne Hx']]; eauto.
Qed.

Lemma pool_inv_getNewFrame dflt pid (is_new : bool) s v s' :
  pool_inv s -> getNewFrame dflt pid is_new s = Ret v s' -> pool_inv s'.
Proof.
  intros Hinv Hret. apply getNewFrame_Ret in Hret.
  destruct (acquire_frame s) as [[f|] s1 | e s1] eqn:Hacq; [| |done].
  2:{ destruct Hret as [_ ->]. apply acquire_frame_Ret in Hacq.
      destruct (free_list_ s); [|by destruct Hacq].
      destruct (Evict (replacer_ s)) as [[g|] r0 | e r0]; [|by destruct Hacq as [_ ->] |done].
      by destruct Hacq as (? & _ & ? & _). }
  destruct Hret as (pg1 & r1 & r2 & Hf1 & Hra & Hse & -> & ->).
  set (pid' := if is_new then next_page_id_ s1 else pid).
  apply RecordAccess_Ret in Hra as (Hok1 & Hsz1 & Hst1 & Htr1).
  apply SetEvictable_Ret in Hse as (Hok2 & Hsz2 & Hst2 & Htr2 & Hev2).
  destruct Hinv as [Ht Hfr Hnd Hok Hst Hpin Hun].
  assert (H0 : 0 <= f) by (by apply frame_at_Some in Hf1 as [? _]).
  (* what the acquisition guarantees *)
  assert (Hacq' :
    replacer_size_ (replacer_ s1) = replacer_size_ (replacer_ s) /\
    store_ok (replacer_ s1) /\
    (forall h n, tracked (replacer_ s1) h n -> tracked (replacer_ s) h n) /\
    pages_ s1 = pages_ s /\
    NoDup (free_list_ s1) /\ (f ∉ free_list_ s1) /\
    (forall h, h ∈ free_list_ s1 -> h ∈ free_list_ s) /\
    (forall p h, page_table_ s1 !! p = Some h -> page_table_ s !! p = Some h /\ h <> f)).
  { apply acquire_frame_Ret in Hacq. destruct (free_list_ s) as [|f0 rest] eqn:Hfl.
    - destruct (Evict (replacer_ s)) as [[g|] r0 | e r0] eqn:Hev; [| by destruct Hacq | done].
      destruct Hacq as (pg & Hpg & Hg & ->). injection Hg as <-.
      apply Evict_Ret in Hev as (Hsz & Hsto & Htr & _). simpl. rewrite Hfl.
      split; [done|]. split; [auto|]. split; [done|]. split; [done|].
      split; [constructor|]. split; [apply not_elem_of_nil|]. split; [done|].
      intros p h Hp. apply lookup_delete_Some in Hp as [Hne Hp]. split; [done|].
      intros ->. destruct (Ht p f Hp) as (x & Hx & Hxid). congruence.
    - destruct Hacq as [Hg ->]. injection Hg as <-. simpl.
      apply NoDup_cons in Hnd as [Hnin Hnd].
      split; [done|]. split; [done|]. split; [done|]. split; [done|].
      split; [done|]. split; [done|]. split; [intros h Hh; by right|].
      intros p h Hp. split; [done|]. intros ->. apply (Hfr p f Hp). left. }
  destruct Hacq' as (Hsz0 & Hst0 & Htr0 & Hpages & Hnd1 & Hnin1 & Hsub & Hpt).
  assert (Hframe : forall h x,
            frame_at (mkBPM (pool_size_ s1) (<[Z.to_nat f := fresh_frame pid']> (pages_ s1)) r2
                        (free_list_ s1) (<[pid' := f]> (page_table_ s1))
                        (if is_new then to_page_id_t (next_page_id_ s1 + 1)
                         else next_page_id_ s1) (disk_manager_ s1)) h = Some x ->
            (h = f /\ x = fresh_frame pid') \/ (h <> f /\ frame_at s h = Some x)).
  { intros h x Hx. destruct (decide (h = f)) as [-> | Hne].
    - left. rewrite (frame_at_mk_insert _ _ pg1) in Hx by done. split; congruence.
    - right. rewrite frame_at_mk_insert_ne in Hx by done. split; [done|].
      unfold frame_at in *. by rewrite <- Hpages. }
  split; simpl.
  - intros p h Hp. apply lookup_insert_Some in Hp as [[<- <-] | [Hne Hp]].
    + exists (fresh_frame pid'). split; [by eapply frame_at_mk_insert | done].
    + destruct (Hpt p h Hp) as [Hp' Hhf]. destruct (Ht p h Hp') as (x & Hx & Hxid).
      exists x. split; [|done]. rewrite frame_at_mk_insert_ne by done.
      unfold frame_at in *. by rewrite Hpages.
  - intros p h Hp. apply lookup_insert_Some in Hp as [[<- <-] | [Hne Hp]]; [done|].
    destruct (Hpt p h Hp) as [Hp' Hhf]. intros Hin. by apply (Hfr p h Hp'), Hsub.
  - done.
  - intros p h Hp. rewrite (frame_id_ok_size _ _ _ Hsz2), (frame_id_ok_size _ _ _ Hsz1).
    apply lookup_insert_Some in Hp as [[<- <-] | [Hne Hp]]; [done|].
    rewrite (frame_id_ok_size _ _ _ Hsz0). destruct (Hpt p h Hp) as [Hp' _]. eauto.
  - auto.
  - intros h x Hx. destruct (Hframe h x Hx) as [[-> ->] | [Hne Hx']]; [simpl; lia | eauto].
  - intros p h x n Hp Hx Hpin0 Htr.
    destruct (Hframe h x Hx) as [[-> ->] | [Hne Hx']]; [done|].
    apply lookup_insert_Some in Hp as [[<- <-] | [Hnp Hp]]; [done|].
    destruct (Hpt p h Hp) as [Hp' _].
    eapply (Hun p h x); eauto.
Qed.

Lemma pool_inv_NewPage dflt s v s' :
  pool_inv s -> NewPage dflt s = Ret v s' -> pool_inv s'.
Proof. intros Hinv H. by eapply pool_inv_getNewFrame. Qed.

Lemma pool_inv_same_replacer s f pg pg' nx d :
  pool_inv s -> frame_at s f = Some pg ->
  page_id_ pg' = page_id_ pg -> pin_count_ pg' = pin_count_ pg ->
  pool_inv (mkBPM (pool_size_ s) (<[Z.to_nat f := pg']> (pages_ s)) (replacer_ s)
              (free_list_ s) (page_table_ s) nx d).
Proof.
  intros Hinv Hf Hid Hpin. eapply pool_inv_touch; eauto.
  - rewrite Hpin. by eapply pi_pin.
  - by apply pi_store.
  - intros p n Hp Hpin0 Htr. eapply pi_unpinned; eauto. congruence.
Qed.

Lemma pool_inv_FetchPage dflt p s v s' :
  pool_inv s -> FetchPage dflt p s = Ret v s' -> pool_inv s'.
Proof.
  intros Hinv. destruct (page_table_ s !! p) as [f|] eqn:Hp.
  - rewrite (FetchPage_hit_nf _ _ _ _ Hp).
    destruct (frame_at s f) as [pg|] eqn:Hf; [|done]. cbv zeta.
    destruct (SetEvictable f false (replacer_ s)) as [[] r1 | e r1] eqn:Hse; [|done].
    destruct (RecordAccess dflt f r1) as [[] r2 | e r2] eqn:Hra; [|done].
    intros [= <- <-].
    apply SetEvictable_Ret in Hse as (Hok1 & Hsz1 & Hst1 & Htr1 & _).
    apply RecordAccess_Ret in Hra as (Hok2 & Hsz2 & Hst2 & Htr2).
    pose proof (pi_store s Hinv) as Hst. pose proof (pi_pin s Hinv f pg Hf) as Hpin.
    eapply pool_inv_touch; eauto; simpl; first [lia | congruence | intros; lia].
  - rewrite (FetchPage_miss_nf _ _ _ Hp).
    destruct (getNewFrame dflt p false s) as [[[f q]|] s1 | e s1] eqn:Hg; [| |done].
    + pose proof (pool_inv_getNewFrame _ _ _ _ _ _ Hinv Hg) as Hinv1.
      destruct (frame_at s1 f) as [pg|] eqn:Hf; [|done]. intros [= <- <-].
      by eapply pool_inv_same_replacer.
    + intros [= <- <-]. by eapply pool_inv_getNewFrame.
Qed.

Lemma pool_inv_UnpinPage p d s v s' :
  pool_inv s -> UnpinPage p d s = Ret v s' -> pool_inv s'.
Proof.
  intros Hinv. rewrite UnpinPage_nf.
  destruct (page_table_ s !! p) as [f|] eqn:Hp; [|by intros [= <- <-]].
  destruct (frame_at s f) as [pg|] eqn:Hf; [|done].
  destruct (pin_count_ pg =? 0) eqn:Hz; [by intros [= <- <-]|].
  apply Z.eqb_neq in Hz. cbv zeta.
  pose proof (pi_pin s Hinv f pg Hf) as Hpin. pose proof (pi_store s Hinv) as Hst.
  destruct (pin_count_ pg - 1 =? 0) eqn:Hz'.
  - destruct (SetEvictable f true (replacer_ s)) as [[] r' | e r'] eqn:Hse; [|done].
    intros [= <- <-].
    apply SetEvictable_Ret in Hse as (Hok1 & Hsz1 & Hst1 & Htr1 & Hev1).
    eapply pool_inv_touch; eauto. simpl. lia.
  - apply Z.eqb_neq in Hz'. intros [= <- <-].
    eapply pool_inv_touch; eauto; simpl; first [lia | intros; lia].
Qed.

Lemma pool_inv_FlushPage p s v s' :
  pool_inv s -> FlushPage p s = Ret v s' -> pool_inv s'.
Proof.
  intros Hinv. rewrite FlushPage_nf.
  destruct (page_table_ s !! p) as [f|] eqn:Hp; [|by intros [= <- <-]].
  destruct (frame_at s f) as [pg|] eqn:Hf; [|done]. intros [= <- <-].
  by eapply pool_inv_same_replacer.
Qed.

Lemma pool_inv_for_each_flush l s s' :
  pool_inv s -> for_each flush_entry l s = Ret tt s' -> pool_inv s'.
Proof.
  revert s. induction l as [|entry l IH]; intros s Hinv; simpl.
  - by intros [= <-].
  - unfold mbind. rewrite flush_entry_nf.
    destruct (frame_at s entry.2) as [pg|] eqn:Hf; [|done].
    apply IH. by eapply pool_inv_same_replacer.
Qed.

Lemma pool_inv_FlushAllPages s s' :
  pool_inv s -> FlushAllPages s = Ret tt s' -> pool_inv s'.
Proof.
  intros Hinv. unfold FlushAllPages. rewrite (mbind_Ret mget _ s s s eq_refl).
  by apply pool_inv_for_each_flush.
Qed.

Lemma pool_inv_OpWrite f bytes s s' :
  pool_inv s -> on_frame f (SetData bytes) s = Ret tt s' -> pool_inv s'.
Proof.
  intros Hinv. destruct (frame_at s f) as [pg|] eqn:Hf.
  - rewrite (on_frame_Ret _ _ _ _ Hf). intros [= <-].
    destruct s. by eapply (pool_inv_same_replacer _ f pg).
  - by rewrite (on_frame_Fail _ _ _ Hf).
Qed.

Lemma pool_inv_DeletePage p s v s' :
  pool_inv s -> DeletePage p s = Ret v s' -> pool_inv s'.
Proof.
  intros Hinv. rewrite DeletePage_nf.
  destruct (page_table_ s !! p) as [f|] eqn:Hp; [|by intros [= <- <-]].
  destruct (frame_at s f) as [pg|] eqn:Hf; [|done].
  destruct (0 <? pin_count_ pg); [by intros [= <- <-]|].
  destruct (Remove f (replacer_ s)) as [[] r' | e r'] eqn:Hrm; [|done].
  intros [= <- <-].
  apply Remove_Ret in Hrm as (Hsz & Hst' & Htr & _).
  destruct Hinv as [Ht Hfr Hnd Hok Hst Hpin Hun].
  assert (H0 : 0 <= f) by (by apply frame_at_Some in Hf as [? _]).
  assert (Hother : forall q h, q <> p -> page_table_ s !! q = Some h -> h <> f).
  { intros q h Hne Hq ->. destruct (Ht q f Hq) as (x & Hx & Hxid).
    destruct (Ht p f Hp) as (y & Hy & Hyid). congruence. }
  set (s' := mkBPM _ _ _ _ _ _ _).
  assert (Hframe : forall h x, frame_at s' h = Some x ->
            (h = f /\ x = new_page) \/ (h <> f /\ frame_at s h = Some x)).
  { intros h x Hx. subst s'. destruct (decide (h = f)) as [-> | Hne].
    - left. rewrite (frame_at_mk_insert _ _ pg) in Hx by done. split; congruence.
    - right. rewrite frame_at_mk_insert_ne in Hx by done. auto. }
  split; simpl.
  - intros q h Hq. apply lookup_delete_Some in Hq as [Hne Hq].
    assert (h <> f) by (eapply Hother; eauto).
    destruct (Ht q h Hq) as (x & Hx & Hxid). exists x. split; [|done].
    unfold s'. by rewrite frame_at_mk_insert_ne.
  - intros q h Hq. apply lookup_delete_Some in Hq as [Hne Hq].
    assert (h <> f) by (eapply Hother; eauto).
    rewrite elem_of_app, list_elem_of_singleton. intros [Hin | ->]; [|done].
    by apply (Hfr q h Hq).
  - apply NoDup_app. split; [done|]. split; [|apply NoDup_singleton].
    intros x Hx Hx'. apply list_elem_of_singleton in Hx'. subst x. by apply (Hfr p f Hp).
  - intros q h Hq. apply lookup_delete_Some in Hq as [Hne Hq].
    rewrite (frame_id_ok_size _ _ _ Hsz). eauto.
  - auto.
  - intros h x Hx. destruct (Hframe h x Hx) as [[-> ->] | [Hne Hx']]; [done | eauto].
  - intros q h x n Hq Hx Hpin0 Htr'. apply lookup_delete_Some in Hq as [Hne Hq].
    assert (h <> f) by (eapply Hother; eauto).
    destruct (Hframe h x Hx) as [[-> ->] | [Hnf Hx']]; [done|].
    eapply (Hun q h x); eauto.
Qed.

Lemma DeletePage_throw p s s' :
  DeletePage p s = Fail ExceptionThrown s' -> s' = s.
Proof.
  rewrite DeletePage_nf.
  destruct (page_table_ s !! p) as [f|]; [|done].
  destruct (frame_at s f) as [pg|]; [|done].
  destruct (0 <? pin_count_ pg); [done|].
  destruct (Remove f (replacer_ s)) as [[] r' | e r'] eqn:Hrm; [done|].
  intros [= -> <-]. apply Remove_Fail in Hrm. subst r'. by destruct s.
Qed.

(** ** Only [DeletePage] can throw *)

Lemma FetchPage_Fail dflt p s e s' :
  FetchPage dflt p s = Fail e s' -> e <> ExceptionThrown.
Proof.
  destruct (page_table_ s !! p) as [f|] eqn:Hp.
  - rewrite (FetchPage_hit_nf _ _ _ _ Hp).
    destruct (frame_at s f) as [pg|]; [|by intros [= <- <-]]. cbv zeta.
    destruct (SetEvictable f false (replacer_ s)) as [[] r1 | e1 r1] eqn:Hse.
    + destruct (RecordAccess dflt f r1) as [[] r2 | e2 r2] eqn:Hra; [done|].
      intros [= <- <-]. by apply RecordAccess_Fail in Hra as [-> _].
    + intros [= <- <-]. by apply SetEvictable_Fail in Hse as [-> _].
  - rewrite (FetchPage_miss_nf _ _ _ Hp).
    destruct (getNewFrame dflt p false s) as [[[f q]|] s1 | e1 s1] eqn:Hg.
    + destruct (frame_at s1 f) as [pg|]; [done | by intros [= <- <-]].
    + done.
    + intros [= <- <-]. by eapply getNewFrame_Fail.
Qed.

Lemma UnpinPage_Fail p d s e s' :
  UnpinPage p d s = Fail e s' -> e <> ExceptionThrown.
Proof.
  rewrite UnpinPage_nf.
  destruct (page_table_ s !! p) as [f|]; [|done].
  destruct (frame_at s f) as [pg|]; [|by intros [= <- <-]].
  destruct (pin_count_ pg =? 0); [done|]. cbv zeta.
  destruct (pin_count_ pg - 1 =? 0); [|done].
  destruct (SetEvictable f true (replacer_ s)) as [[] r' | e1 r'] eqn:Hse; [done|].
  intros [= <- <-]. by apply SetEvictable_Fail in Hse as [-> _].
Qed.

Lemma FlushPage_Fail p s e s' :
  FlushPage p s = Fail e s' -> e <> ExceptionThrown.
Proof.
  rewrite FlushPage_nf.
  destruct (page_table_ s !! p) as [f|]; [|done].
  destruct (frame_at s f) as [pg|]; [done | by intros [= <- <-]].
Qed.

Lemma for_each_flush_Fail l s e s' :
  for_each flush_entry l s = Fail e s' -> e <> ExceptionThrown.
Proof.
  revert s. induction l as [|entry l IH]; intros s; simpl; [done|].
  unfold mbind. rewrite flush_entry_nf.
  destruct (frame_at s entry.2) as [pg|]; [apply IH | by intros [= <- <-]].
Qed.

Lemma pool_exec_op_inv dflt o s :
  pool_inv s ->
  match exec_op dflt o s with
  | Ret _ s' => pool_inv s'
  | Fail ExceptionThrown s' => pool_inv s'
  | Fail _ _ => True
  end.
Proof.
  intros Hinv. destruct o; simpl; unfold mbind.
  - destruct (NewPage dflt s) as [v s' | e s'] eqn:H; [by eapply pool_inv_NewPage|].
    apply getNewFrame_Fail in H. by destruct e.
  - destruct (FetchPage dflt page_id s) as [v s' | e s'] eqn:H;
      [by eapply pool_inv_FetchPage|].
    apply FetchPage_Fail in H. by destruct e.
  - destruct (UnpinPage page_id is_dirty s) as [v s' | e s'] eqn:H;
      [by eapply pool_inv_UnpinPage|].
    apply UnpinPage_Fail in H. by destruct e.
  - destruct (FlushPage page_id s) as [v s' | e s'] eqn:H;
      [by eapply pool_inv_FlushPage|].
    apply FlushPage_Fail in H. by destruct e.
  - destruct (FlushAllPages s) as [[] s' | e s'] eqn:H;
      [by eapply pool_inv_FlushAllPages|].
    unfold FlushAllPages in H. rewrite (mbind_Ret mget _ s s s eq_refl) in H.
    apply for_each_flush_Fail in H. by destruct e.
  - destruct (DeletePage page_id s) as [v s' | e s'] eqn:H;
      [by eapply pool_inv_DeletePage|].
    destruct e; [done | | done]. apply DeletePage_throw in H. by subst.
  - destruct (on_frame frame_id (SetData bytes) s) as [[] s' | e s'] eqn:H;
      [by eapply pool_inv_OpWrite|].
    destruct (frame_at s frame_id) as [pg|] eqn:Hf.
    + by rewrite (on_frame_Ret _ _ _ _ Hf) in H.
    + rewrite (on_frame_Fail _ _ _ Hf) in H. by injection H as <- <-.
Qed.

Lemma pool_run_inv dflt ops s : pool_inv s -> pool_inv (run dflt ops s).
Proof.
  revert s. induction ops as [|o ops IH]; intros s Hinv; simpl; [done|].
  pose proof (pool_exec_op_inv dflt o s Hinv) as H.
  destruct (exec_op dflt o s) as [v s' | e s']; [by apply IH|].
  destruct e; [done | by apply IH | done].
Qed.

(** Every state the manager reaches satisfies the invariant. *)
Lemma reachable_inv dflt pool_size k ops :
  pool_size < 2 ^ 31 -> pool_inv (run dflt ops (init pool_size k)).
Proof. intros H. by apply pool_run_inv, pool_inv_init. Qed.

(** ** No call fails in a state the manager reaches *)

Lemma pool_range_init pool_size k : pool_size < 2 ^ 31 -> pool_range (init pool_size k).
Proof.
  intros Hsize. split; simpl; [done | done | | |].
  - intros f. unfold in_pool, frame_at. simpl. destruct (0 <=? f) eqn:E.
    + apply Z.leb_le in E. rewrite lookup_lt_is_Some, repeat_length. lia.
    + apply Z.leb_gt in E. split; [lia | by intros [? ?]].
  - intros f Hf. apply list_elem_of_fmap in Hf as (i & -> & Hi%elem_of_seq).
    unfold in_pool. simpl. rewrite to_frame_id_t_small by lia. lia.
  - intros a n H. unfold deref in H. simpl in H. by rewrite lookup_nil in H.
Qed.

Lemma in_pool_frame_id_ok s f :
  pool_range s -> in_pool s f -> frame_id_ok f (replacer_ s) = true.
Proof.
  intros [Hb Hsz _ _ _] [H0 Hlt]. unfold frame_id_ok. rewrite Hsz.
  rewrite to_frame_id_t_small by lia. by apply Z.ltb_lt.
Qed.

(** A state with the same pool and as many frames. *)
Lemma pool_range_next s s' :
  pool_range s ->
  pool_size_ s' = pool_size_ s -> length (pages_ s') = length (pages_ s) ->
  replacer_size_ (replacer_ s') = replacer_size_ (replacer_ s) ->
  (forall f, f ∈ free_list_ s' -> in_pool s f) ->
  heap_fids (in_pool s) (replacer_ s') ->
  pool_range s'.
Proof.
  intros [Hb Hsz Hfr Hfl Hheap] Hpool Hlen Hsize Hfree Hh.
  assert (Hin : forall f, in_pool s' f <-> in_pool s f)
    by (intros f; unfold in_pool; by rewrite Hpool).
  split.
  - by rewrite Hpool.
  - by rewrite Hsize, Hpool.
  - intros f. rewrite Hin, Hfr. unfold frame_at. destruct (0 <=? f); [|done].
    by rewrite !lookup_lt_is_Some, Hlen.
  - intros f Hf. apply Hin. auto.
  - intros a n Ha. apply Hin. by apply (Hh a).
Qed.

Lemma acquire_frame_returns s :
  pool_range s ->
  exists v s1, acquire_frame s = Ret v s1 /\
    (forall f, v = Some f -> in_pool s f) /\
    pool_size_ s1 = pool_size_ s /\ pages_ s1 = pages_ s /\
    replacer_size_ (replacer_ s1) = replacer_size_ (replacer_ s) /\
    heap_fids (in_pool s) (replacer_ s1) /\
    (forall h, h ∈ free_list_ s1 -> h ∈ free_list_ s).
Proof.
  intros Hr. pose proof Hr as [Hb Hsz Hfr Hfl Hheap].
  unfold acquire_frame. rewrite (mbind_Ret mget _ s s s eq_refl).
  destruct (free_list_ s) as [|f rest] eqn:Hlist.
  - destruct (Evict (replacer_ s)) as [v r0 | e r0] eqn:Hev;
      [|by apply Evict_no_Fail in Hev].
    destruct (Evict_heap_fids _ _ _ _ Hev Hheap) as [Hheap0 Hv].
    apply Evict_Ret in Hev as Hev'. destruct Hev' as (Hsz0 & _).
    erewrite mbind_Ret by (by apply on_replacer_Ret).
    destruct v as [g|].
    + assert (Hg : in_pool s g) by (by apply Hv).
      destruct (proj1 (Hfr g) Hg) as [pg Hpg].
      erewrite mbind_Ret by (apply frame_Ret; rewrite frame_at_set_replacer; exact Hpg).
      unfold GetPageId, IsDirty, GetData.
      destruct (is_dirty_ pg); eexists _, _; (split; [reflexivity|]); simpl;
        rewrite ?Hlist;
        (split; [by intros h [= <-]|]; split; [done|]; split; [done|];
         split; [done|]; split; [done|]; done).
    + eexists _, _. split; [reflexivity|]. simpl. rewrite ?Hlist.
      split; [done|]. split; [done|]. split; [done|]. split; [done|]. split; done.
  - eexists _, _. split; [reflexivity|]. simpl.
    split; [intros g [= <-]; apply Hfl; left|].
    split; [done|]. split; [done|]. split; [done|]. split; [done|].
    intros h Hh. by right.
Qed.

Lemma getNewFrame_returns dflt pid (is_new : bool) s :
  pool_range s ->
  exists v s', getNewFrame dflt pid is_new s = Ret v s' /\ pool_range s'.
Proof.
  intros Hr. pose proof Hr as [Hb Hsz Hfr Hfl Hheap].
  destruct (acquire_frame_returns s Hr)
    as (v & s1 & Hacq & Hv & Hpool & Hpages & Hsize & Hheap1 & Hsub).
  assert (Hr1 : pool_range s1).
  { eapply pool_range_next; eauto. by rewrite Hpages. }
  unfold getNewFrame. rewrite (mbind_Ret _ _ _ _ _ Hacq).
  destruct v as [f|]; [|eexists _, _; split; [reflexivity | done]].
  assert (Hf : in_pool s1 f) by (unfold in_pool; rewrite Hpool; by apply Hv).
  destruct (proj1 (pr_frames s1 Hr1 f) Hf) as [pg Hpg].
  rewrite (install_frame_nf _ _ _ _ _ _ Hpg). cbv zeta.
  destruct (RecordAccess_returns dflt f (replacer_ s1)) as [r1 Hra];
    [by apply in_pool_frame_id_ok|].
  rewrite Hra.
  pose proof (RecordAccess_Ret _ _ _ _ Hra) as (Hok1 & Hsz1 & _).
  destruct (SetEvictable_returns f false r1) as [r2 Hse];
    [by rewrite (frame_id_ok_size _ _ _ Hsz1)|].
  rewrite Hse. pose proof (SetEvictable_Ret _ _ _ _ Hse) as (_ & Hsz2 & _).
  eexists _, _. split; [reflexivity|].
  eapply (pool_range_next s1); eauto; simpl.
  - by rewrite length_insert.
  - congruence.
  - apply (pr_free s1 Hr1).
  - eapply SetEvictable_heap_fids; eauto.
    eapply RecordAccess_heap_fids; eauto. apply (pr_heap s1 Hr1).
Qed.

Lemma pool_range_update s f pg' r' nx d :
  pool_range s ->
  replacer_size_ r' = replacer_size_ (replacer_ s) -> heap_fids (in_pool s) r' ->
  pool_range (mkBPM (pool_size_ s) (<[Z.to_nat f := pg']> (pages_ s)) r'
                (free_list_ s) (page_table_ s) nx d).
Proof.
  intros Hr Hsz Hh. eapply pool_range_next; eauto; simpl.
  - by rewrite length_insert.
  - apply (pr_free s Hr).
Qed.

Lemma for_each_flush_returns l s :
  pool_range s -> (forall entry, entry ∈ l -> in_pool s entry.2) ->
  exists s', for_each flush_entry l s = Ret tt s' /\ pool_range s'.
Proof.
  revert s. induction l as [|entry l IH]; intros s Hr Hl; simpl.
  - by exists s.
  - destruct (proj1 (pr_frames s Hr entry.2) (Hl entry ltac:(left))) as [pg Hpg].
    unfold mbind. rewrite flush_entry_nf, Hpg.
    apply IH.
    + apply pool_range_update; [done | done | apply (pr_heap s Hr)].
    + intros e He. unfold in_pool. simpl. apply Hl. by right.
Qed.

(** In a state reached from the constructor, every call of the manager
    returns: no assertion fails, no frame is sought outside the pool, and
    [Remove] does not throw. ([OpWrite] is a client's write through a
    pointer to a frame of the pool.) *)
Lemma exec_op_returns dflt o s :
  pool_inv s -> pool_range s ->
  (forall f bytes, o = OpWrite f bytes -> in_pool s f) ->
  exists s', exec_op dflt o s = Ret tt s' /\ pool_inv s' /\ pool_range s'.
Proof.
  intros Hinv Hr Hw.
  assert (Htable : forall p f, page_table_ s !! p = Some f -> in_pool s f).
  { intros p f Hp. apply (pr_frames s Hr). destruct (pi_table s Hinv p f Hp) as (pg & Hpg & _).
    eauto. }
  assert (Hgoal : forall s', exec_op dflt o s = Ret tt s' -> pool_range s' ->
            exists s', exec_op dflt o s = Ret tt s' /\ pool_inv s' /\ pool_range s').
  { intros s' Hex Hr'. exists s'. split; [done|]. split; [|done].
    pose proof (pool_exec_op_inv dflt o s Hinv) as H. by rewrite Hex in H. }
  destruct o; simpl in *; unfold mbind in *.
  - destruct (getNewFrame_returns dflt INVALID_PAGE_ID true s Hr) as (v & s' & Hg & Hr').
    unfold NewPage in *. rewrite Hg in *. by eapply Hgoal.
  - destruct (page_table_ s !! page_id) as [f|] eqn:Hp.
    + rewrite (FetchPage_hit_nf _ _ _ _ Hp) in *.
      destruct (pi_table s Hinv _ f Hp) as (pg & Hpg & _). rewrite Hpg in *. cbv zeta in *.
      destruct (SetEvictable_returns f false (replacer_ s) (pi_ok s Hinv _ f Hp)) as [r1 Hse].
      rewrite Hse in *. pose proof (SetEvictable_Ret _ _ _ _ Hse) as (_ & Hsz1 & _).
      destruct (RecordAccess_returns dflt f r1) as [r2 Hra].
      { rewrite (frame_id_ok_size _ _ _ Hsz1). by eapply pi_ok. }
      rewrite Hra in *. pose proof (RecordAccess_Ret _ _ _ _ Hra) as (_ & Hsz2 & _).
      eapply Hgoal; [reflexivity|]. apply pool_range_update; [done | congruence |].
      eapply RecordAccess_heap_fids; eauto.
      eapply SetEvictable_heap_fids; eauto. apply (pr_heap s Hr).
    + rewrite (FetchPage_miss_nf _ _ _ Hp) in *.
      destruct (getNewFrame_returns dflt page_id false s Hr) as (v & s1 & Hg & Hr1).
      rewrite Hg in *. destruct v as [[f q]|]; [|by eapply Hgoal].
      assert (Hf : is_Some (frame_at s1 f)).
      { pose proof (pool_inv_getNewFrame _ _ _ _ _ _ Hinv Hg) as Hinv1.
        apply getNewFrame_Ret in Hg.
        destruct (acquire_frame s) as [[g|] s0 | e s0]; [| by destruct Hg | done].
        destruct Hg as (pg0 & r1 & r2 & Hpg0 & _ & _ & Hv & ->). injection Hv as <- _.
        rewrite (frame_at_mk_insert _ _ pg0) by done. eauto. }
      destruct Hf as [pg Hpg]. rewrite Hpg in *.
      eapply Hgoal; [reflexivity|]. apply pool_range_update; [done | done |].
      apply (pr_heap s1 Hr1).
  - rewrite UnpinPage_nf in *.
    destruct (page_table_ s !! page_id) as [f|] eqn:Hp; [|by eapply Hgoal].
    destruct (pi_table s Hinv _ f Hp) as (pg & Hpg & _). rewrite Hpg in *.
    destruct (pin_count_ pg =? 0); [by eapply Hgoal|]. cbv zeta in *.
    destruct (pin_count_ pg - 1 =? 0).
    + destruct (SetEvictable_returns f true (replacer_ s) (pi_ok s Hinv _ f Hp)) as [r1 Hse].
      rewrite Hse in *. pose proof (SetEvictable_Ret _ _ _ _ Hse) as (_ & Hsz1 & _).
      eapply Hgoal; [reflexivity|]. apply pool_range_update; [done | done |].
      eapply SetEvictable_heap_fids; eauto. apply (pr_heap s Hr).
    + eapply Hgoal; [reflexivity|]. apply pool_range_update; [done | done |].
      apply (pr_heap s Hr).
  - rewrite FlushPage_nf in *.
    destruct (page_table_ s !! page_id) as [f|] eqn:Hp; [|by eapply Hgoal].
    destruct (pi_table s Hinv _ f Hp) as (pg & Hpg & _). rewrite Hpg in *.
    eapply Hgoal; [reflexivity|]. apply pool_range_update; [done | done |].
    apply (pr_heap s Hr).
  - unfold FlushAllPages in *. rewrite (mbind_Ret mget _ s s s eq_refl) in *.
    destruct (for_each_flush_returns (map_to_list (page_table_ s)) s Hr) as (s' & Hfe & Hr').
    + intros [p f] He. apply elem_of_map_to_list in He. simpl. by eapply Htable.
    + by eapply Hgoal.
  - rewrite DeletePage_nf in *.
    destruct (page_table_ s !! page_id) as [f|] eqn:Hp; [|by eapply Hgoal].
    destruct (pi_table s Hinv _ f Hp) as (pg & Hpg & _). rewrite Hpg in *.
    destruct (0 <? pin_count_ pg) eqn:Hpin; [by eapply Hgoal|].
    apply Z.ltb_ge in Hpin. pose proof (pi_pin s Hinv f pg Hpg) as Hpin'.
    destruct (Remove_returns f (replacer_ s)) as [r' Hrm].
    { by eapply pi_ok. }
    { intros n Htr. eapply (pi_unpinned s Hinv _ f pg); eauto. lia. }
    rewrite Hrm in *. pose proof (Remove_Ret _ _ _ Hrm) as (Hsz1 & _).
    eapply Hgoal; [reflexivity|].
    eapply (pool_range_next s); eauto; simpl.
    * by rewrite length_insert.
    * intros h Hh. apply elem_of_app in Hh as [Hh | Hh%list_elem_of_singleton].
      -- by apply (pr_free s Hr).
      -- subst h. by eapply Htable.
    * eapply Remove_heap_fids; eauto. apply (pr_heap s Hr).
  - destruct (proj1 (pr_frames s Hr frame_id) (Hw _ _ eq_refl)) as [pg Hpg].
    rewrite (on_frame_Ret _ _ _ _ Hpg) in *.
    eapply Hgoal; [reflexivity|]. destruct s.
    apply (pool_range_update _ frame_id); [done | done | apply (pr_heap _ Hr)].
Qed.

Lemma write_in_pool_or_fails o s :
  pool_range s ->
  (forall f bytes, o = OpWrite f bytes -> in_pool s f) \/
  (exists f bytes, o = OpWrite f bytes /\ frame_at s f = None).
Proof.
  intros Hr. destruct o; try (left; intros ? ? [=]; fail).
  destruct (frame_at s frame_id) as [pg|] eqn:Hf.
  - left. intros f b [= <- <-]. apply (pr_frames s Hr). eauto.
  - right. eauto.
Qed.

Lemma pool_run_range dflt ops s :
  pool_inv s -> pool_range s ->
  pool_inv (run dflt ops s) /\ pool_range (run dflt ops s).
Proof.
  revert s. induction ops as [|o ops IH]; intros s Hinv Hr; simpl; [done|].
  destruct (write_in_pool_or_fails o s Hr) as [Hw | (f & bytes & -> & Hnone)].
  - destruct (exec_op_returns dflt o s Hinv Hr Hw) as (s' & Hex & Hinv' & Hr').
    rewrite Hex. by apply IH.
  - simpl. by rewrite (on_frame_Fail _ _ _ Hnone).
Qed.

Lemma reachable_range dflt pool_size k ops :
  pool_size < 2 ^ 31 -> pool_range (run dflt ops (init pool_size k)).
Proof.
  intros H. by apply pool_run_range; [apply pool_inv_init | apply pool_range_init].
Qed.

(** In a state reached from the constructor, [NewPage] and [FetchPage]
    return. *)
Lemma reachable_NewPage_returns dflt pool_size k ops :
  pool_size < 2 ^ 31 ->
  exists v s', NewPage dflt (run dflt ops (init pool_size k)) = Ret v s'.
Proof.
  intros H.
  destruct (exec_op_returns dflt OpNewPage (run dflt ops (init pool_size k)))
    as (s' & Hex & _); [by apply reachable_inv | by apply reachable_range | done |].
  simpl in Hex. unfold mbind in Hex.
  destruct (NewPage dflt (run dflt ops (init pool_size k))) as [v s1 | e s1]; [eauto | done].
Qed.

Lemma reachable_FetchPage_returns dflt pool_size k ops q :
  pool_size < 2 ^ 31 ->
  exists v s', FetchPage dflt q (run dflt ops (init pool_size k)) = Ret v s'.
Proof.
  intros H.
  destruct (exec_op_returns dflt (OpFetchPage q) (run dflt ops (init pool_size k)))
    as (s' & Hex & _); [by apply reachable_inv | by apply reachable_range | done |].
  simpl in Hex. unfold mbind in Hex.
  destruct (FetchPage dflt q (run dflt ops (init pool_size k))) as [v s1 | e s1];
    [eauto | done].
Qed.

(** ** The calls that take no frame for a page *)

Lemma keeps_page_ids_refl s : keeps_page_ids s s.
Proof. intros g pg' H. right. eauto. Qed.

Lemma keeps_page_ids_trans s1 s2 s3 :
  keeps_page_ids s1 s2 -> keeps_page_ids s2 s3 -> keeps_page_ids s1 s3.
Proof.
  intros H12 H23 g pg3 H3. destruct (H23 g pg3 H3) as [Hinv | (pg2 & H2 & Heq)]; [by left|].
  destruct (H12 g pg2 H2) as [Hinv | (pg1 & H1 & Heq')].
  - left. congruence.
  - right. exists pg1. split; [done | congruence].
Qed.

Lemma keeps_page_ids_update s f pg pg' r fl pt nx d :
  frame_at s f = Some pg ->
  page_id_ pg' = page_id_ pg \/ page_id_ pg' = INVALID_PAGE_ID ->
  keeps_page_ids s (mkBPM (pool_size_ s) (<[Z.to_nat f := pg']> (pages_ s)) r fl pt nx d).
Proof.
  intros Hf Hid g x Hx.
  assert (H0 : 0 <= f) by (by apply frame_at_Some in Hf as [? _]).
  destruct (decide (g = f)) as [-> | Hne].
  - rewrite (frame_at_mk_insert _ _ pg) in Hx by done. injection Hx as <-.
    destruct Hid as [Hid | Hid]; [right; eauto | by left].
  - rewrite frame_at_mk_insert_ne in Hx by done. right. eauto.
Qed.

Lemma for_each_flush_keeps l s s' :
  for_each flush_entry l s = Ret tt s' -> keeps_page_ids s s'.
Proof.
  revert s. induction l as [|entry l IH]; intros s; simpl.
  - intros [= <-]. apply keeps_page_ids_refl.
  - unfold mbind. rewrite flush_entry_nf.
    destruct (frame_at s entry.2) as [pg|] eqn:Hf; [|done].
    intros H. eapply keeps_page_ids_trans; [|by apply IH].
    eapply keeps_page_ids_update; eauto.
Qed.

(** Of the calls a client can make, only [NewPage] and [FetchPage] give a
    frame a page: after any other call a frame holds the page it held, or
    none. *)
Lemma other_calls_keep_page_ids dflt o s s' :
  o <> OpNewPage -> (forall p, o <> OpFetchPage p) ->
  exec_op dflt o s = Ret tt s' -> keeps_page_ids s s'.
Proof.
  intros Hnew Hfetch. destruct o; simpl; unfold mbind.
  - done.
  - by destruct (Hfetch page_id).
  - rewrite UnpinPage_nf.
    destruct (page_table_ s !! page_id) as [f|];
      [|intros [= <-]; apply keeps_page_ids_refl].
    destruct (frame_at s f) as [pg|] eqn:Hf; [|done].
    destruct (pin_count_ pg =? 0); [intros [= <-]; apply keeps_page_ids_refl|].
    cbv zeta. destruct (pin_count_ pg - 1 =? 0).
    + destruct (SetEvictable f true (replacer_ s)) as [[] r'|]; [|done].
      intros [= <-]. eapply keeps_page_ids_update; eauto.
    + intros [= <-]. eapply keeps_page_ids_update; eauto.
  - rewrite FlushPage_nf.
    destruct (page_table_ s !! page_id) as [f|];
      [|intros [= <-]; apply keeps_page_ids_refl].
    destruct (frame_at s f) as [pg|] eqn:Hf; [|done].
    intros [= <-]. eapply keeps_page_ids_update; eauto.
  - unfold FlushAllPages. rewrite (mbind_Ret mget _ s s s eq_refl).
    apply for_each_flush_keeps.
  - rewrite DeletePage_nf.
    destruct (page_table_ s !! page_id) as [f|];
      [|intros [= <-]; apply keeps_page_ids_refl].
    destruct (frame_at s f) as [pg|] eqn:Hf; [|done].
    destruct (0 <? pin_count_ pg); [intros [= <-]; apply keeps_page_ids_refl|].
    destruct (Remove f (replacer_ s)) as [[] r'|]; [|done].
    intros [= <-]. eapply keeps_page_ids_update; eauto.
  - destruct (frame_at s frame_id) as [pg|] eqn:Hf.
    + rewrite (on_frame_Ret _ _ _ _ Hf). intros [= <-].
      destruct s. eapply (keeps_page_ids_update _ frame_id pg); eauto.
    + by rewrite (on_frame_Fail _ _ _ Hf).
Qed.

(** ** Write-back of a dirty victim *)

(** The helper behind [NewPage] and [FetchPage]: if it hands out the frame
    of a resident dirty page, the free list was empty, the frame is the
    victim the replacer chose, the page's bytes are the one thing sent to
    the disk manager, and the frame comes back reset. *)
Lemma getNewFrame_flushes dflt pid (is_new : bool) s p f pg newpid s' :
  pool_inv s ->
  page_table_ s !! p = Some f -> frame_at s f = Some pg -> is_dirty_ pg = true ->
  getNewFrame dflt pid is_new s = Ret (Some (f, newpid)) s' ->
  free_list_ s = [] /\
  (exists r0, Evict (replacer_ s) = Ret (Some f) r0) /\
  disk_manager_ s' = disk_manager_ s ++ [WritePage p (data_ pg)] /\
  page_table_ s' = <[newpid := f]> (delete p (page_table_ s)) /\
  frame_at s' f = Some (fresh_frame newpid).
Proof.
  intros Hinv Hp Hf Hd Hret.
  destruct (pi_table s Hinv p f Hp) as (pg' & Hpg' & Hid).
  assert (pg' = pg) by congruence. subst pg'.
  apply getNewFrame_Ret in Hret.
  destruct (acquire_frame s) as [[g|] s1 | e s1] eqn:Hacq; [| by destruct Hret | done].
  destruct Hret as (pg1 & r1 & r2 & Hf1 & Hra & Hse & Hv & ->).
  injection Hv as <- <-.
  apply acquire_frame_Ret in Hacq.
  destruct (free_list_ s) as [|f0 rest] eqn:Hfl.
  - destruct (Evict (replacer_ s)) as [[h|] r0 | e r0] eqn:Hev; [| by destruct Hacq | done].
    destruct Hacq as (pg2 & Hpg2 & Hh & ->). injection Hh as <-.
    assert (pg2 = pg) by congruence. subst pg2.
    split; [done|]. split; [eauto|]. simpl. rewrite Hd, Hid.
    split; [done|]. split; [done|]. by eapply frame_at_mk_insert.
  - destruct Hacq as [Hg ->]. injection Hg as <-.
    exfalso. apply (pi_free s Hinv p f Hp). rewrite Hfl. left.
Qed.

Lemma getNewFrame_victim dflt pid (is_new : bool) s f r0 v s' :
  free_list_ s = [] -> Evict (replacer_ s) = Ret (Some f) r0 ->
  getNewFrame dflt pid is_new s = Ret v s' ->
  v = Some (f, if is_new then next_page_id_ s else pid).
Proof.
  intros Hfl Hev Hret. apply getNewFrame_Ret in Hret.
  destruct (acquire_frame s) as [[g|] s1 | e s1] eqn:Hacq; [| |done];
    apply acquire_frame_Ret in Hacq; rewrite Hfl, Hev in Hacq.
  - destruct Hacq as (pg & _ & Hg & ->). injection Hg as ->.
    by destruct Hret as (? & ? & ? & _ & _ & _ & -> & _).
  - by destruct Hacq as (? & _ & ? & _).
Qed.

(** C4. In every state the manager reaches, let page [p] be resident in
    frame [f] and dirty. (1) If the free list is empty and the replacer
    chooses [f] as its victim, then [NewPage], and [FetchPage] of a page
    that is not resident, return frame [f]. (2), (3) Whenever [NewPage], or
    [FetchPage] of a page that is not resident, hands out frame [f], the
    free list was empty, [f] is the victim the replacer chose, and the
    call sent the bytes of [p] to the disk manager's write_page as its first
    request, before the frame was reset (and, for [FetchPage], before the
    read of the new page); the frame comes back zeroed for the new page
    and, the new page being another one than [p], [p] has no entry in the
    page table any more. No other call gives a frame a page
    ([other_calls_keep_page_ids]), so a dirty page that is resident when
    its frame is taken for another page has been written before. *)
Theorem dirty_victim_written_before_reuse dflt pool_size k ops s p f pg :
  pool_size < 2 ^ 31 ->
  s = run dflt ops (init pool_size k) ->
  page_table_ s !! p = Some f -> frame_at s f = Some pg -> is_dirty_ pg = true ->
  (free_list_ s = [] -> (exists r0, Evict (replacer_ s) = Ret (Some f) r0) ->
     (exists s', NewPage dflt s = Ret (Some (f, next_page_id_ s)) s') /\
     (forall q, page_table_ s !! q = None ->
        exists s', FetchPage dflt q s = Ret (Some f) s')) /\
  (forall newpid s',
     NewPage dflt s = Ret (Some (f, newpid)) s' ->
     free_list_ s = [] /\
     (exists r0, Evict (replacer_ s) = Ret (Some f) r0) /\
     disk_manager_ s' = disk_manager_ s ++ [WritePage p (data_ pg)] /\
     frame_at s' f = Some (fresh_frame newpid) /\
     page_table_ s' !! newpid = Some f /\
     (newpid <> p -> page_table_ s' !! p = None)) /\
  (forall q s',
     page_table_ s !! q = None ->
     FetchPage dflt q s = Ret (Some f) s' ->
     free_list_ s = [] /\
     (exists r0, Evict (replacer_ s) = Ret (Some f) r0) /\
     disk_manager_ s' = disk_manager_ s ++ [WritePage p (data_ pg); ReadPage q] /\
     frame_at s' f
       = Some (SetData (disk_contents (disk_manager_ s ++ [WritePage p (data_ pg)]) q)
                 (fresh_frame q)) /\
     page_table_ s' !! q = Some f /\
     page_table_ s' !! p = None).
Proof.
  intros Hsize -> Hp Hf Hd.
  pose proof (reachable_inv dflt pool_size k ops Hsize) as Hinv.
  pose proof (reachable_range dflt pool_size k ops Hsize) as Hrange.
  set (s := run dflt ops (init pool_size k)) in *.
  split; [|split].
  - intros Hfl [r0 Hev]. split.
    + destruct (getNewFrame_returns dflt INVALID_PAGE_ID true s Hrange) as (v & s' & Hg & _).
      rewrite (getNewFrame_victim _ _ _ _ _ _ _ _ Hfl Hev Hg) in Hg. eauto.
    + intros q Hq. rewrite (FetchPage_miss_nf _ _ _ Hq).
      destruct (getNewFrame_returns dflt q false s Hrange) as (v & s1 & Hg & Hr1).
      rewrite (getNewFrame_victim _ _ _ _ _ _ _ _ Hfl Hev Hg) in Hg. rewrite Hg.
      destruct (getNewFrame_flushes _ _ _ _ _ _ _ _ _ Hinv Hp Hf Hd Hg)
        as (_ & _ & _ & _ & Hfr).
      rewrite Hfr. eauto.
  - intros newpid s' Hret.
    destruct (getNewFrame_flushes _ _ _ _ _ _ _ _ _ Hinv Hp Hf Hd Hret)
      as (Hfl & Hev & Hdisk & Hpt & Hfr).
    split; [done|]. split; [done|]. split; [done|]. split; [done|].
    rewrite Hpt. split; [apply lookup_insert_eq|].
    intros Hne. rewrite lookup_insert_ne by done. apply lookup_delete_eq.
  - intros q s' Hq. rewrite (FetchPage_miss_nf _ _ _ Hq).
    destruct (getNewFrame dflt q false s) as [[[g q']|] s1 | e s1] eqn:Hg; [|done|done].
    destruct (frame_at s1 g) as [pg1|] eqn:Hf1; [|done].
    intros [= -> <-].
    assert (q' = q).
    { apply getNewFrame_Ret in Hg.
      destruct (acquire_frame s) as [[h|] s0 | e s0]; [| by destruct Hg | done].
      destruct Hg as (? & ? & ? & _ & _ & _ & Hv & _). by injection Hv. }
    subst q'.
    destruct (getNewFrame_flushes _ _ _ _ _ _ _ _ _ Hinv Hp Hf Hd Hg)
      as (Hfl & Hev & Hdisk & Hpt & Hfr).
    assert (Hqp : q <> p) by congruence.
    split; [done|]. split; [done|]. simpl.
    split; [by rewrite Hdisk, <- app_assoc|].
    split.
    + rewrite (frame_at_mk_insert _ _ pg1) by done. rewrite Hdisk. congruence.
    + rewrite Hpt. split; [apply lookup_insert_eq|].
      rewrite lookup_insert_ne by done. apply lookup_delete_eq.
Qed.

Lemma dirty_victim_written_before_reuse_witness :
  disk_manager_
    (state_after
       (NewPage false
          (run false [OpNewPage; OpWrite 0 [1; 2; 3]; OpUnpinPage 0 true] (init 1 2))))
  = disk_manager_ (run false [OpNewPage; OpWrite 0 [1; 2; 3]; OpUnpinPage 0 true] (init 1 2))
    ++ [WritePage 0 [1; 2; 3]].
Proof.
  destruct (dirty_victim_written_before_reuse false 1 2
              [OpNewPage; OpWrite 0 [1; 2; 3]; OpUnpinPage 0 true]
              (run false [OpNewPage; OpWrite 0 [1; 2; 3]; OpUnpinPage 0 true] (init 1 2))
              0 0 (mkPage [1; 2; 3] 0 0 true))
    as (_ & Hnew & _).
  - lia.
  - reflexivity.
  - vm_compute. reflexivity.
  - vm_compute. reflexivity.
  - reflexivity.
  - destruct (Hnew 1
                (state_after
                   (NewPage false
                      (run false [OpNewPage; OpWrite 0 [1; 2; 3]; OpUnpinPage 0 true]
                         (init 1 2)))))
      as (_ & _ & Hdisk & _).
    + vm_compute. reflexivity.
    + exact Hdisk.
Defined.

(** ** [UnpinPage] *)



(** ** [NewPage] without a frame *)

(** C9. If [NewPage] returns null, the manager is in the state it was in
    before the call, page-id counter, page table, free list, frames and
    replacer included; and it returns null only if the free list is empty
    and [Evict] finds no victim. *)
Theorem NewPage_null_unchanged dflt s s' :
  NewPage dflt s = Ret None s' ->
  s' = s /\ next_page_id_ s' = next_page_id_ s /\
  free_list_ s = [] /\ Evict (replacer_ s) = Ret None (replacer_ s).
Proof.
  intros H. apply getNewFrame_Ret in H.
  destruct (acquire_frame s) as [[f|] s1 | e s1] eqn:Hacq; [|  | done].
  { by destruct H as (? & ? & ? & _ & _ & _ & ? & _). }
  destruct H as [_ ->]. apply acquire_frame_Ret in Hacq.
  destruct (free_list_ s); [|by destruct Hacq].
  destruct (Evict (replacer_ s)) as [[g|] r0 | e r0] eqn:Hev; [| |done].
  { by destruct Hacq as (? & _ & ? & _). }
  destruct Hacq as [_ ->]. apply Evict_None in Hev as ->. done.
Qed.

Lemma NewPage_null_unchanged_witness :
  free_list_ (run false [OpNewPage] (init 1 2)) = [] /\
  Evict (replacer_ (run false [OpNewPage] (init 1 2)))
  = Ret None (replacer_ (run false [OpNewPage] (init 1 2))).
Proof.
  destruct (NewPage_null_unchanged false (run false [OpNewPage] (init 1 2))
              (run false [OpNewPage] (init 1 2)))
    as (_ & _ & Hfl & Hev).
  - vm_compute. reflexivity.
  - split; [exact Hfl | exact Hev].
Defined.

(** Conversely, with the free list empty and no victim to be had, [NewPage]
    returns null. *)
Lemma NewPage_exhausted dflt s :
  free_list_ s = [] -> Evict (replacer_ s) = Ret None (replacer_ s) ->
  NewPage dflt s = Ret None s.
Proof.
  intros Hfl Hev.
  assert (Ha : acquire_frame s = Ret None s).
  { unfold acquire_frame, mbind, mget. rewrite Hfl.
    rewrite (on_replacer_Ret _ _ _ _ Hev). by destruct s. }
  unfold NewPage, getNewFrame. by rewrite (mbind_Ret _ _ _ _ _ Ha).
Qed.

(** ** [DeletePage] *)

(** For every K, in every state the manager reaches, [DeletePage] of a
    resident page whose frame is not pinned and is dirty returns true;
    [Remove] returns and [node_store_] does not map the frame any more, the
    page is out of the page table, the frame has its memory zeroed and its
    metadata reset, it is appended to the free list, and the one request the
    disk manager receives is the deallocation of the page: the dirty bytes
    are not written. *)
Lemma DeletePage_unpinned_state dflt pool_size k ops s p f pg :
  pool_size < 2 ^ 31 ->
  s = run dflt ops (init pool_size k) ->
  page_table_ s !! p = Some f -> frame_at s f = Some pg ->
  pin_count_ pg = 0 -> is_dirty_ pg = true ->
  exists r',
    Remove f (replacer_ s) = Ret tt r' /\ node_store_ r' !! f = None /\
    DeletePage p s
    = Ret true
        (mkBPM (pool_size_ s) (<[Z.to_nat f := new_page]> (pages_ s)) r'
           (free_list_ s ++ [f]) (delete p (page_table_ s)) (next_page_id_ s)
           (disk_manager_ s ++ [DeallocatePage p])) /\
    List.filter is_write (disk_manager_ s ++ [DeallocatePage p])
    = List.filter is_write (disk_manager_ s).
Proof.
  intros Hsize -> Hp Hf Hpin Hd.
  pose proof (reachable_inv dflt pool_size k ops Hsize) as Hinv.
  set (s := run dflt ops (init pool_size k)) in *.
  destruct (Remove_returns f (replacer_ s)) as [r' Hrm].
  - by eapply pi_ok.
  - intros n Htr. by eapply (pi_unpinned s Hinv p f pg).
  - exists r'. split; [done|]. split.
    { apply Remove_Ret in Hrm as (_ & _ & _ & Hnone). apply Hnone. by apply pi_store. }
    split.
    + rewrite DeletePage_nf, Hp, Hf, Hpin, Hrm. reflexivity.
    + rewrite List.filter_app. simpl. by rewrite app_nil_r.
Qed.


(** ** Pins, frames and the bytes of a page *)


Lemma pin_inv_init pool_size k : pin_inv (init pool_size k).
Proof.
  split; simpl.
  - apply inv_init.
  - intros p f H. by rewrite lookup_empty in H.
  - intros f pg n Hf Hpin. apply frame_at_init in Hf. by subst.
Qed.

Lemma pin_inv_touch s f pg pg' r' nx d :
  pin_inv s -> frame_at s f = Some pg ->
  inv r' ->
  (forall h n, h <> f -> tracked r' h n -> tracked (replacer_ s) h n) ->
  (forall h n, h <> f -> tracked (replacer_ s) h n -> tracked r' h n) ->
  ((exists n, tracked (replacer_ s) f n) -> exists n, tracked r' f n) ->
  (0 < pin_count_ pg' -> forall n, tracked r' f n -> is_evictable n = false) ->
  pin_inv (mkBPM (pool_size_ s) (<[Z.to_nat f := pg']> (pages_ s)) r'
             (free_list_ s) (page_table_ s) nx d).
Proof.
  intros [Hr Ht Hp] Hf Hinv Hback Hfwd Hsame Hpin.
  assert (H0 : 0 <= f) by (by apply frame_at_Some in Hf as [? _]).
  split; simpl.
  - done.
  - intros p h Hp'. destruct (decide (h = f)) as [-> | Hne]; [eauto|].
    destruct (Ht p h Hp') as [n Hn]. eauto.
  - intros h x n Hx Hpx Htr. destruct (decide (h = f)) as [-> | Hne].
    + rewrite (frame_at_mk_insert _ _ pg) in Hx by done. injection Hx as <-. eauto.
    + rewrite frame_at_mk_insert_ne in Hx by done. eauto.
Qed.

Lemma pin_inv_same_replacer s f pg pg' nx d :
  pin_inv s -> frame_at s f = Some pg -> pin_count_ pg' = pin_count_ pg ->
  pin_inv (mkBPM (pool_size_ s) (<[Z.to_nat f := pg']> (pages_ s)) (replacer_ s)
             (free_list_ s) (page_table_ s) nx d).
Proof.
  intros Hpn Hf Hpin. eapply pin_inv_touch; eauto.
  - apply (pn_repl s Hpn).
  - intros Hp n Htr. eapply (pn_pinned s Hpn); eauto. congruence.
Qed.

Lemma pin_inv_getNewFrame dflt pid (is_new : bool) s v s' :
  pool_inv s -> pin_inv s -> getNewFrame dflt pid is_new s = Ret v s' -> pin_inv s'.
Proof.
  intros Hinv Hpn Hret. apply getNewFrame_Ret in Hret.
  destruct (acquire_frame s) as [[f|] s1 | e s1] eqn:Hacq; [| |done].
  2:{ destruct Hret as [_ ->]. apply acquire_frame_Ret in Hacq.
      destruct (free_list_ s); [|by destruct Hacq].
      destruct (Evict (replacer_ s)) as [[g|] r0 | e r0]; [|by destruct Hacq as [_ ->] |done].
      by destruct Hacq as (? & _ & ? & _). }
  destruct Hret as (pg1 & r1 & r2 & Hf1 & Hra & Hse & -> & ->).
  set (pid' := if is_new then next_page_id_ s1 else pid).
  destruct Hinv as [Ht Hfr Hnd Hok Hst Hpin Hun].
  destruct Hpn as [Hrepl Htrk Hpinned].
  assert (H0 : 0 <= f) by (by apply frame_at_Some in Hf1 as [? _]).
  assert (Hacq' :
    inv (replacer_ s1) /\ store_ok (replacer_ s1) /\
    (forall h n, tracked (replacer_ s1) h n -> tracked (replacer_ s) h n) /\
    (forall h n, h <> f -> tracked (replacer_ s) h n -> tracked (replacer_ s1) h n) /\
    pages_ s1 = pages_ s /\
    (forall p h, page_table_ s1 !! p = Some h -> page_table_ s !! p = Some h /\ h <> f)).
  { apply acquire_frame_Ret in Hacq. destruct (free_list_ s) as [|f0 rest] eqn:Hfl.
    - destruct (Evict (replacer_ s)) as [[g|] r0 | e r0] eqn:Hev; [| by destruct Hacq | done].
      destruct Hacq as (pg & Hpg & Hg & ->). injection Hg as <-.
      pose proof (Evict_Ret_inv _ _ _ Hev Hrepl) as Hinv0.
      pose proof (Evict_keeps _ _ _ Hev) as Hkeep.
      apply Evict_Ret in Hev as (Hsz & Hsto & Htr & _). simpl.
      split; [done|]. split; [auto|]. split; [done|].
      split; [intros h n Hne; apply Hkeep; congruence|]. split; [done|].
      intros p h Hp. apply lookup_delete_Some in Hp as [Hne Hp]. split; [done|].
      intros ->. destruct (Ht p f Hp) as (x & Hx & Hxid). congruence.
    - destruct Hacq as [Hg ->]. injection Hg as <-. simpl.
      split; [done|]. split; [done|]. split; [done|]. split; [done|]. split; [done|].
      intros p h Hp. split; [done|]. intros ->. apply (Hfr p f Hp). left. }
  destruct Hacq' as (Hinv1 & Hst1 & Hback1 & Hfwd1 & Hpages & Hpt).
  pose proof (RecordAccess_Ret_inv _ _ _ _ Hra Hinv1) as Hinv2.
  pose proof (SetEvictable_Ret_inv _ _ _ _ Hse Hinv2) as Hinv3.
  destruct (RecordAccess_keeps _ _ _ _ Hra Hst1) as ([n1 Hn1] & _ & Hfwd2).
  apply RecordAccess_Ret in Hra as (_ & _ & Hst2 & Hback2).
  specialize (Hst2 Hst1). specialize (Hback2 Hst1).
  destruct (SetEvictable_keeps _ _ _ _ Hse Hst2) as (Hsame3 & Hfwd3).
  apply SetEvictable_Ret in Hse as (_ & _ & Hst3 & Hback3 & Hev3).
  specialize (Hback3 Hst2).
  split; simpl.
  - done.
  - intros p h Hp. apply lookup_insert_Some in Hp as [[<- <-] | [Hne Hp]]; [eauto|].
    destruct (Hpt p h Hp) as [Hp' Hhf]. destruct (Htrk p h Hp') as [n Hn]. eauto 6.
  - intros h x n Hx Hpx Htr. destruct (decide (h = f)) as [-> | Hne]; [eauto|].
    rewrite frame_at_mk_insert_ne in Hx by done.
    eapply Hpinned; eauto. unfold frame_at in *. by rewrite <- Hpages.
Qed.

Lemma pin_inv_FetchPage dflt p s v s' :
  pool_inv s -> pin_inv s -> FetchPage dflt p s = Ret v s' -> pin_inv s'.
Proof.
  intros Hinv Hpn. destruct (page_table_ s !! p) as [f|] eqn:Hp.
  - rewrite (FetchPage_hit_nf _ _ _ _ Hp).
    destruct (frame_at s f) as [pg|] eqn:Hf; [|done]. cbv zeta.
    destruct (SetEvictable f false (replacer_ s)) as [[] r1 | e r1] eqn:Hse; [|done].
    destruct (RecordAccess dflt f r1) as [[] r2 | e r2] eqn:Hra; [|done].
    intros [= <- <-].
    pose proof (pi_store s Hinv) as Hst.
    pose proof (SetEvictable_Ret_inv _ _ _ _ Hse (pn_repl s Hpn)) as Hinv1.
    pose proof (RecordAccess_Ret_inv _ _ _ _ Hra Hinv1) as Hinv2.
    destruct (SetEvictable_keeps _ _ _ _ Hse Hst) as (Hsame1 & Hfwd1).
    apply SetEvictable_Ret in Hse as (_ & _ & Hst1 & Hback1 & Hev1).
    specialize (Hst1 Hst). specialize (Hback1 Hst).
    destruct (RecordAccess_keeps _ _ _ _ Hra Hst1) as (Hex2 & Hflag2 & Hfwd2).
    apply RecordAccess_Ret in Hra as (_ & _ & Hst2 & Hback2). specialize (Hback2 Hst1).
    eapply pin_inv_touch; eauto.
    intros _ n Hn. destruct (pn_tracked s Hpn p f Hp) as [n0 Hn0].
    destruct (Hsame1 n0 Hn0) as [n1 Hn1].
    rewrite (Hflag2 n1 n Hn1 Hn). eauto.
  - rewrite (FetchPage_miss_nf _ _ _ Hp).
    destruct (getNewFrame dflt p false s) as [[[f q]|] s1 | e s1] eqn:Hg; [| |done].
    + pose proof (pin_inv_getNewFrame _ _ _ _ _ _ Hinv Hpn Hg) as Hpn1.
      destruct (frame_at s1 f) as [pg|] eqn:Hf; [|done]. intros [= <- <-].
      by eapply pin_inv_same_replacer.
    + intros [= <- <-]. by eapply pin_inv_getNewFrame.
Qed.

Lemma pin_inv_UnpinPage p d s v s' :
  pool_inv s -> pin_inv s -> UnpinPage p d s = Ret v s' -> pin_inv s'.
Proof.
  intros Hinv Hpn. rewrite UnpinPage_nf.
  destruct (page_table_ s !! p) as [f|] eqn:Hp; [|by intros [= <- <-]].
  destruct (frame_at s f) as [pg|] eqn:Hf; [|done].
  destruct (pin_count_ pg =? 0) eqn:Hz; [by intros [= <- <-]|].
  apply Z.eqb_neq in Hz. cbv zeta.
  pose proof (pi_pin s Hinv f pg Hf) as Hpin. pose proof (pi_store s Hinv) as Hst.
  destruct (pin_count_ pg - 1 =? 0) eqn:Hz'.
  - apply Z.eqb_eq in Hz'.
    destruct (SetEvictable f true (replacer_ s)) as [[] r' | e r'] eqn:Hse; [|done].
    intros [= <- <-].
    pose proof (SetEvictable_Ret_inv _ _ _ _ Hse (pn_repl s Hpn)) as Hinv1.
    destruct (SetEvictable_keeps _ _ _ _ Hse Hst) as (Hsame1 & Hfwd1).
    apply SetEvictable_Ret in Hse as (_ & _ & Hst1 & Hback1 & Hev1).
    eapply pin_inv_touch; eauto.
    + intros [n Hn]. eauto.
    + simpl. lia.
  - apply Z.eqb_neq in Hz'. intros [= <- <-].
    eapply pin_inv_touch; eauto.
    + apply (pn_repl s Hpn).
    + simpl. intros _ n Hn. eapply (pn_pinned s Hpn); eauto. lia.
Qed.

Lemma pin_inv_FlushPage p s v s' :
  pin_inv s -> FlushPage p s = Ret v s' -> pin_inv s'.
Proof.
  intros Hpn. rewrite FlushPage_nf.
  destruct (page_table_ s !! p) as [f|] eqn:Hp; [|by intros [= <- <-]].
  destruct (frame_at s f) as [pg|] eqn:Hf; [|done]. intros [= <- <-].
  by eapply pin_inv_same_replacer.
Qed.

Lemma pin_inv_for_each_flush l s s' :
  pin_inv s -> for_each flush_entry l s = Ret tt s' -> pin_inv s'.
Proof.
  revert s. induction l as [|entry l IH]; intros s Hpn; simpl.
  - by intros [= <-].
  - unfold mbind. rewrite flush_entry_nf.
    destruct (frame_at s entry.2) as [pg|] eqn:Hf; [|done].
    apply IH. by eapply pin_inv_same_replacer.
Qed.

Lemma pin_inv_OpWrite f bytes s s' :
  pin_inv s -> on_frame f (SetData bytes) s = Ret tt s' -> pin_inv s'.
Proof.
  intros Hpn. destruct (frame_at s f) as [pg|] eqn:Hf.
  - rewrite (on_frame_Ret _ _ _ _ Hf). intros [= <-].
    destruct s. by eapply (pin_inv_same_replacer _ f pg).
  - by rewrite (on_frame_Fail _ _ _ Hf).
Qed.

Lemma pin_inv_DeletePage p s v s' :
  pool_inv s -> pin_inv s -> DeletePage p s = Ret v s' -> pin_inv s'.
Proof.
  intros Hinv Hpn. rewrite DeletePage_nf.
  destruct (page_table_ s !! p) as [f|] eqn:Hp; [|by intros [= <- <-]].
  destruct (frame_at s f) as [pg|] eqn:Hf; [|done].
  destruct (0 <? pin_count_ pg); [by intros [= <- <-]|].
  destruct (Remove f (replacer_ s)) as [[] r' | e r'] eqn:Hrm; [|done].
  intros [= <- <-].
  pose proof (Remove_Ret_inv _ _ _ Hrm (pn_repl s Hpn)) as Hinv1.
  pose proof (Remove_keeps _ _ _ Hrm) as Hfwd.
  apply Remove_Ret in Hrm as (_ & _ & Hback & _).
  destruct Hinv as [Ht Hfr Hnd Hok Hst Hpin Hun].
  assert (H0 : 0 <= f) by (by apply frame_at_Some in Hf as [? _]).
  split; simpl.
  - done.
  - intros q h Hq. apply lookup_delete_Some in Hq as [Hne Hq].
    assert (h <> f).
    { intros ->. destruct (Ht q f Hq) as (x & Hx & Hxid).
      destruct (Ht p f Hp) as (y & Hy & Hyid). congruence. }
    destruct (pn_tracked s Hpn q h Hq) as [n Hn]. eauto.
  - intros h x n Hx Hpx Htr. destruct (decide (h = f)) as [-> | Hne].
    + rewrite (frame_at_mk_insert _ _ pg) in Hx by done. by injection Hx as <-.
    + rewrite frame_at_mk_insert_ne in Hx by done. eapply (pn_pinned s Hpn); eauto.
Qed.

Lemma pin_exec_op_inv dflt o s :
  pool_inv s -> pin_inv s ->
  match exec_op dflt o s with
  | Ret _ s' => pin_inv s'
  | Fail ExceptionThrown s' => pin_inv s'
  | Fail _ _ => True
  end.
Proof.
  intros Hinv Hpn. destruct o; simpl; unfold mbind.
  - destruct (NewPage dflt s) as [v s' | e s'] eqn:H; [by eapply pin_inv_getNewFrame|].
    apply getNewFrame_Fail in H. by destruct e.
  - destruct (FetchPage dflt page_id s) as [v s' | e s'] eqn:H;
      [by eapply pin_inv_FetchPage|].
    apply FetchPage_Fail in H. by destruct e.
  - destruct (UnpinPage page_id is_dirty s) as [v s' | e s'] eqn:H;
      [by eapply pin_inv_UnpinPage|].
    apply UnpinPage_Fail in H. by destruct e.
  - destruct (FlushPage page_id s) as [v s' | e s'] eqn:H;
      [by eapply pin_inv_FlushPage|].
    apply FlushPage_Fail in H. by destruct e.
  - unfold FlushAllPages. rewrite (mbind_Ret mget _ s s s eq_refl).
    destruct (for_each flush_entry (map_to_list (page_table_ s)) s) as [[] s' | e s'] eqn:H;
      [by eapply pin_inv_for_each_flush|].
    apply for_each_flush_Fail in H. by destruct e.
  - destruct (DeletePage page_id s) as [v s' | e s'] eqn:H;
      [by eapply pin_inv_DeletePage|].
    destruct e; [done | | done]. apply DeletePage_throw in H. by subst.
  - destruct (on_frame frame_id (SetData bytes) s) as [[] s' | e s'] eqn:H;
      [by eapply pin_inv_OpWrite|].
    destruct (frame_at s frame_id) as [pg|] eqn:Hf.
    + by rewrite (on_frame_Ret _ _ _ _ Hf) in H.
    + rewrite (on_frame_Fail _ _ _ Hf) in H. by injection H as <- <-.
Qed.

Lemma pin_run_inv dflt ops s :
  pool_inv s -> pin_inv s -> pin_inv (run dflt ops s).
Proof.
  revert s. induction ops as [|o ops IH]; intros s Hinv Hpn; simpl; [done|].
  pose proof (pool_exec_op_inv dflt o s Hinv) as H.
  pose proof (pin_exec_op_inv dflt o s Hinv Hpn) as H'.
  destruct (exec_op dflt o s) as [v s' | e s']; [by apply IH|].
  destruct e; [done | by apply IH | done].
Qed.

Lemma reachable_pin_inv dflt pool_size k ops :
  pool_size < 2 ^ 31 -> pin_inv (run dflt ops (init pool_size k)).
Proof. intros H. apply pin_run_inv; [by apply pool_inv_init | apply pin_inv_init]. Qed.


(** ** What every call keeps of the replacer *)

Section ReplacerProperty.
Variable P : LRUKReplacer -> Prop.
Hypothesis P_RecordAccess : forall dflt f r r', RecordAccess dflt f r = Ret tt r' -> P r -> P r'.
Hypothesis P_SetEvictable : forall f flag r r', SetEvictable f flag r = Ret tt r' -> P r -> P r'.
Hypothesis P_Evict : forall v r r', Evict r = Ret v r' -> P r -> P r'.
Hypothesis P_Remove : forall f r r', Remove f r = Ret tt r' -> P r -> P r'.

Lemma getNewFrame_replacer dflt pid (is_new : bool) s v s' :
  getNewFrame dflt pid is_new s = Ret v s' -> P (replacer_ s) -> P (replacer_ s').
Proof.
  intros Hret HP. apply getNewFrame_Ret in Hret.
  destruct (acquire_frame s) as [[f|] s1 | e s1] eqn:Hacq; [| |done].
  - destruct Hret as (pg1 & r1 & r2 & Hf1 & Hra & Hse & -> & ->). simpl.
    eapply P_SetEvictable; [exact Hse|]. eapply P_RecordAccess; [exact Hra|].
    apply acquire_frame_Ret in Hacq. destruct (free_list_ s) as [|f0 rest].
    + destruct (Evict (replacer_ s)) as [[g|] r0 | e r0] eqn:Hev; [| by destruct Hacq | done].
      destruct Hacq as (pg & Hpg & Hg & ->). simpl. eauto.
    + by destruct Hacq as [_ ->].
  - destruct Hret as [_ ->]. apply acquire_frame_Ret in Hacq.
    destruct (free_list_ s); [|by destruct Hacq].
    destruct (Evict (replacer_ s)) as [[g|] r0 | e r0]; [|by destruct Hacq as [_ ->] |done].
    by destruct Hacq as (? & _ & ? & _).
Qed.

Lemma for_each_flush_replacer l s s' :
  for_each flush_entry l s = Ret tt s' -> replacer_ s' = replacer_ s.
Proof.
  revert s. induction l as [|entry l IH]; intros s; simpl.
  - by intros [= <-].
  - unfold mbind. rewrite flush_entry_nf.
    destruct (frame_at s entry.2) as [pg|] eqn:Hf; [|done].
    intros H. by rewrite (IH _ H).
Qed.

Lemma exec_op_replacer dflt o s :
  P (replacer_ s) ->
  match exec_op dflt o s with
  | Ret _ s' => P (replacer_ s')
  | Fail ExceptionThrown s' => P (replacer_ s')
  | Fail _ _ => True
  end.
Proof.
  intros HP. destruct o; simpl; unfold mbind.
  - destruct (NewPage dflt s) as [v s' | e s'] eqn:H; [by eapply getNewFrame_replacer|].
    apply getNewFrame_Fail in H. by destruct e.
  - destruct (FetchPage dflt page_id s) as [v s' | e s'] eqn:H.
    + destruct (page_table_ s !! page_id) as [f|] eqn:Hp.
      * rewrite (FetchPage_hit_nf _ _ _ _ Hp) in H.
        destruct (frame_at s f) as [pg|] eqn:Hf; [|done]. cbv zeta in H.
        destruct (SetEvictable f false (replacer_ s)) as [[] r1 | e r1] eqn:Hse; [|done].
        destruct (RecordAccess dflt f r1) as [[] r2 | e r2] eqn:Hra; [|done].
        injection H as <- <-. simpl. eauto.
      * rewrite (FetchPage_miss_nf _ _ _ Hp) in H.
        destruct (getNewFrame dflt page_id false s) as [[[f q]|] s1 | e s1] eqn:Hg;
          [| |done].
        -- destruct (frame_at s1 f) as [pg|] eqn:Hf; [|done]. injection H as <- <-.
           simpl. by eapply getNewFrame_replacer.
        -- injection H as <- <-. by eapply getNewFrame_replacer.
    + apply FetchPage_Fail in H. by destruct e.
  - destruct (UnpinPage page_id is_dirty s) as [v s' | e s'] eqn:H.
    + rewrite UnpinPage_nf in H.
      destruct (page_table_ s !! page_id) as [f|]; [|by injection H as <- <-].
      destruct (frame_at s f) as [pg|]; [|done].
      destruct (pin_count_ pg =? 0); [by injection H as <- <-|]. cbv zeta in H.
      destruct (pin_count_ pg - 1 =? 0).
      * destruct (SetEvictable f true (replacer_ s)) as [[] r' | e r'] eqn:Hse; [|done].
        injection H as <- <-. simpl. eauto.
      * by injection H as <- <-.
    + apply UnpinPage_Fail in H. by destruct e.
  - destruct (FlushPage page_id s) as [v s' | e s'] eqn:H.
    + rewrite FlushPage_nf in H.
      destruct (page_table_ s !! page_id) as [f|]; [|by injection H as <- <-].
      destruct (frame_at s f) as [pg|]; [|done]. by injection H as <- <-.
    + apply FlushPage_Fail in H. by destruct e.
  - unfold FlushAllPages. rewrite (mbind_Ret mget _ s s s eq_refl).
    destruct (for_each flush_entry (map_to_list (page_table_ s)) s) as [[] s' | e s'] eqn:H.
    + by rewrite (for_each_flush_replacer _ _ _ H).
    + apply for_each_flush_Fail in H. by destruct e.
  - destruct (DeletePage page_id s) as [v s' | e s'] eqn:H.
    + rewrite DeletePage_nf in H.
      destruct (page_table_ s !! page_id) as [f|]; [|by injection H as <- <-].
      destruct (frame_at s f) as [pg|]; [|done].
      destruct (0 <? pin_count_ pg); [by injection H as <- <-|].
      destruct (Remove f (replacer_ s)) as [[] r' | e r'] eqn:Hrm; [|done].
      injection H as <- <-. simpl. eauto.
    + destruct e; [done | | done]. apply DeletePage_throw in H. by subst.
  - destruct (on_frame frame_id (SetData bytes) s) as [[] s' | e s'] eqn:H.
    + destruct (frame_at s frame_id) as [pg|] eqn:Hf.
      * rewrite (on_frame_Ret _ _ _ _ Hf) in H. by injection H as <-.
      * by rewrite (on_frame_Fail _ _ _ Hf) in H.
    + destruct (frame_at s frame_id) as [pg|] eqn:Hf.
      * by rewrite (on_frame_Ret _ _ _ _ Hf) in H.
      * rewrite (on_frame_Fail _ _ _ Hf) in H. by injection H as <- <-.
Qed.

Lemma run_replacer dflt ops s : P (replacer_ s) -> P (replacer_ (run dflt ops s)).
Proof.
  revert s. induction ops as [|o ops IH]; intros s HP; simpl; [done|].
  pose proof (exec_op_replacer dflt o s HP) as H.
  destruct (exec_op dflt o s) as [v s' | e s']; [by apply IH|].
  destruct e; [done | by apply IH | done].
Qed.

End ReplacerProperty.

Lemma replacer_op_k dflt o r v r' :
  Replacer.exec_op dflt o r = Ret v r' -> k_ r' = k_ r.
Proof. intros H. pose proof (exec_op_k dflt o r) as Hk. by rewrite H in Hk. Qed.

Lemma reachable_k dflt pool_size k ops :
  k_ (replacer_ (run dflt ops (init pool_size k))) = k.
Proof.
  apply (run_replacer (fun r => k_ r = k)); [| | | |done].
  - intros d f r r' H <-. apply (replacer_op_k d (OpRecordAccess f) r None).
    simpl. unfold mbind. by rewrite H.
  - intros f flag r r' H <-. apply (replacer_op_k dflt (OpSetEvictable f flag) r None).
    simpl. unfold mbind. by rewrite H.
  - intros v r r' H <-. by apply (replacer_op_k dflt OpEvict r v).
  - intros f r r' H <-. apply (replacer_op_k dflt (OpRemove f) r None).
    simpl. unfold mbind. by rewrite H.
Qed.

Lemma RecordAccess_Ret_k dflt f r r' : RecordAccess dflt f r = Ret tt r' -> k_ r' = k_ r.
Proof.
  intros H. apply (replacer_op_k dflt (OpRecordAccess f) r None).
  simpl. unfold mbind. by rewrite H.
Qed.

Lemma SetEvictable_Ret_k f flag r r' : SetEvictable f flag r = Ret tt r' -> k_ r' = k_ r.
Proof.
  intros H. apply (replacer_op_k false (OpSetEvictable f flag) r None).
  simpl. unfold mbind. by rewrite H.
Qed.

Lemma Remove_Ret_k f r r' : Remove f r = Ret tt r' -> k_ r' = k_ r.
Proof.
  intros H. apply (replacer_op_k false (Replacer.OpRemove f) r None).
  simpl. unfold mbind. by rewrite H.
Qed.

Lemma reachable_lists_inv dflt pool_size k ops :
  2 <= k -> pool_size < 2 ^ 31 ->
  lists_inv (replacer_ (run dflt ops (init pool_size k))).
Proof.
  intros Hk Hsize. apply (pn_repl _ (reachable_pin_inv dflt pool_size k ops Hsize)).
  by rewrite reachable_k.
Qed.

(** With the lists and [node_store_] in step, a frame whose tracked node is
    not evictable has no evictable node in either list, and [Evict] does not
    return it. *)
Lemma pinned_not_evicted r f :
  lists_inv r -> (forall n, tracked r f n -> is_evictable n = false) ->
  (forall n, listed r f n -> is_evictable n = false) /\
  (forall g r0, Evict r = Ret (Some g) r0 -> g <> f).
Proof.
  intros Hl Hno.
  assert (H : forall n, listed r f n -> is_evictable n = false).
  { intros n Hli. apply Hno. by apply listed_tracked. }
  split; [exact H | by apply unlisted_not_evicted].
Qed.

(** ** A pool with every frame pinned *)

Lemma getNewFrame_exhausted dflt pid (is_new : bool) s :
  free_list_ s = [] -> Evict (replacer_ s) = Ret None (replacer_ s) ->
  getNewFrame dflt pid is_new s = Ret None s.
Proof.
  intros Hfl Hev.
  assert (Ha : acquire_frame s = Ret None s).
  { unfold acquire_frame, mbind, mget. rewrite Hfl.
    rewrite (on_replacer_Ret _ _ _ _ Hev). by destruct s. }
  unfold getNewFrame. by rewrite (mbind_Ret _ _ _ _ _ Ha).
Qed.

Lemma tracked_in_pool s f n :
  pool_range s -> lists_inv (replacer_ s) -> tracked (replacer_ s) f n -> in_pool s f.
Proof.
  intros Hr Hl (p & Hp & Hn). destruct (li_store _ Hl f p Hp) as (n' & Hn' & Hfid).
  assert (n' = n) by (unfold deref in *; congruence). subst n'. rewrite <- Hfid.
  by apply (pr_heap s Hr p).
Qed.

(** X24. With an empty free list and every frame pinned there is no frame to
    be had: in such a state, reached from the constructor with K >= 2,
    [NewPage] returns null, [FetchPage] of a page that is not resident
    returns null, and neither changes the state; no page id is allocated. *)
Theorem all_pinned_no_frame dflt pool_size k ops s :
  2 <= k -> pool_size < 2 ^ 31 ->
  s = run dflt ops (init pool_size k) ->
  free_list_ s = [] ->
  (forall f pg, frame_at s f = Some pg -> 0 < pin_count_ pg) ->
  NewPage dflt s = Ret None s /\
  (forall q, page_table_ s !! q = None -> FetchPage dflt q s = Ret None s).
Proof.
  intros Hk Hsize -> Hfl Hall.
  pose proof (reachable_range dflt pool_size k ops Hsize) as Hrange.
  pose proof (reachable_pin_inv dflt pool_size k ops Hsize) as Hpn.
  pose proof (reachable_k dflt pool_size k ops) as Hkr.
  set (s := run dflt ops (init pool_size k)) in *.
  assert (Hl : lists_inv (replacer_ s)) by (apply (pn_repl s Hpn); lia).
  assert (Hev : Evict (replacer_ s) = Ret None (replacer_ s)).
  { apply Evict_nothing_evictable; [done|]. intros f n Htr.
    pose proof (tracked_in_pool s f n Hrange Hl Htr) as Hin.
    destruct (proj1 (pr_frames s Hrange f) Hin) as [pg Hpg].
    eapply (pn_pinned s Hpn); eauto. }
  split; [by apply getNewFrame_exhausted|].
  intros q Hq. rewrite (FetchPage_miss_nf _ _ _ Hq).
  by rewrite getNewFrame_exhausted.
Qed.

Lemma all_pinned_no_frame_witness :
  NewPage false (run false [OpNewPage; OpNewPage] (init 2 2))
  = Ret None (run false [OpNewPage; OpNewPage] (init 2 2)).
Proof.
  apply (all_pinned_no_frame false 2 2 [OpNewPage; OpNewPage]
           (run false [OpNewPage; OpNewPage] (init 2 2))).
  - lia.
  - lia.
  - reflexivity.
  - reflexivity.
  - intros f pg Hf. apply frame_at_Some in Hf as [H0 Hl].
    destruct (Z.to_nat f) as [|[|i]] eqn:E; vm_compute in Hl.
    + injection Hl as <-. simpl. lia.
    + injection Hl as <-. simpl. lia.
    + discriminate.
Defined.


(** ** Frames of a well-behaved client *)

Lemma to_page_id_t_small n : - 2 ^ 31 <= n < 2 ^ 31 -> to_page_id_t n = n.
Proof. intros H. unfold to_page_id_t. rewrite Z.mod_small; lia. Qed.

Lemma frames_inv_init pool_size k : pool_size < 2 ^ 31 -> frames_inv (init pool_size k).
Proof.
  intros Hsize. split; simpl.
  - intros f pg Hf. left. split; [|by eapply frame_at_init].
    apply frame_at_Some in Hf as [H0 Hl]. simpl in Hl.
    apply lookup_lt_Some in Hl. rewrite repeat_length in Hl.
    apply list_elem_of_fmap. exists (Z.to_nat f). split.
    + rewrite to_frame_id_t_small; lia.
    + apply elem_of_seq. lia.
  - intros p f H. by rewrite lookup_empty in H.
  - done.
Qed.

Lemma frames_inv_touch s f p pg pg' r' d :
  frames_inv s -> frame_at s f = Some pg -> page_table_ s !! p = Some f ->
  page_id_ pg' = p ->
  frames_inv (mkBPM (pool_size_ s) (<[Z.to_nat f := pg']> (pages_ s)) r'
                (free_list_ s) (page_table_ s) (next_page_id_ s) d).
Proof.
  intros [Hfr Hids Hnx] Hf Hp Hid.
  assert (H0 : 0 <= f) by (by apply frame_at_Some in Hf as [? _]).
  split; simpl; [|done|done].
  intros h x Hx. destruct (decide (h = f)) as [-> | Hne].
  - rewrite (frame_at_mk_insert _ _ pg) in Hx by done. injection Hx as <-.
    right. by rewrite Hid.
  - rewrite frame_at_mk_insert_ne in Hx by done. by apply Hfr.
Qed.

Lemma frames_inv_getNewFrame dflt pid (is_new : bool) s v s' :
  pool_inv s -> frames_inv s ->
  (if is_new then next_page_id_ s + 1 < 2 ^ 31
   else 0 <= pid < next_page_id_ s /\ page_table_ s !! pid = None) ->
  getNewFrame dflt pid is_new s = Ret v s' -> frames_inv s'.
Proof.
  intros Hinv Hfi Hnew Hret. apply getNewFrame_Ret in Hret.
  destruct (acquire_frame s) as [[f|] s1 | e s1] eqn:Hacq; [| |done].
  2:{ destruct Hret as [_ ->]. apply acquire_frame_Ret in Hacq.
      destruct (free_list_ s); [|by destruct Hacq].
      destruct (Evict (replacer_ s)) as [[g|] r0 | e r0]; [|by destruct Hacq as [_ ->] |done].
      by destruct Hacq as (? & _ & ? & _). }
  destruct Hret as (pg1 & r1 & r2 & Hf1 & Hra & Hse & -> & ->).
  destruct Hinv as [Ht Hfr Hnd Hok Hst Hpin Hun].
  destruct Hfi as [Hframes Hids Hnx].
  assert (H0 : 0 <= f) by (by apply frame_at_Some in Hf1 as [? _]).
  (* the state after the acquisition *)
  assert (Hacq' :
    pages_ s1 = pages_ s /\ next_page_id_ s1 = next_page_id_ s /\
    (forall h x, h <> f -> frame_at s h = Some x ->
       (h ∈ free_list_ s1 /\ x = new_page) \/ page_table_ s1 !! page_id_ x = Some h) /\
    (forall p h, page_table_ s1 !! p = Some h -> page_table_ s !! p = Some h)).
  { apply acquire_frame_Ret in Hacq. destruct (free_list_ s) as [|f0 rest] eqn:Hfl.
    - destruct (Evict (replacer_ s)) as [[g|] r0 | e r0] eqn:Hev; [| by destruct Hacq | done].
      destruct Hacq as (pg & Hpg & Hg & ->). injection Hg as <-. simpl.
      split; [done|]. split; [done|]. split.
      + intros h x Hne Hx. right. destruct (Hframes h x Hx) as [[Hin _] | Hres].
        * by apply elem_of_nil in Hin.
        * rewrite lookup_delete_ne; [done|]. intros Heq.
          destruct (Hframes f pg Hpg) as [[Hin _] | Hres'];
            [by apply elem_of_nil in Hin|]. congruence.
      + intros p h Hp. by apply lookup_delete_Some in Hp as [_ Hp].
    - destruct Hacq as [Hg ->]. injection Hg as <-. simpl.
      split; [done|]. split; [done|]. split; [|done].
      intros h x Hne Hx. destruct (Hframes h x Hx) as [[Hin ->] | Hres]; [|by right].
      left. split; [|done]. apply elem_of_cons in Hin as [-> | Hin]; done. }
  destruct Hacq' as (Hpages & Hnext & Hothers & Hsub).
  set (pid' := if is_new then next_page_id_ s1 else pid).
  assert (Hpid : 0 <= pid' < (if is_new then to_page_id_t (next_page_id_ s1 + 1)
                              else next_page_id_ s1) /\
                 forall h, page_table_ s !! pid' = Some h -> False).
  { subst pid'. rewrite Hnext. destruct is_new.
    - rewrite to_page_id_t_small by lia. split; [lia|].
      intros h Hh. apply Hids in Hh. lia.
    - destruct Hnew as [Hr Hn]. split; [lia|]. intros h Hh. congruence. }
  destruct Hpid as [Hpid Hfresh].
  split; simpl.
  - intros h x Hx. destruct (decide (h = f)) as [-> | Hne].
    + rewrite (frame_at_mk_insert _ _ pg1) in Hx by done. injection Hx as <-.
      right. simpl. apply lookup_insert_eq.
    + rewrite frame_at_mk_insert_ne in Hx by done.
      assert (Hx' : frame_at s h = Some x) by (unfold frame_at in *; by rewrite <- Hpages).
      destruct (Hothers h x Hne Hx') as [Hfree | Hres]; [by left | right].
      rewrite lookup_insert_ne; [done|]. intros Heq. rewrite <- Heq in Hres.
      eapply Hfresh. eauto.
  - intros p h Hp. apply lookup_insert_Some in Hp as [[<- <-] | [Hne Hp]]; [done|].
    apply Hsub, Hids in Hp. rewrite Hnext. destruct is_new; [|done].
    rewrite to_page_id_t_small by lia. lia.
  - rewrite Hnext. destruct is_new; [|done]. rewrite to_page_id_t_small by lia. lia.
Qed.

Lemma getNewFrame_next dflt pid (is_new : bool) s v s' :
  getNewFrame dflt pid is_new s = Ret v s' ->
  next_page_id_ s' =
    match v with
    | Some _ => if is_new then to_page_id_t (next_page_id_ s + 1) else next_page_id_ s
    | None => next_page_id_ s
    end.
Proof.
  intros Hret. apply getNewFrame_Ret in Hret.
  destruct (acquire_frame s) as [[f|] s1 | e s1] eqn:Hacq; [| |done];
    apply acquire_frame_Ret in Hacq.
  - destruct Hret as (pg1 & r1 & r2 & Hf1 & Hra & Hse & -> & ->). simpl.
    assert (Hnext : next_page_id_ s1 = next_page_id_ s).
    { destruct (free_list_ s) as [|f0 rest].
      - destruct (Evict (replacer_ s)) as [[g|] r0 | e r0]; [| by destruct Hacq | done].
        by destruct Hacq as (pg & Hpg & Hg & ->).
      - by destruct Hacq as [_ ->]. }
    by rewrite Hnext.
  - destruct Hret as [-> ->].
    destruct (free_list_ s); [|by destruct Hacq].
    destruct (Evict (replacer_ s)) as [[g|] r0 | e r0]; [|by destruct Hacq as [_ ->] |done].
    by destruct Hacq as (? & _ & ? & _).
Qed.

Lemma frames_inv_DeletePage p s v s' :
  pool_inv s -> frames_inv s -> DeletePage p s = Ret v s' ->
  frames_inv s' /\ next_page_id_ s' = next_page_id_ s.
Proof.
  intros Hinv Hfi. rewrite DeletePage_nf.
  destruct (page_table_ s !! p) as [f|] eqn:Hp; [|by intros [= <- <-]].
  destruct (frame_at s f) as [pg|] eqn:Hf; [|done].
  destruct (0 <? pin_count_ pg); [by intros [= <- <-]|].
  destruct (Remove f (replacer_ s)) as [[] r' | e r'] eqn:Hrm; [|done].
  intros [= <- <-]. split; [|done].
  destruct Hfi as [Hframes Hids Hnx].
  assert (H0 : 0 <= f) by (by apply frame_at_Some in Hf as [? _]).
  split; simpl; [| |done].
  - intros h x Hx. destruct (decide (h = f)) as [-> | Hne].
    + rewrite (frame_at_mk_insert _ _ pg) in Hx by done. injection Hx as <-.
      left. split; [|done]. apply elem_of_app. right. by left.
    + rewrite frame_at_mk_insert_ne in Hx by done.
      destruct (Hframes h x Hx) as [[Hin ->] | Hres].
      * left. split; [|done]. apply elem_of_app. by left.
      * right. rewrite lookup_delete_ne; [done|]. intros Heq. congruence.
  - intros q h Hq. apply lookup_delete_Some in Hq as [_ Hq]. eauto.
Qed.

Lemma frames_inv_for_each_flush l s s' :
  pool_inv s -> frames_inv s ->
  (forall entry, entry ∈ l -> page_table_ s !! entry.1 = Some entry.2) ->
  for_each flush_entry l s = Ret tt s' ->
  frames_inv s' /\ next_page_id_ s' = next_page_id_ s.
Proof.
  revert s. induction l as [|entry l IH]; intros s Hinv Hfi Hl; simpl.
  - by intros [= <-].
  - unfold mbind. rewrite flush_entry_nf.
    destruct (frame_at s entry.2) as [pg|] eqn:Hf; [|done].
    pose proof (Hl entry ltac:(left)) as He.
    destruct (pi_table s Hinv _ _ He) as (pg0 & Hpg0 & Hid).
    assert (pg0 = pg) by congruence. subst pg0.
    intros H. apply IH in H; [done | | |].
    + by eapply pool_inv_same_replacer.
    + by eapply frames_inv_touch.
    + intros e' He'. simpl. apply Hl. by right.
Qed.

Lemma frames_exec_op_inv dflt o s :
  pool_inv s -> frames_inv s -> op_legal o s = true ->
  next_page_id_ s + 1 < 2 ^ 31 ->
  match exec_op dflt o s with
  | Ret _ s' | Fail ExceptionThrown s' =>
      frames_inv s' /\ next_page_id_ s <= next_page_id_ s' <= next_page_id_ s + 1
  | Fail _ _ => True
  end.
Proof.
  intros Hinv Hfi Hlegal Hnx. pose proof (fi_next s Hfi) as Hnx0.
  destruct o; simpl; unfold mbind.
  - destruct (NewPage dflt s) as [v s' | e s'] eqn:H.
    + split; [by eapply (frames_inv_getNewFrame dflt INVALID_PAGE_ID true)|].
      rewrite (getNewFrame_next _ _ _ _ _ _ H). destruct v; [|lia].
      rewrite to_page_id_t_small by lia. lia.
    + apply getNewFrame_Fail in H. by destruct e.
  - simpl in Hlegal. apply andb_true_iff in Hlegal as [Hl1 Hl2].
    apply Z.leb_le in Hl1. apply Z.ltb_lt in Hl2.
    destruct (FetchPage dflt page_id s) as [v s' | e s'] eqn:H.
    + destruct (page_table_ s !! page_id) as [f|] eqn:Hp.
      * rewrite (FetchPage_hit_nf _ _ _ _ Hp) in H.
        destruct (frame_at s f) as [pg|] eqn:Hf; [|done]. cbv zeta in H.
        destruct (SetEvictable f false (replacer_ s)) as [[] r1 | e r1] eqn:Hse; [|done].
        destruct (RecordAccess dflt f r1) as [[] r2 | e r2] eqn:Hra; [|done].
        injection H as <- <-. simpl. split; [|lia].
        eapply frames_inv_touch; eauto.
        destruct (pi_table s Hinv _ _ Hp) as (pg0 & Hpg0 & Hid). simpl. congruence.
      * rewrite (FetchPage_miss_nf _ _ _ Hp) in H.
        destruct (getNewFrame dflt page_id false s) as [[[f q]|] s1 | e s1] eqn:Hg;
          [| |done].
        -- pose proof (frames_inv_getNewFrame dflt page_id false s _ _ Hinv Hfi
                         (conj (conj Hl1 Hl2) Hp) Hg) as Hfi1.
           pose proof (pool_inv_getNewFrame _ _ _ _ _ _ Hinv Hg) as Hinv1.
           pose proof (getNewFrame_next _ _ _ _ _ _ Hg) as Hnext. simpl in Hnext.
           destruct (frame_at s1 f) as [pg|] eqn:Hf; [|done]. injection H as <- <-.
           simpl. split; [|lia].
           assert (Hq : page_table_ s1 !! page_id_ pg = Some f).
           { apply getNewFrame_Ret in Hg.
             destruct (acquire_frame s) as [[g|] s0 | e s0]; [| by destruct Hg | done].
             destruct Hg as (pg0 & r1 & r2 & Hpg0 & _ & _ & Hv & ->).
             injection Hv as <- _. rewrite (frame_at_mk_insert _ _ pg0) in Hf by done.
             injection Hf as <-. simpl. apply lookup_insert_eq. }
           eapply frames_inv_touch; eauto.
        -- injection H as <- <-.
           split; [by eapply (frames_inv_getNewFrame dflt page_id false)|].
           rewrite (getNewFrame_next _ _ _ _ _ _ Hg). lia.
    + apply FetchPage_Fail in H. by destruct e.
  - destruct (UnpinPage page_id is_dirty s) as [v s' | e s'] eqn:H.
    + rewrite UnpinPage_nf in H.
      destruct (page_table_ s !! page_id) as [f|] eqn:Hp;
        [|injection H as <- <-; split; [done | lia]].
      destruct (pi_table s Hinv _ _ Hp) as (pg & Hf & Hid). rewrite Hf in H.
      destruct (pin_count_ pg =? 0); [injection H as <- <-; split; [done | lia]|].
      cbv zeta in H. destruct (pin_count_ pg - 1 =? 0).
      * destruct (SetEvictable f true (replacer_ s)) as [[] r' | e r'] eqn:Hse; [|done].
        injection H as <- <-. simpl. split; [|lia]. by eapply frames_inv_touch.
      * injection H as <- <-. simpl. split; [|lia]. by eapply frames_inv_touch.
    + apply UnpinPage_Fail in H. by destruct e.
  - destruct (FlushPage page_id s) as [v s' | e s'] eqn:H.
    + rewrite FlushPage_nf in H.
      destruct (page_table_ s !! page_id) as [f|] eqn:Hp;
        [|injection H as <- <-; split; [done | lia]].
      destruct (pi_table s Hinv _ _ Hp) as (pg & Hf & Hid). rewrite Hf in H.
      injection H as <- <-. simpl. split; [|lia]. by eapply frames_inv_touch.
    + apply FlushPage_Fail in H. by destruct e.
  - unfold FlushAllPages. rewrite (mbind_Ret mget _ s s s eq_refl).
    destruct (for_each flush_entry (map_to_list (page_table_ s)) s) as [[] s' | e s'] eqn:H.
    + apply frames_inv_for_each_flush in H as [H1 H2]; [split; [done | lia] | done | done |].
      intros [p f] He. by apply elem_of_map_to_list in He.
    + apply for_each_flush_Fail in H. by destruct e.
  - destruct (DeletePage page_id s) as [v s' | e s'] eqn:H.
    + apply frames_inv_DeletePage in H as [H1 H2]; [split; [done | lia] | done | done].
    + destruct e; [done | | done]. apply DeletePage_throw in H. subst. split; [done | lia].
  - simpl in Hlegal. destruct (frame_at s frame_id) as [pg|] eqn:Hf; [|done].
    apply Z.ltb_lt in Hlegal. rewrite (on_frame_Ret _ _ _ _ Hf).
    split; [|simpl; lia].
    destruct (fi_frames s Hfi _ _ Hf) as [[_ ->] | Hres]; [simpl in Hlegal; lia|].
    destruct s. by eapply (frames_inv_touch _ frame_id (page_id_ pg) pg).
Qed.

Lemma legal_run_inv dflt ops s :
  pool_inv s -> frames_inv s -> legal dflt ops s = true ->
  next_page_id_ s + Z.of_nat (length ops) < 2 ^ 31 ->
  frames_inv (run dflt ops s).
Proof.
  revert s. induction ops as [|o ops IH]; intros s Hinv Hfi Hlegal Hnx; simpl; [done|].
  simpl in Hlegal. apply andb_true_iff in Hlegal as [Hl1 Hl2]. simpl length in Hnx.
  pose proof (pool_exec_op_inv dflt o s Hinv) as H.
  pose proof (frames_exec_op_inv dflt o s Hinv Hfi Hl1 ltac:(lia)) as H'.
  destruct (exec_op dflt o s) as [v s' | e s'].
  - destruct H' as [H1 H2]. apply IH; auto. lia.
  - destruct e; [done | | done]. destruct H' as [H1 H2]. apply IH; auto. lia.
Qed.

Lemma reachable_frames_inv dflt pool_size k ops :
  pool_size < 2 ^ 31 -> Z.of_nat (length ops) < 2 ^ 31 ->
  legal dflt ops (init pool_size k) = true ->
  frames_inv (run dflt ops (init pool_size k)).
Proof.
  intros Hsize Hlen Hlegal. apply legal_run_inv; auto.
  - by apply pool_inv_init.
  - by apply frames_inv_init.
Qed.



(** ** The size of the pool *)

Lemma keeps_bind {A B} (m : M BufferPoolManager A) (k : A -> M BufferPoolManager B) :
  keeps_pool_size m -> (forall a, keeps_pool_size (k a)) -> keeps_pool_size (mbind m k).
Proof.
  intros Hm Hk s. unfold mbind. specialize (Hm s).
  destruct (m s) as [a s1 | e s1]; simpl in *; [|done]. by rewrite Hk.
Qed.

Lemma keeps_ret {A} (a : A) : keeps_pool_size (mret a).
Proof. by intros s. Qed.

Lemma keeps_get : keeps_pool_size mget.
Proof. by intros s. Qed.

Lemma keeps_modify (f : BufferPoolManager -> BufferPoolManager) :
  (forall s, pool_size_ (f s) = pool_size_ s) -> keeps_pool_size (mmodify f).
Proof. intros H s. apply H. Qed.

Lemma keeps_frame f : keeps_pool_size (frame f).
Proof. intros s. unfold frame. by destruct (frame_at s f). Qed.

Lemma keeps_on_replacer {A} (m : M LRUKReplacer A) : keeps_pool_size (on_replacer m).
Proof. intros s. unfold on_replacer, zoom. by destruct (m (replacer_ s)). Qed.

Lemma keeps_for_each {A} (body : A -> M BufferPoolManager unit) l :
  (forall x, keeps_pool_size (body x)) -> keeps_pool_size (for_each body l).
Proof.
  intros H. induction l as [|x l IH]; simpl; [apply keeps_ret|].
  apply keeps_bind; [apply H | by intros _].
Qed.

Ltac keeps :=
  repeat first
    [ apply keeps_ret | apply keeps_get | apply keeps_frame | apply keeps_on_replacer
    | apply keeps_modify; intros ?; reflexivity
    | apply keeps_for_each; intros ?
    | apply keeps_bind; [|intros ?]
    | match goal with
      | |- keeps_pool_size (match ?x with _ => _ end) => destruct x
      end ].

Lemma exec_op_pool_size dflt o : keeps_pool_size (exec_op dflt o).
Proof.
  destruct o; simpl;
    unfold NewPage, FetchPage, UnpinPage, FlushPage, FlushAllPages, DeletePage,
      getNewFrame, acquire_frame, install_frame, AllocatePage, disk_read, disk_write,
      DeallocatePageOnDisk, flush_entry, on_frame;
    keeps.
Qed.

Lemma run_pool_size dflt ops s : pool_size_ (run dflt ops s) = pool_size_ s.
Proof.
  revert s. induction ops as [|o ops IH]; intros s; simpl; [done|].
  pose proof (exec_op_pool_size dflt o s) as H.
  destruct (exec_op dflt o s) as [v s' | e s']; simpl in H; [by rewrite IH|].
  destruct e; [done | by rewrite IH | done].
Qed.

(** X25. Frames are never lost. After fewer than 2^31 calls by a client that
    fetches only page ids [NewPage] has handed out and writes only into
    frames it has pinned, every frame of the pool is either in the free list,
    blank ([Page()]), and the frame of no page, or outside the free list and
    the frame of the resident page whose id it carries. *)
Theorem frames_free_or_resident dflt pool_size k ops s f :
  pool_size < 2 ^ 31 -> Z.of_nat (length ops) < 2 ^ 31 ->
  legal dflt ops (init pool_size k) = true ->
  s = run dflt ops (init pool_size k) ->
  0 <= f < pool_size ->
  exists pg, frame_at s f = Some pg /\
    ((f ∈ free_list_ s /\ pg = new_page /\ forall p, page_table_ s !! p <> Some f) \/
     ((f ∉ free_list_ s) /\ page_table_ s !! page_id_ pg = Some f /\
      0 <= page_id_ pg < next_page_id_ s)).
Proof.
  intros Hsize Hlen Hlegal -> Hf.
  pose proof (reachable_inv dflt pool_size k ops Hsize) as Hinv.
  pose proof (reachable_range dflt pool_size k ops Hsize) as Hrange.
  pose proof (reachable_frames_inv dflt pool_size k ops Hsize Hlen Hlegal) as Hfi.
  assert (Hps : pool_size_ (run dflt ops (init pool_size k)) = pool_size)
    by apply run_pool_size.
  set (s := run dflt ops (init pool_size k)) in *.
  destruct (proj1 (pr_frames s Hrange f)) as [pg Hpg]; [unfold in_pool; lia|].
  exists pg. split; [done|].
  destruct (fi_frames s Hfi f pg Hpg) as [[Hin ->] | Hres].
  - left. split; [done|]. split; [done|]. intros p Hp. by apply (pi_free s Hinv p f Hp).
  - right. split; [|split; [done | by eapply (fi_ids s Hfi)]].
    intros Hin. by apply (pi_free s Hinv _ f Hres).
Qed.

Lemma frames_free_or_resident_witness :
  exists pg,
    frame_at (run false [OpNewPage; OpUnpinPage 0 false; OpDeletePage 0] (init 2 2)) 0
    = Some pg /\
    ((0 ∈ free_list_ (run false [OpNewPage; OpUnpinPage 0 false; OpDeletePage 0] (init 2 2))
      /\ pg = new_page
      /\ forall p,
           page_table_ (run false [OpNewPage; OpUnpinPage 0 false; OpDeletePage 0]
                          (init 2 2)) !! p <> Some 0) \/
     ((0 ∉ free_list_ (run false [OpNewPage; OpUnpinPage 0 false; OpDeletePage 0]
                         (init 2 2)))
      /\ page_table_ (run false [OpNewPage; OpUnpinPage 0 false; OpDeletePage 0] (init 2 2))
         !! page_id_ pg = Some 0
      /\ 0 <= page_id_ pg
         < next_page_id_ (run false [OpNewPage; OpUnpinPage 0 false; OpDeletePage 0]
                            (init 2 2)))).
Proof.
  apply (frames_free_or_resident false 2 2 [OpNewPage; OpUnpinPage 0 false; OpDeletePage 0]).
  - lia.
  - simpl. lia.
  - vm_compute. reflexivity.
  - reflexivity.
  - lia.
Defined.

(** ** A pinned page *)

Lemma getNewFrame_keeps_pinned dflt pid (is_new : bool) s v s' p f pg :
  pool_inv s -> pin_inv s -> frames_inv s -> lists_inv (replacer_ s) ->
  page_table_ s !! p = Some f -> frame_at s f = Some pg -> 0 < pin_count_ pg ->
  (if is_new then next_page_id_ s <> p else pid <> p) ->
  getNewFrame dflt pid is_new s = Ret v s' ->
  page_table_ s' !! p = Some f /\ frame_at s' f = Some pg /\
  (forall g q, v = Some (g, q) -> g <> f).
Proof.
  intros Hinv Hpn Hfi Hl Hp Hf Hpin Hpid Hret. apply getNewFrame_Ret in Hret.
  destruct (acquire_frame s) as [[g|] s1 | e s1] eqn:Hacq; [| |done];
    apply acquire_frame_Ret in Hacq.
  - destruct Hret as (pg1 & r1 & r2 & Hf1 & Hra & Hse & -> & ->).
    assert (H0 : 0 <= g) by (by apply frame_at_Some in Hf1 as [? _]).
    assert (Hacq' : g <> f /\ page_table_ s1 !! p = Some f /\ pages_ s1 = pages_ s /\
                    next_page_id_ s1 = next_page_id_ s).
    { destruct (free_list_ s) as [|f0 rest] eqn:Hfl.
      - destruct (Evict (replacer_ s)) as [[h|] r0 | e r0] eqn:Hev;
          [| by destruct Hacq | done].
        destruct Hacq as (pgv & Hpgv & Hh & ->). injection Hh as <-.
        assert (Hgf : g <> f).
        { intros ->. destruct (Evict_victim_evictable _ _ _ Hl Hev) as (n & Htr & He).
          rewrite (pn_pinned s Hpn f pg n Hf Hpin Htr) in He. done. }
        split; [done|]. simpl. split; [|done].
        rewrite lookup_delete_ne; [done|]. intros Heq.
        destruct (fi_frames s Hfi g pgv Hpgv) as [[Hin _] | Hres].
        + rewrite Hfl in Hin. by apply elem_of_nil in Hin.
        + congruence.
      - destruct Hacq as [Hg ->]. injection Hg as <-. simpl.
        split; [|done]. intros ->. apply (pi_free s Hinv p f Hp). rewrite Hfl. left. }
    destruct Hacq' as (Hgf & Hp1 & Hpages & Hnext). simpl.
    split; [|split].
    + rewrite lookup_insert_ne; [done|]. rewrite Hnext. by destruct is_new.
    + rewrite frame_at_mk_insert_ne by done. unfold frame_at in *. by rewrite Hpages.
    + by intros h q [= <- _].
  - destruct Hret as [-> ->].
    assert (s1 = s) as ->.
    { destruct (free_list_ s); [|by destruct Hacq].
      destruct (Evict (replacer_ s)) as [[h|] r0 | e r0]; [|by destruct Hacq as [_ ->] |done].
      by destruct Hacq as (? & _ & ? & _). }
    done.
Qed.

Lemma for_each_flush_frame l s s' f pg :
  for_each flush_entry l s = Ret tt s' -> frame_at s f = Some pg ->
  page_table_ s' = page_table_ s /\
  exists pg', frame_at s' f = Some pg' /\ data_ pg' = data_ pg /\
    pin_count_ pg' = pin_count_ pg /\ page_id_ pg' = page_id_ pg.
Proof.
  revert s pg. induction l as [|entry l IH]; intros s pg; simpl.
  - intros [= <-] Hf. split; [done|]. by exists pg.
  - unfold mbind. rewrite flush_entry_nf.
    destruct (frame_at s entry.2) as [pg0|] eqn:Hf0; [|done].
    intros H Hf.
    assert (H0 : 0 <= entry.2) by (by apply frame_at_Some in Hf0 as [? _]).
    destruct (decide (entry.2 = f)) as [He | Hne].
    + rewrite He in *. assert (pg0 = pg) by congruence. subst pg0.
      destruct (IH _ (MarkDirty false pg) H) as (Ht & pg' & Hpg' & Hd & Hpn & Hid).
      { by eapply frame_at_mk_insert. }
      split; [done|]. exists pg'. auto.
    + destruct (IH _ pg H) as (Ht & pg' & Hpg' & Hd & Hpn & Hid).
      { by rewrite frame_at_mk_insert_ne. }
      split; [done|]. exists pg'. auto.
Qed.

(** X26. A pinned page stays where it is (K >= 2, client as in X25): a call
    that returns leaves a page with a positive pin count resident in the same
    frame; its bytes change only by a write of the client into that frame,
    and its pin count goes down only by [UnpinPage] of that page. *)
Theorem pinned_page_stays dflt pool_size k ops s o s' p f pg :
  2 <= k -> pool_size < 2 ^ 31 -> Z.of_nat (length ops) < 2 ^ 31 ->
  legal dflt ops (init pool_size k) = true ->
  s = run dflt ops (init pool_size k) ->
  page_table_ s !! p = Some f -> frame_at s f = Some pg -> 0 < pin_count_ pg ->
  op_legal o s = true -> exec_op dflt o s = Ret tt s' ->
  page_table_ s' !! p = Some f /\
  exists pg', frame_at s' f = Some pg' /\ page_id_ pg' = p /\
    ((forall bytes, o <> OpWrite f bytes) -> data_ pg' = data_ pg) /\
    ((forall d, o <> OpUnpinPage p d) -> pin_count_ pg <= pin_count_ pg').
Proof.
  intros Hk Hsize Hlen Hlegal -> Hp Hf Hpin Hol Hex.
  pose proof (reachable_inv dflt pool_size k ops Hsize) as Hinv.
  pose proof (reachable_pin_inv dflt pool_size k ops Hsize) as Hpn.
  pose proof (reachable_frames_inv dflt pool_size k ops Hsize Hlen Hlegal) as Hfi.
  pose proof (reachable_k dflt pool_size k ops) as Hkr.
  set (s := run dflt ops (init pool_size k)) in *.
  assert (Hl : lists_inv (replacer_ s)) by (apply (pn_repl s Hpn); lia).
  destruct (pi_table s Hinv p f Hp) as (pg0 & Hpg0 & Hid).
  assert (pg0 = pg) by congruence. subst pg0.
  assert (H0 : 0 <= f) by (by apply frame_at_Some in Hf as [? _]).
  assert (Hsame : page_table_ s !! p = Some f /\
            exists pg', frame_at s f = Some pg' /\ page_id_ pg' = p /\
              ((forall bytes, o <> OpWrite f bytes) -> data_ pg' = data_ pg) /\
              ((forall d, o <> OpUnpinPage p d) -> pin_count_ pg <= pin_count_ pg')).
  { split; [done|]. exists pg. repeat split; auto; lia. }
  assert (Hinj : forall q, page_table_ s !! q = Some f -> q = p).
  { intros q Hq. destruct (pi_table s Hinv q f Hq) as (x & Hx & Hxid). congruence. }
  (* a change of the frame of [p] itself *)
  assert (Hown : forall pg' r' nx d,
            page_id_ pg' = p ->
            ((forall bytes, o <> OpWrite f bytes) -> data_ pg' = data_ pg) ->
            ((forall d, o <> OpUnpinPage p d) -> pin_count_ pg <= pin_count_ pg') ->
            let s1 := mkBPM (pool_size_ s) (<[Z.to_nat f := pg']> (pages_ s)) r'
                        (free_list_ s) (page_table_ s) nx d in
            page_table_ s1 !! p = Some f /\
            exists pg'', frame_at s1 f = Some pg'' /\ page_id_ pg'' = p /\
              ((forall bytes, o <> OpWrite f bytes) -> data_ pg'' = data_ pg) /\
              ((forall d, o <> OpUnpinPage p d) -> pin_count_ pg <= pin_count_ pg'')).
  { intros pg' r' nx d H1 H2 H3. simpl. split; [done|]. exists pg'.
    split; [by eapply frame_at_mk_insert | auto]. }
  (* a change of another frame *)
  assert (Hother : forall g pg' r' fl nx d,
            0 <= g -> g <> f ->
            let s1 := mkBPM (pool_size_ s) (<[Z.to_nat g := pg']> (pages_ s)) r'
                        fl (page_table_ s) nx d in
            page_table_ s1 !! p = Some f /\
            exists pg'', frame_at s1 f = Some pg'' /\ page_id_ pg'' = p /\
              ((forall bytes, o <> OpWrite f bytes) -> data_ pg'' = data_ pg) /\
              ((forall d, o <> OpUnpinPage p d) -> pin_count_ pg <= pin_count_ pg'')).
  { intros g pg' r' fl nx d Hg Hne. simpl. split; [done|]. exists pg.
    split; [by rewrite frame_at_mk_insert_ne|]. repeat split; auto; lia. }
  destruct o; simpl in Hex; unfold mbind in Hex.
  - destruct (NewPage dflt s) as [v s1 | e s1] eqn:H; [|done]. injection Hex as <-.
    destruct (getNewFrame_keeps_pinned dflt INVALID_PAGE_ID true s v s1 p f pg)
      as (H1 & H2 & _); auto.
    { pose proof (fi_ids s Hfi p f Hp). simpl. lia. }
    split; [done|]. exists pg. repeat split; auto; lia.
  - destruct (FetchPage dflt page_id s) as [v s1 | e s1] eqn:H; [|done].
    injection Hex as <-.
    destruct (page_table_ s !! page_id) as [g|] eqn:Hq.
    + rewrite (FetchPage_hit_nf _ _ _ _ Hq) in H.
      destruct (pi_table s Hinv _ g Hq) as (pgq & Hpgq & Hidq). rewrite Hpgq in H.
      cbv zeta in H.
      destruct (SetEvictable g false (replacer_ s)) as [[] r1 | e r1]; [|done].
      destruct (RecordAccess dflt g r1) as [[] r2 | e r2]; [|done].
      injection H as <- <-.
      destruct (decide (g = f)) as [-> | Hne].
      * assert (pgq = pg) by congruence. subst pgq.
        apply Hown; simpl; auto; intros; lia.
      * apply Hother; [by apply frame_at_Some in Hpgq as [? _] | done].
    + rewrite (FetchPage_miss_nf _ _ _ Hq) in H.
      destruct (getNewFrame dflt page_id false s) as [[[g q]|] s2 | e s2] eqn:Hg;
        [| |done].
      * destruct (getNewFrame_keeps_pinned dflt page_id false s _ s2 p f pg
                    Hinv Hpn Hfi Hl Hp Hf Hpin ltac:(simpl; congruence) Hg)
          as (H1 & H2 & H3).
        specialize (H3 g q eq_refl).
        destruct (frame_at s2 g) as [pgg|] eqn:Hpgg; [|done]. injection H as <- <-.
        simpl. split; [done|]. exists pg.
        rewrite frame_at_mk_insert_ne;
          [|by apply frame_at_Some in Hpgg as [? _] | done].
        repeat split; auto; lia.
      * injection H as <- <-.
        destruct (getNewFrame_keeps_pinned dflt page_id false s _ s2 p f pg
                    Hinv Hpn Hfi Hl Hp Hf Hpin ltac:(simpl; congruence) Hg)
          as (H1 & H2 & _).
        split; [done|]. exists pg. repeat split; auto; lia.
  - destruct (UnpinPage page_id is_dirty s) as [v s1 | e s1] eqn:H; [|done].
    injection Hex as <-. rewrite UnpinPage_nf in H.
    destruct (page_table_ s !! page_id) as [g|] eqn:Hq; [|by injection H as <- <-].
    destruct (pi_table s Hinv _ g Hq) as (pgq & Hpgq & Hidq). rewrite Hpgq in H.
    destruct (pin_count_ pgq =? 0); [by injection H as <- <-|]. cbv zeta in H.
    assert (Hcase : forall r' : LRUKReplacer,
      let s1 := mkBPM (pool_size_ s)
                  (<[Z.to_nat g := mkPage (data_ pgq) (page_id_ pgq) (pin_count_ pgq - 1)
                                     (is_dirty || is_dirty_ pgq)]> (pages_ s))
                  r' (free_list_ s) (page_table_ s) (next_page_id_ s) (disk_manager_ s) in
      page_table_ s1 !! p = Some f /\
      exists pg'', frame_at s1 f = Some pg'' /\ page_id_ pg'' = p /\
        ((forall bytes, OpUnpinPage page_id is_dirty <> OpWrite f bytes) ->
           data_ pg'' = data_ pg) /\
        ((forall d, OpUnpinPage page_id is_dirty <> OpUnpinPage p d) ->
           pin_count_ pg <= pin_count_ pg'')).
    { intros r'. destruct (decide (g = f)) as [-> | Hne].
      - assert (pgq = pg) by congruence. subst pgq.
        assert (page_id = p) by (by apply Hinj). subst page_id.
        apply Hown; simpl; auto. intros Hd. exfalso. apply (Hd is_dirty). congruence.
      - apply Hother; [by apply frame_at_Some in Hpgq as [? _] | done]. }
    destruct (pin_count_ pgq - 1 =? 0).
    + destruct (SetEvictable g true (replacer_ s)) as [[] r' | e r']; [|done].
      injection H as <- <-. apply Hcase.
    + injection H as <- <-. apply Hcase.
  - destruct (FlushPage page_id s) as [v s1 | e s1] eqn:H; [|done].
    injection Hex as <-. rewrite FlushPage_nf in H.
    destruct (page_table_ s !! page_id) as [g|] eqn:Hq; [|by injection H as <- <-].
    destruct (pi_table s Hinv _ g Hq) as (pgq & Hpgq & Hidq). rewrite Hpgq in H.
    injection H as <- <-. destruct (decide (g = f)) as [-> | Hne].
    + assert (pgq = pg) by congruence. subst pgq.
      apply Hown; simpl; auto; intros; lia.
    + apply Hother; [by apply frame_at_Some in Hpgq as [? _] | done].
  - unfold FlushAllPages in Hex. rewrite (mbind_Ret mget _ s s s eq_refl) in Hex.
    destruct (for_each_flush_frame _ _ _ f pg Hex Hf) as (Ht & pg' & Hpg' & Hd & Hpc & Hi).
    rewrite Ht. split; [done|]. exists pg'. split; [done|]. split; [congruence|].
    split; intros _; [done | lia].
  - destruct (DeletePage page_id s) as [v s1 | e s1] eqn:H; [|done].
    injection Hex as <-. rewrite DeletePage_nf in H.
    destruct (page_table_ s !! page_id) as [g|] eqn:Hq; [|by injection H as <- <-].
    destruct (pi_table s Hinv _ g Hq) as (pgq & Hpgq & Hidq). rewrite Hpgq in H.
    destruct (0 <? pin_count_ pgq) eqn:Hpq; [by injection H as <- <-|].
    apply Z.ltb_ge in Hpq.
    destruct (Remove g (replacer_ s)) as [[] r' | e r']; [|done].
    injection H as <- <-.
    assert (Hne : g <> f) by (intros ->; assert (pgq = pg) by congruence; subst pgq; lia).
    simpl. split.
    + rewrite lookup_delete_ne; [done|]. intros ->. congruence.
    + exists pg. split.
      * rewrite frame_at_mk_insert_ne; [done | by apply frame_at_Some in Hpgq as [? _] | done].
      * repeat split; auto; lia.
  - destruct (frame_at s frame_id) as [pgw|] eqn:Hw.
    + rewrite (on_frame_Ret _ _ _ _ Hw) in Hex. injection Hex as <-.
      destruct (decide (frame_id = f)) as [-> | Hne].
      * assert (pgw = pg) by congruence. subst pgw. unfold set_pages.
        apply Hown; simpl; auto; [|intros; lia]. intros Hb. exfalso. by apply (Hb bytes).
      * unfold set_pages. apply Hother; [by apply frame_at_Some in Hw as [? _] | done].
    + by rewrite (on_frame_Fail _ _ _ Hw) in Hex.
Qed.


Lemma pinned_page_stays_witness :
  page_table_
    (state_after
       (exec_op false OpNewPage
          (run false [OpNewPage; OpNewPage; OpUnpinPage 1 false] (init 2 2)))) !! 0
  = Some 0.
Proof.
  destruct (pinned_page_stays false 2 2 [OpNewPage; OpNewPage; OpUnpinPage 1 false]
              (run false [OpNewPage; OpNewPage; OpUnpinPage 1 false] (init 2 2))
              OpNewPage
              (state_after
                 (exec_op false OpNewPage
                    (run false [OpNewPage; OpNewPage; OpUnpinPage 1 false] (init 2 2))))
              0 0 (mkPage (repeat 0 BUSTUB_PAGE_SIZE) 0 1 false)) as [H _].
  - lia.
  - lia.
  - simpl. lia.
  - vm_compute. reflexivity.
  - reflexivity.
  - vm_compute. reflexivity.
  - vm_compute. reflexivity.
  - simpl. lia.
  - reflexivity.
  - vm_compute. reflexivity.
  - exact H.
Defined.

(** ** The shape of a reachable state *)

(** X16. The shape of every state the manager reaches from its constructor
    (pool of fewer than 2^31 frames): a page of the page table is in a frame
    of the pool that is not in the free list and carries the page's id; no
    two pages share a frame; the free list has no duplicates and only frames
    of the pool; [pages_] has exactly the frames [0 .. pool_size - 1]; no
    pin count is negative. *)
Theorem reachable_pool_structure dflt pool_size k ops s :
  pool_size < 2 ^ 31 -> s = run dflt ops (init pool_size k) ->
  (forall p f, page_table_ s !! p = Some f ->
     0 <= f < pool_size /\ (f ∉ free_list_ s) /\
     exists pg, frame_at s f = Some pg /\ page_id_ pg = p) /\
  (forall p q f, page_table_ s !! p = Some f -> page_table_ s !! q = Some f -> p = q) /\
  NoDup (free_list_ s) /\
  (forall f, f ∈ free_list_ s -> 0 <= f < pool_size) /\
  (forall f, 0 <= f < pool_size <-> is_Some (frame_at s f)) /\
  (forall f pg, frame_at s f = Some pg -> 0 <= pin_count_ pg).
Proof.
  intros Hsize ->.
  pose proof (reachable_inv dflt pool_size k ops Hsize) as Hinv.
  pose proof (reachable_range dflt pool_size k ops Hsize) as Hrange.
  pose proof (run_pool_size dflt ops (init pool_size k)) as Hps. simpl in Hps.
  set (s := run dflt ops (init pool_size k)) in *.
  assert (Hin : forall f, in_pool s f <-> 0 <= f < pool_size)
    by (intros f; unfold in_pool; by rewrite Hps).
  split; [|split; [|split; [|split; [|split]]]].
  - intros p f Hp. destruct (pi_table s Hinv p f Hp) as (pg & Hpg & Hid).
    split; [apply Hin, (pr_frames s Hrange); eauto|].
    split; [by apply (pi_free s Hinv p)|]. eauto.
  - intros p q f Hp Hq. destruct (pi_table s Hinv p f Hp) as (pg & Hpg & Hid).
    destruct (pi_table s Hinv q f Hq) as (pg' & Hpg' & Hid'). congruence.
  - apply (pi_nodup s Hinv).
  - intros f Hf. by apply Hin, (pr_free s Hrange).
  - intros f. rewrite <- Hin. apply (pr_frames s Hrange).
  - apply (pi_pin s Hinv).
Qed.

Lemma reachable_pool_structure_witness :
  NoDup (free_list_ (run false [OpNewPage; OpUnpinPage 0 false; OpDeletePage 0] (init 2 2))).
Proof.
  apply (reachable_pool_structure false 2 2
           [OpNewPage; OpUnpinPage 0 false; OpDeletePage 0]
           (run false [OpNewPage; OpUnpinPage 0 false; OpDeletePage 0] (init 2 2))).
  - lia.
  - reflexivity.
Defined.

(** X17. No call of the manager stops at an assertion or an exception of the
    replacer, or indexes [pages_] outside the pool: in every state reached
    from the constructor every call returns (a write by the client has to
    name a frame of the pool). *)
Theorem no_call_aborts dflt pool_size k ops s o :
  pool_size < 2 ^ 31 -> s = run dflt ops (init pool_size k) ->
  (forall f bytes, o = OpWrite f bytes -> 0 <= f < pool_size) ->
  exists s', exec_op dflt o s = Ret tt s'.
Proof.
  intros Hsize -> Hw.
  pose proof (run_pool_size dflt ops (init pool_size k)) as Hps. simpl in Hps.
  destruct (exec_op_returns dflt o (run dflt ops (init pool_size k))) as (s' & H & _).
  - by apply reachable_inv.
  - by apply reachable_range.
  - intros f bytes Ho. unfold in_pool. rewrite Hps. eauto.
  - eauto.
Qed.

Lemma no_call_aborts_witness :
  exists s', exec_op false (OpDeletePage 0) (run false [OpNewPage] (init 1 2)) = Ret tt s'.
Proof.
  apply (no_call_aborts false 1 2 [OpNewPage]).
  - lia.
  - reflexivity.
  - intros f bytes H. discriminate H.
Defined.

(** ** The disk *)

Lemma disk_contents_write log p d : disk_contents (log ++ [WritePage p d]) p = d.
Proof. unfold disk_contents. rewrite fold_left_app. simpl. by rewrite Z.eqb_refl. Qed.

Lemma disk_contents_write_ne log p q d :
  p <> q -> disk_contents (log ++ [WritePage p d]) q = disk_contents log q.
Proof.
  intros Hne. unfold disk_contents. rewrite fold_left_app. simpl.
  destruct (p =? q) eqn:E; [|done]. apply Z.eqb_eq in E. done.
Qed.

Lemma disk_contents_read log p q : disk_contents (log ++ [ReadPage p]) q = disk_contents log q.
Proof. unfold disk_contents. by rewrite fold_left_app. Qed.

(** X21. [FlushPage] in a state reached from the constructor: for a page that
    is not resident it returns false and changes nothing; for a resident
    page, dirty or not, pinned or not, it writes the bytes of its frame to
    the disk (one write request, after which the disk holds those bytes),
    clears the dirty flag and changes nothing else. *)
Theorem FlushPage_writes_and_cleans dflt pool_size k ops s p :
  pool_size < 2 ^ 31 -> s = run dflt ops (init pool_size k) ->
  match page_table_ s !! p with
  | None => FlushPage p s = Ret false s
  | Some f =>
      exists pg s', frame_at s f = Some pg /\ FlushPage p s = Ret true s' /\
        disk_manager_ s' = disk_manager_ s ++ [WritePage p (data_ pg)] /\
        disk_contents (disk_manager_ s') p = data_ pg /\
        frame_at s' f = Some (MarkDirty false pg) /\
        (forall g, g <> f -> frame_at s' g = frame_at s g) /\
        page_table_ s' = page_table_ s /\ free_list_ s' = free_list_ s /\
        replacer_ s' = replacer_ s /\ next_page_id_ s' = next_page_id_ s
  end.
Proof.
  intros Hsize ->. pose proof (reachable_inv dflt pool_size k ops Hsize) as Hinv.
  set (s := run dflt ops (init pool_size k)) in *.
  rewrite FlushPage_nf. destruct (page_table_ s !! p) as [f|] eqn:Hp; [|done].
  destruct (pi_table s Hinv p f Hp) as (pg & Hf & Hid). rewrite Hf.
  assert (H0 : 0 <= f) by (by apply frame_at_Some in Hf as [? _]).
  eexists pg, _. split; [done|]. split; [reflexivity|]. simpl.
  split; [done|]. split; [apply disk_contents_write|].
  split; [by eapply frame_at_mk_insert|].
  split; [|done]. intros g Hne. by rewrite frame_at_mk_insert_ne.
Qed.

Lemma FlushPage_writes_and_cleans_witness :
  exists pg s',
    frame_at (run false [OpNewPage; OpWrite 0 [1; 2; 3]] (init 1 2)) 0 = Some pg /\
    FlushPage 0 (run false [OpNewPage; OpWrite 0 [1; 2; 3]] (init 1 2)) = Ret true s' /\
    disk_contents (disk_manager_ s') 0 = data_ pg.
Proof.
  pose proof (FlushPage_writes_and_cleans false 1 2 [OpNewPage; OpWrite 0 [1; 2; 3]]
                (run false [OpNewPage; OpWrite 0 [1; 2; 3]] (init 1 2)) 0
                ltac:(lia) eq_refl) as H.
  change (page_table_ (run false [OpNewPage; OpWrite 0 [1; 2; 3]] (init 1 2)) !! 0)
    with (Some 0) in H.
  destruct H as (pg & s' & H1 & H2 & _ & H3 & _). exists pg, s'. auto.
Defined.

Lemma FetchPage_miss_state dflt s q f s' :
  page_table_ s !! q = None -> FetchPage dflt q s = Ret (Some f) s' ->
  frame_at s' f = Some (mkPage (disk_contents (disk_manager_ s') q) q 1 false) /\
  page_table_ s' !! q = Some f /\
  List.last (disk_manager_ s') (ReadPage q) = ReadPage q /\
  next_page_id_ s' = next_page_id_ s /\
  (forall n, tracked (replacer_ s') f n -> is_evictable n = false).
Proof.
  intros Hq. rewrite (FetchPage_miss_nf _ _ _ Hq).
  destruct (getNewFrame dflt q false s) as [[[g q']|] s1 | e s1] eqn:Hg; [|done|done].
  pose proof (getNewFrame_next _ _ _ _ _ _ Hg) as Hnext. simpl in Hnext.
  apply getNewFrame_Ret in Hg.
  destruct (acquire_frame s) as [[h|] s0 | e s0]; [| by destruct Hg | done].
  destruct Hg as (pg0 & r1 & r2 & Hpg0 & Hra & Hse & Hv & ->). injection Hv as <- <-.
  rewrite (frame_at_mk_insert _ _ pg0) by done.
  intros [= <- <-]. simpl.
  assert (H0 : 0 <= g) by (by apply frame_at_Some in Hpg0 as [? _]).
  split.
  { apply frame_at_Some. split; [done|]. simpl. rewrite insert_twice.
    rewrite list_lookup_insert_eq.
    - unfold SetData, fresh_frame. simpl. by rewrite disk_contents_read.
    - apply frame_at_Some in Hpg0 as [_ Hl]. by eapply lookup_lt_Some. }
  split; [apply lookup_insert_eq|]. split; [apply last_last|]. split; [done|].
  by apply SetEvictable_Ret in Hse as (_ & _ & _ & _ & Hev).
Qed.

(** X20. [FetchPage] of a page that is not resident, when it gets a frame, in
    a state reached from the constructor with K >= 2: the frame holds that
    page with the bytes the disk has for it, pin count 1 and a clean flag;
    the page table maps the page to the frame; the last disk request is the
    read of that page; no page id is allocated; the replacer tracks the
    frame as not evictable, no node of the frame in either list is
    evictable, and [Evict] does not return the frame. *)
Theorem FetchPage_miss_reads_disk dflt pool_size k ops s q f s' :
  2 <= k -> pool_size < 2 ^ 31 -> s = run dflt ops (init pool_size k) ->
  page_table_ s !! q = None -> FetchPage dflt q s = Ret (Some f) s' ->
  frame_at s' f = Some (mkPage (disk_contents (disk_manager_ s') q) q 1 false) /\
  page_table_ s' !! q = Some f /\
  List.last (disk_manager_ s') (ReadPage q) = ReadPage q /\
  next_page_id_ s' = next_page_id_ s /\
  (exists n, tracked (replacer_ s') f n /\ is_evictable n = false) /\
  (forall n, listed (replacer_ s') f n -> is_evictable n = false) /\
  (forall g r', Evict (replacer_ s') = Ret (Some g) r' -> g <> f).
Proof.
  intros Hk Hsize -> Hq Hret.
  pose proof (reachable_inv dflt pool_size k ops Hsize) as Hinv.
  pose proof (reachable_pin_inv dflt pool_size k ops Hsize) as Hpn.
  pose proof (reachable_k dflt pool_size k ops) as Hks.
  set (s := run dflt ops (init pool_size k)) in *.
  destruct (FetchPage_miss_state dflt s q f s' Hq Hret) as (Hfr & Htab & Hlast & Hnext & Hev).
  pose proof (pin_inv_FetchPage dflt q s _ s' Hinv Hpn Hret) as Hpn'.
  assert (Hk' : k_ (replacer_ s') = k).
  { pose proof (exec_op_replacer (fun r => k_ r = k)
                  (fun d g r r' H HP => eq_trans (RecordAccess_Ret_k d g r r' H) HP)
                  (fun g b r r' H HP => eq_trans (SetEvictable_Ret_k g b r r' H) HP)
                  (fun v r r' H HP => eq_trans (replacer_op_k dflt OpEvict r v r' H) HP)
                  (fun g r r' H HP => eq_trans (Remove_Ret_k g r r' H) HP)
                  dflt (OpFetchPage q) s Hks) as HP.
    simpl in HP. unfold mbind in HP. by rewrite Hret in HP. }
  assert (Hl' : lists_inv (replacer_ s')) by (apply (pn_repl s' Hpn'); lia).
  repeat (split; [done|]).
  split.
  - destruct (pn_tracked s' Hpn' q f Htab) as [n Hn]. exists n. split; [done | by apply Hev].
  - by apply pinned_not_evicted.
Qed.

Lemma FetchPage_miss_reads_disk_witness :
  frame_at
    (state_after
       (FetchPage false 0
          (run false [OpNewPage; OpWrite 0 [1; 2; 3]; OpUnpinPage 0 true; OpNewPage;
                      OpUnpinPage 1 false] (init 1 2)))) 0
  = Some (mkPage [1; 2; 3] 0 1 false) /\
  (forall g r',
     Evict (replacer_
              (state_after
                 (FetchPage false 0
                    (run false [OpNewPage; OpWrite 0 [1; 2; 3]; OpUnpinPage 0 true;
                                OpNewPage; OpUnpinPage 1 false] (init 1 2)))))
     = Ret (Some g) r' -> g <> 0).
Proof.
  destruct (FetchPage_miss_reads_disk false 1 2
              [OpNewPage; OpWrite 0 [1; 2; 3]; OpUnpinPage 0 true; OpNewPage;
               OpUnpinPage 1 false]
              (run false [OpNewPage; OpWrite 0 [1; 2; 3]; OpUnpinPage 0 true; OpNewPage;
                          OpUnpinPage 1 false] (init 1 2))
              0 0
              (state_after
                 (FetchPage false 0
                    (run false [OpNewPage; OpWrite 0 [1; 2; 3]; OpUnpinPage 0 true;
                                OpNewPage; OpUnpinPage 1 false] (init 1 2)))))
    as (H & _ & _ & _ & _ & _ & Hev).
  - lia.
  - lia.
  - reflexivity.
  - vm_compute. reflexivity.
  - vm_compute. reflexivity.
  - split; [|exact Hev]. rewrite H. vm_compute. reflexivity.
Defined.

(** ** [FlushAllPages] *)

Lemma for_each_flush_spec l s s' :
  NoDup l.*1 ->
  (forall p f, (p, f) ∈ l -> exists pg, frame_at s f = Some pg /\ page_id_ pg = p) ->
  for_each flush_entry l s = Ret tt s' ->
  (forall p f pg, (p, f) ∈ l -> frame_at s f = Some pg ->
     frame_at s' f = Some (MarkDirty false pg) /\
     disk_contents (disk_manager_ s') p = data_ pg) /\
  (forall p, p ∉ l.*1 ->
     disk_contents (disk_manager_ s') p = disk_contents (disk_manager_ s) p) /\
  (forall f pg, frame_at s f = Some pg -> (forall p, (p, f) ∉ l) ->
     frame_at s' f = Some pg) /\
  page_table_ s' = page_table_ s /\ free_list_ s' = free_list_ s /\
  replacer_ s' = replacer_ s /\ next_page_id_ s' = next_page_id_ s.
Proof.
  revert s. induction l as [|[p0 f0] l IH]; intros s Hnd Hl; simpl.
  - intros [= <-]. split; [|done]. intros p f pg Hin. by apply elem_of_nil in Hin.
  - unfold mbind. rewrite flush_entry_nf. simpl.
    destruct (Hl p0 f0 ltac:(left)) as (pg0 & Hpg0 & Hid0). rewrite Hpg0.
    assert (H0 : 0 <= f0) by (by apply frame_at_Some in Hpg0 as [? _]).
    rewrite fmap_cons in Hnd. apply NoDup_cons in Hnd as [Hp0 Hnd]. simpl in Hp0.
    set (s1 := mkBPM _ _ _ _ _ _ _).
    assert (Hne : forall p f, (p, f) ∈ l -> f <> f0).
    { intros p f Hin ->. destruct (Hl p f0 ltac:(by right)) as (pg & Hpg & Hid).
      apply Hp0. apply list_elem_of_fmap. exists (p, f0). split; [|done].
      simpl. congruence. }
    intros H. apply IH in H as (IH1 & IH2 & IH3 & IH4); [|done|].
    2:{ intros p f Hin. destruct (Hl p f ltac:(by right)) as (pg & Hpg & Hid).
        exists pg. split; [|done]. unfold s1. rewrite frame_at_mk_insert_ne; [done|done|].
        intros Heq. by apply (Hne p f Hin). }
    assert (Hown : forall p, (p, f0) ∉ l).
    { intros p Hin. by apply (Hne p f0 Hin). }
    split; [|split; [|split]].
    + intros p f pg Hin Hpg. apply elem_of_cons in Hin as [[= -> ->] | Hin].
      * assert (pg = pg0) by congruence. subst pg. split.
        -- apply IH3; [|done]. unfold s1. by eapply frame_at_mk_insert.
        -- rewrite IH2 by done. unfold s1. simpl. apply disk_contents_write.
      * apply IH1; [done|]. unfold s1. rewrite frame_at_mk_insert_ne; [done|done|].
        intros Heq. by apply (Hne p f Hin).
    + intros p Hp. apply not_elem_of_cons in Hp as [Hpne Hp]. simpl in Hpne.
      rewrite IH2 by done. unfold s1. simpl. apply disk_contents_write_ne. by intros ->.
    + intros f pg Hpg Hno. apply IH3.
      * unfold s1. rewrite frame_at_mk_insert_ne; [done|done|].
        intros <-. apply (Hno p0). left.
      * intros p Hin. apply (Hno p). by right.
    + done.
Qed.

Lemma FlushAllPages_spec s :
  pool_inv s -> pool_range s ->
  exists s', FlushAllPages s = Ret tt s' /\
    (forall p f pg, page_table_ s !! p = Some f -> frame_at s f = Some pg ->
       frame_at s' f = Some (MarkDirty false pg) /\
       disk_contents (disk_manager_ s') p = data_ pg) /\
    (forall p, page_table_ s !! p = None ->
       disk_contents (disk_manager_ s') p = disk_contents (disk_manager_ s) p) /\
    (forall f pg, frame_at s f = Some pg -> (forall p, page_table_ s !! p <> Some f) ->
       frame_at s' f = Some pg) /\
    page_table_ s' = page_table_ s /\ free_list_ s' = free_list_ s /\
    replacer_ s' = replacer_ s /\ next_page_id_ s' = next_page_id_ s.
Proof.
  intros Hinv Hrange.
  destruct (exec_op_returns false OpFlushAllPages s Hinv Hrange) as (s' & Hs' & _); [done|].
  exists s'. split; [done|]. simpl in Hs'. unfold FlushAllPages in Hs'.
  rewrite (mbind_Ret mget _ s s s eq_refl) in Hs'.
  apply for_each_flush_spec in Hs' as (H1 & H2 & H3 & H4).
  - split; [|split; [|split; [|done]]].
    + intros p f pg Hp Hpg. apply H1; [|done]. by apply elem_of_map_to_list.
    + intros p Hp. apply H2. intros Hin. apply list_elem_of_fmap in Hin as ([p' f] & -> & Hin).
      apply elem_of_map_to_list in Hin. simpl in Hp. congruence.
    + intros f pg Hpg Hno. apply H3; [done|]. intros p Hin.
      apply elem_of_map_to_list in Hin. by apply (Hno p).
  - apply NoDup_fst_map_to_list.
  - intros p f Hin. apply elem_of_map_to_list in Hin. by apply (pi_table s Hinv).
Qed.

(** X22. [FlushAllPages] in a state reached from the constructor: it returns;
    afterwards the disk holds, for every resident page, the bytes of its
    frame, and the frame is clean; the disk contents of the other pages, the
    frames that hold no resident page, the page table, the free list, the
    replacer and [next_page_id_] are what they were. *)
Theorem FlushAllPages_flushes_every_page dflt pool_size k ops s :
  pool_size < 2 ^ 31 -> s = run dflt ops (init pool_size k) ->
  exists s', FlushAllPages s = Ret tt s' /\
    (forall p f pg, page_table_ s !! p = Some f -> frame_at s f = Some pg ->
       frame_at s' f = Some (MarkDirty false pg) /\
       disk_contents (disk_manager_ s') p = data_ pg) /\
    (forall p, page_table_ s !! p = None ->
       disk_contents (disk_manager_ s') p = disk_contents (disk_manager_ s) p) /\
    (forall f pg, frame_at s f = Some pg -> (forall p, page_table_ s !! p <> Some f) ->
       frame_at s' f = Some pg) /\
    page_table_ s' = page_table_ s /\ free_list_ s' = free_list_ s /\
    replacer_ s' = replacer_ s /\ next_page_id_ s' = next_page_id_ s.
Proof.
  intros Hsize ->.
  apply FlushAllPages_spec; [by apply reachable_inv | by apply reachable_range].
Qed.

Lemma FlushAllPages_flushes_every_page_witness :
  exists s',
    FlushAllPages (run false [OpNewPage; OpWrite 0 [1; 2; 3]] (init 1 2)) = Ret tt s' /\
    disk_contents (disk_manager_ s') 0 = [1; 2; 3].
Proof.
  destruct (FlushAllPages_flushes_every_page false 1 2 [OpNewPage; OpWrite 0 [1; 2; 3]]
              (run false [OpNewPage; OpWrite 0 [1; 2; 3]] (init 1 2)) ltac:(lia) eq_refl)
    as (s' & H1 & H2 & _).
  exists s'. split; [exact H1|].
  destruct (H2 0 0 (mkPage [1; 2; 3] 0 1 false)) as [_ H3].
  - reflexivity.
  - vm_compute. reflexivity.
  - exact H3.
Defined.

(** ** [NewPage] with a free frame, [FetchPage] of a resident page *)

Lemma NewPage_free_frame_state dflt pool_size k ops s f rest :
  pool_size < 2 ^ 31 -> s = run dflt ops (init pool_size k) ->
  free_list_ s = f :: rest ->
  exists r1 r2,
    RecordAccess dflt f (replacer_ s) = Ret tt r1 /\
    SetEvictable f false r1 = Ret tt r2 /\
    (forall n, tracked r2 f n -> is_evictable n = false) /\
    NewPage dflt s
    = Ret (Some (f, next_page_id_ s))
        (mkBPM (pool_size_ s)
           (<[Z.to_nat f := fresh_frame (next_page_id_ s)]> (pages_ s))
           r2 rest (<[next_page_id_ s := f]> (page_table_ s))
           (to_page_id_t (next_page_id_ s + 1)) (disk_manager_ s)).
Proof.
  intros Hsize -> Hfl.
  destruct (reachable_NewPage_returns dflt pool_size k ops Hsize) as (v & s' & Hret).
  set (s := run dflt ops (init pool_size k)) in *.
  rewrite Hret. apply getNewFrame_Ret in Hret.
  destruct (acquire_frame s) as [[g|] s1 | e s1] eqn:Hacq; [| |done];
    apply acquire_frame_Ret in Hacq; rewrite Hfl in Hacq.
  - destruct Hacq as [Hg ->]. injection Hg as <-.
    destruct Hret as (pg1 & r1 & r2 & Hf1 & Hra & Hse & -> & ->). simpl in *.
    exists r1, r2. split; [done|]. split; [done|]. split; [|done].
    by apply SetEvictable_Ret in Hse as (_ & _ & _ & _ & Hev).
  - by destruct Hacq.
Qed.

(** X18. [NewPage] with a frame in the free list, in a state reached from the
    constructor with K >= 2: it takes the head [f] of the list, returns [f]
    and the next page id, maps that id to [f], leaves in the frame a zeroed,
    clean page of that id with pin count 1, records an access of [f] and
    makes [f] non-evictable in the replacer (the replacer tracks [f] as not
    evictable, no node of [f] in either list is evictable, and [Evict] does
    not return [f]), advances [next_page_id_], and touches neither the disk
    nor any other frame. *)
Theorem NewPage_takes_free_frame dflt pool_size k ops s f rest :
  2 <= k -> pool_size < 2 ^ 31 -> s = run dflt ops (init pool_size k) ->
  free_list_ s = f :: rest ->
  exists r1 r2,
    RecordAccess dflt f (replacer_ s) = Ret tt r1 /\
    SetEvictable f false r1 = Ret tt r2 /\
    (exists n, tracked r2 f n /\ is_evictable n = false) /\
    (forall n, listed r2 f n -> is_evictable n = false) /\
    (forall g r', Evict r2 = Ret (Some g) r' -> g <> f) /\
    NewPage dflt s
    = Ret (Some (f, next_page_id_ s))
        (mkBPM (pool_size_ s)
           (<[Z.to_nat f := fresh_frame (next_page_id_ s)]> (pages_ s))
           r2 rest (<[next_page_id_ s := f]> (page_table_ s))
           (to_page_id_t (next_page_id_ s + 1)) (disk_manager_ s)).
Proof.
  intros Hk Hsize -> Hfl.
  pose proof (reachable_inv dflt pool_size k ops Hsize) as Hinv.
  pose proof (reachable_pin_inv dflt pool_size k ops Hsize) as Hpn.
  pose proof (reachable_k dflt pool_size k ops) as Hks.
  destruct (NewPage_free_frame_state dflt pool_size k ops _ f rest Hsize eq_refl Hfl)
    as (r1 & r2 & Hra & Hse & Hev & Hnew).
  set (s := run dflt ops (init pool_size k)) in *.
  exists r1, r2. split; [done|]. split; [done|].
  pose proof (RecordAccess_Ret_inv _ _ _ _ Hra (pn_repl s Hpn)) as Hinv1.
  pose proof (SetEvictable_Ret_inv _ _ _ _ Hse Hinv1) as Hinv2.
  assert (Hl2 : lists_inv r2).
  { apply Hinv2. rewrite (SetEvictable_Ret_k _ _ _ _ Hse), (RecordAccess_Ret_k _ _ _ _ Hra). lia. }
  destruct (pinned_not_evicted r2 f Hl2 Hev) as [Hli Hne].
  split; [|by split].
  destruct (RecordAccess_keeps _ _ _ _ Hra (pi_store s Hinv)) as ([n1 Hn1] & _ & _).
  apply RecordAccess_Ret in Hra as (_ & _ & Hst1 & _).
  destruct (SetEvictable_keeps _ _ _ _ Hse (Hst1 (pi_store s Hinv))) as (Hsame & _).
  destruct (Hsame n1 Hn1) as [n2 Hn2]. exists n2. split; [done | by apply Hev].
Qed.

Lemma NewPage_takes_free_frame_witness :
  exists r1 r2,
    RecordAccess false 0 (replacer_ (init 2 2)) = Ret tt r1 /\
    SetEvictable 0 false r1 = Ret tt r2 /\
    (forall g r', Evict r2 = Ret (Some g) r' -> g <> 0) /\
    NewPage false (init 2 2)
    = Ret (Some (0, 0))
        (mkBPM 2 (<[0%nat := fresh_frame 0]> (pages_ (init 2 2))) r2 [1] {[0 := 0]}
           (to_page_id_t 1) []).
Proof.
  destruct (NewPage_takes_free_frame false 2 2 [] (init 2 2) 0 [1]
              ltac:(lia) ltac:(lia) eq_refl eq_refl)
    as (r1 & r2 & H1 & H2 & _ & _ & H3 & H4).
  exists r1, r2. split; [exact H1|]. split; [exact H2|]. split; [exact H3 | exact H4].
Defined.

Lemma FetchPage_hit_state dflt pool_size k ops s p f :
  pool_size < 2 ^ 31 -> s = run dflt ops (init pool_size k) ->
  page_table_ s !! p = Some f ->
  exists pg r1 r2,
    frame_at s f = Some pg /\
    SetEvictable f false (replacer_ s) = Ret tt r1 /\
    RecordAccess dflt f r1 = Ret tt r2 /\
    (exists n, tracked r2 f n /\ is_evictable n = false) /\
    FetchPage dflt p s
    = Ret (Some f)
        (mkBPM (pool_size_ s) (<[Z.to_nat f := Pin pg]> (pages_ s)) r2
           (free_list_ s) (page_table_ s) (next_page_id_ s) (disk_manager_ s)).
Proof.
  intros Hsize -> Hp.
  pose proof (reachable_inv dflt pool_size k ops Hsize) as Hinv.
  pose proof (reachable_pin_inv dflt pool_size k ops Hsize) as Hpn.
  destruct (reachable_FetchPage_returns dflt pool_size k ops p Hsize) as (v & s' & Hret).
  set (s := run dflt ops (init pool_size k)) in *.
  rewrite Hret. rewrite (FetchPage_hit_nf _ _ _ _ Hp) in Hret.
  destruct (pi_table s Hinv p f Hp) as (pg & Hf & Hid). rewrite Hf in Hret. cbv zeta in Hret.
  destruct (SetEvictable f false (replacer_ s)) as [[] r1 | e r1] eqn:Hse; [|done].
  destruct (RecordAccess dflt f r1) as [[] r2 | e r2] eqn:Hra; [|done].
  injection Hret as <- <-. exists pg, r1, r2.
  split; [done|]. split; [done|]. split; [done|]. split; [|done].
  pose proof (pi_store s Hinv) as Hst.
  destruct (pn_tracked s Hpn p f Hp) as [n0 Hn0].
  destruct (SetEvictable_keeps _ _ _ _ Hse Hst) as (Hsame1 & _).
  destruct (Hsame1 n0 Hn0) as [n1 Hn1].
  apply SetEvictable_Ret in Hse as (_ & _ & Hst1 & _ & Hev1).
  destruct (RecordAccess_keeps _ _ _ _ Hra (Hst1 Hst)) as ([n2 Hn2] & Hflag & _).
  exists n2. split; [done|]. rewrite (Hflag n1 n2 Hn1 Hn2). eauto.
Qed.

(** X19. [FetchPage] of a resident page, in a state reached from the
    constructor with K >= 2: it returns the frame of the page with the pin
    count one higher, makes the frame non-evictable (the replacer tracks it
    as not evictable, no node of it in either list is evictable, and [Evict]
    does not return it) and records an access; data, dirty flag, page table,
    free list and disk are what they were (no disk read). *)
Theorem FetchPage_hit_pins dflt pool_size k ops s p f :
  2 <= k -> pool_size < 2 ^ 31 -> s = run dflt ops (init pool_size k) ->
  page_table_ s !! p = Some f ->
  exists pg r1 r2,
    frame_at s f = Some pg /\
    SetEvictable f false (replacer_ s) = Ret tt r1 /\
    RecordAccess dflt f r1 = Ret tt r2 /\
    (exists n, tracked r2 f n /\ is_evictable n = false) /\
    (forall n, listed r2 f n -> is_evictable n = false) /\
    (forall g r', Evict r2 = Ret (Some g) r' -> g <> f) /\
    FetchPage dflt p s
    = Ret (Some f)
        (mkBPM (pool_size_ s) (<[Z.to_nat f := Pin pg]> (pages_ s)) r2
           (free_list_ s) (page_table_ s) (next_page_id_ s) (disk_manager_ s)).
Proof.
  intros Hk Hsize -> Hp.
  pose proof (reachable_pin_inv dflt pool_size k ops Hsize) as Hpn.
  pose proof (reachable_k dflt pool_size k ops) as Hks.
  destruct (FetchPage_hit_state dflt pool_size k ops _ p f Hsize eq_refl Hp)
    as (pg & r1 & r2 & Hf & Hse & Hra & (n & Hn & Hev) & Hfetch).
  set (s := run dflt ops (init pool_size k)) in *.
  exists pg, r1, r2. split; [done|]. split; [done|]. split; [done|].
  split; [by exists n|].
  pose proof (SetEvictable_Ret_inv _ _ _ _ Hse (pn_repl s Hpn)) as Hinv1.
  pose proof (RecordAccess_Ret_inv _ _ _ _ Hra Hinv1) as Hinv2.
  assert (Hl2 : lists_inv r2).
  { apply Hinv2. rewrite (RecordAccess_Ret_k _ _ _ _ Hra), (SetEvictable_Ret_k _ _ _ _ Hse). lia. }
  destruct (pinned_not_evicted r2 f Hl2) as [Hli Hne].
  - intros m Hm. by rewrite (tracked_fun _ _ _ _ Hm Hn).
  - by split.
Qed.

Lemma FetchPage_hit_pins_witness :
  exists pg r1 r2,
    frame_at (run false [OpNewPage] (init 1 2)) 0 = Some pg /\
    SetEvictable 0 false (replacer_ (run false [OpNewPage] (init 1 2))) = Ret tt r1 /\
    RecordAccess false 0 r1 = Ret tt r2 /\
    (forall g r', Evict r2 = Ret (Some g) r' -> g <> 0) /\
    FetchPage false 0 (run false [OpNewPage] (init 1 2))
    = Ret (Some 0)
        (mkBPM 1 (<[0%nat := Pin pg]> (pages_ (run false [OpNewPage] (init 1 2)))) r2
           [] {[0 := 0]} 1 []).
Proof.
  destruct (FetchPage_hit_pins false 1 2 [OpNewPage] (run false [OpNewPage] (init 1 2)) 0 0
              ltac:(lia) ltac:(lia) eq_refl eq_refl)
    as (pg & r1 & r2 & H1 & H2 & H3 & _ & _ & H4 & H5).
  exists pg, r1, r2. split; [exact H1|]. split; [exact H2|]. split; [exact H3|].
  split; [exact H4 | exact H5].
Defined.

(** ** What [DeletePage] does *)

(** X23. [DeletePage] in a state reached from the constructor with K >= 2:
    for a page that is not resident it returns true and changes nothing; for
    a pinned page it returns false and changes nothing; for a resident page
    with pin count 0, dirty or not, it returns true, the page leaves the
    page table, its frame is reset and appended to the free list, the one
    request the disk manager receives is the deallocation of the page (the
    bytes are not written), and the frame has left the replacer:
    [node_store_] does not map it, neither list points to a node of it, and
    [Evict] cannot return it. *)
Theorem DeletePage_leaves_pinned dflt pool_size k ops s p :
  2 <= k -> pool_size < 2 ^ 31 -> s = run dflt ops (init pool_size k) ->
  match page_table_ s !! p with
  | None => DeletePage p s = Ret true s
  | Some f =>
      exists pg, frame_at s f = Some pg /\
        (0 < pin_count_ pg -> DeletePage p s = Ret false s) /\
        (pin_count_ pg = 0 ->
           exists r',
             Remove f (replacer_ s) = Ret tt r' /\
             (forall n, ~ tracked r' f n) /\
             (forall n, ~ listed r' f n) /\
             (forall g r'', Evict r' = Ret (Some g) r'' -> g <> f) /\
             DeletePage p s
             = Ret true
                 (mkBPM (pool_size_ s) (<[Z.to_nat f := new_page]> (pages_ s)) r'
                    (free_list_ s ++ [f]) (delete p (page_table_ s)) (next_page_id_ s)
                    (disk_manager_ s ++ [DeallocatePage p])))
  end.
Proof.
  intros Hk Hsize ->. pose proof (reachable_inv dflt pool_size k ops Hsize) as Hinv.
  pose proof (reachable_pin_inv dflt pool_size k ops Hsize) as Hpn.
  pose proof (reachable_k dflt pool_size k ops) as Hks.
  set (s := run dflt ops (init pool_size k)) in *.
  rewrite DeletePage_nf. destruct (page_table_ s !! p) as [f|] eqn:Hp; [|done].
  destruct (pi_table s Hinv p f Hp) as (pg & Hf & Hid). exists pg. split; [done|].
  rewrite Hf. split.
  - intros Hpin. apply Z.ltb_lt in Hpin. by rewrite Hpin.
  - intros Hpin. rewrite Hpin. simpl.
    destruct (Remove_returns f (replacer_ s)) as [r' Hrm].
    + by eapply pi_ok.
    + intros n Htr. by eapply (pi_unpinned s Hinv p f pg).
    + rewrite Hrm. exists r'. split; [done|].
      pose proof (Remove_Ret_inv _ _ _ Hrm (pn_repl s Hpn)) as Hinv1.
      assert (Hl1 : lists_inv r').
      { apply Hinv1. rewrite (Remove_Ret_k _ _ _ Hrm). lia. }
      assert (Hun : forall n, ~ tracked r' f n).
      { apply Remove_Ret in Hrm as (_ & _ & _ & Hnone).
        intros n (q & Hq & _). rewrite (Hnone (pi_store s Hinv)) in Hq. done. }
      assert (Hnl : forall n, ~ listed r' f n) by by apply untracked_not_listed.
      split; [exact Hun|]. split; [exact Hnl|]. split; [|reflexivity].
      apply unlisted_not_evicted. intros n Hn. by destruct (Hnl n).
Qed.

Lemma DeletePage_leaves_pinned_witness :
  exists r',
    (forall n, ~ listed r' 0 n) /\
    (forall g r'', Evict r' = Ret (Some g) r'' -> g <> 0) /\
    DeletePage 0 (run false [OpNewPage; OpWrite 0 [1; 2; 3]; OpUnpinPage 0 true] (init 1 2))
    = Ret true (mkBPM 1 [new_page] r' [0] ∅ 1 [DeallocatePage 0]).
Proof.
  pose proof (DeletePage_leaves_pinned false 1 2
                [OpNewPage; OpWrite 0 [1; 2; 3]; OpUnpinPage 0 true]
                (run false [OpNewPage; OpWrite 0 [1; 2; 3]; OpUnpinPage 0 true] (init 1 2))
                0 ltac:(lia) ltac:(lia) eq_refl) as H.
  change (page_table_
            (run false [OpNewPage; OpWrite 0 [1; 2; 3]; OpUnpinPage 0 true] (init 1 2)) !! 0)
    with (Some 0) in H.
  destruct H as (pg & Hpg & _ & H).
  assert (Hpin : pin_count_ pg = 0).
  { assert (Heq : Some pg = Some (mkPage [1; 2; 3] 0 0 true))
      by (rewrite <- Hpg; vm_compute; reflexivity).
    by injection Heq as ->. }
  destruct (H Hpin) as (r' & _ & _ & Hnl & Hev & Hdel).
  exists r'. split; [exact Hnl|]. split; [exact Hev | exact Hdel].
Defined.

(** ** Bytes that are safe stay safe *)

Lemma disk_contents_dealloc log p q :
  disk_contents (log ++ [DeallocatePage p]) q = disk_contents log q.
Proof. unfold disk_contents. by rewrite fold_left_app. Qed.

Lemma getNewFrame_durable dflt pid (is_new : bool) s v s' p d :
  pool_inv s -> frames_inv s -> durable s p d ->
  (if is_new then next_page_id_ s else pid) <> p ->
  getNewFrame dflt pid is_new s = Ret v s' -> durable s' p d.
Proof.
  intros Hinv Hfi Hd Hpid Hret. apply getNewFrame_Ret in Hret.
  destruct (acquire_frame s) as [[g|] s1 | e s1] eqn:Hacq; [| |done];
    apply acquire_frame_Ret in Hacq.
  2:{ destruct Hret as [_ ->].
      destruct (free_list_ s); [|by destruct Hacq].
      destruct (Evict (replacer_ s)) as [[h|] r0 | e r0]; [|by destruct Hacq as [_ ->] |done].
      by destruct Hacq as (? & _ & ? & _). }
  destruct Hret as (pg1 & r1 & r2 & Hf1 & Hra & Hse & -> & ->).
  assert (H0 : 0 <= g) by (by apply frame_at_Some in Hf1 as [? _]).
  assert (Hs1 : durable s1 p d /\ next_page_id_ s1 = next_page_id_ s /\
                forall f, page_table_ s1 !! p = Some f -> f <> g).
  { destruct (free_list_ s) as [|f0 rest] eqn:Hfl.
    - destruct (Evict (replacer_ s)) as [[h|] r0 | e r0] eqn:Hev;
        [| by destruct Hacq | done].
      destruct Hacq as (pgv & Hpgv & Hh & ->). injection Hh as <-.
      assert (Hres : page_table_ s !! page_id_ pgv = Some g).
      { destruct (fi_frames s Hfi g pgv Hpgv) as [[Hin _] | Hres]; [|done].
        rewrite Hfl in Hin. by apply elem_of_nil in Hin. }
      split; [|split; [done|]].
      + unfold durable in *. simpl.
        destruct (decide (page_id_ pgv = p)) as [Heq | Hne].
        * rewrite Heq in *. rewrite lookup_delete_eq. rewrite Hres in Hd.
          destruct Hd as (pg & Hpg & Hdata & Hsafe).
          assert (pg = pgv) by (unfold frame_at in *; congruence). subst pg.
          destruct (is_dirty_ pgv).
          -- rewrite <- Hdata. apply disk_contents_write.
          -- by destruct Hsafe.
        * rewrite lookup_delete_ne by done.
          assert (Hdisk : disk_contents
                            (if is_dirty_ pgv
                             then disk_manager_ s ++ [WritePage (page_id_ pgv) (data_ pgv)]
                             else disk_manager_ s) p
                          = disk_contents (disk_manager_ s) p).
          { destruct (is_dirty_ pgv); [by apply disk_contents_write_ne | done]. }
          rewrite Hdisk. exact Hd.
      + simpl. intros f Hf ->. apply lookup_delete_Some in Hf as [Hne Hf].
        destruct (pi_table s Hinv p g Hf) as (x & Hx & Hxid). congruence.
    - destruct Hacq as [Hg ->]. injection Hg as <-. split; [done|]. split; [done|].
      simpl. intros f Hf ->. apply (pi_free s Hinv p g Hf). rewrite Hfl. left. }
  destruct Hs1 as (Hd1 & Hnext & Hng).
  assert (Hpid' : (if is_new then next_page_id_ s1 else pid) <> p) by (by rewrite Hnext).
  unfold durable in *. simpl. rewrite lookup_insert_ne by done.
  destruct (page_table_ s1 !! p) as [f|] eqn:Hp; [|done].
  destruct Hd1 as (pg & Hpg & Hdata & Hsafe). exists pg. split; [|done].
  rewrite frame_at_mk_insert_ne; [done | done |]. intros Heq.
  by apply (Hng f eq_refl).
Qed.

Lemma durable_touch s f pg pg' r' nx d p bytes :
  durable s p bytes -> frame_at s f = Some pg ->
  (page_table_ s !! p = Some f ->
     data_ pg' = data_ pg /\ (is_dirty_ pg = true -> is_dirty_ pg' = true)) ->
  disk_contents d p = disk_contents (disk_manager_ s) p ->
  durable (mkBPM (pool_size_ s) (<[Z.to_nat f := pg']> (pages_ s)) r'
             (free_list_ s) (page_table_ s) nx d) p bytes.
Proof.
  intros Hd Hf Hown Hdisk. unfold durable in *. simpl.
  assert (H0 : 0 <= f) by (by apply frame_at_Some in Hf as [? _]).
  destruct (page_table_ s !! p) as [g|] eqn:Hp; [|congruence].
  destruct Hd as (x & Hx & Hdata & Hsafe).
  destruct (decide (g = f)) as [-> | Hne].
  - assert (x = pg) by congruence. subst x. destruct (Hown eq_refl) as [H1 H2].
    exists pg'. split; [by eapply frame_at_mk_insert|]. split; [congruence|].
    destruct Hsafe as [Hs | Hs]; [left; auto | right; congruence].
  - exists x. split; [by rewrite frame_at_mk_insert_ne|]. split; [done|].
    destruct Hsafe as [Hs | Hs]; [by left | right; congruence].
Qed.

(** X27. No call loses the bytes of a page, as long as the client fetches only
    page ids [NewPage] has handed out and writes only into frames it has
    pinned, and has made fewer than 2^31 calls. Call the bytes [d] of an
    allocated page safe when the page is resident with [d] in its frame and
    the frame is dirty or the disk holds [d], or the page is not resident
    and the disk holds [d]. In a state reached by such a client, safe bytes
    stay safe over every further call of such a client that returns, other
    than a write into the frame of the page and [DeletePage] of the page.
    (A client that fetches a page id before [NewPage] has handed it out can
    lose the bytes of that page.) *)
Theorem safe_bytes_stay_safe dflt pool_size k ops s o s' p d :
  pool_size < 2 ^ 31 -> Z.of_nat (length ops) < 2 ^ 31 ->
  legal dflt ops (init pool_size k) = true ->
  s = run dflt ops (init pool_size k) ->
  0 <= p < next_page_id_ s -> durable s p d ->
  op_legal o s = true ->
  (forall f bytes, o = OpWrite f bytes -> page_table_ s !! p <> Some f) ->
  o <> OpDeletePage p ->
  exec_op dflt o s = Ret tt s' ->
  durable s' p d.
Proof.
  intros Hsize Hlen Hlegal -> Hp Hd Hol Hw Hdel Hex.
  pose proof (reachable_inv dflt pool_size k ops Hsize) as Hinv.
  pose proof (reachable_frames_inv dflt pool_size k ops Hsize Hlen Hlegal) as Hfi.
  set (s := run dflt ops (init pool_size k)) in *.
  destruct o; simpl in Hex; unfold mbind in Hex.
  - destruct (NewPage dflt s) as [v s1 | e s1] eqn:H; [|done]. injection Hex as <-.
    eapply (getNewFrame_durable dflt INVALID_PAGE_ID true); eauto. simpl. lia.
  - destruct (FetchPage dflt page_id s) as [v s1 | e s1] eqn:H; [|done].
    injection Hex as <-.
    destruct (page_table_ s !! page_id) as [g|] eqn:Hq.
    + rewrite (FetchPage_hit_nf _ _ _ _ Hq) in H.
      destruct (pi_table s Hinv _ g Hq) as (pgq & Hpgq & Hidq). rewrite Hpgq in H.
      cbv zeta in H.
      destruct (SetEvictable g false (replacer_ s)) as [[] r1 | e r1]; [|done].
      destruct (RecordAccess dflt g r1) as [[] r2 | e r2]; [|done].
      injection H as <- <-. eapply durable_touch; eauto.
    + rewrite (FetchPage_miss_nf _ _ _ Hq) in H.
      destruct (getNewFrame dflt page_id false s) as [[[g q]|] s2 | e s2] eqn:Hg;
        [| |done].
      * pose proof (pool_inv_getNewFrame _ _ _ _ _ _ Hinv Hg) as Hinv2.
        destruct (frame_at s2 g) as [pgg|] eqn:Hpgg; [|done]. injection H as <- <-.
        assert (Hg2 : page_table_ s2 !! page_id = Some g /\ pgg = fresh_frame page_id).
        { apply getNewFrame_Ret in Hg.
          destruct (acquire_frame s) as [[h|] s0 | e s0]; [| by destruct Hg | done].
          destruct Hg as (pg0 & r1 & r2 & Hpg0 & _ & _ & Hv & ->).
          injection Hv as <- _. rewrite (frame_at_mk_insert _ _ pg0) in Hpgg by done.
          injection Hpgg as <-. simpl. split; [apply lookup_insert_eq | done]. }
        destruct Hg2 as [Hq2 ->].
        destruct (decide (page_id = p)) as [-> | Hne].
        -- (* the page itself comes back from the disk *)
           assert (Hdisk : disk_contents (disk_manager_ s2) p = d).
           { unfold durable in Hd. rewrite Hq in Hd.
             apply getNewFrame_Ret in Hg.
             destruct (acquire_frame s) as [[h|] s0 | e s0] eqn:Hacq;
               [| by destruct Hg | done].
             destruct Hg as (pg0 & r1 & r2 & Hpg0 & _ & _ & Hv & ->). simpl.
             apply acquire_frame_Ret in Hacq.
             destruct (free_list_ s) as [|f0 rest] eqn:Hfl.
             - destruct (Evict (replacer_ s)) as [[h'|] r0 | e r0];
                 [| by destruct Hacq | done].
               destruct Hacq as (pgv & Hpgv & Hh & ->). simpl.
               destruct (is_dirty_ pgv); [|done].
               rewrite disk_contents_write_ne; [done|]. intros Heq.
               destruct (fi_frames s Hfi h' pgv Hpgv) as [[Hin _] | Hres].
               + rewrite Hfl in Hin. by apply elem_of_nil in Hin.
               + congruence.
             - by destruct Hacq as [_ ->]. }
           unfold durable. simpl. rewrite Hq2. eexists.
           split; [by eapply frame_at_mk_insert|]. simpl.
           split; [done|]. right. by rewrite disk_contents_read.
        -- pose proof (getNewFrame_durable dflt page_id false s _ _ p d Hinv Hfi Hd
                         Hne Hg) as Hd2.
           eapply durable_touch; eauto.
           ++ intros Hp2. destruct (pi_table s2 Hinv2 p g Hp2) as (x & Hx & Hxid).
              assert (x = fresh_frame page_id) by congruence. subst x. simpl in Hxid. done.
           ++ apply disk_contents_read.
      * injection H as <- <-.
        destruct (decide (page_id = p)) as [-> | Hne].
        -- (* nothing changes when no frame is to be had *)
           apply getNewFrame_Ret in Hg.
           destruct (acquire_frame s) as [[h|] s0 | e s0] eqn:Hacq; [| |done].
           { by destruct Hg as (? & ? & ? & _ & _ & _ & ? & _). }
           destruct Hg as [_ ->]. apply acquire_frame_Ret in Hacq.
           destruct (free_list_ s); [|by destruct Hacq].
           destruct (Evict (replacer_ s)) as [[h|] r0 | e r0];
             [by destruct Hacq as (? & _ & ? & _) | | done].
           by destruct Hacq as [_ ->].
        -- eapply (getNewFrame_durable dflt page_id false); eauto.
  - destruct (UnpinPage page_id is_dirty s) as [v s1 | e s1] eqn:H; [|done].
    injection Hex as <-. rewrite UnpinPage_nf in H.
    destruct (page_table_ s !! page_id) as [g|] eqn:Hq; [|by injection H as <- <-].
    destruct (pi_table s Hinv _ g Hq) as (pgq & Hpgq & Hidq). rewrite Hpgq in H.
    destruct (pin_count_ pgq =? 0); [by injection H as <- <-|]. cbv zeta in H.
    destruct (pin_count_ pgq - 1 =? 0).
    + destruct (SetEvictable g true (replacer_ s)) as [[] r' | e r']; [|done].
      injection H as <- <-. eapply durable_touch; eauto. intros _. simpl.
      split; [done|]. intros ->. apply orb_true_r.
    + injection H as <- <-. eapply durable_touch; eauto. intros _. simpl.
      split; [done|]. intros ->. apply orb_true_r.
  - destruct (FlushPage page_id s) as [v s1 | e s1] eqn:H; [|done].
    injection Hex as <-. rewrite FlushPage_nf in H.
    destruct (page_table_ s !! page_id) as [g|] eqn:Hq; [|by injection H as <- <-].
    destruct (pi_table s Hinv _ g Hq) as (pgq & Hpgq & Hidq). rewrite Hpgq in H.
    injection H as <- <-.
    assert (H0 : 0 <= g) by (by apply frame_at_Some in Hpgq as [? _]).
    destruct (decide (page_id = p)) as [-> | Hne].
    + unfold durable in *. simpl. rewrite Hq in *.
      destruct Hd as (x & Hx & Hdata & _). assert (x = pgq) by congruence. subst x.
      eexists. split; [by eapply frame_at_mk_insert|]. simpl. split; [done|].
      right. rewrite <- Hdata. apply disk_contents_write.
    + eapply durable_touch; eauto.
      * intros Hp2. destruct (pi_table s Hinv p g Hp2) as (x & Hx & Hxid). congruence.
      * by apply disk_contents_write_ne.
  - destruct (FlushAllPages_spec s Hinv (reachable_range dflt pool_size k ops Hsize))
      as (s1 & Hs1 & H1 & H2 & _ & Ht & _).
    rewrite Hs1 in Hex. injection Hex as <-.
    unfold durable in *. rewrite Ht.
    destruct (page_table_ s !! p) as [f|] eqn:Hpf.
    + destruct Hd as (pg & Hpg & Hdata & _). destruct (H1 p f pg Hpf Hpg) as [H3 H4].
      exists (MarkDirty false pg). split; [done|]. split; [done|]. right. congruence.
    + by rewrite H2.
  - destruct (DeletePage page_id s) as [v s1 | e s1] eqn:H; [|done].
    injection Hex as <-. rewrite DeletePage_nf in H.
    destruct (page_table_ s !! page_id) as [g|] eqn:Hq; [|by injection H as <- <-].
    destruct (pi_table s Hinv _ g Hq) as (pgq & Hpgq & Hidq). rewrite Hpgq in H.
    destruct (0 <? pin_count_ pgq); [by injection H as <- <-|].
    destruct (Remove g (replacer_ s)) as [[] r' | e r']; [|done].
    injection H as <- <-.
    assert (Hne : page_id <> p) by congruence.
    assert (H0 : 0 <= g) by (by apply frame_at_Some in Hpgq as [? _]).
    unfold durable in *. simpl. rewrite lookup_delete_ne by done.
    rewrite disk_contents_dealloc.
    destruct (page_table_ s !! p) as [f|] eqn:Hpf; [|done].
    destruct Hd as (pg & Hpg & Hdata & Hsafe). exists pg. split; [|done].
    rewrite frame_at_mk_insert_ne; [done | done |]. intros ->.
    destruct (pi_table s Hinv p f Hpf) as (x & Hx & Hxid). congruence.
  - destruct (frame_at s frame_id) as [pgw|] eqn:Hfw.
    + rewrite (on_frame_Ret _ _ _ _ Hfw) in Hex. injection Hex as <-.
      unfold set_pages. eapply durable_touch; eauto.
      intros Hp2. by destruct (Hw frame_id bytes eq_refl).
    + by rewrite (on_frame_Fail _ _ _ Hfw) in Hex.
Qed.


Lemma safe_bytes_stay_safe_witness :
  durable
    (state_after
       (exec_op false OpNewPage
          (run false [OpNewPage; OpWrite 0 [1; 2; 3]; OpUnpinPage 0 true] (init 1 2))))
    0 [1; 2; 3].
Proof.
  apply (safe_bytes_stay_safe false 1 2 [OpNewPage; OpWrite 0 [1; 2; 3]; OpUnpinPage 0 true]
           (run false [OpNewPage; OpWrite 0 [1; 2; 3]; OpUnpinPage 0 true] (init 1 2))
           OpNewPage).
  - lia.
  - simpl. lia.
  - vm_compute. reflexivity.
  - reflexivity.
  - vm_compute. split; [discriminate | reflexivity].
  - unfold durable. vm_compute. eexists. split; [reflexivity|].
    split; [reflexivity | left; reflexivity].
  - reflexivity.
  - intros f bytes H. discriminate H.
  - discriminate.
  - vm_compute. reflexivity.
Defined.

(** With K = 1 the replacer leaves a stale pointer behind, and [Evict] can
    hand out the frame of a pinned page: here page 2 is pinned in frame 0,
    and [NewPage] takes frame 0 all the same. *)
Lemma k1_pinned_page_evicted :
  page_table_
    (run false [OpNewPage; OpFetchPage 0; OpUnpinPage 0 false; OpUnpinPage 0 false;
                OpNewPage; OpNewPage] (init 2 1)) !! 2 = Some 0 /\
  pin_count_ <$>
    frame_at
      (run false [OpNewPage; OpFetchPage 0; OpUnpinPage 0 false; OpUnpinPage 0 false;
                  OpNewPage; OpNewPage] (init 2 1)) 0 = Some 1 /\
  exists s',
    NewPage false
      (run false [OpNewPage; OpFetchPage 0; OpUnpinPage 0 false; OpUnpinPage 0 false;
                  OpNewPage; OpNewPage] (init 2 1))
    = Ret (Some (0, 3)) s' /\ page_table_ s' !! 2 = None.
Proof.
  split; [vm_compute; reflexivity|]. split; [vm_compute; reflexivity|].
  eexists. split; vm_compute; reflexivity.
Qed.

End PoolFacts.
